(** * The iOS resource gatherer ([iphone/cli/lib/gather.js])

    A shallow embedding of the [Result] and [Walker] classes and of the
    library functions they call, with the properties of the walker's
    specification stated and proved over it.

    Conventions of the embedding.
    - A JavaScript string is a [string]: a sequence of code units, taken
      here in the one-byte range.  Of the four line terminators that the
      regular expression atom [.] refuses, the two of that range (LF, CR)
      are modelled.
    - A JavaScript [Map] keyed by strings is a [gmap string _], a [Set] of
      strings a [gset string]: the buckets are used as mappings and the
      insertion order is not observed.
    - [undefined] and [null] are [None].
    - A promise that has settled is an [outcome].  The asynchronous
      functions of the walker are given twice: as the traversal in listing
      order ([walk]), and on the event loop ([Async.walk]), where the
      order in which the operations on the file system answer is a
      parameter. *)

From Stdlib Require Import Ascii String.
From stdpp Require Import gmap strings list fin_maps.

Local Open Scope char_scope.

(** ** Regular expressions

    The fragment of ECMAScript regular expressions that the source uses:
    literals, [.], classes, groups, alternation, the greedy quantifiers
    [*], [+] and [?], and the assertions [^] and [$]; no flags. *)
Module RegExp.

Inductive citem : Type :=
| CChar (c : ascii)
| CRange (lo hi : ascii)
| CWord
| CDigit.

Inductive regex : Type :=
| Eps
| Chr (c : ascii)
| Dot
| Class (neg : bool) (items : list citem)
| Seq (r1 r2 : regex)
| Alt (r1 r2 : regex)
| Star (r : regex)
| Plus (r : regex)
| Opt (r : regex)
| Group (n : nat) (r : regex)
| Bol
| Eol.

(** *** Characters *)

Definition code (c : ascii) : nat := nat_of_ascii c.

Definition in_range (lo hi c : ascii) : bool :=
  Nat.leb (code lo) (code c) && Nat.leb (code c) (code hi).

Definition is_digit (c : ascii) : bool := in_range "0" "9" c.

(** [\w] is [[A-Za-z0-9_]]. *)
Definition is_word (c : ascii) : bool :=
  in_range "a" "z" c || in_range "A" "Z" c || is_digit c || Ascii.eqb c "_".

(** LineTerminator, in the one-byte range: LF and CR. *)
Definition is_line_terminator (c : ascii) : bool :=
  Ascii.eqb c "010" || Ascii.eqb c "013".

Definition citem_matches (c : ascii) (i : citem) : bool :=
  match i with
  | CChar d => Ascii.eqb c d
  | CRange lo hi => in_range lo hi c
  | CWord => is_word c
  | CDigit => is_digit c
  end.

Definition class_matches (neg : bool) (items : list citem) (c : ascii) : bool :=
  xorb neg (existsb (citem_matches c) items).

(** *** Captures *)

(** The captures of a match in progress: the latest binding of a group
    comes first; [None] is a group reset to [undefined]. *)
Definition caps : Type := list (nat * option string).

Fixpoint cap_lookup (n : nat) (c : caps) : option string :=
  match c with
  | [] => None
  | (i, v) :: c' => if Nat.eqb i n then v else cap_lookup n c'
  end.

Fixpoint groups_of (r : regex) : list nat :=
  match r with
  | Seq r1 r2 | Alt r1 r2 => groups_of r1 ++ groups_of r2
  | Star r' | Plus r' | Opt r' => groups_of r'
  | Group n r' => n :: groups_of r'
  | _ => []
  end.

(** Entering a quantified atom again resets the groups inside it. *)
Definition clear_groups (r : regex) (c : caps) : caps :=
  match groups_of r with
  | [] => c
  | gs => map (fun n => (n, None)) gs ++ c
  end.

Fixpoint str_take (n : nat) (s : string) : string :=
  match n, s with
  | S n', String a s' => String a (str_take n' s')
  | _, _ => EmptyString
  end.

(** The text consumed between the suffix [s] and its suffix [s']. *)
Definition consumed (s s' : string) : string :=
  str_take (String.length s - String.length s') s.

(** *** The backtracking matcher

    [m inp r s c k] matches [r] at the suffix [s] of the input [inp], with
    the captures [c], and hands the rest of the input to the continuation
    [k]; alternatives are tried in the order of the ECMAScript semantics
    (left alternative first, longest repetition first). *)

Definition cont : Type := string -> caps -> option caps.

(** The iterations of a quantified atom after the compulsory ones
    (RepeatMatcher with [min = 0]): [step] matches the atom, [clear]
    resets its groups; an iteration that consumes nothing is refused; the
    longest repetition is tried first.  [fuel] bounds the number of
    iterations by the length of the input left. *)
Fixpoint repeat_loop (step : string -> caps -> cont -> option caps)
    (clear : caps -> caps) (k : cont) (fuel : nat) (s : string) (c : caps)
    {struct fuel} : option caps :=
  match fuel with
  | O => k s c
  | S fuel' =>
      match step s (clear c)
              (fun s' c' =>
                 if Nat.ltb (String.length s') (String.length s)
                 then repeat_loop step clear k fuel' s' c' else None) with
      | Some x => Some x
      | None => k s c
      end
  end.

Fixpoint m (inp : string) (r : regex) : string -> caps -> cont -> option caps :=
  match r with
  | Eps => fun s c k => k s c
  | Chr a => fun s c k =>
      match s with
      | String b s' => if Ascii.eqb b a then k s' c else None
      | EmptyString => None
      end
  | Dot => fun s c k =>
      match s with
      | String b s' => if is_line_terminator b then None else k s' c
      | EmptyString => None
      end
  | Class neg items => fun s c k =>
      match s with
      | String b s' => if class_matches neg items b then k s' c else None
      | EmptyString => None
      end
  | Seq r1 r2 => fun s c k => m inp r1 s c (fun s' c' => m inp r2 s' c' k)
  | Alt r1 r2 => fun s c k =>
      match m inp r1 s c k with
      | Some x => Some x
      | None => m inp r2 s c k
      end
  | Star r' => fun s c k =>
      repeat_loop (m inp r') (clear_groups r') k (String.length s) s c
  | Plus r' => fun s c k =>
      m inp r' s (clear_groups r' c)
        (fun s1 c1 =>
           repeat_loop (m inp r') (clear_groups r') k (String.length s1) s1 c1)
  | Opt r' => fun s c k =>
      match m inp r' s (clear_groups r' c)
              (fun s' c' =>
                 if Nat.ltb (String.length s') (String.length s) then k s' c' else None) with
      | Some x => Some x
      | None => k s c
      end
  | Group n r' => fun s c k =>
      m inp r' s c (fun s' c' => k s' ((n, Some (consumed s s')) :: c'))
  | Bol => fun s c k =>
      if Nat.eqb (String.length s) (String.length inp) then k s c else None
  | Eol => fun s c k =>
      match s with
      | EmptyString => k s c
      | String _ _ => None
      end
  end.

(** The first start position, from the left, at which the pattern matches;
    group 0 is the matched text. *)
Fixpoint search (r : regex) (inp s : string) : option caps :=
  match m inp r s [] (fun s' c' => Some ((0, Some (consumed s s')) :: c')) with
  | Some c => Some c
  | None =>
      match s with
      | EmptyString => None
      | String _ s' => search r inp s'
      end
  end.

Definition ngroups (r : regex) : nat := foldr Nat.max 0 (groups_of r).

(** [RegExp.prototype.exec] on a pattern without the [g] and [y] flags:
    the array of the matched text and of the captures, or [null]. *)
Definition exec (r : regex) (s : string) : option (list (option string)) :=
  match search r s s with
  | Some c => Some (map (fun n => cap_lookup n c) (seq 0 (S (ngroups r))))
  | None => None
  end.

(** [RegExp.prototype.test]. *)
Definition test (r : regex) (s : string) : bool :=
  match exec r s with Some _ => true | None => false end.

(** *** Compiling a pattern

    [parse] reads the source text of a pattern from left to right, with
    the stack of the groups that are open.  [None] stands for a
    [SyntaxError] and for the syntax outside the fragment above (lazy
    quantifiers, braces, look-around, back-references, other escapes). *)

Record frame : Type := Frame {
  f_group : option nat;    (* the index of a capturing group *)
  f_alts : list regex;     (* the alternatives read so far, latest first *)
  f_seq : list regex       (* the terms of the alternative being read, latest first *)
}.

Fixpoint seq_of (l : list regex) : regex :=
  match l with
  | [] => Eps
  | [a] => a
  | a :: l' => Seq a (seq_of l')
  end.

Fixpoint alt_of (l : list regex) : regex :=
  match l with
  | [] => Eps
  | [a] => a
  | a :: l' => Alt a (alt_of l')
  end.

Definition close_frame (f : frame) : regex :=
  let body := alt_of (rev (seq_of (rev (f_seq f)) :: f_alts f)) in
  match f_group f with
  | Some n => Group n body
  | None => body
  end.

Definition push (a : regex) (f : frame) : frame :=
  Frame (f_group f) (f_alts f) (a :: f_seq f).

Definition quantify (q : regex -> regex) (f : frame) : option frame :=
  match f_seq f with
  | a :: l => Some (Frame (f_group f) (f_alts f) (q a :: l))
  | [] => None
  end.

(** SyntaxCharacter of the grammar. *)
Definition is_syntax_char (c : ascii) : bool :=
  existsb (Ascii.eqb c)
    ["^"; "$"; "\"; "."; "*"; "+"; "?"; "("; ")"; "["; "]"; "{"; "}"; "|"].

(** The escapes [\w] and [\d], and the identity escape of a character
    that is not a letter, a digit or [_]. *)
Definition escape_item (e : ascii) : option citem :=
  if Ascii.eqb e "w" then Some CWord
  else if Ascii.eqb e "d" then Some CDigit
  else if is_word e then None
  else Some (CChar e).

Definition atom_of_item (i : citem) : regex :=
  match i with
  | CChar c => Chr c
  | i => Class false [i]
  end.

(** [q] tells whether a quantifier may follow; [cls] holds the items of
    the class being read, when inside brackets.  In a class, a character,
    written as it is or escaped, opens a range when [-] and a bound
    follow; next to the escape of a class ([\w], [\d]) the [-] stands for
    itself. *)
Fixpoint parse (s : string) (stk : list frame) (cur : frame) (ng : nat)
    (q : bool) (cls : option (bool * list citem)) {struct s} : option regex :=
  match s with
  | EmptyString =>
      match stk, cls with
      | [], None => Some (close_frame cur)
      | _, _ => None
      end
  | String c rest =>
      match cls with
      | Some (neg, items) =>
          if Ascii.eqb c "]" then
            parse rest stk (push (Class neg (rev items)) cur) ng true None
          else if Ascii.eqb c "\" then
            match rest with
            | String e rest' =>
                match escape_item e with
                | Some (CChar lo) =>
                    (* an escaped character, which can open a range *)
                    match rest' with
                    | String d (String hi rest'') =>
                        if Ascii.eqb d "-" && negb (Ascii.eqb hi "]") then
                          if Ascii.eqb hi "\" then
                            match rest'' with
                            | String e' rest3 =>
                                match escape_item e' with
                                | Some (CChar h) =>
                                    if Nat.leb (code lo) (code h)
                                    then parse rest3 stk cur ng q
                                           (Some (neg, CRange lo h :: items))
                                    else None
                                | Some i =>
                                    parse rest3 stk cur ng q
                                      (Some (neg, i :: CChar "-" :: CChar lo :: items))
                                | None => None
                                end
                            | EmptyString => None
                            end
                          else if Nat.leb (code lo) (code hi)
                          then parse rest'' stk cur ng q (Some (neg, CRange lo hi :: items))
                          else None
                        else parse rest' stk cur ng q (Some (neg, CChar lo :: items))
                    | _ => parse rest' stk cur ng q (Some (neg, CChar lo :: items))
                    end
                | Some i => parse rest' stk cur ng q (Some (neg, i :: items))
                | None => None
                end
            | EmptyString => None
            end
          else
            match rest with
            | String d (String hi rest') =>
                if Ascii.eqb d "-" && negb (Ascii.eqb hi "]") then
                  if Ascii.eqb hi "\" then
                    match rest' with
                    | String e' rest3 =>
                        match escape_item e' with
                        | Some (CChar h) =>
                            if Nat.leb (code c) (code h)
                            then parse rest3 stk cur ng q (Some (neg, CRange c h :: items))
                            else None
                        | Some i =>
                            parse rest3 stk cur ng q
                              (Some (neg, i :: CChar "-" :: CChar c :: items))
                        | None => None
                        end
                    | EmptyString => None
                    end
                  else if Nat.leb (code c) (code hi)
                  then parse rest' stk cur ng q (Some (neg, CRange c hi :: items))
                  else None
                else parse rest stk cur ng q (Some (neg, CChar c :: items))
            | _ => parse rest stk cur ng q (Some (neg, CChar c :: items))
            end
      | None =>
          if Ascii.eqb c "\" then
            match rest with
            | String e rest' =>
                match escape_item e with
                | Some i => parse rest' stk (push (atom_of_item i) cur) ng true None
                | None => None
                end
            | EmptyString => None
            end
          else if Ascii.eqb c "(" then
            match rest with
            | String q1 rest1 =>
                if Ascii.eqb q1 "?" then
                  match rest1 with
                  | String q2 rest2 =>
                      if Ascii.eqb q2 ":"
                      then parse rest2 (cur :: stk) (Frame None [] []) ng false None
                      else None
                  | EmptyString => None
                  end
                else parse rest (cur :: stk) (Frame (Some (S ng)) [] []) (S ng) false None
            | EmptyString => None
            end
          else if Ascii.eqb c ")" then
            match stk with
            | up :: stk' => parse rest stk' (push (close_frame cur) up) ng true None
            | [] => None
            end
          else if Ascii.eqb c "|" then
            parse rest stk
              (Frame (f_group cur) (seq_of (rev (f_seq cur)) :: f_alts cur) [])
              ng false None
          else if Ascii.eqb c "*" then
            if q then
              match quantify Star cur with
              | Some cur' => parse rest stk cur' ng false None
              | None => None
              end
            else None
          else if Ascii.eqb c "+" then
            if q then
              match quantify Plus cur with
              | Some cur' => parse rest stk cur' ng false None
              | None => None
              end
            else None
          else if Ascii.eqb c "?" then
            if q then
              match quantify Opt cur with
              | Some cur' => parse rest stk cur' ng false None
              | None => None
              end
            else None
          else if Ascii.eqb c "[" then
            match rest with
            | String n rest' =>
                if Ascii.eqb n "^" then parse rest' stk cur ng q (Some (true, []))
                else parse rest stk cur ng q (Some (false, []))
            | EmptyString => None
            end
          else if Ascii.eqb c "^" then parse rest stk (push Bol cur) ng false None
          else if Ascii.eqb c "$" then parse rest stk (push Eol cur) ng false None
          else if Ascii.eqb c "." then parse rest stk (push Dot cur) ng true None
          else if is_syntax_char c then None
          else parse rest stk (push (Chr c) cur) ng true None
      end
  end.

(** [new RegExp(source)]. *)
Definition compile (source : string) : option regex :=
  parse source [] (Frame None [] []) 0 false None.

(** A regular expression literal of the source, by its text. *)
Definition literal (source : string) : regex :=
  match compile source with
  | Some r => r
  | None => Class false []
  end.

End RegExp.

Import RegExp.

(** ** Strings and paths: the library functions the walker calls *)

Fixpoint str_drop (n : nat) (s : string) : string :=
  match n, s with
  | S n', String _ s' => str_drop n' s'
  | _, _ => s
  end.

(** [String.prototype.indexOf]: the first position of [pat] in [s],
    counted from [i]. *)
Fixpoint indexOf_from (pat s : string) (i : nat) : option nat :=
  if String.prefix pat s then Some i
  else match s with
       | EmptyString => None
       | String _ s' => indexOf_from pat s' (S i)
       end.

Definition indexOf (pat s : string) : option nat := indexOf_from pat s 0.

(** GetSubstitution, for a search by string (no captures): the patterns
    [$$], [$&], [$`] and [$'] of the replacement text are expanded. *)
Fixpoint GetSubstitution (matched before after template : string) : string :=
  match template with
  | EmptyString => EmptyString
  | String c t =>
      if Ascii.eqb c "$" then
        match t with
        | String d t' =>
            if Ascii.eqb d "$" then String "$" (GetSubstitution matched before after t')
            else if Ascii.eqb d "&" then matched +:+ GetSubstitution matched before after t'
            else if Ascii.eqb d "`" then before +:+ GetSubstitution matched before after t'
            else if Ascii.eqb d "'" then after +:+ GetSubstitution matched before after t'
            else String "$" (GetSubstitution matched before after t)
        | EmptyString => String "$" EmptyString
        end
      else String c (GetSubstitution matched before after t)
  end.

(** [String.prototype.replace(searchString, replaceValue)] with two
    strings: the first occurrence is replaced. *)
Definition String_replace (str searchString replaceValue : string) : string :=
  match indexOf searchString str with
  | None => str
  | Some pos =>
      let preceding := str_take pos str in
      let following := str_drop (pos + String.length searchString) str in
      preceding +:+ GetSubstitution searchString preceding following replaceValue
        +:+ following
  end.

(** [s.replace(/\./g, '\\.')]: every dot gets a backslash before it. *)
Fixpoint escape_dots (s : string) : string :=
  match s with
  | EmptyString => EmptyString
  | String c s' =>
      if Ascii.eqb c "." then String "\" (String "." (escape_dots s'))
      else String c (escape_dots s')
  end.

(** [String.prototype.split('/')]. *)
Fixpoint split_slash (s : string) : list string :=
  match s with
  | EmptyString => [EmptyString]
  | String c s' =>
      if Ascii.eqb c "/" then EmptyString :: split_slash s'
      else match split_slash s' with
           | h :: t => String c h :: t
           | [] => [String c EmptyString]
           end
  end.

(** [Array.prototype.join('/')]. *)
Fixpoint join_slash (l : list string) : string :=
  match l with
  | [] => EmptyString
  | [a] => a
  | a :: l' => a +:+ String "/" (join_slash l')
  end.

(** [normalizeString] of Node's [path] module (POSIX): empty and [.]
    segments are dropped, a [..] segment removes the segment before it,
    or is kept when there is none to remove and the path is relative.
    [acc] holds the segments kept so far, latest first. *)
Definition normalize_step (allowAboveRoot : bool) (acc : list string) (seg : string)
    : list string :=
  if String.eqb seg "" || String.eqb seg "." then acc
  else if String.eqb seg ".." then
    match acc with
    | last :: acc' =>
        if String.eqb last ".." then seg :: acc else acc'
    | [] => if allowAboveRoot then [seg] else []
    end
  else seg :: acc.

Definition normalizeString (path : string) (allowAboveRoot : bool) : string :=
  join_slash (rev (fold_left (normalize_step allowAboveRoot) (split_slash path) [])).

Fixpoint ends_with_slash (s : string) : bool :=
  match s with
  | EmptyString => false
  | String c EmptyString => Ascii.eqb c "/"
  | String _ s' => ends_with_slash s'
  end.

(** [path.normalize] (POSIX). *)
Definition path_normalize (path : string) : string :=
  match path with
  | EmptyString => "."
  | String c _ =>
      let isAbsolute := Ascii.eqb c "/" in
      let trailingSeparator := ends_with_slash path in
      let p := normalizeString path (negb isAbsolute) in
      if String.eqb p "" then
        if isAbsolute then "/" else if trailingSeparator then "./" else "."
      else
        let p := if trailingSeparator then p +:+ "/" else p in
        if isAbsolute then String "/" p else p
  end.

(** [path.join(a, b)] (POSIX): the non-empty arguments joined by a slash,
    then normalized. *)
Definition path_join (a b : string) : string :=
  match a, b with
  | EmptyString, EmptyString => "."
  | EmptyString, _ => path_normalize b
  | _, EmptyString => path_normalize a
  | _, _ => path_normalize (a +:+ String "/" b)
  end.

(** Truthiness of an optional string argument: [undefined], [null] and
    the empty string are falsy. *)
Definition truthy (s : option string) : bool :=
  match s with
  | Some s => negb (String.eqb s "")
  | None => false
  end.

(** [a || b] for an optional string [a] and a string [b]. *)
Definition or_else (a : option string) (b : string) : string :=
  match a with
  | Some s => if String.eqb s "" then b else s
  | None => b
  end.

Local Close Scope char_scope.

(** ** The patterns of the source *)

Definition FILENAME_REGEXP : regex := literal "^(.*)\.(\w+)$".
Definition LAUNCH_IMAGE_REGEXP : regex :=
  literal "^(Default(-(Landscape|Portrait))?(-[0-9]+h)?(@[2-9]x)?)\.png$".
Definition LAUNCH_LOGO_REGEXP : regex :=
  literal "^LaunchLogo(?:@([23])x)?(?:~(iphone|ipad))?\.(?:png|jpg)$".
Definition BUNDLE_FILE_REGEXP : regex := literal ".+\.bundle\/.+".

(** [a[i]] on the array of a match: [undefined] out of range. *)
Definition at_index (a : list (option string)) (i : nat) : option string :=
  nth i a None.

(** [pattern && pattern.test(s)] for an optional pattern. *)
Definition opt_test (pattern : option regex) (s : string) : bool :=
  match pattern with
  | Some r => test r s
  | None => false
  end.

(** ** Result *)

(** The [info] object of a classified file.  [info_name] and [info_ext]
    hold an element of a match array or a string; [tag], [scale] and
    [device] are properties added by some rules only: [None] when the
    property is absent, [Some v] when it was assigned the element [v]. *)
Record FileInfo : Type := mkInfo {
  info_name : option string;
  info_ext : option string;
  info_src : string;
  info_dest : string;
  info_tag : option (option string);
  info_scale : option (option string);
  info_device : option (option string)
}.

Record Result : Type := mkResult {
  appIcons : gmap string FileInfo;
  cssFiles : gmap string FileInfo;
  jsFiles : gmap string FileInfo;
  launchImages : gmap string FileInfo;
  launchLogos : gmap string FileInfo;
  imageAssets : gmap string FileInfo;
  resourcesToCopy : gmap string FileInfo;
  htmlJsFiles : gset string
}.

(** [new Result()]. *)
Definition Result_new : Result := mkResult ∅ ∅ ∅ ∅ ∅ ∅ ∅ ∅.

(** The names of the seven map fields, as in [mapFields] of [merge]. *)
Inductive mapField : Type :=
| F_appIcons | F_cssFiles | F_jsFiles | F_launchImages | F_launchLogos
| F_imageAssets | F_resourcesToCopy.

Definition mapFields : list mapField :=
  [F_appIcons; F_cssFiles; F_jsFiles; F_launchImages; F_launchLogos;
   F_imageAssets; F_resourcesToCopy].

(** [aResult[key]]. *)
Definition field (key : mapField) (r : Result) : gmap string FileInfo :=
  match key with
  | F_appIcons => appIcons r
  | F_cssFiles => cssFiles r
  | F_jsFiles => jsFiles r
  | F_launchImages => launchImages r
  | F_launchLogos => launchLogos r
  | F_imageAssets => imageAssets r
  | F_resourcesToCopy => resourcesToCopy r
  end.

(** [aResult[key] = v]. *)
Definition set_field (key : mapField) (v : gmap string FileInfo) (r : Result) : Result :=
  match key with
  | F_appIcons =>
      mkResult v (cssFiles r) (jsFiles r) (launchImages r) (launchLogos r)
        (imageAssets r) (resourcesToCopy r) (htmlJsFiles r)
  | F_cssFiles =>
      mkResult (appIcons r) v (jsFiles r) (launchImages r) (launchLogos r)
        (imageAssets r) (resourcesToCopy r) (htmlJsFiles r)
  | F_jsFiles =>
      mkResult (appIcons r) (cssFiles r) v (launchImages r) (launchLogos r)
        (imageAssets r) (resourcesToCopy r) (htmlJsFiles r)
  | F_launchImages =>
      mkResult (appIcons r) (cssFiles r) (jsFiles r) v (launchLogos r)
        (imageAssets r) (resourcesToCopy r) (htmlJsFiles r)
  | F_launchLogos =>
      mkResult (appIcons r) (cssFiles r) (jsFiles r) (launchImages r) v
        (imageAssets r) (resourcesToCopy r) (htmlJsFiles r)
  | F_imageAssets =>
      mkResult (appIcons r) (cssFiles r) (jsFiles r) (launchImages r)
        (launchLogos r) v (resourcesToCopy r) (htmlJsFiles r)
  | F_resourcesToCopy =>
      mkResult (appIcons r) (cssFiles r) (jsFiles r) (launchImages r)
        (launchLogos r) (imageAssets r) v (htmlJsFiles r)
  end.

Definition set_htmlJsFiles (v : gset string) (r : Result) : Result :=
  mkResult (appIcons r) (cssFiles r) (jsFiles r) (launchImages r)
    (launchLogos r) (imageAssets r) (resourcesToCopy r) v.

(** [results.<key>.set(relPath, info)]. *)
Definition Map_set (key : mapField) (relPath : string) (info : FileInfo)
    (results : Result) : Result :=
  set_field key (<[relPath := info]> (field key results)) results.

(** One turn of the loop of [dontProcessJsFilesReferencedFromHTML]. *)
Definition dontProcess_step (this : Result) (file : string) : Result :=
  match jsFiles this !! file with
  | Some info =>
      set_field F_jsFiles (delete file (jsFiles this))
        (set_field F_resourcesToCopy (<[file := info]> (resourcesToCopy this)) this)
  | None => this
  end.

(** [dontProcessJsFilesReferencedFromHTML]: the loop over the elements of
    [htmlJsFiles], which the body does not change. *)
Definition dontProcessJsFilesReferencedFromHTML (this : Result) : Result :=
  fold_left dontProcess_step (elements (htmlJsFiles this)) this.

(** [new Map([...combined, ...list])]: the entries are set from left to
    right, so that a later entry replaces an earlier one with its key. *)
Definition Map_of_entries (entries : list (string * FileInfo)) : gmap string FileInfo :=
  fold_left (fun acc kv => <[kv.1 := kv.2]> acc) entries ∅.

Definition Map_spread (combined list : gmap string FileInfo) : gmap string FileInfo :=
  Map_of_entries (map_to_list combined ++ map_to_list list).

(** [new Set([...combined, ...list])]. *)
Definition Set_spread (combined list : gset string) : gset string :=
  fold_left (fun acc x => {[x]} ∪ acc) (elements combined ++ elements list) ∅.

(** The body of the loop of [merge] over [mapFields], for one key. *)
Definition merge_field (results : list Result) (key : mapField) (merged : Result)
    : Result :=
  let maps := filter (fun m => size m ≠ 0) (map (field key) results) in
  if decide (length maps ≠ 0)
  then set_field key (fold_left Map_spread maps (field key merged)) merged
  else merged.

(** [Result.merge]. *)
Definition merge (results : list Result) : Result :=
  let merged := fold_left (fun acc key => merge_field results key acc) mapFields Result_new in
  let sets := filter (fun s => size s ≠ 0) (map htmlJsFiles results) in
  if decide (length sets ≠ 0)
  then set_htmlJsFiles (fold_left Set_spread sets (htmlJsFiles merged)) merged
  else merged.

(** ** The file system, as the walker sees it

    What [fs.readdir] and [fs.stat] answer along the paths of one walk: a
    directory entry is a file, a directory or a symbolic link; the listing
    of a directory and the status of a link are operations that can fail.
    Paths have a bounded length, so the tree below a root is finite. *)

Inductive outcome (A : Type) : Type :=
| Resolved (a : A)
| Rejected (e : string).
Arguments Resolved {A} a.
Arguments Rejected {A} e.

(** The [fs.Stats] of the target of a link, with the listing that
    [fs.readdir] gives when the walk goes through it. *)
Inductive Stats (D : Type) : Type :=
| Stats_file
| Stats_dir (readdir : outcome (list D)).
Arguments Stats_file {D}.
Arguments Stats_dir {D} readdir.

#[warnings="-register-all"]
Inductive Dirent : Type :=
| Dirent_file (name : string)
| Dirent_dir (name : string) (readdir : outcome (list Dirent))
| Dirent_link (name : string) (stat : outcome (Stats Dirent)).

Definition dirent_name (d : Dirent) : string :=
  match d with
  | Dirent_file name | Dirent_dir name _ | Dirent_link name _ => name
  end.

(** ** Walker *)

Record Walker : Type := mkWalker {
  useAppThinning : bool;
  ignoreDirs : option regex;
  ignoreFiles : option regex;
  appIconRegExp : option regex
}.

(** The constructor.  [None] when [new RegExp] does not give a pattern of
    the fragment modelled (see [RegExp.parse]): the text is outside the
    fragment, or [new RegExp] throws a [SyntaxError]; the two are not told
    apart, and nothing below is stated of a walker that is not built. *)
Definition Walker_new (tiappIcon : string) (useAppThinning : bool)
    (ignoreDirs ignoreFiles : option regex) : option Walker :=
  match exec FILENAME_REGEXP tiappIcon with
  | None => Some (mkWalker useAppThinning ignoreDirs ignoreFiles None)
  | Some appIcon =>
      match at_index appIcon 1 with
      | Some base =>
          match compile ("^" +:+ escape_dots base +:+ "(.*)\.png$") with
          | Some r => Some (mkWalker useAppThinning ignoreDirs ignoreFiles (Some r))
          | None => None
          end
      | None => None
      end
  end.

Section Walk.

(** [jsanalyze.analyzeHtmlFile(file, relativeDir)]: the scripts that a
    markup file refers to; a collaborator outside this module. *)
Variable analyzeHtmlFile : string -> string -> list string.

(** The rule shared by [case 'png'] (when it falls through) and
    [case 'jpg']. *)
Definition png_jpg_rule (this : Walker) (results : Result) (name relPath : string)
    (info : FileInfo) : Result :=
  match exec LAUNCH_LOGO_REGEXP name with
  | Some m =>
      let info := mkInfo (info_name info) (info_ext info) (info_src info)
                    (info_dest info) (info_tag info)
                    (Some (at_index m 1)) (Some (at_index m 2)) in
      Map_set F_launchLogos relPath info results
  | None =>
      if useAppThinning this && negb (test BUNDLE_FILE_REGEXP relPath)
      then Map_set F_imageAssets relPath info results
      else Map_set F_resourcesToCopy relPath info results
  end.

(** The [default] case of the switch. *)
Definition default_rule (results : Result) (relPath : string) (info : FileInfo)
    : Result :=
  Map_set F_resourcesToCopy relPath info results.

(** The [info] object that [_visitFile] builds from the match of
    [FILENAME_REGEXP]. *)
Definition file_info (name from to : string) : FileInfo :=
  let parts := exec FILENAME_REGEXP name in
  mkInfo (match parts with Some p => at_index p 1 | None => Some name end)
         (match parts with Some p => at_index p 2 | None => None end)
         from to None None None.

(** [from.replace((origSrc || src) + '/', prefix ? prefix + '/' : '')]. *)
Definition relative_path (from src : string) (origSrc prefix : option string) : string :=
  String_replace from (or_else origSrc src +:+ "/")
    (match prefix with
     | Some p => if truthy prefix then p +:+ "/" else ""
     | None => ""
     end).

Definition _visitFile (this : Walker) (results : Result)
    (from to name src : string) (origSrc prefix : option string) : Result :=
  if opt_test (ignoreFiles this) name then results
  else
    let parts := exec FILENAME_REGEXP name in
    let info := file_info name from to in
    let relPath := relative_path from src origSrc prefix in
    (* switch (parts && parts[2]) *)
    let ext := match parts with Some p => at_index p 2 | None => None end in
    if decide (ext = Some "js") then Map_set F_jsFiles relPath info results
    else if decide (ext = Some "css") then Map_set F_cssFiles relPath info results
    else if decide (ext = Some "png") then
      if negb (truthy origSrc) then
        match
          match appIconRegExp this with
          | Some r => exec r name
          | None => None
          end
        with
        | Some m =>
            let info := mkInfo (info_name info) (info_ext info) (info_src info)
                          (info_dest info) (Some (at_index m 1))
                          (info_scale info) (info_device info) in
            Map_set F_appIcons relPath info results
        | None =>
            if test LAUNCH_IMAGE_REGEXP name
            then Map_set F_launchImages relPath info results
            else png_jpg_rule this results name relPath info
        end
      else png_jpg_rule this results name relPath info
    else if decide (ext = Some "jpg") then png_jpg_rule this results name relPath info
    else if decide (ext = Some "html") then
      let scripts :=
        analyzeHtmlFile from (join_slash (removelast (split_slash relPath))) in
      let results :=
        fold_left (fun r file => set_htmlJsFiles ({[file]} ∪ htmlJsFiles r) r)
          scripts results in
      default_rule results relPath info
    else default_rule results relPath info.

(** *** The traversal in listing order

    The walk with every visit carried to its end before the next one
    starts: the entries of a listing are visited in the order of the
    listing, a directory is walked where it is listed, and the first
    failure in that order rejects the walk.  It is the reference for the
    event loop of [Async.walk] below, which carries the visits out in the
    order of the program: the two are rejected in the same cases, and
    answer the same Result where no two files are recorded under the same
    path.  The properties of the Result of a walk are stated on it. *)

(** [_visitListing], with the loop of [_walkDir] over the listing of a
    subdirectory inside it; the visits are taken one after the other,
    each on the [results] object that the one before it has filled. *)
Fixpoint _visitListing (this : Walker) (results : Result) (dirent : Dirent)
    (src dest : string) (ignore : option regex) (origSrc prefix : option string)
    {struct dirent} : outcome Result :=
  let name := dirent_name dirent in
  if opt_test ignore name then Resolved results
  else
    let from := path_join src name in
    let to := path_join dest name in
    let recurse (readdir : outcome (list Dirent)) : outcome Result :=
      if opt_test (ignoreDirs this) name then Resolved results
      else
        match readdir with
        | Rejected e => Rejected e
        | Resolved listing =>
            (fix all (listing : list Dirent) (results : Result) {struct listing}
               : outcome Result :=
               match listing with
               | [] => Resolved results
               | d :: listing' =>
                   match _visitListing this results d from to None
                           (Some (or_else origSrc src)) prefix with
                   | Resolved results' => all listing' results'
                   | Rejected e => Rejected e
                   end
               end) listing results
        end in
    match dirent with
    | Dirent_file _ =>
        Resolved (_visitFile this results from to name src origSrc prefix)
    | Dirent_dir _ readdir => recurse readdir
    | Dirent_link _ (Rejected e) => Rejected e
    | Dirent_link _ (Resolved Stats_file) =>
        Resolved (_visitFile this results from to name src origSrc prefix)
    | Dirent_link _ (Resolved (Stats_dir readdir)) => recurse readdir
    end.

(** [Promise.all(list.map(dirent => this._visitListing(results, dirent, ...)))],
    the visits taken one after the other in the order of the listing. *)
Fixpoint visit_all (this : Walker) (listing : list Dirent) (results : Result)
    (src dest : string) (ignore : option regex) (origSrc prefix : option string)
    : outcome Result :=
  match listing with
  | [] => Resolved results
  | d :: listing' =>
      match _visitListing this results d src dest ignore origSrc prefix with
      | Resolved results' => visit_all this listing' results' src dest ignore origSrc prefix
      | Rejected e => Rejected e
      end
  end.

(** [_walkDir]; [readdir] is what [fs.readdir(src)] answers. *)
Definition _walkDir (this : Walker) (results : Result) (readdir : outcome (list Dirent))
    (src dest : string) (ignore : option regex) (origSrc prefix : option string)
    : outcome Result :=
  match readdir with
  | Rejected e => Rejected e
  | Resolved listing => visit_all this listing results src dest ignore origSrc prefix
  end.

(** [walk]; [root] is [None] when [fs.exists(src)] answers [false], and
    else what [fs.readdir(src)] answers. *)
Definition walk (this : Walker) (root : option (outcome (list Dirent)))
    (src dest : string) (ignore : option regex) (origSrc prefix : option string)
    : outcome Result :=
  let results := Result_new in
  match root with
  | None => Resolved results
  | Some readdir => _walkDir this results readdir src dest ignore origSrc prefix
  end.

End Walk.

(** ** The visits on the event loop

    [_visitListing] is an [async] function: it runs up to its first
    [await] when [list.map] calls it, and goes on when the operation that
    it awaits answers.  The visit of a file awaits nothing; the visit of a
    link awaits [fs.stat], the visit of a directory the [fs.readdir] of
    [_walkDir].  The operations that are pending answer in an order that
    the program does not choose: the walk is run here against a schedule,
    the list of the positions, among the operations pending, of the ones
    that answer in turn. *)
Module Async.

(** An operation that a visit awaits: what the file system answers, and
    the arguments of the call that goes on then. *)
Inductive pending : Type :=
| Await_stat (stat : outcome (Stats Dirent)) (name src dest : string)
    (origSrc prefix : option string)
| Await_readdir (readdir : outcome (list Dirent)) (src dest : string)
    (ignore : option regex) (origSrc prefix : option string).

Section Walk.

Variable analyzeHtmlFile : string -> string -> list string.
Variable this : Walker.

(** [_walkDir], entered from [_visitListing]: the directory is skipped
    when [ignoreDirs] matches its name, and [fs.readdir] is started. *)
Definition enter (results : Result) (readdir : outcome (list Dirent))
    (name src dest : string) (origSrc prefix : option string)
    : Result * list pending :=
  if opt_test (ignoreDirs this) name then (results, [])
  else (results,
        [Await_readdir readdir (path_join src name) (path_join dest name) None
           (Some (or_else origSrc src)) prefix]).

(** [_visitListing] up to its first [await]: the Result as the visit
    leaves it, and the operation that it awaits, if any. *)
Definition _visitListing (results : Result) (dirent : Dirent) (src dest : string)
    (ignore : option regex) (origSrc prefix : option string)
    : Result * list pending :=
  let name := dirent_name dirent in
  if opt_test ignore name then (results, [])
  else
    let from := path_join src name in
    let to := path_join dest name in
    match dirent with
    | Dirent_link _ stat => (results, [Await_stat stat name src dest origSrc prefix])
    | Dirent_dir _ readdir => enter results readdir name src dest origSrc prefix
    | Dirent_file _ =>
        (_visitFile analyzeHtmlFile this results from to name src origSrc prefix, [])
    end.

(** [list.map(dirent => this._visitListing(results, dirent, ...))]: the
    visits are started in the order of the listing, on the same
    [results]. *)
Fixpoint start_all (listing : list Dirent) (results : Result) (src dest : string)
    (ignore : option regex) (origSrc prefix : option string)
    : Result * list pending :=
  match listing with
  | [] => (results, [])
  | d :: listing' =>
      let '(results', started) :=
        _visitListing results d src dest ignore origSrc prefix in
      let '(results'', started') :=
        start_all listing' results' src dest ignore origSrc prefix in
      (results'', started ++ started')
  end.

(** What a visit does when the operation [p] answers, up to its next
    [await]; a failure rejects the visit. *)
Definition resume (results : Result) (p : pending) : outcome (Result * list pending) :=
  match p with
  | Await_stat stat name src dest origSrc prefix =>
      match stat with
      | Rejected e => Rejected e
      | Resolved Stats_file =>
          Resolved
            (_visitFile analyzeHtmlFile this results (path_join src name)
               (path_join dest name) name src origSrc prefix, [])
      | Resolved (Stats_dir readdir) =>
          Resolved (enter results readdir name src dest origSrc prefix)
      end
  | Await_readdir readdir src dest ignore origSrc prefix =>
      match readdir with
      | Rejected e => Rejected e
      | Resolved listing =>
          Resolved (start_all listing results src dest ignore origSrc prefix)
      end
  end.

(** The event loop.  With nothing pending, every visit has returned and
    the promise of the walk is resolved.  Else one of the operations
    pending answers, the one at the position that the schedule gives
    (taken modulo their number; the first one when the schedule is used
    up, so that under the empty schedule the operations answer in the
    order in which they were started): a failure rejects the promises of
    the visits up to that of the walk, which no earlier failure has
    settled; else the visit goes on, and the operations that it starts
    are pending too.  [fuel] bounds the number of the answers. *)
Fixpoint run (fuel : nat) (schedule : list nat) (results : Result)
    (queue : list pending) {struct fuel} : option (outcome Result) :=
  match queue with
  | [] => Some (Resolved results)
  | first :: _ =>
      match fuel with
      | O => None
      | S fuel' =>
          let i := hd 0 schedule mod length queue in
          match resume results (nth i queue first) with
          | Rejected e => Some (Rejected e)
          | Resolved (results', started) =>
              run fuel' (tl schedule) results' (delete i queue ++ started)
          end
      end
  end.

End Walk.

(** The number of the operations that the visit of an entry can await,
    with those of the visits below it. *)
Fixpoint operations (d : Dirent) : nat :=
  let below (readdir : outcome (list Dirent)) : nat :=
    match readdir with
    | Rejected _ => 1
    | Resolved listing => S (sum_list_with operations listing)
    end in
  match d with
  | Dirent_file _ => 0
  | Dirent_dir _ readdir => below readdir
  | Dirent_link _ (Rejected _) => 1
  | Dirent_link _ (Resolved Stats_file) => 1
  | Dirent_link _ (Resolved (Stats_dir readdir)) => S (below readdir)
  end.

(** The same for the listing of a directory and the visits that it
    starts. *)
Definition operations_below (readdir : outcome (list Dirent)) : nat :=
  match readdir with
  | Rejected _ => 1
  | Resolved listing => S (sum_list_with operations listing)
  end.

(** [walk]; [root] is [None] when [fs.exists(src)] answers [false], and
    else what [fs.readdir(src)] answers.  The walk has the fuel of all the
    operations of the tree. *)
Definition walk (analyzeHtmlFile : string -> string -> list string) (this : Walker)
    (schedule : list nat) (root : option (outcome (list Dirent)))
    (src dest : string) (ignore : option regex) (origSrc prefix : option string)
    : option (outcome Result) :=
  let results := Result_new in
  match root with
  | None => Some (Resolved results)
  | Some readdir =>
      run analyzeHtmlFile this (operations_below readdir) schedule results
        [Await_readdir readdir src dest ignore origSrc prefix]
  end.

End Async.

(** * The vocabulary of the properties

    Definitions that the statements below use: what the specification
    says in its own words, the shapes of the regular expressions, and
    the conditions on paths and on trees. *)

(** ** Results *)

#[global] Instance mapField_eq_dec : EqDecision mapField.
Proof. solve_decision. Defined.

(** The union of a sequence of mappings in which a later mapping
    overrides the earlier ones. *)
Definition overlay (ms : list (gmap string FileInfo)) : gmap string FileInfo :=
  fold_left (fun acc m => m ∪ acc) ms ∅.

(** Some mapping of [r] has the key [p]. *)
Definition recorded (r : Result) (p : string) : Prop :=
  ∃ key, is_Some (field key r !! p).

(** A path is a key of at most one of the seven mappings. *)
Definition exclusive (r : Result) : Prop :=
  ∀ p key1 key2,
    is_Some (field key1 r !! p) → is_Some (field key2 r !! p) → key1 = key2.

(** ** Texts *)

(** Every character of [s] satisfies [P]. *)
Fixpoint all_chars (P : ascii -> bool) (s : string) : bool :=
  match s with
  | EmptyString => true
  | String b s' => P b && all_chars P s'
  end.

(** What the atom [.] accepts. *)
Definition not_line_terminator (b : ascii) : bool := negb (is_line_terminator b).

(** [s] without its prefix [l], when it starts with [l]. *)
Fixpoint strip_prefix (l s : string) : option string :=
  match l, s with
  | EmptyString, _ => Some s
  | String a l', String b s' => if Ascii.eqb b a then strip_prefix l' s' else None
  | String _ _, EmptyString => None
  end.

(** [s] without its suffix [suffix], when it ends with it. *)
Fixpoint strip_suffix (suffix s : string) : option string :=
  if String.eqb s suffix then Some EmptyString
  else match s with
       | String c s' => String c <$> strip_suffix suffix s'
       | EmptyString => None
       end.

(** No character of [s] is a slash. *)
Definition no_slash (s : string) : bool :=
  all_chars (fun c => negb (Ascii.eqb c "/")) s.

(** The words of the specification: a path has a segment ending in
    [.bundle/] when one of its directory segments ends with [.bundle]. *)
Fixpoint ends_with (suffix s : string) : bool :=
  String.eqb suffix s
  || match s with
     | String _ s' => ends_with suffix s'
     | EmptyString => false
     end.

(** ASCII lower case, for the statement of the specification. *)
Definition lower_char (c : ascii) : ascii :=
  if in_range "A" "Z" c then ascii_of_nat (code c + 32) else c.

(** The lower-case form of a text. *)
Fixpoint to_lower (s : string) : string :=
  match s with
  | EmptyString => EmptyString
  | String c s' => String (lower_char c) (to_lower s')
  end.

(** ** Patterns *)

(** The matcher of an atom that takes one character satisfying [P]. *)
Definition char_step (P : ascii -> bool) : string -> caps -> cont -> option caps :=
  fun s c k =>
    match s with
    | String b s' => if P b then k s' c else None
    | EmptyString => None
    end.

(** The longest run of characters satisfying [P] first, then shorter
    ones, until the continuation accepts. *)
Fixpoint star_pred (P : ascii -> bool) (s : string) (k : string -> option caps)
    : option caps :=
  match s with
  | String b s' =>
      if P b then
        match star_pred P s' k with
        | Some x => Some x
        | None => k s
        end
      else k s
  | EmptyString => k s
  end.

(** The pattern [l] followed by [r], for a text [l] matched literally. *)
Fixpoint lits (l : string) (r : regex) : regex :=
  match l with
  | EmptyString => r
  | String c l' => Seq (Chr c) (lits l' r)
  end.

(** The characters of a text, as atoms of a pattern. *)
Fixpoint chr_atoms (s : string) : list regex :=
  match s with
  | EmptyString => []
  | String c s' => Chr c :: chr_atoms s'
  end.

(** A character that stands for itself in the text that the constructor
    gives to [new RegExp]: any character but the syntax characters, and
    the dot, which the constructor escapes. *)
Definition icon_char (c : ascii) : bool := negb (is_syntax_char c) || Ascii.eqb c ".".

(** The pattern that the constructor compiles for a base name made of
    such characters. *)
Definition icon_pattern (base : string) : regex :=
  Seq Bol (lits base (Seq (Group 1 (Star Dot)) (lits ".png" Eol))).

(** The end of the pattern, [\.(\w+)$], matched at the suffix [s2]. *)
Definition ext_tail (inp s2 : string) (c : caps) : option caps :=
  match s2 with
  | String d e =>
      if Ascii.eqb d "." && negb (String.eqb e "") && all_chars is_word e
      then Some ((0, Some inp) :: (2, Some e) :: c)
      else None
  | EmptyString => None
  end.

(** ** Filenames and relative paths *)

(** Splitting a name on its last dot: the text before and the text after. *)
Fixpoint split_last_dot (s : string) : option (string * string) :=
  match s with
  | EmptyString => None
  | String c s' =>
      match split_last_dot s' with
      | Some (b, e) => Some (String c b, e)
      | None => if Ascii.eqb c "." then Some (EmptyString, s') else None
      end
  end.

(** The text after the last dot is an extension for the walker when it is
    a non-empty run of letters, digits and underscores, and no line break
    comes before it. *)
Definition ext_ok (b e : string) : bool :=
  negb (String.eqb e "") && all_chars is_word e && all_chars not_line_terminator b.

(** The name and the extension that the walker reads in a filename. *)
Definition parsed_name (name : string) : option (string * string) :=
  match split_last_dot name with
  | Some (b, e) => if ext_ok b e then Some (b, e) else None
  | None => None
  end.

(** One of the directory segments of [relPath] ends with [.bundle]. *)
Definition has_bundle_segment (relPath : string) : bool :=
  existsb (ends_with ".bundle") (removelast (split_slash relPath)).

(** What the source tests: the text [.bundle/] with a character other
    than a line break right before it and right after it. *)
Definition inside_bundle (relPath : string) : Prop :=
  ∃ pre c d post,
    relPath = pre +:+ String c (".bundle/" +:+ String d post)
    ∧ not_line_terminator c = true ∧ not_line_terminator d = true.

(** [y] is [name], or a path below the directory [name]. *)
Definition under (name y : string) : Prop :=
  y = name ∨ ∃ z, y = name +:+ String "/" z.

(** ** Paths and trees *)

(** The name of a directory entry, as [fs.readdir] gives it. *)
Definition valid_name (name : string) : Prop :=
  name ≠ EmptyString ∧ name ≠ "."%string ∧ name ≠ ".."%string
  ∧ all_chars (fun c => negb (Ascii.eqb c "/")) name = true.

(** A path in the form that [path.join] gives to a directory below the
    root of the file system: it is its own normal form, is not [.], and
    does not end with a slash. *)
Definition normal_path (p : string) : Prop :=
  p ≠ EmptyString ∧ p ≠ "."%string ∧ ends_with_slash p = false ∧ path_normalize p = p.

(** [d] is a directory named [name], or a link to one, that
    [fs.readdir] answers with [readdir]. *)
Definition enters (d : Dirent) (name : string) (readdir : outcome (list Dirent)) : Prop :=
  d = Dirent_dir name readdir ∨ d = Dirent_link name (Resolved (Stats_dir readdir)).

(** [d] is a file named [name], or a link to one. *)
Definition is_file (d : Dirent) (name : string) : Prop :=
  d = Dirent_file name ∨ d = Dirent_link name (Resolved Stats_file).

(** The tree below a listing has the names that a file system gives:
    valid, and distinct within a directory. *)
Inductive WellFormed : list Dirent -> Prop :=
| WellFormed_listing listing :
    NoDup (dirent_name <$> listing) →
    (∀ d, d ∈ listing → valid_name (dirent_name d)) →
    (∀ d name sub, d ∈ listing → enters d name (Resolved sub) → WellFormed sub) →
    WellFormed listing.

(** The walk of [listing] under the call's pattern [ignore] meets a
    failure: the status of a link that it does not skip cannot be read,
    or a directory that it enters cannot be listed. *)
Inductive Fails (this : Walker) : option regex -> list Dirent -> Prop :=
| Fails_stat ignore listing name e :
    Dirent_link name (Rejected e) ∈ listing →
    opt_test ignore name = false →
    Fails this ignore listing
| Fails_readdir ignore listing d name e :
    d ∈ listing → enters d name (Rejected e) →
    opt_test ignore name = false → opt_test (ignoreDirs this) name = false →
    Fails this ignore listing
| Fails_below ignore listing d name sub :
    d ∈ listing → enters d name (Resolved sub) →
    opt_test ignore name = false → opt_test (ignoreDirs this) name = false →
    Fails this None sub →
    Fails this ignore listing.

(** The files that a complete walk of [listing] classifies: the file
    [name] of the directory [src], with destination directory [dest],
    visited with [origSrc]. *)
Inductive Visits (this : Walker) :
  option regex -> list Dirent -> string -> string -> option string ->
  string * string * string * option string -> Prop :=
| Visits_file ignore listing src dest origSrc d name :
    d ∈ listing → is_file d name →
    opt_test ignore name = false → opt_test (ignoreFiles this) name = false →
    Visits this ignore listing src dest origSrc (name, src, dest, origSrc)
| Visits_below ignore listing src dest origSrc d name sub f :
    d ∈ listing → enters d name (Resolved sub) →
    opt_test ignore name = false → opt_test (ignoreDirs this) name = false →
    Visits this None sub (path_join src name) (path_join dest name)
      (Some (or_else origSrc src)) f →
    Visits this ignore listing src dest origSrc f.

(** What the visit of the entry [d] of the directory [dir] records, when
    the relative paths of the files of [dir] start with [u]: paths below
    [u ++ name] only, and exclusively when these paths were free. *)
Definition keys_within (analyzeHtmlFile : string -> string -> list string)
    (this : Walker) (root : string) (d : Dirent) : Prop :=
  ∀ results dir dest ignore origSrc u r,
    normal_path dir →
    or_else origSrc dir = root →
    dir +:+ "/" = root +:+ String "/" u →
    valid_name (dirent_name d) →
    (∀ name sub, enters d name (Resolved sub) → WellFormed sub) →
    _visitListing analyzeHtmlFile this results d dir dest ignore origSrc None
    = Resolved r →
    (∀ p, recorded r p →
          recorded results p ∨ ∃ y, under (dirent_name d) y ∧ p = u +:+ y) ∧
    (exclusive results →
     (∀ y, under (dirent_name d) y → ¬ recorded results (u +:+ y)) →
     exclusive r).

(** ** Results, entry by entry *)

(** What a visit returns on the results [r0], from what it returns on an
    empty Result: its records are merged into [r0]. *)
Definition merged_into (r0 : Result) (o : outcome Result) : outcome Result :=
  match o with
  | Resolved δ => Resolved (merge [r0; δ])
  | Rejected e => Rejected e
  end.

(** What is in a Result: a record under a path in one of the mappings, or
    a script in the set. *)
Definition holds (r : Result) (e : mapField * string * FileInfo + string) : Prop :=
  match e with
  | inl (key, p, info) => field key r !! p = Some info
  | inr x => x ∈ htmlJsFiles r
  end.

(** A record without the properties that the rules add. *)
Definition plain (info : FileInfo) : Prop :=
  info_tag info = None ∧ info_scale info = None ∧ info_device info = None.

(** What the rules of [_visitFile] give to the records of each mapping:
    the extension that leads to the mapping, and the properties that the
    rule of the mapping adds. *)
Definition fits (this : Walker) (key : mapField) (info : FileInfo) : Prop :=
  match key with
  | F_jsFiles => info_ext info = Some "js"%string ∧ plain info
  | F_cssFiles => info_ext info = Some "css"%string ∧ plain info
  | F_appIcons =>
      info_ext info = Some "png"%string ∧ is_Some (appIconRegExp this)
      ∧ is_Some (info_tag info) ∧ info_scale info = None ∧ info_device info = None
  | F_launchImages => info_ext info = Some "png"%string ∧ plain info
  | F_launchLogos =>
      (info_ext info = Some "png"%string ∨ info_ext info = Some "jpg"%string)
      ∧ info_tag info = None ∧ is_Some (info_scale info) ∧ is_Some (info_device info)
  | F_imageAssets =>
      (info_ext info = Some "png"%string ∨ info_ext info = Some "jpg"%string)
      ∧ useAppThinning this = true ∧ plain info
  | F_resourcesToCopy => plain info
  end.

(** What the patterns read in the name [name] and the relative path
    [relPath] of a file whose record [info] is in the mapping [key]. *)
Definition reads (this : Walker) (key : mapField) (name relPath : string)
    (info : FileInfo) : Prop :=
  match key with
  | F_appIcons =>
      ∃ re m, appIconRegExp this = Some re ∧ exec re name = Some m
              ∧ info_tag info = Some (at_index m 1)
  | F_launchImages =>
      test LAUNCH_IMAGE_REGEXP name = true
      ∧ ∀ re, appIconRegExp this = Some re → exec re name = None
  | F_launchLogos =>
      ∃ m, exec LAUNCH_LOGO_REGEXP name = Some m
           ∧ info_scale info = Some (at_index m 1)
           ∧ info_device info = Some (at_index m 2)
  | F_imageAssets =>
      exec LAUNCH_LOGO_REGEXP name = None ∧ test BUNDLE_FILE_REGEXP relPath = false
  | _ => True
  end.

(** ** Visited files *)

(** The Result that the classification of the file [f] alone gives: [f]
    is a file as [Visits] describes it, by its name, its directory, the
    destination directory and the [origSrc] of its visit. *)
Definition classified (analyzeHtmlFile : string -> string -> list string)
    (this : Walker) (prefix : option string)
    (f : string * string * string * option string) : Result :=
  _visitFile analyzeHtmlFile this Result_new (path_join f.1.1.2 f.1.1.1)
    (path_join f.1.2 f.1.1.1) f.1.1.1 f.1.1.2 f.2 prefix.

(** The last segment of a relative path. *)
Definition basename (p : string) : string := List.last (split_slash p) EmptyString.

(** A text that is empty or ends with a slash: what comes before a name
    in a relative path. *)
Definition dir_prefix (u : string) : Prop :=
  u = EmptyString ∨ ∃ u0, u = u0 +:+ "/".

(** ** Trees *)

(** The same tree with its listings in another order: the entries of a
    listing permuted, and the listings below them reordered in turn. *)
Inductive Reordered : list Dirent -> list Dirent -> Prop :=
| Reordered_nil : Reordered [] []
| Reordered_cons d d' l l' :
    Reordered_entry d d' → Reordered l l' → Reordered (d :: l) (d' :: l')
| Reordered_perm l l' : l ≡ₚ l' → Reordered l l'
| Reordered_trans l1 l2 l3 : Reordered l1 l2 → Reordered l2 l3 → Reordered l1 l3
with Reordered_entry : Dirent -> Dirent -> Prop :=
| Reordered_same d : Reordered_entry d d
| Reordered_dir name sub sub' :
    Reordered sub sub' →
    Reordered_entry (Dirent_dir name (Resolved sub)) (Dirent_dir name (Resolved sub'))
| Reordered_link name sub sub' :
    Reordered sub sub' →
    Reordered_entry (Dirent_link name (Resolved (Stats_dir (Resolved sub))))
      (Dirent_link name (Resolved (Stats_dir (Resolved sub')))).

Scheme Reordered_mut := Minimality for Reordered Sort Prop
  with Reordered_entry_mut := Minimality for Reordered_entry Sort Prop.


(** The entries that [ignoreDirs] and [ignoreFiles] let through: a
    directory, or a link to one, whose name [ignoreDirs] does not match;
    a file, or a link to one, whose name [ignoreFiles] does not match; a
    link whose status cannot be read. *)
Definition kept (this : Walker) (d : Dirent) : bool :=
  match d with
  | Dirent_file name | Dirent_link name (Resolved Stats_file) =>
      negb (opt_test (ignoreFiles this) name)
  | Dirent_dir name _ | Dirent_link name (Resolved (Stats_dir _)) =>
      negb (opt_test (ignoreDirs this) name)
  | Dirent_link _ (Rejected _) => true
  end.

(** An entry without the entries below it that are not [kept], at every
    depth. *)
Fixpoint prune (this : Walker) (d : Dirent) : Dirent :=
  let prune_all :=
    fix prune_all (l : list Dirent) : list Dirent :=
      match l with
      | [] => []
      | d' :: l' => if kept this d' then prune this d' :: prune_all l' else prune_all l'
      end in
  match d with
  | Dirent_dir name (Resolved sub) => Dirent_dir name (Resolved (prune_all sub))
  | Dirent_link name (Resolved (Stats_dir (Resolved sub))) =>
      Dirent_link name (Resolved (Stats_dir (Resolved (prune_all sub))))
  | _ => d
  end.

(** A listing without the entries that are not [kept], at every depth. *)
Fixpoint prune_all (this : Walker) (l : list Dirent) : list Dirent :=
  match l with
  | [] => []
  | d :: l' => if kept this d then prune this d :: prune_all this l' else prune_all this l'
  end.

(** The walker without its two patterns. *)
Definition unfiltered (this : Walker) : Walker :=
  mkWalker (useAppThinning this) None None (appIconRegExp this).

(** ** Texts with slashes *)

(** No two slashes follow each other in [s]. *)
Fixpoint no_double_slash (s : string) : bool :=
  match s with
  | EmptyString => true
  | String a s' =>
      match s' with
      | String b _ => negb (Ascii.eqb a "/" && Ascii.eqb b "/") && no_double_slash s'
      | EmptyString => true
      end
  end.

(** ** Keys behind a prefix *)

(** The mappings of [r'] are those of [r] with [g] applied to the keys. *)
Definition rekeyed (g : string -> string) (r r' : Result) : Prop :=
  ∀ key, field key r' = kmap g (field key r).

(** The two outcomes are rejected with the same error, or give Results
    of which the second has the keys of the first with [g] applied. *)
Definition rekeyed_outcome (g : string -> string) (o o' : outcome Result) : Prop :=
  match o, o' with
  | Resolved r, Resolved r' => rekeyed g r r'
  | Rejected e, Rejected e' => e = e'
  | _, _ => False
  end.

(** No character of [s] is a dollar sign: as the replacement text of
    [String.prototype.replace], [s] stands for itself. *)
Definition no_dollar (s : string) : bool :=
  all_chars (fun c => negb (Ascii.eqb c "$")) s.

(** [relPath.split('/').slice(0, -1).join('/')]: the directory of a
    relative path. *)
Definition dirname (relPath : string) : string :=
  join_slash (removelast (split_slash relPath)).

(** ** The declarative reading of a pattern *)

(** [Matches inp r s c s' c']: the pattern [r] matches the text between
    the suffix [s] of the input [inp] and its suffix [s'], and turns the
    captures [c] into [c'].  A repetition and an optional atom take no
    empty iteration, as in the ECMAScript semantics. *)
Inductive Matches (inp : string) : regex -> string -> caps -> string -> caps -> Prop :=
| Matches_Eps s c : Matches inp Eps s c s c
| Matches_Chr a s c : Matches inp (Chr a) (String a s) c s c
| Matches_Dot b s c :
    is_line_terminator b = false → Matches inp Dot (String b s) c s c
| Matches_Class neg items b s c :
    class_matches neg items b = true → Matches inp (Class neg items) (String b s) c s c
| Matches_Seq r1 r2 s c s1 c1 s2 c2 :
    Matches inp r1 s c s1 c1 → Matches inp r2 s1 c1 s2 c2 →
    Matches inp (Seq r1 r2) s c s2 c2
| Matches_Alt_l r1 r2 s c s' c' :
    Matches inp r1 s c s' c' → Matches inp (Alt r1 r2) s c s' c'
| Matches_Alt_r r1 r2 s c s' c' :
    Matches inp r2 s c s' c' → Matches inp (Alt r1 r2) s c s' c'
| Matches_Star_0 r s c : Matches inp (Star r) s c s c
| Matches_Star_S r s c s1 c1 s2 c2 :
    Matches inp r s (clear_groups r c) s1 c1 →
    String.length s1 < String.length s →
    Matches inp (Star r) s1 c1 s2 c2 →
    Matches inp (Star r) s c s2 c2
| Matches_Plus r s c s1 c1 s2 c2 :
    Matches inp r s (clear_groups r c) s1 c1 →
    Matches inp (Star r) s1 c1 s2 c2 →
    Matches inp (Plus r) s c s2 c2
| Matches_Opt_0 r s c : Matches inp (Opt r) s c s c
| Matches_Opt_1 r s c s1 c1 :
    Matches inp r s (clear_groups r c) s1 c1 →
    String.length s1 < String.length s →
    Matches inp (Opt r) s c s1 c1
| Matches_Group n r s c s1 c1 :
    Matches inp r s c s1 c1 →
    Matches inp (Group n r) s c s1 ((n, Some (consumed s s1)) :: c1)
| Matches_Bol s c :
    String.length s = String.length inp → Matches inp Bol s c s c
| Matches_Eol c : Matches inp Eol EmptyString c EmptyString c.

(** ** The names of the launch logos and of the launch images *)

(** The names that are launch logos, with their scale and their device:
    [LaunchLogo], an optional scale [@2x] or [@3x], an optional device
    [~iphone] or [~ipad], and [.png] or [.jpg]. *)
Definition launch_logo_names : list (string * option string * option string) :=
  scale ← [None; Some "2"; Some "3"]%string;
  device ← [None; Some "iphone"; Some "ipad"]%string;
  ext ← ["png"; "jpg"]%string;
  [("LaunchLogo" +:+ from_option (fun s => "@" +:+ s +:+ "x") "" scale
      +:+ from_option (fun d => "~" +:+ d) "" device +:+ "." +:+ ext,
    scale, device)].

(** The filename of a launch image: [Default], an optional orientation,
    an optional height, an optional scale, and [.png]. *)
Definition launch_image_name (orientation height : option string)
    (scale : option ascii) : string :=
  "Default" +:+ from_option (fun o => "-" +:+ o) "" orientation
    +:+ from_option (fun h => "-" +:+ h +:+ "h") "" height
    +:+ from_option (fun d => "@" +:+ String d "x") "" scale +:+ ".png".

(** ** The files of a tree, and the failures in it *)

(** The visit of the file [f], a file as [Visits] describes it, on the
    results collected so far. *)
Definition classify (analyzeHtmlFile : string -> string -> list string)
    (this : Walker) (prefix : option string) (results : Result)
    (f : string * string * string * option string) : Result :=
  _visitFile analyzeHtmlFile this results (path_join f.1.1.2 f.1.1.1)
    (path_join f.1.2 f.1.1.1) f.1.1.1 f.1.1.2 f.2 prefix.

(** The path under which the visit of the file [f] records it. *)
Definition key_of (prefix : option string)
    (f : string * string * string * option string) : string :=
  relative_path (path_join f.1.1.2 f.1.1.1) f.1.1.2 f.2 prefix.

(** The files that the visit of an entry classifies, the entry itself or
    the files below it, in the order of the listings; nothing is found
    behind an operation that fails. *)
Fixpoint files_entry (this : Walker) (ignore : option regex) (d : Dirent)
    (src dest : string) (origSrc : option string) {struct d}
    : list (string * string * string * option string) :=
  let name := dirent_name d in
  let file :=
    if opt_test (ignoreFiles this) name then [] else [(name, src, dest, origSrc)] in
  let below (readdir : outcome (list Dirent)) :=
    if opt_test (ignoreDirs this) name then []
    else
      match readdir with
      | Rejected _ => []
      | Resolved sub =>
          sub ≫= (fun d' =>
                    files_entry this None d' (path_join src name) (path_join dest name)
                      (Some (or_else origSrc src)))
      end in
  if opt_test ignore name then []
  else
    match d with
    | Dirent_file _ => file
    | Dirent_dir _ readdir => below readdir
    | Dirent_link _ (Rejected _) => []
    | Dirent_link _ (Resolved Stats_file) => file
    | Dirent_link _ (Resolved (Stats_dir readdir)) => below readdir
    end.

(** The files that the walk of a listing classifies. *)
Definition files (this : Walker) (ignore : option regex) (listing : list Dirent)
    (src dest : string) (origSrc : option string)
    : list (string * string * string * option string) :=
  listing ≫= (fun d => files_entry this ignore d src dest origSrc).

(** The files of a listing that [list.map] classifies at once: those of
    the entries that are files. *)
Definition files_now (this : Walker) (ignore : option regex) (listing : list Dirent)
    (src dest : string) (origSrc : option string)
    : list (string * string * string * option string) :=
  listing ≫= (fun d =>
                match d with
                | Dirent_file _ => files_entry this ignore d src dest origSrc
                | _ => []
                end).

(** The other files of the walk of a listing: those behind its links and
    below its directories. *)
Definition files_later (this : Walker) (ignore : option regex) (listing : list Dirent)
    (src dest : string) (origSrc : option string)
    : list (string * string * string * option string) :=
  listing ≫= (fun d =>
                match d with
                | Dirent_file _ => []
                | _ => files_entry this ignore d src dest origSrc
                end).

(** The walk of [listing] under the call's pattern [ignore] meets a
    failure with the error [e]: the status of a link that it does not
    skip, or the listing of a directory that it enters. *)
Inductive Meets (this : Walker) : option regex -> list Dirent -> string -> Prop :=
| Meets_stat ignore listing name e :
    Dirent_link name (Rejected e) ∈ listing →
    opt_test ignore name = false →
    Meets this ignore listing e
| Meets_readdir ignore listing d name e :
    d ∈ listing → enters d name (Rejected e) →
    opt_test ignore name = false → opt_test (ignoreDirs this) name = false →
    Meets this ignore listing e
| Meets_below ignore listing d name sub e :
    d ∈ listing → enters d name (Resolved sub) →
    opt_test ignore name = false → opt_test (ignoreDirs this) name = false →
    Meets this None sub e →
    Meets this ignore listing e.

(** The same for [walk], whose first operation lists the root. *)
Definition Failure (this : Walker) (ignore : option regex)
    (readdir : outcome (list Dirent)) (e : string) : Prop :=
  match readdir with
  | Rejected e' => e' = e
  | Resolved listing => Meets this ignore listing e
  end.

(** ** The operations pending *)

(** The files that the visit classifies once the operation [p] has
    answered. *)
Definition files_pending (this : Walker) (p : Async.pending)
    : list (string * string * string * option string) :=
  match p with
  | Async.Await_stat stat name src dest origSrc _ =>
      files this None [Dirent_link name stat] src dest origSrc
  | Async.Await_readdir (Resolved listing) src dest ignore origSrc _ =>
      files this ignore listing src dest origSrc
  | Async.Await_readdir (Rejected _) _ _ _ _ _ => []
  end.

(** The failure [e] is that of the operation [p], or is met after it. *)
Definition Meets_pending (this : Walker) (p : Async.pending) (e : string) : Prop :=
  match p with
  | Async.Await_stat stat name _ _ _ _ => Meets this None [Dirent_link name stat] e
  | Async.Await_readdir readdir _ _ ignore _ _ => Failure this ignore readdir e
  end.

(** The [prefix] of the call that awaits [p]. *)
Definition prefix_of (p : Async.pending) : option string :=
  match p with
  | Async.Await_stat _ _ _ _ _ prefix | Async.Await_readdir _ _ _ _ _ prefix => prefix
  end.

(** The operations that the visit can still await once [p] has answered,
    [p] included. *)
Definition operations_pending (p : Async.pending) : nat :=
  match p with
  | Async.Await_stat stat name _ _ _ _ => Async.operations (Dirent_link name stat)
  | Async.Await_readdir readdir _ _ _ _ _ => Async.operations_below readdir
  end.

(** What a turn of a visit leaves: it has classified files of the
    operation that answered, in their order; the other files of that
    operation, and its failures, are those of the operations that the
    turn has started, which are no more than [budget]. *)
Definition Step (analyzeHtmlFile : string -> string -> list string) (this : Walker)
    (prefix : option string) (all : list (string * string * string * option string))
    (fails : string → Prop) (budget : nat)
    (results results' : Result) (started : list Async.pending) : Prop :=
  (∃ now,
     results' = fold_left (classify analyzeHtmlFile this prefix) now results
     ∧ all ≡ₚ now ++ (started ≫= files_pending this))
  ∧ Forall (fun p => prefix_of p = prefix) started
  ∧ (∀ e, fails e ↔ ∃ p, p ∈ started ∧ Meets_pending this p e)
  ∧ sum_list_with operations_pending started ≤ budget.

(** The files of the entry [d] of a directory whose relative paths start
    with [u] are recorded under paths below [u ++ name], each under its
    own. *)
Definition keyed (this : Walker) (root : string) (d : Dirent) : Prop :=
  ∀ dir dest ignore origSrc u,
    normal_path dir →
    or_else origSrc dir = root →
    dir +:+ "/" = root +:+ String "/" u →
    valid_name (dirent_name d) →
    (∀ name sub, enters d name (Resolved sub) → WellFormed sub) →
    (∀ f, f ∈ files_entry this ignore d dir dest origSrc →
          ∃ y, under (dirent_name d) y ∧ key_of None f = u +:+ y)
    ∧ NoDup (key_of None <$> files_entry this ignore d dir dest origSrc).

(** ** Inputs of the examples *)

(** An analyzer that finds no script. *)
Definition no_scripts : string -> string -> list string := fun _ _ => [].

(** An analyzer that reports the script [foo.js] for every markup file. *)
Definition foo_script : string -> string -> list string := fun _ _ => ["foo.js"%string].

(** A record for the examples of [merge]. *)
Definition merge_info (p : string) : FileInfo :=
  mkInfo (Some p) (Some "js"%string) p p None None None.

(** The walker of an application whose icon is [appicon.png]. *)
Definition appicon_walker : Walker :=
  mkWalker false None None (Some (literal "^appicon(.*)\.png$")).

(** The walker of an application whose icon is [LaunchLogo.png]. *)
Definition launchlogo_icon_walker : Walker :=
  mkWalker false None None (Some (literal "^LaunchLogo(.*)\.png$")).

(** The walker of an application that uses app thinning. *)
Definition thinning_walker : Walker :=
  mkWalker true None None (Some (literal "^appicon(.*)\.png$")).

(** The resources of an application: scripts, images, a markup file, a
    linked directory. *)
Definition example_tree : list Dirent :=
  [Dirent_file "app.js"; Dirent_file "appicon-60.png"; Dirent_file "Default.png";
   Dirent_file "index.html";
   Dirent_link "shared" (Resolved (Stats_dir (Resolved [Dirent_file "style.css"])));
   Dirent_dir "images" (Resolved [Dirent_file "logo.png"; Dirent_file "photo.jpg"])].

(** * Properties *)

(** ** The fields of a Result *)

Lemma Result_eq (a b : Result) :
  (∀ key, field key a = field key b) → htmlJsFiles a = htmlJsFiles b → a = b.
Proof.
  intros Hf Hs. destruct a, b; simpl in *.
  pose proof (Hf F_appIcons). pose proof (Hf F_cssFiles).
  pose proof (Hf F_jsFiles). pose proof (Hf F_launchImages).
  pose proof (Hf F_launchLogos). pose proof (Hf F_imageAssets).
  pose proof (Hf F_resourcesToCopy). simpl in *. congruence.
Qed.

Lemma field_set_field_eq key v r : field key (set_field key v r) = v.
Proof. by destruct key. Qed.

Lemma field_set_field_ne key key' v r :
  key ≠ key' → field key' (set_field key v r) = field key' r.
Proof. by destruct key, key'. Qed.

Lemma htmlJsFiles_set_field key v r : htmlJsFiles (set_field key v r) = htmlJsFiles r.
Proof. by destruct key. Qed.

Lemma field_set_htmlJsFiles key v r : field key (set_htmlJsFiles v r) = field key r.
Proof. by destruct key. Qed.

Lemma field_Map_set key key' relPath info r :
  field key' (Map_set key relPath info r)
  = if decide (key = key') then <[relPath := info]> (field key r) else field key' r.
Proof.
  unfold Map_set. case_decide as Hk.
  - subst. apply field_set_field_eq.
  - by apply field_set_field_ne.
Qed.

Lemma htmlJsFiles_Map_set key relPath info r :
  htmlJsFiles (Map_set key relPath info r) = htmlJsFiles r.
Proof. apply htmlJsFiles_set_field. Qed.

(** ** Result.merge *)

Lemma Map_of_entries_acc (entries : list (string * FileInfo)) (acc : gmap string FileInfo) :
  NoDup entries.*1 →
  fold_left (fun acc kv => <[kv.1 := kv.2]> acc) entries acc
  = list_to_map entries ∪ acc.
Proof.
  revert acc. induction entries as [|[k v] l IH]; intros acc Hnd; simpl.
  - by rewrite (left_id_L ∅ (∪)).
  - apply NoDup_cons in Hnd as [Hk Hnd]. rewrite IH by done.
    rewrite <- insert_union_l. rewrite insert_union_r; [done|].
    by apply not_elem_of_list_to_map_1.
Qed.

Lemma Map_spread_union (combined list : gmap string FileInfo) :
  Map_spread combined list = list ∪ combined.
Proof.
  unfold Map_spread, Map_of_entries. rewrite fold_left_app.
  rewrite !Map_of_entries_acc by apply NoDup_fst_map_to_list.
  rewrite !list_to_map_to_list. by rewrite (right_id_L ∅ (∪)).
Qed.

Lemma Set_spread_acc (l : list string) (acc : gset string) :
  fold_left (fun acc x => {[x]} ∪ acc) l acc = list_to_set l ∪ acc.
Proof.
  revert acc. induction l as [|x l IH]; intros acc; simpl.
  - by rewrite (left_id_L ∅ (∪)).
  - rewrite IH. by rewrite (assoc_L (∪)), (comm_L (∪) _ {[x]}).
Qed.

Lemma Set_spread_union (combined list : gset string) :
  Set_spread combined list = combined ∪ list.
Proof.
  unfold Set_spread. rewrite Set_spread_acc, list_to_set_app_L.
  rewrite !list_to_set_elements_L. by rewrite (right_id_L ∅ (∪)).
Qed.

Lemma fold_spread_filter (ms : list (gmap string FileInfo)) (init : gmap string FileInfo) :
  fold_left Map_spread (filter (fun m => size m ≠ 0) ms) init
  = fold_left (fun acc m => m ∪ acc) ms init.
Proof.
  revert init. induction ms as [|m ms IH]; intros init; [done|].
  rewrite filter_cons. case_decide as Hs; simpl.
  - by rewrite Map_spread_union, IH.
  - rewrite IH. f_equal.
    assert (m = ∅) as -> by (apply map_size_empty_inv; lia).
    by rewrite (left_id_L ∅ (∪)).
Qed.

Lemma fold_set_spread_filter (ss : list (gset string)) (init : gset string) :
  fold_left Set_spread (filter (fun s => size s ≠ 0) ss) init
  = fold_left (fun acc s => acc ∪ s) ss init.
Proof.
  revert init. induction ss as [|s ss IH]; intros init; [done|].
  rewrite filter_cons. case_decide as Hs; simpl.
  - by rewrite Set_spread_union, IH.
  - rewrite IH. f_equal.
    assert (s = ∅) as -> by (apply leibniz_equiv, size_empty_inv; lia).
    by rewrite (right_id_L ∅ (∪)).
Qed.

Lemma field_merge_field results key key' merged :
  field key' (merge_field results key merged)
  = if decide (key = key')
    then fold_left (fun acc m => m ∪ acc) (map (field key) results) (field key merged)
    else field key' merged.
Proof.
  unfold merge_field. rewrite <- fold_spread_filter.
  destruct (decide (length _ ≠ 0)) as [Hn|Hn].
  - case_decide; [subst; apply field_set_field_eq | by apply field_set_field_ne].
  - case_decide; [|done]. subst key'.
    destruct (filter _ _); [done | simpl in Hn; lia].
Qed.

Lemma htmlJsFiles_merge_field results key merged :
  htmlJsFiles (merge_field results key merged) = htmlJsFiles merged.
Proof.
  unfold merge_field. case_decide; [apply htmlJsFiles_set_field | done].
Qed.

Lemma field_fold_merge_field results (keys : list mapField) key merged :
  NoDup keys →
  field key (fold_left (fun acc k => merge_field results k acc) keys merged)
  = if decide (key ∈ keys)
    then fold_left (fun acc m => m ∪ acc) (map (field key) results) (field key merged)
    else field key merged.
Proof.
  revert merged. induction keys as [|k keys IH]; intros merged Hnd; cbn [fold_left].
  - rewrite decide_False; [done | apply not_elem_of_nil].
  - apply NoDup_cons in Hnd as [Hk Hnd]. rewrite IH by done.
    rewrite field_merge_field.
    destruct (decide (k = key)) as [->|Hne].
    + rewrite decide_False by done. rewrite decide_True by apply list_elem_of_here. done.
    + destruct (decide (key ∈ keys)) as [Hin|Hin].
      * rewrite decide_True by (by apply list_elem_of_further). done.
      * rewrite decide_False; [done|]. intros [?|?]%elem_of_cons; congruence.
Qed.

Lemma htmlJsFiles_fold_merge_field results (keys : list mapField) merged :
  htmlJsFiles (fold_left (fun acc k => merge_field results k acc) keys merged)
  = htmlJsFiles merged.
Proof.
  revert merged. induction keys as [|k keys IH]; intros merged; simpl; [done|].
  by rewrite IH, htmlJsFiles_merge_field.
Qed.

Lemma NoDup_mapFields : NoDup mapFields.
Proof. unfold mapFields. repeat (apply NoDup_cons; split; [set_solver|]). apply NoDup_nil_2. Qed.

Lemma elem_of_mapFields key : key ∈ mapFields.
Proof. unfold mapFields. destruct key; set_solver. Qed.

Lemma field_merge results key :
  field key (merge results) = overlay (map (field key) results).
Proof.
  unfold merge. set (merged := fold_left _ mapFields _).
  assert (field key merged = overlay (map (field key) results)) as Hm.
  { subst merged. rewrite field_fold_merge_field by apply NoDup_mapFields.
    rewrite decide_True by apply elem_of_mapFields. by destruct key. }
  case_decide; [by rewrite field_set_htmlJsFiles | done].
Qed.

Lemma htmlJsFiles_merge results :
  htmlJsFiles (merge results) = fold_left (fun acc s => acc ∪ s) (map htmlJsFiles results) ∅.
Proof.
  unfold merge. set (merged := fold_left _ mapFields _).
  assert (htmlJsFiles merged = ∅) as Hm.
  { subst merged. by rewrite htmlJsFiles_fold_merge_field. }
  rewrite <- fold_set_spread_filter, Hm.
  case_decide as Hn; [done|].
  destruct (filter _ _); [done | simpl in Hn; lia].
Qed.

Lemma fold_overlay (ms : list (gmap string FileInfo)) (init : gmap string FileInfo) :
  fold_left (fun acc m => m ∪ acc) ms init = overlay ms ∪ init.
Proof.
  unfold overlay. revert init. induction ms as [|m ms IH]; intros init; simpl.
  - by rewrite (left_id_L ∅ (∪)).
  - rewrite IH, (IH (m ∪ ∅)), (right_id_L ∅ (∪)). by rewrite (assoc_L (∪)).
Qed.

Lemma overlay_cons m ms : overlay (m :: ms) = overlay ms ∪ m.
Proof. unfold overlay at 1. simpl. by rewrite fold_overlay, (right_id_L ∅ (∪)). Qed.

Lemma lookup_overlay_None (ms : list (gmap string FileInfo)) (p : string) :
  overlay ms !! p = None ↔ ∀ m, m ∈ ms → m !! p = None.
Proof.
  induction ms as [|m ms IH].
  - split; [by intros _ m' ?%elem_of_nil | done].
  - rewrite overlay_cons, lookup_union_None, IH. split.
    + intros [H1 H2] m' [->|?]%elem_of_cons; auto.
    + intros H. split; [intros m' ?|]; apply H; set_solver.
Qed.

Lemma lookup_overlay_last (ms1 ms2 : list (gmap string FileInfo)) m (p : string) :
  (∀ m', m' ∈ ms2 → m' !! p = None) →
  is_Some (m !! p) →
  overlay (ms1 ++ m :: ms2) !! p = m !! p.
Proof.
  intros Hlater [v Hv]. induction ms1 as [|m1 ms1 IH]; simpl.
  - rewrite overlay_cons. rewrite lookup_union_r; [done|].
    by apply lookup_overlay_None.
  - rewrite overlay_cons. rewrite lookup_union_l'; [done|].
    rewrite IH. by exists v.
Qed.

Lemma elem_of_fold_union (ss : list (gset string)) (init : gset string) (x : string) :
  x ∈ fold_left (fun acc s => acc ∪ s) ss init ↔ x ∈ init ∨ ∃ s, s ∈ ss ∧ x ∈ s.
Proof.
  revert init. induction ss as [|s ss IH]; intros init; simpl.
  - split; [auto | intros [?|(s & ?%elem_of_nil & _)]; done].
  - rewrite IH, elem_of_union. split.
    + intros [[?|?]|(s' & ? & ?)]; [by left | right; exists s | right; exists s'];
        split; try done; set_solver.
    + intros [?|(s' & [->|?]%elem_of_cons & ?)]; [by left; left | by left; right |].
      right. by exists s'.
Qed.

(** C4. [Result.merge] unions the seven mappings and the set of the
    scripts referenced by markup, a later Result overriding the earlier
    ones where they share a key: a path is absent from a merged mapping
    exactly when it is absent from that mapping in every Result, and
    otherwise the merged mapping holds the record of the last Result
    that has the path; the merged set is the union of the sets.  For two
    Results [a] and [b] with disjoint key sets in every mapping,
    [merge [a; b]] and [merge [b; a]] are equal; and whenever the second
    of two Results has a path in some mapping, the merge of the two holds
    the second one's record there. *)
Theorem merge_later_overrides (results : list Result) (a b : Result) :
  (∀ key, field key a ##ₘ field key b) →
  (∀ key p,
     field key (merge results) !! p = None
     ↔ ∀ r, r ∈ results → field key r !! p = None) ∧
  (∀ key p rs1 r rs2,
     results = rs1 ++ r :: rs2 →
     is_Some (field key r !! p) →
     (∀ r', r' ∈ rs2 → field key r' !! p = None) →
     field key (merge results) !! p = field key r !! p) ∧
  (∀ x, x ∈ htmlJsFiles (merge results) ↔ ∃ r, r ∈ results ∧ x ∈ htmlJsFiles r) ∧
  merge [a; b] = merge [b; a] ∧
  (∀ c key p,
     is_Some (field key c !! p) →
     field key (merge [a; c]) !! p = field key c !! p).
Proof.
  intros Hdisj. repeat split.
  - rewrite field_merge, lookup_overlay_None. intros H r Hr.
    apply H, list_elem_of_fmap. by exists r.
  - rewrite field_merge, lookup_overlay_None. intros H m' Hm'.
    apply list_elem_of_fmap in Hm' as (r & -> & Hr). by apply H.
  - intros key p rs1 r rs2 -> Hr Hlater. rewrite field_merge.
    rewrite map_app. simpl. apply lookup_overlay_last; [|done].
    intros m' Hm'. apply list_elem_of_fmap in Hm' as (r' & -> & Hr'). by apply Hlater.
  - rewrite htmlJsFiles_merge, elem_of_fold_union.
    intros [?%elem_of_empty|(s & Hs & Hx)]; [done|].
    apply list_elem_of_fmap in Hs as (r & -> & Hr). by exists r.
  - rewrite htmlJsFiles_merge, elem_of_fold_union.
    intros (r & Hr & Hx). right. exists (htmlJsFiles r). split; [|done].
    apply list_elem_of_fmap. by exists r.
  - apply Result_eq.
    + intros key. rewrite !field_merge. simpl.
      rewrite !overlay_cons. unfold overlay. simpl.
      rewrite !(left_id_L ∅ (∪)). symmetry. by apply map_union_comm.
    + rewrite !htmlJsFiles_merge. simpl.
      by rewrite !(left_id_L ∅ (∪)), (comm_L (∪)).
  - intros c key p Hc. rewrite field_merge.
    by apply (lookup_overlay_last [field key a] []); [intros m' ?%elem_of_nil|].
Qed.

Lemma merge_later_overrides_witness :
  merge [Map_set F_jsFiles "app.js" (merge_info "app") Result_new;
         Map_set F_jsFiles "lib.js" (merge_info "lib") Result_new]
  = merge [Map_set F_jsFiles "lib.js" (merge_info "lib") Result_new;
           Map_set F_jsFiles "app.js" (merge_info "app") Result_new].
Proof.
  refine (proj1 (proj2 (proj2 (proj2
    (merge_later_overrides [] (Map_set F_jsFiles "app.js" (merge_info "app") Result_new)
       (Map_set F_jsFiles "lib.js" (merge_info "lib") Result_new) _))))).
  intros key. apply map_disjoint_spec. intros p x y.
  destruct key; cbn; rewrite ?lookup_empty; try done.
  intros [[<- _]|[_ H]]%lookup_insert_Some; [|by rewrite lookup_empty in H].
  rewrite lookup_insert_ne by done.
  by rewrite lookup_empty.
Defined.

(** ** Strings *)

Lemma str_app_cons a (s1 s2 : string) : String a s1 +:+ s2 = String a (s1 +:+ s2).
Proof. done. Qed.

Lemma str_app_nil_l (s : string) : EmptyString +:+ s = s.
Proof. done. Qed.

Lemma str_app_nil_r (s : string) : s +:+ EmptyString = s.
Proof. induction s as [|a s IH]; [done|]. by rewrite str_app_cons, IH. Qed.

Lemma str_app_assoc (s1 s2 s3 : string) : (s1 +:+ s2) +:+ s3 = s1 +:+ (s2 +:+ s3).
Proof. induction s1 as [|a s1 IH]; [done|]. by rewrite !str_app_cons, IH. Qed.

Lemma str_length_app (s1 s2 : string) :
  String.length (s1 +:+ s2) = String.length s1 + String.length s2.
Proof. induction s1 as [|a s1 IH]; [done|]. rewrite str_app_cons. simpl. by rewrite IH. Qed.

Lemma str_app_snoc (s1 : string) a (s2 : string) :
  (s1 +:+ String a EmptyString) +:+ s2 = s1 +:+ String a s2.
Proof. by rewrite str_app_assoc. Qed.

(** ** Regular expressions: how the matcher runs on the shapes of the
    patterns of the source *)

Lemma repeat_loop_char (P : ascii -> bool) step clear (k : cont) (c : caps)
    (fuel : nat) (s : string) :
  (∀ s c k', step s c k' = char_step P s c k') →
  (∀ c, clear c = c) →
  String.length s ≤ fuel →
  repeat_loop step clear k fuel s c = star_pred P s (fun s' => k s' c).
Proof.
  intros Hstep Hclear. revert s. induction fuel as [|fuel IH]; intros s Hlen.
  - destruct s; [done | simpl in Hlen; lia].
  - destruct s as [|b s']; simpl; rewrite Hstep, Hclear; simpl; [done|].
    destruct (P b); [|done].
    assert (Nat.ltb (String.length s') (S (String.length s')) = true) as ->
      by (apply Nat.ltb_lt; lia).
    rewrite IH by (simpl in Hlen; lia). done.
Qed.

Lemma m_Dot inp s c k : m inp Dot s c k = char_step not_line_terminator s c k.
Proof.
  simpl. unfold char_step, not_line_terminator.
  destruct s as [|b s']; [done|]. by destruct (is_line_terminator b).
Qed.

Lemma m_Class inp neg items s c k :
  m inp (Class neg items) s c k = char_step (class_matches neg items) s c k.
Proof. done. Qed.

Lemma m_Star_Dot inp s c k :
  m inp (Star Dot) s c k = star_pred not_line_terminator s (fun s' => k s' c).
Proof.
  change (m inp (Star Dot) s c k)
    with (repeat_loop (m inp Dot) (clear_groups Dot) k (String.length s) s c).
  apply repeat_loop_char; [apply m_Dot | done | done].
Qed.

Lemma m_Star_Class inp neg items s c k :
  m inp (Star (Class neg items)) s c k
  = star_pred (class_matches neg items) s (fun s' => k s' c).
Proof.
  change (m inp (Star (Class neg items)) s c k)
    with (repeat_loop (m inp (Class neg items)) (clear_groups (Class neg items)) k
            (String.length s) s c).
  apply repeat_loop_char; [apply m_Class | done | done].
Qed.

Lemma m_Plus_Dot inp s c k :
  m inp (Plus Dot) s c k
  = match s with
    | String b s' =>
        if not_line_terminator b
        then star_pred not_line_terminator s' (fun s'' => k s'' c)
        else None
    | EmptyString => None
    end.
Proof.
  change (m inp (Plus Dot) s c k)
    with (m inp Dot s (clear_groups Dot c)
            (fun s1 c1 => repeat_loop (m inp Dot) (clear_groups Dot) k
                            (String.length s1) s1 c1)).
  rewrite m_Dot. unfold char_step. destruct s as [|b s']; [done|].
  destruct (not_line_terminator b); [|done].
  apply repeat_loop_char; [apply m_Dot | done | done].
Qed.

Lemma m_Plus_Class inp neg items s c k :
  m inp (Plus (Class neg items)) s c k
  = match s with
    | String b s' =>
        if class_matches neg items b
        then star_pred (class_matches neg items) s' (fun s'' => k s'' c)
        else None
    | EmptyString => None
    end.
Proof.
  change (m inp (Plus (Class neg items)) s c k)
    with (m inp (Class neg items) s (clear_groups (Class neg items) c)
            (fun s1 c1 => repeat_loop (m inp (Class neg items))
                            (clear_groups (Class neg items)) k
                            (String.length s1) s1 c1)).
  rewrite m_Class. unfold char_step. destruct s as [|b s']; [done|].
  destruct (class_matches neg items b); [|done].
  apply repeat_loop_char; [apply m_Class | done | done].
Qed.

(** A continuation that accepts only at the end of the input makes a
    repetition take the whole rest, or fail. *)
Lemma star_pred_to_end (P : ascii -> bool) (s : string) (k : string -> option caps) :
  (∀ b s', k (String b s') = None) →
  star_pred P s k = if all_chars P s then k EmptyString else None.
Proof.
  intros Hk. induction s as [|b s' IH]; simpl; [done|].
  destruct (P b); simpl; [|apply Hk].
  rewrite IH. destruct (all_chars P s'); [|apply Hk].
  destruct (k EmptyString) eqn:He; [done | apply Hk].
Qed.

(** A pattern that starts with [^] matches at the start of the input or
    nowhere. *)
Lemma m_Seq_Bol inp r s c k :
  m inp (Seq Bol r) s c k
  = if Nat.eqb (String.length s) (String.length inp) then m inp r s c k else None.
Proof. done. Qed.

Lemma search_Bol_suffix r inp s :
  String.length s < String.length inp → search (Seq Bol r) inp s = None.
Proof.
  induction s as [|b s' IH]; intros Hlen; cbn [search]; rewrite m_Seq_Bol.
  - destruct (Nat.eqb_spec (String.length EmptyString) (String.length inp)); [lia | done].
  - destruct (Nat.eqb_spec (String.length (String b s')) (String.length inp)); [lia|].
    apply IH. simpl in Hlen. lia.
Qed.

Lemma search_Bol r inp :
  search (Seq Bol r) inp inp
  = m inp r inp [] (fun s' c' => Some ((0, Some (consumed inp s')) :: c')).
Proof.
  destruct inp as [|b s']; cbn [search]; rewrite m_Seq_Bol, Nat.eqb_refl.
  - by destruct (m _ _ _ _ _).
  - destruct (m _ _ _ _ _); [done|].
    apply search_Bol_suffix. simpl. lia.
Qed.

Lemma consumed_app (a b : string) : consumed (a +:+ b) b = a.
Proof.
  unfold consumed. rewrite str_length_app.
  replace (String.length a + String.length b - String.length b) with (String.length a) by lia.
  induction a as [|x a IH]; [by destruct b|].
  rewrite str_app_cons. simpl. by rewrite IH.
Qed.

Lemma consumed_all (a : string) : consumed a EmptyString = a.
Proof.
  rewrite <- (consumed_app a EmptyString) at 2. by rewrite str_app_nil_r.
Qed.

Lemma consumed_nil (a : string) : consumed a a = EmptyString.
Proof. apply (consumed_app EmptyString a). Qed.

(** ** FILENAME_REGEXP *)

(** The four patterns of the source are in the fragment that [compile]
    reads. *)
Lemma patterns_compile :
  compile "^(.*)\.(\w+)$" = Some FILENAME_REGEXP
  ∧ compile "^(Default(-(Landscape|Portrait))?(-[0-9]+h)?(@[2-9]x)?)\.png$"
    = Some LAUNCH_IMAGE_REGEXP
  ∧ compile "^LaunchLogo(?:@([23])x)?(?:~(iphone|ipad))?\.(?:png|jpg)$"
    = Some LAUNCH_LOGO_REGEXP
  ∧ compile ".+\.bundle\/.+" = Some BUNDLE_FILE_REGEXP.
Proof. repeat split; reflexivity. Qed.

Lemma FILENAME_REGEXP_eq :
  FILENAME_REGEXP
  = Seq Bol (Seq (Group 1 (Star Dot))
       (Seq (Chr ".") (Seq (Group 2 (Plus (Class false [CWord]))) Eol))).
Proof. reflexivity. Qed.

Lemma class_word b : class_matches false [CWord] b = is_word b.
Proof. unfold class_matches. simpl. by rewrite orb_false_r. Qed.

Lemma all_chars_ext (P Q : ascii -> bool) s :
  (∀ b, P b = Q b) → all_chars P s = all_chars Q s.
Proof. intros H. induction s as [|b s IH]; simpl; [done|]. by rewrite H, IH. Qed.

Lemma star_pred_ext (P : ascii -> bool) s (k k' : string -> option caps) :
  (∀ s', k s' = k' s') → star_pred P s k = star_pred P s k'.
Proof.
  intros H. induction s as [|b s IH]; simpl; [apply H|].
  rewrite IH, H. done.
Qed.

Lemma m_Seq inp r1 r2 s c k :
  m inp (Seq r1 r2) s c k = m inp r1 s c (fun s' c' => m inp r2 s' c' k).
Proof. done. Qed.

Lemma m_Group inp n r s c k :
  m inp (Group n r) s c k
  = m inp r s c (fun s' c' => k s' ((n, Some (consumed s s')) :: c')).
Proof. done. Qed.

Lemma m_Chr inp a s c k :
  m inp (Chr a) s c k
  = match s with
    | String b s' => if Ascii.eqb b a then k s' c else None
    | EmptyString => None
    end.
Proof. done. Qed.

Lemma m_Eol inp s c k :
  m inp Eol s c k = match s with EmptyString => k s c | String _ _ => None end.
Proof. done. Qed.

Lemma m_ext_tail inp s2 c :
  m inp (Seq (Chr ".") (Seq (Group 2 (Plus (Class false [CWord]))) Eol)) s2 c
    (fun s' c' => Some ((0, Some (consumed inp s')) :: c'))
  = ext_tail inp s2 c.
Proof.
  rewrite m_Seq, m_Chr. destruct s2 as [|d e]; [done|]. simpl ext_tail.
  destruct (Ascii.eqb d "."); [|done].
  rewrite m_Seq, m_Group, m_Plus_Class. destruct e as [|b e']; [done|].
  rewrite class_word. simpl. destruct (is_word b); [|done]. simpl.
  rewrite star_pred_to_end by done.
  rewrite (all_chars_ext _ is_word) by apply class_word.
  destruct (all_chars is_word e'); [|done].
  by rewrite !consumed_all.
Qed.

Lemma split_last_dot_not_word s p : split_last_dot s = Some p → all_chars is_word s = false.
Proof.
  revert p. induction s as [|c s IH]; intros p; simpl; [done|].
  destruct (split_last_dot s) as [[b e]|].
  - intros _. rewrite (IH _ eq_refl). apply andb_false_r.
  - destruct (Ascii.eqb_spec c "."); [subst; done | done].
Qed.

Lemma star_dot_filename inp pre s :
  inp = pre +:+ s →
  star_pred not_line_terminator s
    (fun s2 => ext_tail inp s2 [(1, Some (consumed inp s2))])
  = match split_last_dot s with
    | Some (b, e) =>
        if ext_ok b e
        then Some [(0, Some inp); (2, Some e); (1, Some (pre +:+ b))]
        else None
    | None => None
    end.
Proof.
  revert pre. induction s as [|c s' IH]; intros pre Hinp; [done|].
  cbn [star_pred split_last_dot].
  assert (ext_tail inp (String c s') [(1, Some (consumed inp (String c s')))]
          = if Ascii.eqb c "." && negb (String.eqb s' "") && all_chars is_word s'
            then Some [(0, Some inp); (2, Some s'); (1, Some pre)] else None) as Htail.
  { simpl. by rewrite Hinp, consumed_app. }
  rewrite Htail. clear Htail.
  destruct (not_line_terminator c) eqn:Hc.
  - rewrite (IH (pre +:+ String c EmptyString)) by (by rewrite str_app_snoc).
    destruct (split_last_dot s') as [[b e]|] eqn:Hs.
    + unfold ext_ok. cbn [all_chars]. rewrite Hc, andb_true_l.
      fold (ext_ok b e). destruct (ext_ok b e); [by rewrite str_app_snoc|].
      rewrite (split_last_dot_not_word _ _ Hs). by rewrite andb_false_r.
    + destruct (Ascii.eqb c "."); [|done]. unfold ext_ok. simpl.
      rewrite andb_true_r, str_app_nil_r. done.
  - assert (Ascii.eqb c "." = false) as ->.
    { destruct (Ascii.eqb_spec c "."); [by subst | done]. }
    destruct (split_last_dot s') as [[b e]|]; [|done].
    unfold ext_ok. cbn [all_chars]. rewrite Hc. by rewrite andb_false_r.
Qed.

(** The match array of [FILENAME_REGEXP] on a name. *)
Lemma exec_FILENAME_REGEXP (name : string) :
  exec FILENAME_REGEXP name
  = match parsed_name name with
    | Some (b, e) => Some [Some name; Some b; Some e]
    | None => None
    end.
Proof.
  unfold exec, parsed_name. rewrite FILENAME_REGEXP_eq, search_Bol.
  rewrite m_Seq, m_Group, m_Star_Dot.
  rewrite (star_pred_ext _ _ _ (fun s2 => ext_tail name s2 [(1, Some (consumed name s2))])).
  2: { intros s2. apply m_ext_tail. }
  rewrite (star_dot_filename name EmptyString) by done.
  destruct (split_last_dot name) as [[b e]|]; [|done].
  destruct (ext_ok b e); done.
Qed.

(** ** The classification of one file *)

Lemma split_last_dot_app_eq s b e : split_last_dot s = Some (b, e) → s = b +:+ String "." e.
Proof.
  revert b. induction s as [|c s IH]; intros b; simpl; [done|].
  destruct (split_last_dot s) as [[b' e']|].
  - intros [= <- <-]. rewrite str_app_cons. f_equal. by apply IH.
  - destruct (Ascii.eqb_spec c "."); [|done]. intros [= <- <-]. by subst.
Qed.

Lemma split_last_dot_word e : all_chars is_word e = true → split_last_dot e = None.
Proof.
  intros He. destruct (split_last_dot e) as [p|] eqn:Hs; [|done].
  apply split_last_dot_not_word in Hs. congruence.
Qed.

Lemma split_last_dot_app b e :
  all_chars is_word e = true → split_last_dot (b +:+ String "." e) = Some (b, e).
Proof.
  intros He. induction b as [|c b IH].
  - rewrite str_app_nil_l. simpl. by rewrite (split_last_dot_word e He).
  - rewrite str_app_cons. simpl. by rewrite IH.
Qed.

(** What [parsed_name] computes: the name is cut at a dot that is followed,
    up to the end, by a non-empty run of letters, digits and underscores
    (so the dot is the last one) and preceded by no line break. *)
Lemma parsed_name_spec name b e :
  parsed_name name = Some (b, e)
  ↔ name = b +:+ String "." e ∧ e ≠ EmptyString
    ∧ all_chars is_word e = true ∧ all_chars not_line_terminator b = true.
Proof.
  unfold parsed_name, ext_ok. split.
  - destruct (split_last_dot name) as [[b' e']|] eqn:Hs; [|done].
    destruct (String.eqb_spec e' ""); simpl; [done|].
    destruct (all_chars is_word e') eqn:He; simpl; [|done].
    destruct (all_chars not_line_terminator b') eqn:Hb; [|done].
    intros [= <- <-]. by apply split_last_dot_app_eq in Hs.
  - intros (-> & Hne & He & Hb). rewrite split_last_dot_app by done.
    rewrite He, Hb. by destruct (String.eqb_spec e "").
Qed.

Lemma file_info_parsed name from to :
  file_info name from to
  = match parsed_name name with
    | Some (b, e) => mkInfo (Some b) (Some e) from to None None None
    | None => mkInfo (Some name) None from to None None None
    end.
Proof.
  unfold file_info. rewrite exec_FILENAME_REGEXP.
  by destruct (parsed_name name) as [[b e]|].
Qed.

Section VisitFile.

Variable analyzeHtmlFile : string -> string -> list string.

Lemma field_add_scripts key (scripts : list string) (results : Result) :
  field key (fold_left (fun r file => set_htmlJsFiles ({[file]} ∪ htmlJsFiles r) r)
               scripts results)
  = field key results.
Proof.
  revert results. induction scripts as [|f l IH]; intros results; simpl; [done|].
  by rewrite IH, field_set_htmlJsFiles.
Qed.

Lemma htmlJsFiles_add_scripts (scripts : list string) (results : Result) :
  htmlJsFiles (fold_left (fun r file => set_htmlJsFiles ({[file]} ∪ htmlJsFiles r) r)
                 scripts results)
  = list_to_set scripts ∪ htmlJsFiles results.
Proof.
  revert results. induction scripts as [|f l IH]; intros results; simpl.
  - by rewrite (left_id_L ∅ (∪)).
  - rewrite IH. destruct results; simpl.
    by rewrite (assoc_L (∪)), (comm_L (∪) _ {[f]}).
Qed.

(** Every file that is not skipped is recorded in one mapping, under its
    relative path, with the name and extension of [file_info]; the other
    mappings are left as they were. *)
Lemma _visitFile_one_bucket (this : Walker) (results : Result)
    (from to name src : string) (origSrc prefix : option string) :
  opt_test (ignoreFiles this) name = false →
  ∃ key info,
    (∀ key', field key' (_visitFile analyzeHtmlFile this results from to name src origSrc prefix)
             = if decide (key = key')
               then <[relative_path from src origSrc prefix := info]> (field key results)
               else field key' results) ∧
    info_name info = info_name (file_info name from to) ∧
    info_ext info = info_ext (file_info name from to) ∧
    info_src info = from ∧ info_dest info = to.
Proof.
  intros Hign. unfold _visitFile. rewrite Hign.
  set (relPath := relative_path from src origSrc prefix).
  set (info := file_info name from to).
  assert (∀ key i, info_name i = info_name info → info_ext i = info_ext info →
            info_src i = from → info_dest i = to →
            ∃ key0 info0,
              (∀ key', field key' (Map_set key relPath i results)
                       = if decide (key0 = key')
                         then <[relPath := info0]> (field key0 results)
                         else field key' results) ∧
              info_name info0 = info_name info ∧ info_ext info0 = info_ext info ∧
              info_src info0 = from ∧ info_dest info0 = to) as Hset.
  { intros key i ????. exists key, i. split; [|done].
    intros key'. apply field_Map_set. }
  assert (∀ i, info_name i = info_name info → info_ext i = info_ext info →
            info_src i = from → info_dest i = to →
            ∃ key0 info0,
              (∀ key', field key' (png_jpg_rule this results name relPath i)
                       = if decide (key0 = key')
                         then <[relPath := info0]> (field key0 results)
                         else field key' results) ∧
              info_name info0 = info_name info ∧ info_ext info0 = info_ext info ∧
              info_src info0 = from ∧ info_dest info0 = to) as Hrule.
  { intros i ????. unfold png_jpg_rule.
    destruct (exec LAUNCH_LOGO_REGEXP name); [by apply Hset|].
    destruct (_ && _); by apply Hset. }
  repeat case_decide; try by apply Hset.
  - destruct (negb (truthy origSrc)); [|by apply Hrule].
    destruct (match appIconRegExp this with Some r => exec r name | None => None end);
      [by apply Hset|].
    destruct (test LAUNCH_IMAGE_REGEXP name); [by apply Hset | by apply Hrule].
  - by apply Hrule.
  - exists F_resourcesToCopy, info. split; [|done]. intros key'.
    unfold default_rule. rewrite field_Map_set, !field_add_scripts. done.
Qed.

End VisitFile.

(** ** The equations of the traversal *)

Section Traversal.

Variable analyzeHtmlFile : string -> string -> list string.

Lemma _visitListing_file this results name src dest ignore origSrc prefix :
  _visitListing analyzeHtmlFile this results (Dirent_file name) src dest ignore origSrc prefix
  = if opt_test ignore name then Resolved results
    else Resolved (_visitFile analyzeHtmlFile this results (path_join src name)
                     (path_join dest name) name src origSrc prefix).
Proof. done. Qed.

Lemma _visitListing_recurse this results name readdir src dest ignore origSrc prefix d :
  d = Dirent_dir name readdir ∨ d = Dirent_link name (Resolved (Stats_dir readdir)) →
  _visitListing analyzeHtmlFile this results d src dest ignore origSrc prefix
  = if opt_test ignore name then Resolved results
    else if opt_test (ignoreDirs this) name then Resolved results
    else _walkDir analyzeHtmlFile this results readdir (path_join src name)
           (path_join dest name) None (Some (or_else origSrc src)) prefix.
Proof.
  intros [-> | ->]; cbn [_visitListing dirent_name];
    (destruct (opt_test ignore name); [done|]);
    (destruct (opt_test (ignoreDirs this) name); [done|]);
    (destruct readdir as [listing|e]; [|done]); cbn [_walkDir];
    generalize results; induction listing as [|d listing IH]; intros r; cbn [visit_all];
    try done;
    (destruct (_visitListing _ _ _ d _ _ _ _ _); [apply IH | done]).
Qed.

Lemma _visitListing_dir this results name readdir src dest ignore origSrc prefix :
  _visitListing analyzeHtmlFile this results (Dirent_dir name readdir) src dest ignore
    origSrc prefix
  = if opt_test ignore name then Resolved results
    else if opt_test (ignoreDirs this) name then Resolved results
    else _walkDir analyzeHtmlFile this results readdir (path_join src name)
           (path_join dest name) None (Some (or_else origSrc src)) prefix.
Proof. apply _visitListing_recurse. by left. Qed.

Lemma _visitListing_link this results name stat src dest ignore origSrc prefix :
  _visitListing analyzeHtmlFile this results (Dirent_link name stat) src dest ignore
    origSrc prefix
  = if opt_test ignore name then Resolved results
    else match stat with
         | Rejected e => Rejected e
         | Resolved Stats_file =>
             Resolved (_visitFile analyzeHtmlFile this results (path_join src name)
                         (path_join dest name) name src origSrc prefix)
         | Resolved (Stats_dir readdir) =>
             if opt_test (ignoreDirs this) name then Resolved results
             else _walkDir analyzeHtmlFile this results readdir (path_join src name)
                    (path_join dest name) None (Some (or_else origSrc src)) prefix
         end.
Proof.
  destruct stat as [[|readdir]|e].
  - done.
  - rewrite (_visitListing_recurse _ _ name readdir) by (by right).
    by destruct (opt_test ignore name).
  - cbn [_visitListing dirent_name]. by destruct (opt_test ignore name).
Qed.

End Traversal.

(** ** The name and the extension of a record (C9) *)

Section NameAndExtension.

Variable analyzeHtmlFile : string -> string -> list string.

(** C9, as amended. The record of every classified file holds as its
    extension the text after the last dot of the filename, in the case it
    has in the filename, when that text is a non-empty run of letters,
    digits and underscores and no line break comes before the dot; its
    name is then the text before that dot.  For any other filename the
    extension is absent and the name is the whole filename. *)
Theorem record_name_and_extension (this : Walker) (results : Result)
    (from to name src : string) (origSrc prefix : option string) :
  opt_test (ignoreFiles this) name = false →
  (∃ key info,
     field key (_visitFile analyzeHtmlFile this results from to name src origSrc prefix)
       !! relative_path from src origSrc prefix = Some info ∧
     match parsed_name name with
     | Some (b, e) => info_name info = Some b ∧ info_ext info = Some e
     | None => info_name info = Some name ∧ info_ext info = None
     end) ∧
  (∀ b e,
     parsed_name name = Some (b, e)
     ↔ name = b +:+ String "." e ∧ e ≠ EmptyString
       ∧ all_chars is_word e = true ∧ all_chars not_line_terminator b = true).
Proof.
  intros Hign. split; [|apply parsed_name_spec].
  destruct (_visitFile_one_bucket analyzeHtmlFile this results from to name src
              origSrc prefix Hign) as (key & info & Hf & Hn & He & _).
  exists key, info. split.
  - rewrite Hf, decide_True by done. apply lookup_insert_eq.
  - rewrite Hn, He, file_info_parsed. by destruct (parsed_name name) as [[b e]|].
Qed.

End NameAndExtension.

Lemma record_name_and_extension_witness :
  ∃ key info,
    field key (_visitFile no_scripts (mkWalker false None None None) Result_new
                 "/app/archive.tar.gz" "/build/archive.tar.gz" "archive.tar.gz"
                 "/app" None None)
      !! relative_path "/app/archive.tar.gz" "/app" None None = Some info ∧
    match parsed_name "archive.tar.gz" with
    | Some (b, e) => info_name info = Some b ∧ info_ext info = Some e
    | None => info_name info = Some "archive.tar.gz"%string ∧ info_ext info = None
    end.
Proof.
  apply (record_name_and_extension no_scripts (mkWalker false None None None) Result_new
           "/app/archive.tar.gz" "/build/archive.tar.gz" "archive.tar.gz" "/app" None None).
  reflexivity.
Defined.

(** C9, as stated, fails: the extension of [A.PNG] is recorded as [PNG],
    which is not the lower-case extension [png]. *)
Lemma extension_not_lowercased :
  info_ext <$> (resourcesToCopy
                  (_visitFile no_scripts (mkWalker false None None None) Result_new
                     "/app/A.PNG" "/build/A.PNG" "A.PNG" "/app" None None)
                !! "A.PNG")
  = Some (Some "PNG"%string)
  ∧ to_lower "PNG" = "png"%string
  ∧ Some "PNG"%string ≠ Some (to_lower "PNG").
Proof. split; [|split]; [vm_compute; reflexivity | vm_compute; reflexivity | by vm_compute]. Qed.

(** ** The rules of the root level (C2) *)

Lemma exec_FILENAME_Default :
  exec FILENAME_REGEXP "Default.png"
  = Some [Some "Default.png"; Some "Default"; Some "png"]%string.
Proof. vm_compute. reflexivity. Qed.

Lemma test_LAUNCH_IMAGE_Default : test LAUNCH_IMAGE_REGEXP "Default.png" = true.
Proof. vm_compute. reflexivity. Qed.

Lemma exec_LAUNCH_LOGO_Default : exec LAUNCH_LOGO_REGEXP "Default.png" = None.
Proof. vm_compute. reflexivity. Qed.

Section RootLevel.

Variable analyzeHtmlFile : string -> string -> list string.

(** With [origSrc] set, no file is recorded as an app icon or as a launch
    image. *)
Lemma _visitFile_below_root this results from to name src origSrc prefix :
  truthy origSrc = true →
  appIcons (_visitFile analyzeHtmlFile this results from to name src origSrc prefix)
  = appIcons results
  ∧ launchImages (_visitFile analyzeHtmlFile this results from to name src origSrc prefix)
    = launchImages results.
Proof.
  intros Ht. unfold _visitFile. rewrite Ht. cbn [negb].
  change appIcons with (field F_appIcons). change launchImages with (field F_launchImages).
  assert (∀ key relPath i,
            key ≠ F_appIcons → key ≠ F_launchImages →
            field F_appIcons (Map_set key relPath i results) = field F_appIcons results
            ∧ field F_launchImages (Map_set key relPath i results)
              = field F_launchImages results) as Hset.
  { intros key relPath i ??. rewrite !field_Map_set, !decide_False by done. done. }
  assert (∀ relPath i,
            field F_appIcons (png_jpg_rule this results name relPath i)
            = field F_appIcons results
            ∧ field F_launchImages (png_jpg_rule this results name relPath i)
              = field F_launchImages results) as Hrule.
  { intros relPath i. unfold png_jpg_rule.
    destruct (exec LAUNCH_LOGO_REGEXP name); [by apply Hset|].
    destruct (_ && _); by apply Hset. }
  destruct (opt_test (ignoreFiles this) name); [done|].
  repeat case_decide; try (by apply Hset); try apply Hrule.
  unfold default_rule. rewrite !field_Map_set, !decide_False by done.
  by rewrite !field_add_scripts.
Qed.

(** C2. The app-icon and launch-image rules apply only while [origSrc] is
    unset: with [origSrc] set, no file goes to appIcons or launchImages.
    A file named [Default.png] that the app-icon pattern does not match is
    placed into launchImages when [origSrc] is unset, and, with app
    thinning off, into resourcesToCopy when it is set.  The files that are
    visited with [origSrc] unset are the children of the requested root:
    the walk of a root that holds [Default.png] and a subdirectory holding
    another [Default.png] records the first as a launch image and the
    second as a resource to copy. *)
Theorem root_level_rules_scope (this : Walker) (results : Result)
    (from to src dest sub : string) (origSrc prefix : option string) :
  opt_test (ignoreFiles this) "Default.png" = false →
  match appIconRegExp this with
  | Some r => exec r "Default.png"
  | None => None
  end = None →
  useAppThinning this = false →
  opt_test (ignoreDirs this) sub = false →
  src ≠ EmptyString →
  (∀ results from to name src prefix,
     truthy origSrc = true →
     appIcons (_visitFile analyzeHtmlFile this results from to name src origSrc prefix)
     = appIcons results
     ∧ launchImages (_visitFile analyzeHtmlFile this results from to name src origSrc prefix)
       = launchImages results) ∧
  (truthy origSrc = false →
   _visitFile analyzeHtmlFile this results from to "Default.png" src origSrc prefix
   = Map_set F_launchImages (relative_path from src origSrc prefix)
       (file_info "Default.png" from to) results) ∧
  (truthy origSrc = true →
   _visitFile analyzeHtmlFile this results from to "Default.png" src origSrc prefix
   = Map_set F_resourcesToCopy (relative_path from src origSrc prefix)
       (file_info "Default.png" from to) results) ∧
  walk analyzeHtmlFile this
    (Some (Resolved [Dirent_file "Default.png";
                     Dirent_dir sub (Resolved [Dirent_file "Default.png"])]))
    src dest None None prefix
  = Resolved
      (Map_set F_resourcesToCopy
         (relative_path (path_join (path_join src sub) "Default.png")
            (path_join src sub) (Some src) prefix)
         (file_info "Default.png" (path_join (path_join src sub) "Default.png")
            (path_join (path_join dest sub) "Default.png"))
         (Map_set F_launchImages
            (relative_path (path_join src "Default.png") src None prefix)
            (file_info "Default.png" (path_join src "Default.png")
               (path_join dest "Default.png"))
            Result_new)).
Proof.
  intros Hign Hicon Hthin Hdirs Hsrc.
  assert (∀ results from to src origSrc,
            truthy origSrc = false →
            _visitFile analyzeHtmlFile this results from to "Default.png" src origSrc prefix
            = Map_set F_launchImages (relative_path from src origSrc prefix)
                (file_info "Default.png" from to) results) as Hroot.
  { intros results' from' to' src' origSrc' Ht. unfold _visitFile.
    rewrite Hign, exec_FILENAME_Default, Ht, Hicon, test_LAUNCH_IMAGE_Default.
    done. }
  assert (∀ results from to src origSrc,
            truthy origSrc = true →
            _visitFile analyzeHtmlFile this results from to "Default.png" src origSrc prefix
            = Map_set F_resourcesToCopy (relative_path from src origSrc prefix)
                (file_info "Default.png" from to) results) as Hsub.
  { intros results' from' to' src' origSrc' Ht. unfold _visitFile, png_jpg_rule.
    rewrite Hign, exec_FILENAME_Default, Ht, exec_LAUNCH_LOGO_Default, Hthin.
    done. }
  split; [|split; [|split]].
  - intros. by apply _visitFile_below_root.
  - apply Hroot.
  - apply Hsub.
  - unfold walk, _walkDir. cbn [visit_all].
    rewrite _visitListing_file. cbn [opt_test].
    rewrite _visitListing_dir. cbn [opt_test]. rewrite Hdirs.
    unfold _walkDir. cbn [visit_all]. rewrite _visitListing_file. cbn [opt_test].
    rewrite (Hroot Result_new) by done. cbn [or_else].
    rewrite Hsub; [done|]. simpl. by destruct (String.eqb_spec src "").
Qed.

End RootLevel.

Lemma appicon_walker_new : Walker_new "appicon.png" false None None = Some appicon_walker.
Proof. vm_compute. reflexivity. Qed.

Lemma root_level_rules_scope_witness :
  walk no_scripts appicon_walker
    (Some (Resolved [Dirent_file "Default.png";
                     Dirent_dir "images" (Resolved [Dirent_file "Default.png"])]))
    "/app/Resources" "/build" None None None
  = Resolved
      (Map_set F_resourcesToCopy "images/Default.png"
         (file_info "Default.png" "/app/Resources/images/Default.png"
            "/build/images/Default.png")
         (Map_set F_launchImages "Default.png"
            (file_info "Default.png" "/app/Resources/Default.png" "/build/Default.png")
            Result_new)).
Proof.
  refine (proj2 (proj2 (proj2
    (root_level_rules_scope no_scripts appicon_walker Result_new "" "" "/app/Resources"
       "/build" "images" None None _ _ _ _ _)))); [reflexivity.. | done].
Defined.

(** ** The launch-logo rule (C8) *)

Lemma exec_Some_search r s a :
  exec r s = Some a → ∃ c, search r s s = Some c.
Proof. unfold exec. destruct (search r s s) as [c|]; [by exists c | done]. Qed.

(** A name that [LAUNCH_LOGO_REGEXP] matches starts with [L]. *)
Lemma exec_LAUNCH_LOGO_first name a :
  exec LAUNCH_LOGO_REGEXP name = Some a → ∃ s, name = String "L" s.
Proof.
  intros [c Hc]%exec_Some_search. revert Hc.
  assert (∃ r, LAUNCH_LOGO_REGEXP = Seq Bol (Seq (Chr "L") r)) as [r ->]
    by (eexists; reflexivity).
  rewrite search_Bol, m_Seq, m_Chr. destruct name as [|b s]; [done|].
  destruct (Ascii.eqb_spec b "L"); [subst; by exists s | done].
Qed.

(** A name that [LAUNCH_IMAGE_REGEXP] matches starts with [D]. *)
Lemma test_LAUNCH_IMAGE_first name :
  test LAUNCH_IMAGE_REGEXP name = true → ∃ s, name = String "D" s.
Proof.
  unfold test. destruct (exec LAUNCH_IMAGE_REGEXP name) as [a|] eqn:Ha; [|done].
  intros _. apply exec_Some_search in Ha as [c Hc]. revert Hc.
  assert (∃ r1 r2, LAUNCH_IMAGE_REGEXP = Seq Bol (Seq (Group 1 (Seq (Chr "D") r1)) r2))
    as (r1 & r2 & ->) by (do 2 eexists; reflexivity).
  rewrite search_Bol, m_Seq, m_Group, m_Seq, m_Chr. destruct name as [|b s]; [done|].
  destruct (Ascii.eqb_spec b "D"); [subst; by exists s | done].
Qed.

Lemma LAUNCH_LOGO_not_LAUNCH_IMAGE name a :
  exec LAUNCH_LOGO_REGEXP name = Some a → test LAUNCH_IMAGE_REGEXP name = false.
Proof.
  intros [s ->]%exec_LAUNCH_LOGO_first.
  destruct (test LAUNCH_IMAGE_REGEXP (String "L" s)) eqn:Ht; [|done].
  by apply test_LAUNCH_IMAGE_first in Ht as [s' [=]].
Qed.

Section LaunchLogo.

Variable analyzeHtmlFile : string -> string -> list string.

(** C8, as amended. A png or jpg file whose name matches the launch-logo
    pattern is placed into launchLogos, with the scale and the device
    that the pattern captured stored in its record, at any depth below
    the root, and at the root level too unless it is a png file that the
    app-icon pattern matches (the app-icon rule comes first there).  The
    name [LaunchLogo@2x~ipad.png] gives the scale [2] and the device
    [ipad]. *)
Theorem launch_logo_rule (this : Walker) (results : Result)
    (from to name src : string) (origSrc prefix : option string)
    (logo : list (option string)) :
  opt_test (ignoreFiles this) name = false →
  info_ext (file_info name from to) = Some "png"%string
  ∨ info_ext (file_info name from to) = Some "jpg"%string →
  exec LAUNCH_LOGO_REGEXP name = Some logo →
  (info_ext (file_info name from to) = Some "png"%string →
   truthy origSrc = false →
   match appIconRegExp this with
   | Some r => exec r name
   | None => None
   end = None) →
  _visitFile analyzeHtmlFile this results from to name src origSrc prefix
  = Map_set F_launchLogos (relative_path from src origSrc prefix)
      (mkInfo (info_name (file_info name from to)) (info_ext (file_info name from to))
         from to None (Some (at_index logo 1)) (Some (at_index logo 2)))
      results
  ∧ exec LAUNCH_LOGO_REGEXP "LaunchLogo@2x~ipad.png"
    = Some [Some "LaunchLogo@2x~ipad.png"; Some "2"; Some "ipad"]%string.
Proof.
  intros Hign Hext Hlogo Hicon. split; [|by vm_compute].
  pose proof (LAUNCH_LOGO_not_LAUNCH_IMAGE _ _ Hlogo) as Himg.
  unfold _visitFile. rewrite Hign.
  change (match exec FILENAME_REGEXP name with
          | Some p => at_index p 2
          | None => None
          end) with (info_ext (file_info name from to)) in *.
  assert (png_jpg_rule this results name (relative_path from src origSrc prefix)
            (file_info name from to)
          = Map_set F_launchLogos (relative_path from src origSrc prefix)
              (mkInfo (info_name (file_info name from to))
                 (info_ext (file_info name from to)) from to None
                 (Some (at_index logo 1)) (Some (at_index logo 2)))
              results) as Hrule.
  { unfold png_jpg_rule. by rewrite Hlogo. }
  destruct Hext as [Hext|Hext].
  - rewrite Hext in *. rewrite decide_False, decide_False, decide_True by done.
    destruct (truthy origSrc) eqn:Ht; cbn [negb]; [apply Hrule|].
    rewrite (Hicon eq_refl eq_refl), Himg. apply Hrule.
  - rewrite Hext in *.
    rewrite decide_False, decide_False, decide_False, decide_True by done.
    apply Hrule.
Qed.

End LaunchLogo.

Lemma launch_logo_rule_witness :
  _visitFile no_scripts appicon_walker Result_new
    "/app/Resources/iphone/LaunchLogo@2x~ipad.png" "/build/iphone/LaunchLogo@2x~ipad.png"
    "LaunchLogo@2x~ipad.png" "/app/Resources/iphone" (Some "/app/Resources"%string) None
  = Map_set F_launchLogos "iphone/LaunchLogo@2x~ipad.png"
      (mkInfo (Some "LaunchLogo@2x~ipad"%string) (Some "png"%string)
         "/app/Resources/iphone/LaunchLogo@2x~ipad.png"
         "/build/iphone/LaunchLogo@2x~ipad.png"
         None (Some (Some "2"%string)) (Some (Some "ipad"%string)))
      Result_new.
Proof.
  refine (proj1
    (launch_logo_rule no_scripts appicon_walker Result_new
       "/app/Resources/iphone/LaunchLogo@2x~ipad.png"
       "/build/iphone/LaunchLogo@2x~ipad.png"
       "LaunchLogo@2x~ipad.png" "/app/Resources/iphone" (Some "/app/Resources"%string)
       None [Some "LaunchLogo@2x~ipad.png"; Some "2"; Some "ipad"]%string _ _ _ _));
    [reflexivity | left; reflexivity | reflexivity | discriminate].
Defined.

(** C8, as stated, fails at the root level: when the icon of the
    application is [LaunchLogo.png], the file [LaunchLogo@2x~ipad.png] of
    the root matches the launch-logo pattern and is recorded as an app
    icon, not as a launch logo. *)
Lemma launch_logo_taken_as_app_icon :
  Walker_new "LaunchLogo.png" false None None = Some launchlogo_icon_walker
  ∧ exec LAUNCH_LOGO_REGEXP "LaunchLogo@2x~ipad.png"
    = Some [Some "LaunchLogo@2x~ipad.png"; Some "2"; Some "ipad"]%string
  ∧ launchLogos
      (_visitFile no_scripts launchlogo_icon_walker Result_new
         "/app/Resources/LaunchLogo@2x~ipad.png" "/build/LaunchLogo@2x~ipad.png"
         "LaunchLogo@2x~ipad.png" "/app/Resources" None None)
    !! "LaunchLogo@2x~ipad.png" = None
  ∧ info_tag <$>
      (appIcons
         (_visitFile no_scripts launchlogo_icon_walker Result_new
            "/app/Resources/LaunchLogo@2x~ipad.png" "/build/LaunchLogo@2x~ipad.png"
            "LaunchLogo@2x~ipad.png" "/app/Resources" None None)
       !! "LaunchLogo@2x~ipad.png")
    = Some (Some (Some "@2x~ipad"%string)).
Proof. repeat split; vm_compute; reflexivity. Qed.

(** ** Literal text in a pattern, and searches *)

Lemma m_lits inp l r s c k :
  m inp (lits l r) s c k
  = match strip_prefix l s with
    | Some s' => m inp r s' c k
    | None => None
    end.
Proof.
  revert s. induction l as [|a l IH]; intros s; [done|].
  cbn [lits]. rewrite m_Seq, m_Chr. destruct s as [|b s]; [done|]. simpl.
  destruct (Ascii.eqb b a); [apply IH | done].
Qed.

Lemma strip_prefix_Some l s s' : strip_prefix l s = Some s' ↔ s = l +:+ s'.
Proof.
  revert s. induction l as [|a l IH]; intros s; simpl.
  - rewrite str_app_nil_l. split; congruence.
  - rewrite str_app_cons. destruct s as [|b s]; [done|].
    destruct (Ascii.eqb_spec b a) as [->|Hne].
    + rewrite IH. split; [by intros -> | by intros [= ->]].
    + split; [done | intros [= ? ?]; done].
Qed.

Lemma strip_prefix_app l s : strip_prefix l (l +:+ s) = Some s.
Proof. by apply strip_prefix_Some. Qed.

Lemma star_pred_is_Some (P : ascii -> bool) (s : string) (k : string -> option caps) :
  is_Some (star_pred P s k)
  ↔ ∃ s1 s2, s = s1 +:+ s2 ∧ all_chars P s1 = true ∧ is_Some (k s2).
Proof.
  induction s as [|b s IH]; simpl.
  - split.
    + intros H. by exists EmptyString, EmptyString.
    + intros (s1 & s2 & Hs & _ & Hk). destruct s1; [|done].
      rewrite str_app_nil_l in Hs. by subst.
  - destruct (P b) eqn:Hb.
    + destruct (star_pred P s k) as [x|] eqn:Hst.
      * split; [|by eauto]. intros _.
        destruct (proj1 IH) as (s1 & s2 & -> & H1 & H2); [by eauto|].
        exists (String b s1), s2. rewrite str_app_cons. simpl. rewrite Hb, H1. done.
      * split.
        -- intros Hk. by exists EmptyString, (String b s).
        -- intros (s1 & s2 & Hs & H1 & H2). destruct s1 as [|a s1].
           ++ rewrite str_app_nil_l in Hs. by subst.
           ++ rewrite str_app_cons in Hs. injection Hs as <- ->. simpl in H1.
              apply andb_true_iff in H1 as [_ H1].
              destruct (proj2 IH) as [x Hx]; [by exists s1, s2 | done].
    + split.
      * intros Hk. by exists EmptyString, (String b s).
      * intros (s1 & s2 & Hs & H1 & H2). destruct s1 as [|a s1].
        -- rewrite str_app_nil_l in Hs. by subst.
        -- rewrite str_app_cons in Hs. injection Hs as <- ->. simpl in H1.
           by rewrite Hb in H1.
Qed.

Lemma search_is_Some r inp s :
  is_Some (search r inp s)
  ↔ ∃ pre s0, s = pre +:+ s0
      ∧ is_Some (m inp r s0 [] (fun s' c' => Some ((0, Some (consumed s0 s')) :: c'))).
Proof.
  induction s as [|b s IH]; cbn [search].
  - destruct (m inp r EmptyString [] _) as [x|] eqn:Hm.
    + split; [|by eauto]. intros _. exists EmptyString, EmptyString.
      rewrite Hm. by eauto.
    + split; [by intros [? ?]|]. intros (pre & s0 & Hs & Hs0).
      destruct pre; [|done]. rewrite str_app_nil_l in Hs. subst s0.
      rewrite Hm in Hs0. by destruct Hs0.
  - destruct (m inp r (String b s) [] _) as [x|] eqn:Hm.
    + split; [|by eauto]. intros _. exists EmptyString, (String b s).
      rewrite Hm. by eauto.
    + rewrite IH. split.
      * intros (pre & s0 & -> & Hs0). exists (String b pre), s0. by rewrite str_app_cons.
      * intros (pre & s0 & Hs & Hs0). destruct pre as [|a pre].
        -- rewrite str_app_nil_l in Hs. subst s0. rewrite Hm in Hs0. by destruct Hs0.
        -- rewrite str_app_cons in Hs. injection Hs as <- ->. by exists pre, s0.
Qed.

Lemma test_is_Some r s : test r s = true ↔ is_Some (search r s s).
Proof.
  unfold test, exec. destruct (search r s s); split; try done; by eauto.
Qed.

Lemma all_chars_last (P : ascii -> bool) (s : string) :
  s ≠ EmptyString → all_chars P s = true →
  ∃ s' c, s = s' +:+ String c EmptyString ∧ P c = true.
Proof.
  induction s as [|a s IH]; [done|]. intros _ Hall. simpl in Hall.
  apply andb_true_iff in Hall as [Ha Hall]. destruct s as [|b s].
  - by exists EmptyString, a.
  - destruct IH as (s' & c & -> & Hc); [done | done |].
    exists (String a s'), c. by rewrite str_app_cons.
Qed.

Lemma star_pred_total (P : ascii -> bool) (s : string) (k : string -> option caps) :
  (∀ s', is_Some (k s')) → is_Some (star_pred P s k).
Proof.
  intros Hk. apply star_pred_is_Some. exists EmptyString, s. by rewrite str_app_nil_l.
Qed.

(** ** BUNDLE_FILE_REGEXP *)

Lemma BUNDLE_FILE_REGEXP_eq :
  BUNDLE_FILE_REGEXP = Seq (Plus Dot) (lits ".bundle/" (Plus Dot)).
Proof. reflexivity. Qed.

(** A path matches [BUNDLE_FILE_REGEXP] when it holds the text [.bundle/]
    with a character other than a line break right before it and right
    after it. *)
Lemma test_BUNDLE_FILE_REGEXP (p : string) :
  test BUNDLE_FILE_REGEXP p = true
  ↔ ∃ pre c d post,
      p = pre +:+ String c (".bundle/" +:+ String d post)
      ∧ not_line_terminator c = true ∧ not_line_terminator d = true.
Proof.
  rewrite test_is_Some, search_is_Some, BUNDLE_FILE_REGEXP_eq.
  assert (∀ s0 (k : cont) c0,
            (∀ s' c', is_Some (k s' c')) →
            is_Some (m p (lits ".bundle/" (Plus Dot)) s0 c0 k)
            ↔ ∃ d post, s0 = ".bundle/" +:+ String d post
                ∧ not_line_terminator d = true) as Htail.
  { intros s0 k c0 Hk. rewrite m_lits.
    destruct (strip_prefix ".bundle/" s0) as [t|] eqn:Hs.
    - apply strip_prefix_Some in Hs as ->. rewrite m_Plus_Dot.
      destruct t as [|d t].
      + split; [by intros [? ?]|]. intros (d & post & Heq & _).
        apply (inj (String.app ".bundle/")) in Heq. done.
      + destruct (not_line_terminator d) eqn:Hd.
        * split; [intros _; by exists d, t|]. intros _. by apply star_pred_total.
        * split; [by intros [? ?]|]. intros (d' & post & Heq & Hd').
          apply (inj (String.app ".bundle/")) in Heq. injection Heq as -> ->. congruence.
    - split; [by intros [? ?]|]. intros (d & post & -> & _).
      by rewrite strip_prefix_app in Hs. }
  split.
  - intros (pre0 & s0 & -> & Hm). rewrite m_Seq, m_Plus_Dot in Hm.
    destruct s0 as [|b s']; [by destruct Hm|].
    destruct (not_line_terminator b) eqn:Hb; [|by destruct Hm].
    apply star_pred_is_Some in Hm as (s1 & s2 & -> & Hs1 & Hk).
    apply Htail in Hk as (d & post & -> & Hd); [|by eauto].
    destruct (decide (s1 = EmptyString)) as [->|Hne].
    + exists pre0, b, d, post. by rewrite str_app_nil_l.
    + destruct (all_chars_last _ _ Hne Hs1) as (s1' & c & -> & Hc).
      exists (pre0 +:+ String b s1'), c, d, post. split; [|done].
      by rewrite !str_app_assoc, !str_app_cons, ?str_app_assoc.
  - intros (pre & c & d & post & -> & Hc & Hd).
    exists pre, (String c (".bundle/" +:+ String d post)). split; [done|].
    rewrite m_Seq, m_Plus_Dot, Hc. apply star_pred_is_Some.
    exists EmptyString, (".bundle/" +:+ String d post). split; [done|]. split; [done|].
    apply Htail; [by eauto|]. by exists d, post.
Qed.

(** ** The rule shared by png and jpg files (C7) *)

Section SharedRule.

Variable analyzeHtmlFile : string -> string -> list string.

(** A jpg file reaches the shared rule; a png file reaches it when
    [origSrc] is set, or when neither the app-icon pattern nor the
    launch-image pattern matches its name. *)
Lemma _visitFile_shared_rule this results from to name src origSrc prefix :
  opt_test (ignoreFiles this) name = false →
  info_ext (file_info name from to) = Some "jpg"%string
  ∨ (info_ext (file_info name from to) = Some "png"%string
     ∧ (truthy origSrc = true
        ∨ (match appIconRegExp this with
           | Some r => exec r name
           | None => None
           end = None
           ∧ test LAUNCH_IMAGE_REGEXP name = false))) →
  _visitFile analyzeHtmlFile this results from to name src origSrc prefix
  = png_jpg_rule this results name (relative_path from src origSrc prefix)
      (file_info name from to).
Proof.
  intros Hign Hreach. unfold _visitFile. rewrite Hign.
  change (match exec FILENAME_REGEXP name with
          | Some p => at_index p 2
          | None => None
          end) with (info_ext (file_info name from to)) in *.
  destruct Hreach as [Hext|[Hext Hroot]]; rewrite Hext.
  - by rewrite decide_False, decide_False, decide_False, decide_True.
  - rewrite decide_False, decide_False, decide_True by done.
    destruct Hroot as [->|[-> ->]]; [done|]. by destruct (negb _).
Qed.

(** C7, as amended. A png or jpg file that reaches the shared rule and
    whose name the launch-logo pattern does not match is placed into
    imageAssets when app thinning is enabled and its relative path does
    not hold the text [.bundle/] with a character other than a line break
    right before it and right after it; otherwise (thinning disabled, or
    such a text in the path, whatever the thinning flag) it is placed
    into resourcesToCopy. *)
Theorem image_asset_rule (this : Walker) (results : Result)
    (from to name src : string) (origSrc prefix : option string) :
  opt_test (ignoreFiles this) name = false →
  info_ext (file_info name from to) = Some "jpg"%string
  ∨ (info_ext (file_info name from to) = Some "png"%string
     ∧ (truthy origSrc = true
        ∨ (match appIconRegExp this with
           | Some r => exec r name
           | None => None
           end = None
           ∧ test LAUNCH_IMAGE_REGEXP name = false))) →
  exec LAUNCH_LOGO_REGEXP name = None →
  (useAppThinning this = true →
   ¬ inside_bundle (relative_path from src origSrc prefix) →
   _visitFile analyzeHtmlFile this results from to name src origSrc prefix
   = Map_set F_imageAssets (relative_path from src origSrc prefix)
       (file_info name from to) results) ∧
  (useAppThinning this = false ∨ inside_bundle (relative_path from src origSrc prefix) →
   _visitFile analyzeHtmlFile this results from to name src origSrc prefix
   = Map_set F_resourcesToCopy (relative_path from src origSrc prefix)
       (file_info name from to) results).
Proof.
  intros Hign Hreach Hlogo.
  rewrite _visitFile_shared_rule by done. unfold png_jpg_rule. rewrite Hlogo.
  unfold inside_bundle. rewrite <- test_BUNDLE_FILE_REGEXP.
  destruct (test BUNDLE_FILE_REGEXP _); split.
  - intros _ Hn. by destruct Hn.
  - intros _. by rewrite andb_false_r.
  - by intros -> _.
  - intros [-> | ?]; done.
Qed.

End SharedRule.

Lemma image_asset_rule_witness :
  _visitFile no_scripts thinning_walker Result_new
    "/app/Resources/images/photo.jpg" "/build/images/photo.jpg" "photo.jpg"
    "/app/Resources/images" (Some "/app/Resources"%string) None
  = Map_set F_imageAssets "images/photo.jpg"
      (file_info "photo.jpg" "/app/Resources/images/photo.jpg" "/build/images/photo.jpg")
      Result_new.
Proof.
  refine (proj1
    (image_asset_rule no_scripts thinning_walker Result_new
       "/app/Resources/images/photo.jpg" "/build/images/photo.jpg" "photo.jpg"
       "/app/Resources/images" (Some "/app/Resources"%string) None _ _ _) _ _);
    [reflexivity | left; reflexivity | reflexivity | reflexivity |].
  intros Hin. apply test_BUNDLE_FILE_REGEXP in Hin. by vm_compute in Hin.
Defined.

(** C7, as stated, fails: with app thinning enabled, the file [x.jpg] of
    a directory named [.bundle] under the root has the relative path
    [.bundle/x.jpg], whose segment [.bundle/] ends in [.bundle/], and it is
    placed into imageAssets, not into resourcesToCopy. *)
Lemma bundle_segment_not_excluded :
  has_bundle_segment ".bundle/x.jpg" = true
  ∧ exec LAUNCH_LOGO_REGEXP "x.jpg" = None
  ∧ ∃ r,
      walk no_scripts thinning_walker
        (Some (Resolved [Dirent_dir ".bundle" (Resolved [Dirent_file "x.jpg"])]))
        "/app/Resources" "/build" None None None = Resolved r
      ∧ is_Some (imageAssets r !! ".bundle/x.jpg")
      ∧ resourcesToCopy r !! ".bundle/x.jpg" = None.
Proof.
  split; [by vm_compute|]. split; [by vm_compute|].
  eexists. split; [vm_compute; reflexivity|]. split; [|by vm_compute].
  vm_compute. by eexists.
Qed.

(** ** The reclassification of the scripts that markup refers to (C3) *)

Lemma dontProcess_step_fields (r : Result) (x : string) :
  (∀ p, jsFiles (dontProcess_step r x) !! p
        = if decide (p = x) then None else jsFiles r !! p) ∧
  (∀ p, resourcesToCopy (dontProcess_step r x) !! p
        = if decide (p = x)
          then match jsFiles r !! p with
               | Some info => Some info
               | None => resourcesToCopy r !! p
               end
          else resourcesToCopy r !! p) ∧
  (∀ key, key ≠ F_jsFiles → key ≠ F_resourcesToCopy →
          field key (dontProcess_step r x) = field key r) ∧
  htmlJsFiles (dontProcess_step r x) = htmlJsFiles r.
Proof.
  unfold dontProcess_step. destruct (jsFiles r !! x) as [info|] eqn:Hx.
  - split; [|split; [|split]].
    + intros p. change jsFiles with (field F_jsFiles). rewrite field_set_field_eq.
      case_decide as Hp; [subst; apply lookup_delete_eq | by apply lookup_delete_ne].
    + intros p. change resourcesToCopy with (field F_resourcesToCopy).
      rewrite field_set_field_ne, field_set_field_eq by done.
      case_decide as Hp.
      * subst. cbn [field]. rewrite Hx. apply lookup_insert_eq.
      * by apply lookup_insert_ne.
    + intros key H1 H2. by rewrite !field_set_field_ne.
    + by rewrite !htmlJsFiles_set_field.
  - split; [|split; [|split]]; try done.
    + intros p. case_decide; [by subst | done].
    + intros p. case_decide as Hp; [|done]. subst. by rewrite Hx.
Qed.

Lemma dontProcess_fold (l : list string) (r : Result) :
  let r' := fold_left dontProcess_step l r in
  (∀ p, jsFiles r' !! p = if decide (p ∈ l) then None else jsFiles r !! p) ∧
  (∀ p, resourcesToCopy r' !! p
        = if decide (p ∈ l)
          then match jsFiles r !! p with
               | Some info => Some info
               | None => resourcesToCopy r !! p
               end
          else resourcesToCopy r !! p) ∧
  (∀ key, key ≠ F_jsFiles → key ≠ F_resourcesToCopy → field key r' = field key r) ∧
  htmlJsFiles r' = htmlJsFiles r.
Proof.
  revert r. induction l as [|x l IH]; intros r; cbn zeta.
  - split; [|split; [|split]]; try done; intros p;
      by rewrite decide_False by apply not_elem_of_nil.
  - cbn [fold_left].
    destruct (IH (dontProcess_step r x)) as (Hjs & Hrc & Hother & Hset).
    destruct (dontProcess_step_fields r x) as (Hjs1 & Hrc1 & Hother1 & Hset1).
    split; [|split; [|split]].
    + intros p. rewrite Hjs, Hjs1.
      destruct (decide (p = x)) as [->|Hne].
      * rewrite (decide_True (P := x ∈ x :: l)) by apply list_elem_of_here.
        by case_decide.
      * destruct (decide (p ∈ l)) as [Hin|Hin].
        -- by rewrite decide_True by (by apply list_elem_of_further).
        -- rewrite decide_False; [done|]. by intros [?|?]%elem_of_cons.
    + intros p. rewrite Hrc, Hjs1, Hrc1.
      destruct (decide (p = x)) as [->|Hne].
      * rewrite (decide_True (P := x ∈ x :: l)) by apply list_elem_of_here.
        by case_decide.
      * destruct (decide (p ∈ l)) as [Hin|Hin].
        -- by rewrite decide_True by (by apply list_elem_of_further).
        -- rewrite decide_False; [done|]. by intros [?|?]%elem_of_cons.
    + intros key H1 H2. by rewrite Hother, Hother1.
    + by rewrite Hset, Hset1.
Qed.

Lemma parsed_name_html base :
  all_chars not_line_terminator base = true →
  parsed_name (base +:+ ".html") = Some (base, "html"%string).
Proof. intros Hb. by apply parsed_name_spec. Qed.

Section Reclassification.

Variable analyzeHtmlFile : string -> string -> list string.

(** C3. The reclassification pass moves exactly the paths of
    [htmlJsFiles] that are keys of jsFiles: such a path is removed from
    jsFiles and set in resourcesToCopy to the record that jsFiles held;
    every other path keeps what it had in both mappings, the other
    mappings and the set are unchanged, and the turn of the loop for a
    path that is not a key of jsFiles leaves the Result as it is.  An
    HTML file that is visited is recorded in resourcesToCopy, the scripts
    that the analyzer reports for it are added to [htmlJsFiles], and the
    file is still in resourcesToCopy after the pass. *)
Theorem reclassification_moves_scripts (r : Result) (this : Walker) (results : Result)
    (from to base src : string) (origSrc prefix : option string) :
  opt_test (ignoreFiles this) (base +:+ ".html") = false →
  all_chars not_line_terminator base = true →
  let r' := dontProcessJsFilesReferencedFromHTML r in
  let visited :=
    _visitFile analyzeHtmlFile this results from to (base +:+ ".html") src origSrc prefix in
  let relPath := relative_path from src origSrc prefix in
  (∀ p, jsFiles r' !! p = if decide (p ∈ htmlJsFiles r) then None else jsFiles r !! p) ∧
  (∀ p info,
     p ∈ htmlJsFiles r → jsFiles r !! p = Some info →
     resourcesToCopy r' !! p = Some info) ∧
  (∀ p,
     p ∉ htmlJsFiles r ∨ jsFiles r !! p = None →
     resourcesToCopy r' !! p = resourcesToCopy r !! p) ∧
  (∀ key, key ≠ F_jsFiles → key ≠ F_resourcesToCopy → field key r' = field key r) ∧
  htmlJsFiles r' = htmlJsFiles r ∧
  (∀ p, jsFiles r !! p = None → dontProcess_step r p = r) ∧
  resourcesToCopy visited !! relPath
  = Some (mkInfo (Some base) (Some "html"%string) from to None None None) ∧
  (∀ file,
     file ∈ analyzeHtmlFile from (join_slash (removelast (split_slash relPath))) →
     file ∈ htmlJsFiles visited) ∧
  is_Some (resourcesToCopy (dontProcessJsFilesReferencedFromHTML visited) !! relPath).
Proof.
  intros Hign Hbase r' visited relPath.
  assert (∀ r0 : Result,
            let r1 := dontProcessJsFilesReferencedFromHTML r0 in
            (∀ p, jsFiles r1 !! p
                  = if decide (p ∈ htmlJsFiles r0) then None else jsFiles r0 !! p) ∧
            (∀ p, resourcesToCopy r1 !! p
                  = if decide (p ∈ htmlJsFiles r0)
                    then match jsFiles r0 !! p with
                         | Some info => Some info
                         | None => resourcesToCopy r0 !! p
                         end
                    else resourcesToCopy r0 !! p) ∧
            (∀ key, key ≠ F_jsFiles → key ≠ F_resourcesToCopy →
                    field key r1 = field key r0) ∧
            htmlJsFiles r1 = htmlJsFiles r0) as Hpass.
  { intros r0. unfold dontProcessJsFilesReferencedFromHTML.
    destruct (dontProcess_fold (elements (htmlJsFiles r0)) r0) as (H1 & H2 & H3 & H4).
    split; [|split; [|split]]; try done.
    - intros p. rewrite H1.
      destruct (decide (p ∈ htmlJsFiles r0)) as [Hin|Hin].
      + by rewrite decide_True by (by apply elem_of_elements).
      + by rewrite decide_False by (by rewrite elem_of_elements).
    - intros p. rewrite H2.
      destruct (decide (p ∈ htmlJsFiles r0)) as [Hin|Hin].
      + by rewrite decide_True by (by apply elem_of_elements).
      + by rewrite decide_False by (by rewrite elem_of_elements). }
  assert (visited
          = default_rule
              (fold_left (fun r file => set_htmlJsFiles ({[file]} ∪ htmlJsFiles r) r)
                 (analyzeHtmlFile from (join_slash (removelast (split_slash relPath))))
                 results)
              relPath (mkInfo (Some base) (Some "html"%string) from to None None None))
    as Hvisited.
  { subst visited. unfold _visitFile. rewrite Hign.
    rewrite file_info_parsed, exec_FILENAME_REGEXP, parsed_name_html by done.
    cbn [at_index nth]. by repeat (rewrite decide_False by done). }
  assert (resourcesToCopy visited !! relPath
          = Some (mkInfo (Some base) (Some "html"%string) from to None None None))
    as Hrec.
  { rewrite Hvisited. unfold default_rule.
    change resourcesToCopy with (field F_resourcesToCopy).
    rewrite field_Map_set, decide_True by done. apply lookup_insert_eq. }
  destruct (Hpass r) as (H1 & H2 & H3 & H4).
  repeat split; try done.
  - intros p info Hin Hp. subst r'. rewrite H2, decide_True by done. by rewrite Hp.
  - intros p Hp. subst r'. rewrite H2. case_decide as Hin; [|done].
    destruct Hp as [Hp|Hp]; [done | by rewrite Hp].
  - intros p Hp. unfold dontProcess_step. by rewrite Hp.
  - intros file Hfile. rewrite Hvisited. unfold default_rule.
    rewrite htmlJsFiles_Map_set, htmlJsFiles_add_scripts.
    apply elem_of_union_l, elem_of_list_to_set. done.
  - destruct (Hpass visited) as (_ & H2' & _ & _). rewrite H2', Hrec.
    case_decide; [|by eauto]. destruct (jsFiles visited !! relPath); by eauto.
Qed.

End Reclassification.

Lemma reclassification_moves_scripts_witness :
  let visited :=
    _visitFile foo_script appicon_walker
      (_visitFile foo_script appicon_walker Result_new "/app/foo.js" "/build/foo.js"
         "foo.js" "/app" None None)
      "/app/index.html" "/build/index.html" "index.html" "/app" None None in
  jsFiles (dontProcessJsFilesReferencedFromHTML visited) !! "foo.js" = None
  ∧ resourcesToCopy (dontProcessJsFilesReferencedFromHTML visited) !! "foo.js"
    = Some (file_info "foo.js" "/app/foo.js" "/build/foo.js")
  ∧ is_Some (resourcesToCopy (dontProcessJsFilesReferencedFromHTML visited)
             !! "index.html").
Proof.
  intros visited.
  pose proof (reclassification_moves_scripts foo_script visited appicon_walker
                (_visitFile foo_script appicon_walker Result_new "/app/foo.js"
                   "/build/foo.js" "foo.js" "/app" None None)
                "/app/index.html" "/build/index.html" "index" "/app" None None
                eq_refl eq_refl) as (H1 & H2 & _ & _ & _ & _ & _ & _ & H9).
  split; [|split].
  - rewrite H1. by vm_compute.
  - apply H2; by vm_compute.
  - exact H9.
Defined.

(** ** Induction on the entries of a tree *)

Section Dirent_induction.

Variable P : Dirent -> Prop.
Hypothesis P_file : ∀ name, P (Dirent_file name).
Hypothesis P_dir :
  ∀ name readdir,
    (∀ listing, readdir = Resolved listing → Forall P listing) →
    P (Dirent_dir name readdir).
Hypothesis P_link :
  ∀ name stat,
    (∀ listing, stat = Resolved (Stats_dir (Resolved listing)) → Forall P listing) →
    P (Dirent_link name stat).

Lemma Dirent_tree_ind : ∀ d, P d.
Proof.
  fix IH 1. intros [name | name readdir | name stat].
  - apply P_file.
  - apply P_dir. destruct readdir as [listing|e]; [|done].
    assert (Forall P listing) as Hl
      by (induction listing as [|d l IHl]; constructor; [apply IH | apply IHl]).
    by intros listing' [= <-].
  - apply P_link. destruct stat as [[|[listing|e]]|e]; try done.
    assert (Forall P listing) as Hl
      by (induction listing as [|d l IHl]; constructor; [apply IH | apply IHl]).
    by intros listing' [= <-].
Qed.

End Dirent_induction.

(** ** The ignore pattern of a call (C10) *)

Section Ignore.

Variable analyzeHtmlFile : string -> string -> list string.

Lemma _visitListing_ignore this results d src dest ignore origSrc prefix :
  _visitListing analyzeHtmlFile this results d src dest ignore origSrc prefix
  = if opt_test ignore (dirent_name d) then Resolved results
    else _visitListing analyzeHtmlFile this results d src dest None origSrc prefix.
Proof.
  destruct d as [name | name readdir | name stat]; cbn [dirent_name].
  - rewrite !_visitListing_file. by destruct (opt_test ignore name).
  - rewrite !_visitListing_dir. by destruct (opt_test ignore name).
  - rewrite !_visitListing_link. by destruct (opt_test ignore name).
Qed.

Lemma visit_all_ignore this listing results src dest ignore origSrc prefix :
  visit_all analyzeHtmlFile this listing results src dest (Some ignore) origSrc prefix
  = visit_all analyzeHtmlFile this
      (filter (fun d => test ignore (dirent_name d) = false) listing)
      results src dest None origSrc prefix.
Proof.
  revert results. induction listing as [|d listing IH]; intros results; [done|].
  cbn [visit_all]. rewrite _visitListing_ignore, filter_cons. cbn [opt_test].
  destruct (test ignore (dirent_name d)) eqn:Ht.
  - rewrite decide_False by done. apply IH.
  - rewrite decide_True by done. cbn [visit_all].
    destruct (_visitListing _ _ _ d _ _ _ _ _); [apply IH | done].
Qed.

(** C10. The ignore pattern given to [walk] is tested against the names
    of the children of the requested root only: a walk with the pattern
    is the walk, with no pattern, of the root without the children whose
    names the pattern matches; and the visit of a subdirectory hands no
    pattern down, so that the entries below are filtered by [ignoreDirs]
    and [ignoreFiles] alone. *)
Theorem ignore_tests_root_children (this : Walker) (results : Result)
    (listing : list Dirent) (src dest : string) (ignore : regex)
    (origSrc prefix : option string) :
  walk analyzeHtmlFile this (Some (Resolved listing)) src dest (Some ignore) origSrc prefix
  = walk analyzeHtmlFile this
      (Some (Resolved (filter (fun d => test ignore (dirent_name d) = false) listing)))
      src dest None origSrc prefix
  ∧ ∀ d name readdir,
      enters d name readdir →
      _visitListing analyzeHtmlFile this results d src dest (Some ignore) origSrc prefix
      = if test ignore name then Resolved results
        else if opt_test (ignoreDirs this) name then Resolved results
        else _walkDir analyzeHtmlFile this results readdir (path_join src name)
               (path_join dest name) None (Some (or_else origSrc src)) prefix.
Proof.
  split.
  - unfold walk, _walkDir. apply visit_all_ignore.
  - intros d name readdir Hd. by rewrite (_visitListing_recurse _ _ _ name readdir).
Qed.

End Ignore.

(** ** Failures of the file system, in listing order *)

Section Failures.

Variable analyzeHtmlFile : string -> string -> list string.

Lemma visit_all_rejects this listing d src dest ignore origSrc prefix :
  d ∈ listing →
  (∀ results, ∃ e,
     _visitListing analyzeHtmlFile this results d src dest ignore origSrc prefix
     = Rejected e) →
  ∀ results, ∃ e,
    visit_all analyzeHtmlFile this listing results src dest ignore origSrc prefix
    = Rejected e.
Proof.
  intros Hin Hd. induction listing as [|d' listing IH]; [by apply elem_of_nil in Hin|].
  intros results. cbn [visit_all].
  apply elem_of_cons in Hin as [<-|Hin].
  - destruct (Hd results) as [e ->]. by exists e.
  - destruct (_visitListing _ _ _ d' _ _ _ _ _) as [r|e]; [by apply IH | by exists e].
Qed.

Lemma Fails_rejects this ignore listing :
  Fails this ignore listing →
  ∀ results src dest origSrc prefix, ∃ e,
    visit_all analyzeHtmlFile this listing results src dest ignore origSrc prefix
    = Rejected e.
Proof.
  induction 1 as [ignore listing name e Hin Hign
                 |ignore listing d name e Hin Hd Hign Hdirs
                 |ignore listing d name sub Hin Hd Hign Hdirs _ IH];
    intros results src dest origSrc prefix.
  - apply (visit_all_rejects _ _ _ _ _ _ _ _ Hin). intros r.
    rewrite _visitListing_link, Hign. by exists e.
  - apply (visit_all_rejects _ _ _ _ _ _ _ _ Hin). intros r.
    rewrite (_visitListing_recurse _ _ _ name (Rejected e)), Hign, Hdirs by done.
    by exists e.
  - apply (visit_all_rejects _ _ _ _ _ _ _ _ Hin). intros r.
    rewrite (_visitListing_recurse _ _ _ name (Resolved sub)), Hign, Hdirs by done.
    apply IH.
Qed.

Lemma Fails_cons_further this ignore d listing :
  Fails this ignore listing → Fails this ignore (d :: listing).
Proof.
  intros H. inversion H; subst.
  - eapply Fails_stat; [by apply list_elem_of_further | done].
  - eapply Fails_readdir; [by apply list_elem_of_further | done..].
  - eapply Fails_below; [by apply list_elem_of_further | done..].
Qed.

(** When the visit of an entry is rejected, a failure lies at it or below. *)
Lemma _visitListing_rejected this d :
  ∀ results src dest ignore origSrc prefix e,
    _visitListing analyzeHtmlFile this results d src dest ignore origSrc prefix
    = Rejected e →
    Fails this ignore [d].
Proof.
  induction d as [name | name readdir IH | name stat IH] using Dirent_tree_ind;
    intros results src dest ignore origSrc prefix e.
  - rewrite _visitListing_file. by destruct (opt_test ignore name).
  - rewrite _visitListing_dir.
    destruct (opt_test ignore name) eqn:Hign; [done|].
    destruct (opt_test (ignoreDirs this) name) eqn:Hdirs; [done|].
    destruct readdir as [listing|e0]; cbn [_walkDir].
    + intros Hrej. eapply Fails_below;
        [apply list_elem_of_here | by left | done | done |].
      specialize (IH listing eq_refl). clear Hign Hdirs.
      revert results Hrej. induction IH as [|d listing Hd _ IHl]; intros results; [done|].
      cbn [visit_all].
      destruct (_visitListing _ _ _ d _ _ _ _ _) as [r|e1] eqn:Hv.
      * intros Hrej. apply Fails_cons_further. by eapply IHl.
      * intros _. apply Hd in Hv. inversion Hv as [? ? ? ? Hin | ? ? ? ? ? Hin | ? ? ? ? ? Hin];
          subst; apply list_elem_of_singleton in Hin; subst.
        -- eapply Fails_stat; [apply list_elem_of_here | done].
        -- eapply Fails_readdir; [apply list_elem_of_here | done..].
        -- eapply Fails_below; [apply list_elem_of_here | done..].
    + intros _. eapply Fails_readdir; [apply list_elem_of_here | by left | done..].
  - rewrite _visitListing_link.
    destruct (opt_test ignore name) eqn:Hign; [done|].
    destruct stat as [[|readdir]|e0]; [done | |].
    + destruct (opt_test (ignoreDirs this) name) eqn:Hdirs; [done|].
      destruct readdir as [listing|e0]; cbn [_walkDir].
      * intros Hrej. eapply Fails_below;
          [apply list_elem_of_here | by right | done | done |].
        specialize (IH listing eq_refl). clear Hign Hdirs.
        revert results Hrej. induction IH as [|d listing Hd _ IHl]; intros results; [done|].
        cbn [visit_all].
        destruct (_visitListing _ _ _ d _ _ _ _ _) as [r|e1] eqn:Hv.
        -- intros Hrej. apply Fails_cons_further. by eapply IHl.
        -- intros _. apply Hd in Hv.
           inversion Hv as [? ? ? ? Hin | ? ? ? ? ? Hin | ? ? ? ? ? Hin];
             subst; apply list_elem_of_singleton in Hin; subst.
           ++ eapply Fails_stat; [apply list_elem_of_here | done].
           ++ eapply Fails_readdir; [apply list_elem_of_here | done..].
           ++ eapply Fails_below; [apply list_elem_of_here | done..].
      * intros _. eapply Fails_readdir; [apply list_elem_of_here | by right | done..].
    + intros _. eapply Fails_stat; [apply list_elem_of_here | done].
Qed.

Lemma Fails_singleton_cons this ignore d listing :
  Fails this ignore [d] → Fails this ignore (d :: listing).
Proof.
  intros H. inversion H as [? ? ? ? Hin | ? ? ? ? ? Hin | ? ? ? ? ? Hin];
    subst; apply list_elem_of_singleton in Hin; subst.
  - eapply Fails_stat; [apply list_elem_of_here | done].
  - eapply Fails_readdir; [apply list_elem_of_here | done..].
  - eapply Fails_below; [apply list_elem_of_here | done..].
Qed.

Lemma visit_all_rejected this listing :
  ∀ results src dest ignore origSrc prefix e,
    visit_all analyzeHtmlFile this listing results src dest ignore origSrc prefix
    = Rejected e →
    Fails this ignore listing.
Proof.
  induction listing as [|d listing IH]; intros results src dest ignore origSrc prefix e;
    [done|].
  cbn [visit_all].
  destruct (_visitListing _ _ _ d _ _ _ _ _) as [r|e1] eqn:Hv.
  - intros Hrej. apply Fails_cons_further. by eapply IH.
  - intros _. apply Fails_singleton_cons. by eapply _visitListing_rejected.
Qed.

End Failures.

Section Completeness.

Variable analyzeHtmlFile : string -> string -> list string.

Lemma _visitFile_recorded_mono this results from to name src origSrc prefix p :
  recorded results p →
  recorded (_visitFile analyzeHtmlFile this results from to name src origSrc prefix) p.
Proof.
  intros [k Hk]. destruct (opt_test (ignoreFiles this) name) eqn:Hign.
  - unfold _visitFile. rewrite Hign. by exists k.
  - destruct (_visitFile_one_bucket analyzeHtmlFile this results from to name src
                origSrc prefix Hign) as (key & info & Hf & _).
    exists k. rewrite Hf. case_decide as Hkey; [|done]. subst k.
    destruct (decide (relative_path from src origSrc prefix = p)) as [->|Hne].
    + rewrite lookup_insert_eq. by eauto.
    + by rewrite lookup_insert_ne.
Qed.

Lemma _visitFile_records this results from to name src origSrc prefix :
  opt_test (ignoreFiles this) name = false →
  recorded (_visitFile analyzeHtmlFile this results from to name src origSrc prefix)
    (relative_path from src origSrc prefix).
Proof.
  intros Hign.
  destruct (_visitFile_one_bucket analyzeHtmlFile this results from to name src
              origSrc prefix Hign) as (key & info & Hf & _).
  exists key. rewrite Hf, decide_True by done. rewrite lookup_insert_eq. by eauto.
Qed.

End Completeness.

(** ** The app-icon pattern (C6) *)

Lemma parse_plain_char c rest stk cur ng q :
  is_syntax_char c = false →
  parse (String c rest) stk cur ng q None = parse rest stk (push (Chr c) cur) ng true None.
Proof.
  intros Hc. cbn [parse]. rewrite Hc.
  unfold is_syntax_char in Hc. cbn [existsb] in Hc.
  repeat (apply orb_false_iff in Hc as [? Hc]).
  repeat match goal with H : Ascii.eqb c _ = false |- _ => rewrite H; clear H end.
  done.
Qed.

Lemma parse_escaped_dot rest stk cur ng q :
  parse (String "\" (String "." rest)) stk cur ng q None
  = parse rest stk (push (Chr ".") cur) ng true None.
Proof. done. Qed.

Lemma parse_escape_dots base rest stk cur ng q :
  all_chars icon_char base = true →
  ∃ q',
    parse (escape_dots base +:+ rest) stk cur ng q None
    = parse rest stk
        (Frame (f_group cur) (f_alts cur) (rev (chr_atoms base) ++ f_seq cur))
        ng q' None.
Proof.
  revert cur q. induction base as [|c base IH]; intros cur q Hall.
  - exists q. by destruct cur.
  - cbn [all_chars] in Hall. apply andb_true_iff in Hall as [Hc Hall].
    cbn [escape_dots chr_atoms rev].
    destruct (Ascii.eqb_spec c ".") as [->|Hne].
    + rewrite !str_app_cons, parse_escaped_dot.
      destruct (IH (push (Chr ".") cur) true Hall) as [q' ->]. exists q'.
      cbn [push f_group f_alts f_seq]. by rewrite <- app_assoc.
    + rewrite str_app_cons, parse_plain_char.
      2: { unfold icon_char in Hc. apply orb_true_iff in Hc as [Hc|Hc].
           - by apply negb_true_iff. - by apply Ascii.eqb_eq in Hc. }
      destruct (IH (push (Chr c) cur) true Hall) as [q' ->]. exists q'.
      cbn [push f_group f_alts f_seq]. by rewrite <- app_assoc.
Qed.

Lemma seq_of_chr_atoms base (T : list regex) :
  T ≠ [] → seq_of (chr_atoms base ++ T) = lits base (seq_of T).
Proof.
  intros HT. induction base as [|c base IH]; [done|].
  cbn [chr_atoms lits]. rewrite <- IH. cbn [app seq_of].
  destruct (chr_atoms base ++ T) eqn:Heq; [|done].
  apply app_eq_nil in Heq as [_ ?]. done.
Qed.

Lemma parse_icon_tail (l : list regex) (q : bool) :
  parse "(.*)\.png$" [] (Frame None [] l) 0 q None
  = Some (seq_of (rev l ++ [Group 1 (Star Dot); Chr "."; Chr "p"; Chr "n"; Chr "g"; Eol])).
Proof.
  simpl. unfold close_frame, push. cbn [f_group f_alts f_seq rev app alt_of seq_of].
  by rewrite <- !app_assoc.
Qed.

Lemma compile_icon_pattern base :
  all_chars icon_char base = true →
  compile ("^" +:+ escape_dots base +:+ "(.*)\.png$") = Some (icon_pattern base).
Proof.
  intros Hall. unfold compile.
  change (parse ("^" +:+ escape_dots base +:+ "(.*)\.png$") [] (Frame None [] []) 0 false None)
    with (parse (escape_dots base +:+ "(.*)\.png$") [] (Frame None [] [Bol]) 0 false None).
  destruct (parse_escape_dots base "(.*)\.png$" [] (Frame None [] [Bol]) 0 false Hall)
    as [q' ->].
  cbn [f_group f_alts f_seq]. rewrite parse_icon_tail.
  rewrite rev_app_distr, rev_involutive. cbn [rev app]. cbn [seq_of].
  destruct (chr_atoms base ++ _) eqn:Heq; [by apply app_eq_nil in Heq as [_ ?]|].
  rewrite <- Heq. by rewrite seq_of_chr_atoms.
Qed.

Lemma str_app_inv_tail (x y suffix : string) : x +:+ suffix = y +:+ suffix → x = y.
Proof.
  revert y. induction x as [|a x IHx]; intros [|b y] H.
  - done.
  - assert (String.length (EmptyString +:+ suffix)
            = String.length (String b y +:+ suffix)) as Hl by (by rewrite H).
    rewrite !str_length_app in Hl. simpl in Hl. lia.
  - assert (String.length (String a x +:+ suffix)
            = String.length (EmptyString +:+ suffix)) as Hl by (by rewrite H).
    rewrite !str_length_app in Hl. simpl in Hl. lia.
  - rewrite !str_app_cons in H. injection H as -> H. f_equal. by apply IHx.
Qed.

Lemma strip_suffix_Some suffix s t : strip_suffix suffix s = Some t ↔ s = t +:+ suffix.
Proof.
  revert t. induction s as [|c s IH]; intros t; cbn [strip_suffix].
  - destruct (String.eqb_spec EmptyString suffix) as [<-|Hne].
    + split; [by intros [= <-]|]. by destruct t.
    + split; [done|]. destruct t; [|done]. rewrite str_app_nil_l. by intros <-.
  - destruct (String.eqb_spec (String c s) suffix) as [<-|Hne].
    + split; [by intros [= <-]|]. intros Heq.
      apply (str_app_inv_tail EmptyString t (String c s)) in Heq. by subst.
    + destruct (strip_suffix suffix s) as [t'|]; simpl.
      * destruct (IH t') as [IH1 _]. specialize (IH1 eq_refl). subst s.
        split; [by intros [= <-]|].
        destruct t as [|a t]; [by rewrite str_app_nil_l|].
        rewrite str_app_cons. intros [= <- Heq%str_app_inv_tail]. by subst.
      * split; [done|]. destruct t as [|a t]; [by rewrite str_app_nil_l|].
        rewrite str_app_cons. intros [= <- Heq]. by apply IH in Heq.
Qed.

Lemma strip_suffix_shorter suffix c s :
  String c s = suffix → strip_suffix suffix s = None.
Proof.
  intros <-. destruct (strip_suffix (String c s) s) as [t|] eqn:Hs; [|done].
  apply strip_suffix_Some in Hs.
  assert (String.length s = String.length (t +:+ String c s)) as Hl by (by rewrite <- Hs).
  rewrite str_length_app in Hl. simpl in Hl. lia.
Qed.

(** A repetition followed by a continuation that accepts the text
    [suffix] only takes everything before that suffix, or fails. *)
Lemma star_pred_suffix (P : ascii -> bool) (suffix s : string)
    (k : string -> option caps) (x : caps) :
  k suffix = Some x →
  (∀ s2, s2 ≠ suffix → k s2 = None) →
  star_pred P s k
  = match strip_suffix suffix s with
    | Some t => if all_chars P t then Some x else None
    | None => None
    end.
Proof.
  intros Hk Hother. induction s as [|c s IH]; cbn [star_pred strip_suffix].
  - destruct (String.eqb_spec EmptyString suffix) as [<-|Hne]; [done|].
    by apply Hother.
  - destruct (String.eqb_spec (String c s) suffix) as [Heq|Hne].
    + rewrite IH, (strip_suffix_shorter _ _ _ Heq), Heq, Hk. by destruct (P c).
    + rewrite IH, (Hother _ Hne).
      destruct (strip_suffix suffix s) as [t|]; simpl.
      * destruct (P c); [|done]. by destruct (all_chars P t).
      * by destruct (P c).
Qed.

Lemma groups_of_lits l r : groups_of (lits l r) = groups_of r.
Proof. induction l as [|c l IH]; [done|]. simpl. apply IH. Qed.

Lemma all_chars_app (P : ascii -> bool) (s1 s2 : string) :
  all_chars P (s1 +:+ s2) = all_chars P s1 && all_chars P s2.
Proof.
  induction s1 as [|c s1 IH]; [done|]. rewrite str_app_cons. simpl.
  by rewrite IH, andb_assoc.
Qed.

(** The names that the pattern of a base name matches, and the array of
    each match. *)
Lemma exec_icon_pattern (base name : string) (a : list (option string)) :
  exec (icon_pattern base) name = Some a
  ↔ ∃ tag,
      name = base +:+ tag +:+ ".png"
      ∧ all_chars not_line_terminator tag = true
      ∧ a = [Some name; Some tag].
Proof.
  unfold exec, icon_pattern. rewrite search_Bol, m_lits.
  assert (ngroups (Seq Bol (lits base (Seq (Group 1 (Star Dot)) (lits ".png" Eol)))) = 1)
    as -> by (unfold ngroups; simpl; by rewrite groups_of_lits).
  destruct (strip_prefix base name) as [s'|] eqn:Hpre.
  - apply strip_prefix_Some in Hpre. subst name.
    rewrite m_Seq, m_Group, m_Star_Dot.
    rewrite (star_pred_suffix _ ".png" _ _
               [(0, Some (base +:+ s')); (1, Some (consumed s' ".png"))]).
    + destruct (strip_suffix ".png" s') as [tag|] eqn:Hsuf.
      * apply strip_suffix_Some in Hsuf. subst s'. rewrite consumed_app.
        destruct (all_chars not_line_terminator tag) eqn:Htag.
        -- split.
           ++ intros [= <-]. by exists tag.
           ++ intros (tag' & Heq & _ & ->).
              apply (inj (String.app base)), str_app_inv_tail in Heq. by subst.
        -- split; [done|]. intros (tag' & Heq & Htag' & _).
           apply (inj (String.app base)), str_app_inv_tail in Heq. congruence.
      * split; [done|]. intros (tag & Heq & _).
        apply (inj (String.app base)) in Heq. subst s'.
        assert (strip_suffix ".png" (tag +:+ ".png") = Some tag) as Hs
          by (by apply strip_suffix_Some).
        congruence.
    + rewrite m_lits. simpl. by rewrite consumed_all.
    + intros s2 Hne. rewrite m_lits.
      destruct (strip_prefix ".png" s2) as [t|] eqn:Ht; [|done].
      apply strip_prefix_Some in Ht. subst s2. destruct t; [|done].
      by rewrite str_app_nil_r in Hne.
  - split; [done|]. intros (tag & -> & _).
    by rewrite strip_prefix_app in Hpre.
Qed.

Section AppIcon.

Variable analyzeHtmlFile : string -> string -> list string.

(** X1. For an icon filename whose base name holds no syntax character
    of regular expressions other than the dot, the constructor derives
    the pattern of the base name (its dots taken literally) followed by a
    captured suffix and [.png]: the pattern matches exactly the names made
    of the base name, a suffix without line break and [.png], and captures
    the suffix; a file of the root level with such a name is placed into
    appIcons with the suffix as its tag. *)
Theorem app_icon_pattern (tiappIcon base e : string) (thinning : bool)
    (dirs files : option regex) :
  parsed_name tiappIcon = Some (base, e) →
  all_chars icon_char base = true →
  ∃ this r,
    Walker_new tiappIcon thinning dirs files = Some this ∧
    useAppThinning this = thinning ∧ ignoreDirs this = dirs ∧ ignoreFiles this = files ∧
    appIconRegExp this = Some r ∧
    (∀ name a,
       exec r name = Some a
       ↔ ∃ tag,
           name = base +:+ tag +:+ ".png"
           ∧ all_chars not_line_terminator tag = true
           ∧ a = [Some name; Some tag]) ∧
    (∀ results from to src origSrc prefix tag,
       opt_test files (base +:+ tag +:+ ".png") = false →
       all_chars not_line_terminator tag = true →
       truthy origSrc = false →
       _visitFile analyzeHtmlFile this results from to (base +:+ tag +:+ ".png") src
         origSrc prefix
       = Map_set F_appIcons (relative_path from src origSrc prefix)
           (mkInfo (Some (base +:+ tag)) (Some "png"%string) from to
              (Some (Some tag)) None None)
           results).
Proof.
  intros Hicon Hbase.
  exists (mkWalker thinning dirs files (Some (icon_pattern base))), (icon_pattern base).
  split; [|repeat split; try done].
  - unfold Walker_new. rewrite exec_FILENAME_REGEXP, Hicon. cbn [at_index nth].
    by rewrite compile_icon_pattern.
  - by apply exec_icon_pattern.
  - by apply exec_icon_pattern.
  - intros results from to src origSrc prefix tag Hign Htag Hroot.
    assert (parsed_name (base +:+ tag +:+ ".png") = Some (base +:+ tag, "png"%string))
      as Hname.
    { apply parsed_name_spec. rewrite str_app_assoc. repeat split; try done.
      rewrite all_chars_app, Htag, andb_true_r.
      by apply parsed_name_spec in Hicon as (_ & _ & _ & ?). }
    unfold _visitFile. cbn [ignoreFiles appIconRegExp]. rewrite Hign.
    rewrite file_info_parsed, exec_FILENAME_REGEXP, Hname. cbn [at_index nth].
    rewrite decide_False, decide_False, decide_True by done.
    rewrite Hroot. cbn [negb].
    assert (exec (icon_pattern base) (base +:+ tag +:+ ".png")
            = Some [Some (base +:+ tag +:+ ".png"); Some tag]) as ->
      by (apply exec_icon_pattern; by exists tag).
    done.
Qed.

End AppIcon.

Lemma app_icon_pattern_witness :
  ∃ this,
    Walker_new "icon.png" false None None = Some this
    ∧ _visitFile no_scripts this Result_new "/app/Resources/icon-60@2x.png"
        "/build/icon-60@2x.png" "icon-60@2x.png" "/app/Resources" None None
      = Map_set F_appIcons "icon-60@2x.png"
          (mkInfo (Some "icon-60@2x"%string) (Some "png"%string)
             "/app/Resources/icon-60@2x.png" "/build/icon-60@2x.png"
             (Some (Some "-60@2x"%string)) None None)
          Result_new.
Proof.
  destruct (app_icon_pattern no_scripts "icon.png" "icon" "png" false None None
              eq_refl eq_refl) as (this & r & Hnew & _ & _ & _ & _ & _ & Hvisit).
  exists this. split; [exact Hnew|].
  exact (Hvisit Result_new "/app/Resources/icon-60@2x.png" "/build/icon-60@2x.png"
           "/app/Resources" None None "-60@2x"%string eq_refl eq_refl eq_refl).
Defined.

(** C6. The constructor escapes the dots of the base name and no other
    syntax character.  With the icon [appicon (1).png] the pattern starts
    with [^appicon (1)], in which [(1)] is a group: the file
    [appicon (1).png] of the root level (the base name, an empty suffix
    and [.png]) is not recorded as an app icon but as a resource to copy,
    and the file [appicon 1-60.png] is recorded as one, with the tag [1]
    and not its suffix. *)
Lemma icon_name_not_escaped :
  ∃ this,
    Walker_new "appicon (1).png" false None None = Some this
    ∧ appIconRegExp this = compile "^appicon (1)(.*)\.png$"
    ∧ appIcons
        (_visitFile no_scripts this Result_new "/app/Resources/appicon (1).png"
           "/build/appicon (1).png" "appicon (1).png" "/app/Resources" None None)
      !! "appicon (1).png" = None
    ∧ is_Some
        (resourcesToCopy
           (_visitFile no_scripts this Result_new "/app/Resources/appicon (1).png"
              "/build/appicon (1).png" "appicon (1).png" "/app/Resources" None None)
         !! "appicon (1).png")
    ∧ info_tag <$>
        (appIcons
           (_visitFile no_scripts this Result_new "/app/Resources/appicon 1-60.png"
              "/build/appicon 1-60.png" "appicon 1-60.png" "/app/Resources" None None)
         !! "appicon 1-60.png")
      = Some (Some (Some "1"%string)).
Proof.
  eexists. split; [vm_compute; reflexivity|].
  split; [by vm_compute|]. split; [by vm_compute|].
  split; [vm_compute; by eexists | by vm_compute].
Qed.

(** ** Paths in normal form *)

Lemma split_slash_nonempty s : split_slash s ≠ [].
Proof.
  destruct s as [|c s]; [done|]. simpl.
  destruct (Ascii.eqb c "/"); [done|]. by destruct (split_slash s).
Qed.

Lemma split_slash_no_slash name :
  all_chars (fun c => negb (Ascii.eqb c "/")) name = true → split_slash name = [name].
Proof.
  induction name as [|c name IH]; [done|]. simpl.
  intros [Hc Hname]%andb_true_iff. apply negb_true_iff in Hc. rewrite Hc.
  by rewrite IH.
Qed.

Lemma split_slash_app s name :
  all_chars (fun c => negb (Ascii.eqb c "/")) name = true →
  split_slash (s +:+ String "/" name) = split_slash s ++ [name].
Proof.
  intros Hname. induction s as [|c s IH].
  - rewrite str_app_nil_l. simpl. by rewrite split_slash_no_slash.
  - rewrite str_app_cons. simpl. rewrite IH.
    destruct (Ascii.eqb c "/"); [done|].
    pose proof (split_slash_nonempty s). by destruct (split_slash s).
Qed.

Lemma join_slash_snoc l x :
  l ≠ [] → join_slash (l ++ [x]) = join_slash l +:+ String "/" x.
Proof.
  induction l as [|a l IH]; [done|]. intros _.
  destruct l as [|b l]; [done|].
  change (join_slash ((a :: b :: l) ++ [x]))
    with (a +:+ String "/" (join_slash ((b :: l) ++ [x]))).
  rewrite IH by done.
  change (join_slash (a :: b :: l)) with (a +:+ String "/" (join_slash (b :: l))).
  by rewrite str_app_assoc, str_app_cons.
Qed.

Lemma ends_with_slash_app s c name :
  ends_with_slash (s +:+ String c name) = ends_with_slash (String c name).
Proof.
  induction s as [|a s IH]; [done|]. rewrite str_app_cons.
  change (ends_with_slash (String a (s +:+ String c name)))
    with (match s +:+ String c name with
          | EmptyString => Ascii.eqb a "/"
          | _ => ends_with_slash (s +:+ String c name)
          end).
  destruct (s +:+ String c name) eqn:Heq; [|by rewrite <- IH].
  by destruct s.
Qed.

Lemma ends_with_slash_no_slash name :
  all_chars (fun c => negb (Ascii.eqb c "/")) name = true → ends_with_slash name = false.
Proof.
  induction name as [|c name IH]; [done|]. simpl.
  intros [Hc Hname]%andb_true_iff. apply negb_true_iff in Hc.
  destruct name; [done | by apply IH].
Qed.

Lemma normalize_step_valid_name allowAboveRoot acc name :
  valid_name name → normalize_step allowAboveRoot acc name = name :: acc.
Proof.
  intros (Hn1 & Hn2 & Hn3 & _). unfold normalize_step.
  destruct (String.eqb_spec name ""); [done|].
  destruct (String.eqb_spec name "."); [done|].
  by destruct (String.eqb_spec name "..").
Qed.

Lemma str_app_not_nil (s : string) c t : s +:+ String c t ≠ EmptyString.
Proof. by destruct s. Qed.

(** Joining a valid name to a path in normal form appends it after a
    slash, and the result is in normal form. *)
Lemma path_join_normal src name :
  normal_path src → valid_name name →
  path_join src name = src +:+ String "/" name
  ∧ normal_path (src +:+ String "/" name).
Proof.
  intros (Hne & Hdot & Htrail & Hnorm) Hname.
  pose proof Hname as (Hn1 & Hn2 & Hn3 & Hn4).
  assert (ends_with_slash (src +:+ String "/" name) = false) as Htrail'.
  { rewrite ends_with_slash_app. destruct name as [|a name]; [done|].
    by apply (ends_with_slash_no_slash (String a name)). }
  assert (path_normalize (src +:+ String "/" name) = src +:+ String "/" name) as Hjoin.
  { destruct src as [|c src]; [done|]. revert Hnorm.
    rewrite str_app_cons. unfold path_normalize, normalizeString.
    rewrite <- str_app_cons, Htrail', Htrail, split_slash_app, fold_left_app by done.
    set (acc := fold_left _ (split_slash (String c src)) []).
    cbn [fold_left]. rewrite normalize_step_valid_name by done.
    cbn [rev]. destruct (String.eqb_spec (join_slash (rev acc)) "") as [Hq|Hq].
    - destruct (Ascii.eqb c "/"); intros [= <- <-]; done.
    - assert (rev acc ≠ []) as Hacc by (intros Heq; by rewrite Heq in Hq).
      rewrite join_slash_snoc by done.
      destruct (String.eqb_spec (join_slash (rev acc) +:+ String "/" name) "") as [Hq'|_];
        [by apply str_app_not_nil in Hq'|].
      destruct (Ascii.eqb c "/"); intros Heq.
      + rewrite <- str_app_cons. by rewrite Heq.
      + by rewrite Heq. }
  split.
  - unfold path_join. destruct src as [|c src]; [done|].
    destruct name as [|a name]; [done|]. apply Hjoin.
  - split; [apply str_app_not_nil|]. split; [|done].
    intros Heq. destruct src as [|c [|c' src]]; [done| |done].
    rewrite str_app_cons, str_app_nil_l in Heq. done.
Qed.

(** ** Relative paths below a root in normal form *)

Lemma prefix_app (p s : string) : String.prefix p (p +:+ s) = true.
Proof.
  induction p as [|a p IH]; [by destruct s|].
  rewrite str_app_cons. simpl. destruct (ascii_dec a a); [apply IH | done].
Qed.

Lemma str_drop_app (p s : string) : str_drop (String.length p) (p +:+ s) = s.
Proof. induction p as [|a p IH]; [by destruct s|]. by rewrite str_app_cons. Qed.

(** Under a root [root] that [origSrc || src] names, the relative path of
    [root/rest] is [rest]. *)
Lemma relative_path_below (root rest src : string) (origSrc : option string) :
  or_else origSrc src = root →
  relative_path (root +:+ String "/" rest) src origSrc None = rest.
Proof.
  intros <-. unfold relative_path, String_replace, indexOf.
  replace (or_else origSrc src +:+ String "/" rest)
    with ((or_else origSrc src +:+ "/") +:+ rest) by (by rewrite str_app_assoc).
  assert (∀ pat s i, indexOf_from pat (pat +:+ s) i = Some i) as Hidx.
  { intros pat s i. destruct (pat +:+ s) eqn:Heq; cbn [indexOf_from];
      rewrite <- Heq; by rewrite prefix_app. }
  rewrite Hidx. cbn [str_take Nat.add GetSubstitution].
  by rewrite str_drop_app.
Qed.

(** ** Mutual exclusion of the mappings (C1) *)

Lemma no_slash_app_inv (a b x y : string) :
  no_slash a = true → no_slash b = true →
  a +:+ String "/" x = b +:+ String "/" y → a = b.
Proof.
  revert b. induction a as [|c a IH]; intros [|d b] Ha Hb Heq.
  - done.
  - rewrite str_app_nil_l, str_app_cons in Heq. injection Heq as <- _.
    by simpl in Hb.
  - rewrite str_app_nil_l, str_app_cons in Heq. injection Heq as -> _.
    by simpl in Ha.
  - rewrite !str_app_cons in Heq. injection Heq as -> Heq.
    simpl in Ha, Hb. apply andb_true_iff in Ha as [_ Ha].
    apply andb_true_iff in Hb as [_ Hb]. f_equal. by eapply IH.
Qed.

Lemma no_slash_app_ne (a b x : string) :
  no_slash a = true → a ≠ b +:+ String "/" x.
Proof.
  intros Ha ->. unfold no_slash in Ha. rewrite all_chars_app in Ha.
  apply andb_true_iff in Ha as [_ Ha]. by simpl in Ha.
Qed.

Lemma under_disjoint (n1 n2 y : string) :
  no_slash n1 = true → no_slash n2 = true → under n1 y → under n2 y → n1 = n2.
Proof.
  intros H1 H2 [->|[z1 ->]] [Heq|[z2 Heq]].
  - done.
  - by apply no_slash_app_ne in Heq.
  - symmetry in Heq. by apply no_slash_app_ne in Heq.
  - by eapply no_slash_app_inv.
Qed.

Lemma exclusive_Result_new : exclusive Result_new.
Proof.
  intros p key1 key2 [x Hx]. destruct key1; cbn in Hx; by rewrite lookup_empty in Hx.
Qed.

Lemma not_recorded_Result_new p : ¬ recorded Result_new p.
Proof.
  intros [key [x Hx]]. destruct key; cbn in Hx; by rewrite lookup_empty in Hx.
Qed.

Lemma WellFormed_cons_inv d listing :
  WellFormed (d :: listing) →
  WellFormed listing ∧ valid_name (dirent_name d)
  ∧ (dirent_name d ∉ (dirent_name <$> listing))
  ∧ (∀ name sub, enters d name (Resolved sub) → WellFormed sub).
Proof.
  intros H. inversion H as [? Hnd Hvalid Hsub]; subst.
  rewrite fmap_cons in Hnd. apply NoDup_cons in Hnd as [Hd Hnd].
  split; [|split; [|split]].
  - constructor; [done | |].
    + intros d' Hd'. apply Hvalid. by apply list_elem_of_further.
    + intros d' name sub Hd'. apply Hsub. by apply list_elem_of_further.
  - apply Hvalid, list_elem_of_here.
  - done.
  - intros name sub. apply Hsub, list_elem_of_here.
Qed.

Section Exclusive.

Variable analyzeHtmlFile : string -> string -> list string.

(** The reclassification pass keeps the mappings exclusive. *)
Lemma exclusive_dontProcess (r : Result) :
  exclusive r → exclusive (dontProcessJsFilesReferencedFromHTML r).
Proof.
  intros Hex. unfold dontProcessJsFilesReferencedFromHTML.
  destruct (dontProcess_fold (elements (htmlJsFiles r)) r) as (Hjs & Hrc & Hother & _).
  set (r' := fold_left dontProcess_step (elements (htmlJsFiles r)) r) in *.
  assert (∀ key p, is_Some (field key r' !! p) →
            (key = F_resourcesToCopy ∧ is_Some (jsFiles r !! p)
             ∧ p ∈ elements (htmlJsFiles r))
            ∨ (is_Some (field key r !! p)
               ∧ ¬ (is_Some (jsFiles r !! p) ∧ p ∈ elements (htmlJsFiles r)))) as Hcase.
  { intros key p Hp.
    destruct (decide (key = F_jsFiles)) as [->|Hk1].
    - cbn [field] in Hp. rewrite Hjs in Hp. case_decide as Hin; [by destruct Hp|].
      right. split; [done|]. by intros [_ ?].
    - destruct (decide (key = F_resourcesToCopy)) as [->|Hk2].
      + cbn [field] in Hp. rewrite Hrc in Hp. case_decide as Hin.
        * destruct (jsFiles r !! p) eqn:Hj; [left; by eauto|].
          right. split; [done|]. by intros [[? ?] _].
        * right. split; [done|]. by intros [_ ?].
      + rewrite Hother in Hp by done.
        destruct (decide (is_Some (jsFiles r !! p) ∧ p ∈ elements (htmlJsFiles r)))
          as [[Hj _]|Hn]; [|by right].
        exfalso. apply Hk1. symmetry. by apply (Hex p). }
  intros p key1 key2 H1 H2.
  destruct (Hcase _ _ H1) as [(-> & Hj1 & Hin1)|[Hr1 Hn1]];
    destruct (Hcase _ _ H2) as [(-> & Hj2 & Hin2)|[Hr2 Hn2]]; try done.
  - by destruct Hn2.
  - by destruct Hn1.
  - by apply (Hex p).
Qed.

(** Recording one more file, under a path that no mapping holds, keeps
    the mappings exclusive. *)
Lemma _visitFile_exclusive this results from to name src origSrc prefix :
  exclusive results →
  ¬ recorded results (relative_path from src origSrc prefix) →
  exclusive (_visitFile analyzeHtmlFile this results from to name src origSrc prefix).
Proof.
  intros Hex Hfresh. destruct (opt_test (ignoreFiles this) name) eqn:Hign.
  - unfold _visitFile. by rewrite Hign.
  - destruct (_visitFile_one_bucket analyzeHtmlFile this results from to name src
                origSrc prefix Hign) as (key & info & Hf & _).
    intros p key1 key2. rewrite !Hf.
    destruct (decide (p = relative_path from src origSrc prefix)) as [->|Hne].
    + do 2 case_decide; subst; try done.
      * intros _ ?. exfalso. apply Hfresh. by exists key2.
      * intros ? _. exfalso. apply Hfresh. by exists key1.
      * intros ? _. exfalso. apply Hfresh. by exists key1.
    + do 2 case_decide; subst; rewrite ?lookup_insert_ne by done; apply Hex.
Qed.

Lemma _visitFile_recorded_inv this results from to name src origSrc prefix p :
  recorded (_visitFile analyzeHtmlFile this results from to name src origSrc prefix) p →
  recorded results p ∨ p = relative_path from src origSrc prefix.
Proof.
  destruct (opt_test (ignoreFiles this) name) eqn:Hign.
  - unfold _visitFile. rewrite Hign. by left.
  - destruct (_visitFile_one_bucket analyzeHtmlFile this results from to name src
                origSrc prefix Hign) as (key & info & Hf & _).
    intros [k Hk]. rewrite Hf in Hk.
    destruct (decide (p = relative_path from src origSrc prefix)) as [->|Hne];
      [by right|]. left. exists k. case_decide; [|done]. subst.
    by rewrite lookup_insert_ne in Hk.
Qed.

End Exclusive.

Ltac str_norm :=
  repeat (rewrite str_app_assoc || rewrite str_app_cons || rewrite str_app_nil_l).

Section ExclusiveWalk.

Variable analyzeHtmlFile : string -> string -> list string.
Variable this : Walker.
Variable root : string.
Hypothesis root_not_empty : root ≠ EmptyString.

Lemma keys_within_file results dir dest name origSrc u :
  normal_path dir →
  or_else origSrc dir = root →
  dir +:+ "/" = root +:+ String "/" u →
  valid_name name →
  let r := _visitFile analyzeHtmlFile this results (path_join dir name)
             (path_join dest name) name dir origSrc None in
  (∀ p, recorded r p → recorded results p ∨ ∃ y, under name y ∧ p = u +:+ y) ∧
  (exclusive results →
   (∀ y, under name y → ¬ recorded results (u +:+ y)) →
   exclusive r).
Proof.
  intros Hdir Horig Hu Hname r.
  assert (relative_path (path_join dir name) dir origSrc None = u +:+ name) as Hrel.
  { destruct (path_join_normal dir name Hdir Hname) as [-> _].
    replace (dir +:+ String "/" name) with ((dir +:+ "/") +:+ name)
      by (by rewrite str_app_assoc).
    rewrite Hu, str_app_assoc, str_app_cons. by apply relative_path_below. }
  split.
  - intros p Hp. apply _visitFile_recorded_inv in Hp as [Hp| ->]; [by left|].
    right. exists name. split; [by left | done].
  - intros Hex Hfresh. apply _visitFile_exclusive; [done|].
    rewrite Hrel. apply Hfresh. by left.
Qed.

(** The same for the visits of the entries of a listing. *)
Lemma keys_within_all listing :
  Forall (keys_within analyzeHtmlFile this root) listing →
  ∀ results dir dest ignore origSrc u r,
    normal_path dir →
    or_else origSrc dir = root →
    dir +:+ "/" = root +:+ String "/" u →
    WellFormed listing →
    visit_all analyzeHtmlFile this listing results dir dest ignore origSrc None
    = Resolved r →
    (∀ p, recorded r p →
          recorded results p
          ∨ ∃ d y, d ∈ listing ∧ under (dirent_name d) y ∧ p = u +:+ y) ∧
    (exclusive results →
     (∀ d y, d ∈ listing → under (dirent_name d) y → ¬ recorded results (u +:+ y)) →
     exclusive r).
Proof.
  induction 1 as [|d listing Hd _ IH];
    intros results dir dest ignore origSrc u r Hdir Horig Hu Hwf; cbn [visit_all].
  - intros [= <-]. split; [by left | done].
  - destruct (_visitListing _ _ _ d _ _ _ _ _) as [r1|e] eqn:Hv; [|done].
    intros Hrest.
    apply WellFormed_cons_inv in Hwf as (Hwf & Hvalid & Hfreshname & Hsub).
    destruct (Hd _ _ _ _ _ _ _ Hdir Horig Hu Hvalid Hsub Hv) as [Hkeys1 Hex1].
    destruct (IH _ _ _ _ _ _ _ Hdir Horig Hu Hwf Hrest) as [Hkeys Hex].
    split.
    + intros p [Hp|(d' & y & Hd' & Hy & ->)]%Hkeys.
      * apply Hkeys1 in Hp as [Hp|(y & Hy & ->)]; [by left|].
        right. exists d, y. split; [apply list_elem_of_here | done].
      * right. exists d', y. split; [by apply list_elem_of_further | done].
    + intros Hex0 Hfresh. apply Hex.
      * apply Hex1; [done|]. intros y Hy.
        apply (Hfresh d y); [apply list_elem_of_here | done].
      * intros d' y Hd' Hy [Hp|(y' & Hy' & Heq)]%Hkeys1.
        -- by apply (Hfresh d' y); [apply list_elem_of_further|..].
        -- apply (inj (String.app u)) in Heq. subst y'.
           apply Hfreshname. apply list_elem_of_fmap. exists d'. split; [|done].
           inversion Hwf as [? _ Hvalid' _]; subst.
           eapply under_disjoint; [| |done..].
           ++ by destruct Hvalid as (_ & _ & _ & ?).
           ++ by destruct (Hvalid' d' Hd') as (_ & _ & _ & ?).
Qed.

Lemma keys_within_recurse d name sub results dir dest ignore origSrc u r :
  enters d name (Resolved sub) →
  Forall (keys_within analyzeHtmlFile this root) sub →
  normal_path dir →
  or_else origSrc dir = root →
  dir +:+ "/" = root +:+ String "/" u →
  valid_name name →
  WellFormed sub →
  _visitListing analyzeHtmlFile this results d dir dest ignore origSrc None = Resolved r →
  (∀ p, recorded r p → recorded results p ∨ ∃ y, under name y ∧ p = u +:+ y) ∧
  (exclusive results →
   (∀ y, under name y → ¬ recorded results (u +:+ y)) →
   exclusive r).
Proof.
  intros Hd Hall Hdir Horig Hu Hname Hwf.
  rewrite (_visitListing_recurse _ _ _ name (Resolved sub)) by done.
  destruct (opt_test ignore name); [intros [= <-]; split; [by left | done]|].
  destruct (opt_test (ignoreDirs this) name); [intros [= <-]; split; [by left | done]|].
  cbn [_walkDir]. intros Hv.
  destruct (path_join_normal dir name Hdir Hname) as [Hjoin Hdir'].
  rewrite Hjoin in Hv.
  assert ((dir +:+ String "/" name) +:+ "/"
          = root +:+ String "/" (u +:+ name +:+ "/")) as Hu'.
  { replace (dir +:+ String "/" name) with ((dir +:+ "/") +:+ name)
      by (by rewrite str_app_assoc).
    rewrite Hu. by str_norm. }
  assert (or_else (Some (or_else origSrc dir)) (dir +:+ String "/" name) = root) as Horig'.
  { rewrite Horig. simpl. by destruct (String.eqb_spec root ""). }
  destruct (keys_within_all sub Hall _ _ _ _ _ _ _ Hdir' Horig' Hu' Hwf Hv)
    as [Hkeys Hex].
  assert (∀ y, (u +:+ name +:+ "/") +:+ y = u +:+ (name +:+ String "/" y)) as Hassoc.
  { intros y. by str_norm. }
  split.
  - intros p [Hp|(d' & y & _ & _ & ->)]%Hkeys; [by left|].
    right. exists (name +:+ String "/" y). split; [right; by exists y | apply Hassoc].
  - intros Hex0 Hfresh. apply Hex; [done|].
    intros d' y _ _. rewrite Hassoc. apply Hfresh. right. by exists y.
Qed.

Lemma keys_within_tree d : keys_within analyzeHtmlFile this root d.
Proof.
  induction d as [name | name readdir IH | name stat IH] using Dirent_tree_ind;
    intros results dir dest ignore origSrc u r Hdir Horig Hu Hname Hsub; cbn [dirent_name] in *.
  - rewrite _visitListing_file.
    destruct (opt_test ignore name); intros [= <-]; [split; [by left | done]|].
    by apply keys_within_file.
  - destruct readdir as [sub|e].
    + apply (keys_within_recurse _ name sub);
        [by left | by apply IH | assumption.. | ].
      apply (Hsub name). by left.
    + rewrite _visitListing_dir.
      destruct (opt_test ignore name); [intros [= <-]; split; [by left | done]|].
      by destruct (opt_test (ignoreDirs this) name); [intros [= <-]; split; [by left | done]|].
  - destruct stat as [[|[sub|e]]|e].
    + rewrite _visitListing_link.
      destruct (opt_test ignore name); intros [= <-]; [split; [by left | done]|].
      by apply keys_within_file.
    + apply (keys_within_recurse _ name sub);
        [by right | by apply IH | assumption.. | ].
      apply (Hsub name). by right.
    + rewrite _visitListing_link.
      destruct (opt_test ignore name); [intros [= <-]; split; [by left | done]|].
      by destruct (opt_test (ignoreDirs this) name); [intros [= <-]; split; [by left | done]|].
    + rewrite _visitListing_link.
      by destruct (opt_test ignore name); [intros [= <-]; split; [by left | done]|].
Qed.

End ExclusiveWalk.

Section ExclusiveBuckets.

Variable analyzeHtmlFile : string -> string -> list string.

(** X22. Where the root is given in normal form, no path is in two
    mappings.  The classification of a file sets its relative path
    in exactly one of the seven mappings and leaves the six others as
    they were.  The reclassification pass keeps the mappings mutually
    exclusive.  And for a walk [walk(root, dest, ignore)] of a root given
    in normal form (the form [path.join] gives: no empty, [.] or [..]
    segment to resolve, no trailing slash), over a tree in which the
    entries of a directory have distinct, valid names, every relative path
    is a key of at most one of the seven mappings of the Result, before
    and after the reclassification pass. *)
Theorem buckets_mutually_exclusive (this : Walker) (listing : list Dirent)
    (src dest : string) (ignore : option regex) :
  normal_path src →
  WellFormed listing →
  (∀ results from to name dir origSrc prefix,
     opt_test (ignoreFiles this) name = false →
     ∃ key info,
       ∀ key',
         field key' (_visitFile analyzeHtmlFile this results from to name dir origSrc prefix)
         = if decide (key = key')
           then <[relative_path from dir origSrc prefix := info]> (field key results)
           else field key' results) ∧
  (∀ r, exclusive r → exclusive (dontProcessJsFilesReferencedFromHTML r)) ∧
  (∀ r,
     walk analyzeHtmlFile this (Some (Resolved listing)) src dest ignore None None
     = Resolved r →
     exclusive r ∧ exclusive (dontProcessJsFilesReferencedFromHTML r)).
Proof.
  intros Hsrc Hwf. split; [|split].
  - intros results from to name dir origSrc prefix Hign.
    destruct (_visitFile_one_bucket analyzeHtmlFile this results from to name dir
                origSrc prefix Hign) as (key & info & Hf & _).
    by exists key, info.
  - apply exclusive_dontProcess.
  - intros r Hr. unfold walk, _walkDir in Hr.
    assert (exclusive r) as Hex.
    { assert (src ≠ EmptyString) as Hne by (by destruct Hsrc).
      assert (Forall (keys_within analyzeHtmlFile this src) listing) as Hall
        by (apply Forall_forall; intros d _; by apply keys_within_tree).
      assert (src +:+ "/" = src +:+ String "/" EmptyString) as Hu by done.
      destruct (keys_within_all analyzeHtmlFile this src Hne listing Hall Result_new
                  src dest ignore None EmptyString r Hsrc eq_refl Hu Hwf Hr)
        as [_ Hex].
      apply Hex; [apply exclusive_Result_new|].
      intros d y _ _. apply not_recorded_Result_new. }
    split; [done | by apply exclusive_dontProcess].
Qed.

End ExclusiveBuckets.

Lemma buckets_mutually_exclusive_witness :
  ∃ r,
    walk no_scripts appicon_walker
      (Some (Resolved [Dirent_file "Default.png";
                       Dirent_dir "images" (Resolved [Dirent_file "Default.png"])]))
      "/app/Resources" "/build" None None None
    = Resolved r
    ∧ exclusive r ∧ exclusive (dontProcessJsFilesReferencedFromHTML r).
Proof.
  eexists. split; [vm_compute; reflexivity|].
  refine (proj2 (proj2
    (buckets_mutually_exclusive no_scripts appicon_walker
       [Dirent_file "Default.png";
        Dirent_dir "images" (Resolved [Dirent_file "Default.png"])]
       "/app/Resources" "/build" None _ _)) _ _).
  - repeat split; done.
  - constructor.
    + repeat (apply NoDup_cons; split; [set_solver|]). apply NoDup_nil_2.
    + intros d Hd. repeat (apply elem_of_cons in Hd as [->|Hd]); [..|by apply elem_of_nil in Hd];
        repeat split; done.
    + intros d name sub Hd Hent.
      repeat (apply elem_of_cons in Hd as [->|Hd]); [..|by apply elem_of_nil in Hd].
      * by destruct Hent.
      * destruct Hent as [[= <- <-]|[=]]. constructor.
        -- repeat (apply NoDup_cons; split; [set_solver|]). apply NoDup_nil_2.
        -- intros d Hd. apply list_elem_of_singleton in Hd as ->. repeat split; done.
        -- intros d name sub Hd Hent. apply list_elem_of_singleton in Hd as ->.
           by destruct Hent.
  - vm_compute. reflexivity.
Defined.

(** One turn of the event loop when a single operation is pending. *)
Lemma run_alone analyzeHtmlFile this fuel schedule results p :
  Async.run analyzeHtmlFile this (S fuel) schedule results [p]
  = match Async.resume analyzeHtmlFile this results p with
    | Rejected e => Some (Rejected e)
    | Resolved (results', started) =>
        Async.run analyzeHtmlFile this fuel (tl schedule) results' started
    end.
Proof. cbn [Async.run length]. by rewrite Nat.mod_1_r. Qed.

Ltac run_alone_turn :=
  rewrite run_alone;
  match goal with
  | |- context [Async.resume ?a ?b ?c ?d] =>
      let x := eval vm_compute in (Async.resume a b c d) in
      change (Async.resume a b c d) with x
  end;
  cbv iota beta.

(** C1. For a root that is not in the form that [path.join] gives, the
    key of a file is not its relative path, and a path is in two
    mappings.  [_visitFile] takes [root + '/'] out of a path that
    [path.join] has put in normal form: for the root [./a] it does not
    find it at the start of [a/Default.png], and finds it in the middle
    of [a/Default./a/.png].  So the walk of [./a], which holds the file
    [Default.png] and, in the directory [Default./a], the file [.png],
    records the path [a/Default.png] both as a launch image and as a
    resource to copy: in listing order, and on the event loop under every
    schedule. *)
Lemma relative_path_in_two_buckets :
  path_join "./a" "Default.png" = "a/Default.png"%string
  ∧ (∃ r,
       walk no_scripts appicon_walker
         (Some (Resolved
                  [Dirent_file "Default.png";
                   Dirent_dir "Default."
                     (Resolved [Dirent_dir "a" (Resolved [Dirent_file ".png"])])]))
         "./a" "/build" None None None
       = Resolved r
       ∧ is_Some (launchImages r !! "a/Default.png")
       ∧ is_Some (resourcesToCopy r !! "a/Default.png")
       ∧ ¬ exclusive r)
  ∧ relative_path "a/Default.png" "./a" None None = "a/Default.png"%string
  ∧ path_join "a/Default./a" ".png" = "a/Default./a/.png"%string
  ∧ relative_path "a/Default./a/.png" "a/Default./a" (Some "./a"%string) None
    = "a/Default.png"%string
  ∧ ∃ r, ∀ schedule,
      Async.walk no_scripts appicon_walker schedule
        (Some (Resolved
                 [Dirent_file "Default.png";
                  Dirent_dir "Default."
                    (Resolved [Dirent_dir "a" (Resolved [Dirent_file ".png"])])]))
        "./a" "/build" None None None
      = Some (Resolved r)
      ∧ is_Some (launchImages r !! "a/Default.png")
      ∧ is_Some (resourcesToCopy r !! "a/Default.png")
      ∧ ¬ exclusive r.
Proof.
  assert (∀ A (x : A), is_Some (Some x)) as Hsome by (intros; by eexists).
  split; [by vm_compute|]. split.
  { eexists. split; [vm_compute; reflexivity|].
    split; [vm_compute; apply Hsome|]. split; [vm_compute; apply Hsome|].
    intros Hex.
    assert (F_launchImages = F_resourcesToCopy) as Heq; [|done].
    apply (Hex "a/Default.png"%string); vm_compute; apply Hsome. }
  split; [by vm_compute|]. split; [by vm_compute|]. split; [by vm_compute|].
  eexists. intros schedule. split.
  - unfold Async.walk. change (Async.operations_below _) with 3.
    do 3 run_alone_turn. cbn [Async.run]. reflexivity.
  - split; [vm_compute; apply Hsome|]. split; [vm_compute; apply Hsome|].
    intros Hex.
    assert (F_launchImages = F_resourcesToCopy) as Heq; [|done].
    apply (Hex "a/Default.png"%string); vm_compute; apply Hsome.
Qed.

(** ** The keys of a Result are paths relative to the root *)

Section RelativeKeys.

Variable analyzeHtmlFile : string -> string -> list string.

(** X2. For a walk [walk(root, dest, ignore)] of a root given in normal
    form, over a tree in which the entries of a directory have distinct,
    valid names, every key of the Result is a path relative to the root:
    the name of a child of the root, or a path below such a name. *)
Theorem walk_records_relative_paths (this : Walker) (listing : list Dirent)
    (src dest : string) (ignore : option regex) (r : Result) (p : string) :
  normal_path src →
  WellFormed listing →
  walk analyzeHtmlFile this (Some (Resolved listing)) src dest ignore None None
  = Resolved r →
  recorded r p →
  ∃ d, d ∈ listing ∧ under (dirent_name d) p.
Proof.
  intros Hsrc Hwf Hr Hp. unfold walk, _walkDir in Hr.
  assert (src ≠ EmptyString) as Hne by (by destruct Hsrc).
  assert (Forall (keys_within analyzeHtmlFile this src) listing) as Hall
    by (apply Forall_forall; intros d _; by apply keys_within_tree).
  assert (src +:+ "/" = src +:+ String "/" EmptyString) as Hu by done.
  destruct (keys_within_all analyzeHtmlFile this src Hne listing Hall Result_new
              src dest ignore None EmptyString r Hsrc eq_refl Hu Hwf Hr)
    as [Hkeys _].
  destruct (Hkeys p Hp) as [Hnew|(d & y & Hd & Hy & ->)].
  - by apply not_recorded_Result_new in Hnew.
  - exists d. by rewrite str_app_nil_l.
Qed.

End RelativeKeys.

Lemma walk_records_relative_paths_witness :
  ∃ d,
    d ∈ [Dirent_file "app.js"; Dirent_dir "images" (Resolved [Dirent_file "logo.png"])]
    ∧ under (dirent_name d) "images/logo.png".
Proof.
  assert (∃ r,
            walk no_scripts appicon_walker
              (Some (Resolved [Dirent_file "app.js";
                               Dirent_dir "images" (Resolved [Dirent_file "logo.png"])]))
              "/app/Resources" "/build" None None None = Resolved r
            ∧ recorded r "images/logo.png") as (r & Hr & Hp).
  { eexists. split; [vm_compute; reflexivity|].
    exists F_resourcesToCopy. vm_compute. by eexists. }
  refine (walk_records_relative_paths no_scripts appicon_walker
            [Dirent_file "app.js"; Dirent_dir "images" (Resolved [Dirent_file "logo.png"])]
            "/app/Resources" "/build" None r "images/logo.png" _ _ Hr Hp).
  - repeat split; done.
  - constructor.
    + repeat (apply NoDup_cons; split; [set_solver|]). apply NoDup_nil_2.
    + intros d Hd.
      repeat (apply elem_of_cons in Hd as [->|Hd]); [..|by apply elem_of_nil in Hd];
        repeat split; done.
    + intros d name sub Hd Hent.
      repeat (apply elem_of_cons in Hd as [->|Hd]); [..|by apply elem_of_nil in Hd].
      * by destruct Hent.
      * destruct Hent as [[= <- <-]|[=]]. constructor.
        -- repeat (apply NoDup_cons; split; [set_solver|]). apply NoDup_nil_2.
        -- intros d Hd. apply list_elem_of_singleton in Hd as ->. repeat split; done.
        -- intros d name sub Hd Hent. apply list_elem_of_singleton in Hd as ->.
           by destruct Hent.
Defined.

(** ** Result.merge as an operation on Results *)

Lemma overlay_app (ms1 ms2 : list (gmap string FileInfo)) :
  overlay (ms1 ++ ms2) = overlay ms2 ∪ overlay ms1.
Proof.
  induction ms1 as [|m ms1 IH]; simpl.
  - unfold overlay at 3. simpl. by rewrite (right_id_L ∅ (∪)).
  - by rewrite !overlay_cons, IH, (assoc_L (∪)).
Qed.

Lemma overlay_singleton (m : gmap string FileInfo) : overlay [m] = m.
Proof. unfold overlay. simpl. by rewrite (right_id_L ∅ (∪)). Qed.

Lemma overlay_nil : overlay [] = ∅.
Proof. done. Qed.

Lemma fold_union_init (ss : list (gset string)) (init : gset string) :
  fold_left (fun acc s => acc ∪ s) ss init
  = init ∪ fold_left (fun acc s => acc ∪ s) ss ∅.
Proof.
  revert init. induction ss as [|s ss IH]; intros init; simpl.
  - by rewrite (right_id_L ∅ (∪)).
  - rewrite IH, (IH (∅ ∪ s)), (left_id_L ∅ (∪)). by rewrite (assoc_L (∪)).
Qed.

Lemma field_Result_new key : field key Result_new = ∅.
Proof. by destruct key. Qed.

(** The merge of two Results, field by field. *)
Lemma field_merge_two key (a b : Result) :
  field key (merge [a; b]) = field key b ∪ field key a.
Proof.
  rewrite field_merge. simpl. by rewrite overlay_cons, overlay_singleton.
Qed.

Lemma htmlJsFiles_merge_two (a b : Result) :
  htmlJsFiles (merge [a; b]) = htmlJsFiles a ∪ htmlJsFiles b.
Proof. rewrite htmlJsFiles_merge. simpl. by rewrite (left_id_L ∅ (∪)). Qed.

Lemma merge_two_assoc (a b c : Result) :
  merge [merge [a; b]; c] = merge [a; merge [b; c]].
Proof.
  apply Result_eq.
  - intros key. by rewrite !field_merge_two, (assoc_L (∪)).
  - by rewrite !htmlJsFiles_merge_two, (assoc_L (∪)).
Qed.

Lemma merge_new_l (a : Result) : merge [Result_new; a] = a.
Proof.
  apply Result_eq.
  - intros key. by rewrite field_merge_two, field_Result_new, (right_id_L ∅ (∪)).
  - rewrite htmlJsFiles_merge_two. simpl. by rewrite (left_id_L ∅ (∪)).
Qed.

Lemma merge_new_r (a : Result) : merge [a; Result_new] = a.
Proof.
  apply Result_eq.
  - intros key. by rewrite field_merge_two, field_Result_new, (left_id_L ∅ (∪)).
  - rewrite htmlJsFiles_merge_two. simpl. by rewrite (right_id_L ∅ (∪)).
Qed.

(** X3. [Result.merge] on no Result gives the empty Result, on one Result
    gives that Result, and on twice the same Result gives it too; merging
    a sequence of Results at once, or merging the merge of its first part
    with the merge of the rest, gives the same Result. *)
Theorem merge_flattens (xs ys : list Result) (r : Result) :
  merge [] = Result_new
  ∧ merge [r] = r
  ∧ merge [r; r] = r
  ∧ merge (xs ++ ys) = merge [merge xs; merge ys].
Proof.
  split; [|split; [|split]].
  - apply Result_eq; [intros key; rewrite field_merge; by destruct key|].
    by rewrite htmlJsFiles_merge.
  - apply Result_eq; [intros key; by rewrite field_merge; simpl; rewrite overlay_singleton|].
    rewrite htmlJsFiles_merge. simpl. by rewrite (left_id_L ∅ (∪)).
  - apply Result_eq.
    + intros key. by rewrite field_merge_two, (idemp_L (∪)).
    + by rewrite htmlJsFiles_merge_two, (idemp_L (∪)).
  - apply Result_eq.
    + intros key. by rewrite field_merge_two, !field_merge, map_app, overlay_app.
    + rewrite htmlJsFiles_merge_two, !htmlJsFiles_merge, map_app, fold_left_app.
      by rewrite fold_union_init.
Qed.

(** ** The reclassification pass, run again *)

(** X4. Running [dontProcessJsFilesReferencedFromHTML] a second time
    changes nothing.  The pass loses no path: the keys of jsFiles and of
    resourcesToCopy, taken together, are the same before and after.  And
    it is the identity on a Result in which no path of [htmlJsFiles] is a
    key of jsFiles. *)
Theorem reclassification_idempotent (r : Result) :
  dontProcessJsFilesReferencedFromHTML (dontProcessJsFilesReferencedFromHTML r)
  = dontProcessJsFilesReferencedFromHTML r
  ∧ dom (jsFiles (dontProcessJsFilesReferencedFromHTML r))
    ∪ dom (resourcesToCopy (dontProcessJsFilesReferencedFromHTML r))
    = dom (jsFiles r) ∪ dom (resourcesToCopy r)
  ∧ ((∀ p, p ∈ htmlJsFiles r → jsFiles r !! p = None) →
     dontProcessJsFilesReferencedFromHTML r = r).
Proof.
  assert (∀ r, (∀ p, p ∈ htmlJsFiles r → jsFiles r !! p = None) →
               dontProcessJsFilesReferencedFromHTML r = r) as Hid.
  { clear r. intros r Hnone. unfold dontProcessJsFilesReferencedFromHTML.
    destruct (dontProcess_fold (elements (htmlJsFiles r)) r) as (Hjs & Hrc & Hother & Hset).
    apply Result_eq; [|done]. intros key.
    destruct (decide (key = F_jsFiles)) as [->|Hk1].
    { apply map_eq. intros p. cbn [field]. rewrite Hjs. case_decide as Hin; [|done].
      symmetry. apply Hnone. by apply elem_of_elements. }
    destruct (decide (key = F_resourcesToCopy)) as [->|Hk2]; [|by apply Hother].
    apply map_eq. intros p. cbn [field]. rewrite Hrc. case_decide as Hin; [|done].
    rewrite Hnone; [done|]. by apply elem_of_elements. }
  split; [|split; [|apply Hid]].
  - apply Hid. intros p Hp. unfold dontProcessJsFilesReferencedFromHTML in *.
    destruct (dontProcess_fold (elements (htmlJsFiles r)) r) as (Hjs & _ & _ & Hset).
    rewrite Hset in Hp. rewrite Hjs. rewrite decide_True; [done|]. by apply elem_of_elements.
  - unfold dontProcessJsFilesReferencedFromHTML.
    destruct (dontProcess_fold (elements (htmlJsFiles r)) r) as (Hjs & Hrc & _ & _).
    apply set_eq. intros p. rewrite !elem_of_union, !elem_of_dom, Hjs, Hrc.
    case_decide as Hin.
    + destruct (jsFiles r !! p) eqn:Hj.
      * split; [intros _; left; by eexists | intros _; right; by eexists].
      * split; (intros [[? [=]]|?]; by right).
    + done.
Qed.

(** ** A walk as the merge of the walks of its parts *)

Section Composition.

Variable analyzeHtmlFile : string -> string -> list string.

Lemma Map_set_merge key p i results :
  Map_set key p i results = merge [results; Map_set key p i Result_new].
Proof.
  apply Result_eq.
  - intros key'. rewrite field_merge_two, !field_Map_set. case_decide.
    + subst key'. by rewrite field_Result_new, <- insert_union_l, (left_id_L ∅ (∪)).
    + by rewrite field_Result_new, (left_id_L ∅ (∪)).
  - rewrite htmlJsFiles_merge_two, !htmlJsFiles_Map_set. simpl.
    by rewrite (right_id_L ∅ (∪)).
Qed.

Lemma png_jpg_rule_merge this results name relPath info :
  png_jpg_rule this results name relPath info
  = merge [results; png_jpg_rule this Result_new name relPath info].
Proof.
  unfold png_jpg_rule. destruct (exec LAUNCH_LOGO_REGEXP name); [apply Map_set_merge|].
  destruct (_ && _); apply Map_set_merge.
Qed.

Lemma _visitFile_merge this results from to name src origSrc prefix :
  _visitFile analyzeHtmlFile this results from to name src origSrc prefix
  = merge [results;
           _visitFile analyzeHtmlFile this Result_new from to name src origSrc prefix].
Proof.
  unfold _visitFile. destruct (opt_test (ignoreFiles this) name).
  { by rewrite merge_new_r. }
  repeat case_decide; try apply Map_set_merge; try apply png_jpg_rule_merge.
  - destruct (negb (truthy origSrc)); [|apply png_jpg_rule_merge].
    destruct (match appIconRegExp this with Some r => exec r name | None => None end);
      [apply Map_set_merge|].
    destruct (test LAUNCH_IMAGE_REGEXP name); [apply Map_set_merge | apply png_jpg_rule_merge].
  - unfold default_rule. apply Result_eq.
    + intros key. rewrite field_merge_two, !field_Map_set, !field_add_scripts.
      case_decide.
      * subst key. by rewrite field_Result_new, <- insert_union_l, (left_id_L ∅ (∪)).
      * by rewrite field_Result_new, (left_id_L ∅ (∪)).
    + rewrite htmlJsFiles_merge_two, !htmlJsFiles_Map_set, !htmlJsFiles_add_scripts.
      cbn [htmlJsFiles Result_new]. rewrite (right_id_L ∅ (∪)). apply (comm_L (∪)).
Qed.

Lemma visit_all_merge_from this listing :
  Forall (fun d =>
            ∀ results src dest ignore origSrc prefix,
              _visitListing analyzeHtmlFile this results d src dest ignore origSrc prefix
              = merged_into results
                  (_visitListing analyzeHtmlFile this Result_new d src dest ignore
                     origSrc prefix)) listing →
  ∀ results src dest ignore origSrc prefix,
    visit_all analyzeHtmlFile this listing results src dest ignore origSrc prefix
    = merged_into results
        (visit_all analyzeHtmlFile this listing Result_new src dest ignore origSrc prefix).
Proof.
  induction 1 as [|d listing Hd _ IH]; intros results src dest ignore origSrc prefix;
    cbn [visit_all].
  - cbn [merged_into]. by rewrite merge_new_r.
  - rewrite Hd.
    destruct (_visitListing _ _ Result_new d _ _ _ _ _) as [δ|e]; cbn [merged_into]; [|done].
    rewrite (IH (merge [results; δ])), (IH δ).
    destruct (visit_all _ _ listing Result_new _ _ _ _ _) as [δ'|e]; cbn [merged_into];
      [|done].
    by rewrite merge_two_assoc.
Qed.

Lemma _visitListing_merge this d :
  ∀ results src dest ignore origSrc prefix,
    _visitListing analyzeHtmlFile this results d src dest ignore origSrc prefix
    = merged_into results
        (_visitListing analyzeHtmlFile this Result_new d src dest ignore origSrc prefix).
Proof.
  induction d as [name | name readdir IH | name stat IH] using Dirent_tree_ind;
    intros results src dest ignore origSrc prefix.
  - rewrite !_visitListing_file. destruct (opt_test ignore name); cbn [merged_into].
    + by rewrite merge_new_r.
    + by rewrite _visitFile_merge.
  - rewrite !_visitListing_dir.
    destruct (opt_test ignore name); [cbn [merged_into]; by rewrite merge_new_r|].
    destruct (opt_test (ignoreDirs this) name); [cbn [merged_into]; by rewrite merge_new_r|].
    destruct readdir as [sub|e]; [|done]. cbn [_walkDir].
    apply visit_all_merge_from. by apply IH.
  - rewrite !_visitListing_link.
    destruct (opt_test ignore name); [cbn [merged_into]; by rewrite merge_new_r|].
    destruct stat as [[|[sub|e]]|e]; try done.
    + cbn [merged_into]. by rewrite _visitFile_merge.
    + destruct (opt_test (ignoreDirs this) name);
        [cbn [merged_into]; by rewrite merge_new_r|].
      cbn [_walkDir]. apply visit_all_merge_from. by apply IH.
    + by destruct (opt_test (ignoreDirs this) name);
        [cbn [merged_into]; rewrite merge_new_r|].
Qed.

Lemma visit_all_merge this listing results src dest ignore origSrc prefix :
  visit_all analyzeHtmlFile this listing results src dest ignore origSrc prefix
  = merged_into results
      (visit_all analyzeHtmlFile this listing Result_new src dest ignore origSrc prefix).
Proof.
  apply visit_all_merge_from. apply Forall_forall. intros d _. apply _visitListing_merge.
Qed.

Lemma visit_all_app this l1 l2 results src dest ignore origSrc prefix :
  visit_all analyzeHtmlFile this (l1 ++ l2) results src dest ignore origSrc prefix
  = match visit_all analyzeHtmlFile this l1 results src dest ignore origSrc prefix with
    | Resolved r1 => visit_all analyzeHtmlFile this l2 r1 src dest ignore origSrc prefix
    | Rejected e => Rejected e
    end.
Proof.
  revert results. induction l1 as [|d l1 IH]; intros results; cbn [visit_all app]; [done|].
  destruct (_visitListing _ _ _ d _ _ _ _ _); [apply IH | done].
Qed.

End Composition.

(** ** The tree of the examples *)

Lemma normal_path_Resources : normal_path "/app/Resources".
Proof. by repeat split. Qed.

Lemma normal_path_build : normal_path "/build".
Proof. by repeat split. Qed.

Lemma WellFormed_files (names : list string) :
  NoDup names → Forall valid_name names → WellFormed (Dirent_file <$> names).
Proof.
  intros Hnd Hvalid. constructor.
  - rewrite <- list_fmap_compose.
    replace (dirent_name ∘ Dirent_file <$> names) with names; [done|].
    clear. induction names as [|n l IH]; [done|]. rewrite fmap_cons. by f_equal.
  - intros d (name & -> & Hname)%list_elem_of_fmap.
    by apply (proj1 (Forall_forall _ _) Hvalid).
  - intros d name sub (name' & -> & _)%list_elem_of_fmap [[=]|[=]].
Qed.

Lemma WellFormed_example_tree : WellFormed example_tree.
Proof.
  constructor.
  - repeat (apply NoDup_cons; split; [set_solver|]). apply NoDup_nil_2.
  - intros d Hd.
    repeat (apply elem_of_cons in Hd as [->|Hd]); [..|by apply elem_of_nil in Hd];
      by repeat split.
  - intros d name sub Hd Hent.
    repeat (apply elem_of_cons in Hd as [->|Hd]); [..|by apply elem_of_nil in Hd];
      destruct Hent as [[=]|[=]]; subst.
    + apply (WellFormed_files ["style.css"%string]).
      * repeat (apply NoDup_cons; split; [set_solver|]). apply NoDup_nil_2.
      * repeat constructor; done.
    + apply (WellFormed_files ["logo.png"; "photo.jpg"]%string).
      * repeat (apply NoDup_cons; split; [set_solver|]). apply NoDup_nil_2.
      * repeat constructor; done.
Qed.

(** ** The order of a listing *)

Lemma WellFormed_inv listing :
  WellFormed listing →
  NoDup (dirent_name <$> listing)
  ∧ (∀ d, d ∈ listing → valid_name (dirent_name d))
  ∧ (∀ d name sub, d ∈ listing → enters d name (Resolved sub) → WellFormed sub).
Proof. by inversion 1. Qed.

Lemma WellFormed_perm l l' : l ≡ₚ l' → WellFormed l → WellFormed l'.
Proof.
  intros Hp (Hnd & Hvalid & Hsub)%WellFormed_inv. constructor.
  - by rewrite <- Hp.
  - intros d Hd. apply Hvalid. by rewrite Hp.
  - intros d name sub Hd. apply Hsub. by rewrite Hp.
Qed.

Lemma merge_swap (r0 a b : Result) :
  (∀ key, field key a ##ₘ field key b) →
  merge [merge [r0; a]; b] = merge [merge [r0; b]; a].
Proof.
  intros Hdisj. apply Result_eq.
  - intros key. rewrite !field_merge_two, !(assoc_L (∪)). f_equal.
    apply map_union_comm. symmetry. apply Hdisj.
  - rewrite !htmlJsFiles_merge_two. set_solver.
Qed.

Section Order.

Variable analyzeHtmlFile : string -> string -> list string.
Variable this : Walker.
Variable root : string.
Hypothesis root_not_empty : root ≠ EmptyString.

(** The visits of two entries of a directory with different names record
    different paths. *)
Lemma visits_disjoint d1 d2 dir dest ignore origSrc u δ1 δ2 :
  normal_path dir →
  or_else origSrc dir = root →
  dir +:+ "/" = root +:+ String "/" u →
  valid_name (dirent_name d1) → valid_name (dirent_name d2) →
  dirent_name d1 ≠ dirent_name d2 →
  (∀ name sub, enters d1 name (Resolved sub) → WellFormed sub) →
  (∀ name sub, enters d2 name (Resolved sub) → WellFormed sub) →
  _visitListing analyzeHtmlFile this Result_new d1 dir dest ignore origSrc None
  = Resolved δ1 →
  _visitListing analyzeHtmlFile this Result_new d2 dir dest ignore origSrc None
  = Resolved δ2 →
  ∀ key, field key δ1 ##ₘ field key δ2.
Proof.
  intros Hdir Horig Hu Hv1 Hv2 Hne Hs1 Hs2 H1 H2 key.
  destruct (keys_within_tree analyzeHtmlFile this root root_not_empty d1 _ _ _ _ _ _ _
              Hdir Horig Hu Hv1 Hs1 H1) as [Hk1 _].
  destruct (keys_within_tree analyzeHtmlFile this root root_not_empty d2 _ _ _ _ _ _ _
              Hdir Horig Hu Hv2 Hs2 H2) as [Hk2 _].
  apply map_disjoint_spec. intros p x y Hx Hy.
  destruct (Hk1 p) as [Hn|(y1 & Hy1 & ->)];
    [by exists key; eexists | by apply not_recorded_Result_new in Hn |].
  destruct (Hk2 (u +:+ y1)) as [Hn|(y2 & Hy2 & Heq)];
    [by exists key; eexists | by apply not_recorded_Result_new in Hn |].
  apply (inj (String.app u)) in Heq. subst y2.
  apply Hne. eapply under_disjoint; [| |done..].
  - by destruct Hv1 as (_ & _ & _ & ?).
  - by destruct Hv2 as (_ & _ & _ & ?).
Qed.

Lemma visit_all_perm l l' :
  l ≡ₚ l' →
  ∀ results dir dest ignore origSrc u r,
    normal_path dir →
    or_else origSrc dir = root →
    dir +:+ "/" = root +:+ String "/" u →
    WellFormed l →
    visit_all analyzeHtmlFile this l results dir dest ignore origSrc None = Resolved r →
    visit_all analyzeHtmlFile this l' results dir dest ignore origSrc None = Resolved r.
Proof.
  induction 1 as [|x l l' Hp IH|x y l|l l' l'' Hp1 IH1 Hp2 IH2];
    intros results dir dest ignore origSrc u r Hdir Horig Hu Hwf.
  - done.
  - cbn [visit_all]. destruct (_visitListing _ _ _ x _ _ _ _ _) as [r1|e]; [|done].
    apply WellFormed_cons_inv in Hwf as (Hwf & _). by eapply IH.
  - cbn [visit_all].
    apply WellFormed_cons_inv in Hwf as (Hwf & Hvy & Hfy & Hsy).
    apply WellFormed_cons_inv in Hwf as (Hwf & Hvx & Hfx & Hsx).
    rewrite (_visitListing_merge _ _ y results), (_visitListing_merge _ _ x results).
    destruct (_visitListing _ _ Result_new y _ _ _ _ _) as [δy|e] eqn:Hy; [|done].
    cbn [merged_into]. rewrite (_visitListing_merge _ _ x (merge _)).
    destruct (_visitListing _ _ Result_new x _ _ _ _ _) as [δx|e] eqn:Hx; [|done].
    cbn [merged_into]. rewrite (_visitListing_merge _ _ y (merge _)), Hy. cbn [merged_into].
    rewrite (merge_swap results δy δx); [done|].
    eapply (visits_disjoint y x);
      [exact Hdir | exact Horig | exact Hu | exact Hvy | exact Hvx | | exact Hsy
      | exact Hsx | exact Hy | exact Hx].
    intros Heq. apply Hfy. rewrite fmap_cons, Heq. apply list_elem_of_here.
  - intros Hr. eapply IH2; [done..| |].
    + by eapply WellFormed_perm.
    + by eapply IH1.
Qed.

Lemma Reordered_visits :
  (∀ l l', Reordered l l' →
     (WellFormed l → WellFormed l') ∧
     (dirent_name <$> l) ≡ₚ (dirent_name <$> l') ∧
     ∀ results dir dest ignore origSrc u r,
       normal_path dir →
       or_else origSrc dir = root →
       dir +:+ "/" = root +:+ String "/" u →
       WellFormed l →
       visit_all analyzeHtmlFile this l results dir dest ignore origSrc None = Resolved r →
       visit_all analyzeHtmlFile this l' results dir dest ignore origSrc None = Resolved r).
Proof.
  apply (Reordered_mut
    (fun l l' =>
       (WellFormed l → WellFormed l') ∧
       (dirent_name <$> l) ≡ₚ (dirent_name <$> l') ∧
       ∀ results dir dest ignore origSrc u r,
         normal_path dir →
         or_else origSrc dir = root →
         dir +:+ "/" = root +:+ String "/" u →
         WellFormed l →
         visit_all analyzeHtmlFile this l results dir dest ignore origSrc None = Resolved r →
         visit_all analyzeHtmlFile this l' results dir dest ignore origSrc None = Resolved r)
    (fun d d' =>
       dirent_name d = dirent_name d' ∧
       ((∀ name sub, enters d name (Resolved sub) → WellFormed sub) →
        (∀ name sub, enters d' name (Resolved sub) → WellFormed sub)) ∧
       ∀ results dir dest ignore origSrc u r,
         normal_path dir →
         or_else origSrc dir = root →
         dir +:+ "/" = root +:+ String "/" u →
         valid_name (dirent_name d) →
         (∀ name sub, enters d name (Resolved sub) → WellFormed sub) →
         _visitListing analyzeHtmlFile this results d dir dest ignore origSrc None
         = Resolved r →
         _visitListing analyzeHtmlFile this results d' dir dest ignore origSrc None
         = Resolved r)).
  - done.
  - intros d d' l l' _ (Hname & Hsub & Hd) _ (Hwfl & Hnames & Hl). split; [|split].
    + intros (Hwf & Hvalid & Hfresh & Hs)%WellFormed_cons_inv.
      specialize (Hwfl Hwf). apply WellFormed_inv in Hwfl as (Hnd' & Hvalid' & Hsub').
      constructor.
      * rewrite fmap_cons. apply NoDup_cons. split; [|done].
        by rewrite <- Hname, <- Hnames.
      * intros d0 [->|Hd0]%elem_of_cons; [by rewrite <- Hname | by apply Hvalid'].
      * intros d0 name sub [->|Hd0]%elem_of_cons; [by apply Hsub | by apply Hsub'].
    + rewrite !fmap_cons, Hname. by constructor.
    + intros results dir dest ignore origSrc u r Hdir Horig Hu Hwf. cbn [visit_all].
      apply WellFormed_cons_inv in Hwf as (Hwf & Hvalid & _ & Hs).
      destruct (_visitListing _ _ _ d _ _ _ _ _) as [r1|e] eqn:Hv; [|done].
      rewrite (Hd _ _ _ _ _ _ _ Hdir Horig Hu Hvalid Hs Hv). by apply (Hl _ _ _ _ _ u).
  - intros l l' Hp. split; [by apply WellFormed_perm|]. split; [by rewrite Hp|].
    intros results dir dest ignore origSrc u. by apply visit_all_perm.
  - intros l1 l2 l3 _ (Hwf1 & Hn1 & H1) _ (Hwf2 & Hn2 & H2). split; [auto|].
    split; [by rewrite Hn1|].
    intros results dir dest ignore origSrc u r Hdir Horig Hu Hwf Hr.
    apply (H2 _ _ _ _ _ u); [done..|by apply Hwf1|]. by apply (H1 _ _ _ _ _ u).
  - done.
  - intros name sub sub' _ (Hwf & _ & Hsub). split; [done|]. split.
    + intros Hs name' sub0 [[= <- <-]|[=]]. apply Hwf. apply (Hs name). by left.
    + intros results dir dest ignore origSrc u r Hdir Horig Hu Hname Hs. cbn [dirent_name] in *.
      rewrite !_visitListing_dir.
      destruct (opt_test ignore name); [done|].
      destruct (opt_test (ignoreDirs this) name); [done|]. cbn [_walkDir].
      destruct (path_join_normal dir name Hdir Hname) as [-> Hdir'].
      apply (Hsub _ _ _ _ _ (u +:+ name +:+ "/")); [done| | |].
      * rewrite Horig. simpl. by destruct (String.eqb_spec root "").
      * replace (dir +:+ String "/" name) with ((dir +:+ "/") +:+ name)
          by (by rewrite str_app_assoc).
        rewrite Hu. by str_norm.
      * apply (Hs name). by left.
  - intros name sub sub' _ (Hwf & _ & Hsub). split; [done|]. split.
    + intros Hs name' sub0 [[=]|[= <- <-]]. apply Hwf. apply (Hs name). by right.
    + intros results dir dest ignore origSrc u r Hdir Horig Hu Hname Hs. cbn [dirent_name] in *.
      rewrite !_visitListing_link.
      destruct (opt_test ignore name); [done|].
      destruct (opt_test (ignoreDirs this) name); [done|]. cbn [_walkDir].
      destruct (path_join_normal dir name Hdir Hname) as [-> Hdir'].
      apply (Hsub _ _ _ _ _ (u +:+ name +:+ "/")); [done| | |].
      * rewrite Horig. simpl. by destruct (String.eqb_spec root "").
      * replace (dir +:+ String "/" name) with ((dir +:+ "/") +:+ name)
          by (by rewrite str_app_assoc).
        rewrite Hu. by str_norm.
      * apply (Hs name). by right.
Qed.

End Order.

Section OrderIndependence.

Variable analyzeHtmlFile : string -> string -> list string.

(** X6. The Result of a walk does not depend on the order in which the
    directories are listed, and so not on the order in which the visits
    that [Promise.all] starts are carried out: for a root given in normal
    form, over a tree in which the entries of a directory have distinct,
    valid names, a walk that gives a Result gives the same one on the
    tree with the entries of its listings, at any depth, in another
    order. *)
Theorem walk_order_independent (this : Walker) (l l' : list Dirent)
    (src dest : string) (ignore : option regex) (r : Result) :
  normal_path src →
  WellFormed l →
  Reordered l l' →
  walk analyzeHtmlFile this (Some (Resolved l)) src dest ignore None None = Resolved r →
  walk analyzeHtmlFile this (Some (Resolved l')) src dest ignore None None = Resolved r.
Proof.
  intros Hsrc Hwf Hre. unfold walk, _walkDir.
  assert (src ≠ EmptyString) as Hne by (by destruct Hsrc).
  destruct (Reordered_visits analyzeHtmlFile this src Hne l l' Hre) as (_ & _ & H).
  by apply (H _ _ _ _ _ EmptyString).
Qed.

End OrderIndependence.

Lemma walk_order_independent_witness :
  ∃ r,
    walk no_scripts appicon_walker (Some (Resolved example_tree))
      "/app/Resources" "/build" None None None = Resolved r
    ∧ walk no_scripts appicon_walker (Some (Resolved (reverse example_tree)))
        "/app/Resources" "/build" None None None = Resolved r.
Proof.
  eexists. split; [vm_compute; reflexivity|].
  apply (walk_order_independent no_scripts appicon_walker example_tree
           (reverse example_tree) "/app/Resources" "/build" None).
  - apply normal_path_Resources.
  - apply WellFormed_example_tree.
  - apply Reordered_perm. symmetry. apply reverse_Permutation.
  - vm_compute. reflexivity.
Defined.

(** ** Where the records of a Result come from *)

Section Provenance.

Variable analyzeHtmlFile : string -> string -> list string.
Variable this : Walker.

Lemma _visitFile_new_not_ignored from to name src origSrc prefix :
  _visitFile analyzeHtmlFile this Result_new from to name src origSrc prefix ≠ Result_new →
  opt_test (ignoreFiles this) name = false.
Proof.
  unfold _visitFile. by destruct (opt_test (ignoreFiles this) name).
Qed.

Lemma field_lookup_not_new key (r : Result) p info :
  field key r !! p = Some info → r ≠ Result_new.
Proof. intros H ->. by rewrite field_Result_new, lookup_empty in H. Qed.

Lemma htmlJsFiles_not_new (r : Result) x : x ∈ htmlJsFiles r → r ≠ Result_new.
Proof. intros H ->. by apply elem_of_empty in H. Qed.

Lemma holds_not_new r e : holds r e → r ≠ Result_new.
Proof.
  destruct e as [[[key p] info]|x]; [apply field_lookup_not_new | apply htmlJsFiles_not_new].
Qed.

Lemma holds_merge_two a b e : holds (merge [a; b]) e → holds a e ∨ holds b e.
Proof.
  destruct e as [[[key p] info]|x]; cbn [holds].
  - rewrite field_merge_two. intros [?|[_ ?]]%lookup_union_Some_raw; auto.
  - rewrite htmlJsFiles_merge_two. set_solver.
Qed.

Lemma provenance_all listing e :
  Forall (fun d =>
            ∀ src dest ignore origSrc prefix δ,
              _visitListing analyzeHtmlFile this Result_new d src dest ignore origSrc prefix
              = Resolved δ →
              holds δ e →
              ∃ f, (∀ l, d ∈ l → Visits this ignore l src dest origSrc f)
                   ∧ holds (classified analyzeHtmlFile this prefix f) e) listing →
  ∀ src dest ignore origSrc prefix δ,
    visit_all analyzeHtmlFile this listing Result_new src dest ignore origSrc prefix
    = Resolved δ →
    holds δ e →
    ∃ f, Visits this ignore listing src dest origSrc f
         ∧ holds (classified analyzeHtmlFile this prefix f) e.
Proof.
  induction 1 as [|d listing Hd _ IH]; intros src dest ignore origSrc prefix δ;
    cbn [visit_all].
  - intros [= <-] He. by apply holds_not_new in He.
  - destruct (_visitListing _ _ _ d _ _ _ _ _) as [δ1|err] eqn:Hv; [|done].
    rewrite visit_all_merge.
    destruct (visit_all _ _ listing Result_new _ _ _ _ _) as [δ2|err] eqn:Hall; [|done].
    cbn [merged_into]. intros [= <-] [He|He]%holds_merge_two.
    + destruct (Hd _ _ _ _ _ _ Hv He) as (f & Hf & Hc). exists f. split; [|done].
      apply Hf, list_elem_of_here.
    + destruct (IH _ _ _ _ _ _ Hall He) as (f & Hf & Hc). exists f. split; [|done].
      clear -Hf. induction Hf as [ignore l src dest origSrc d0 name Hin Hd0 Hign Hfiles
                                 |ignore l src dest origSrc d0 name sub f Hin Hd0 Hign Hdirs Hsub _].
      * eapply Visits_file; [by apply list_elem_of_further|done..].
      * eapply Visits_below; [by apply list_elem_of_further|done..].
Qed.

Lemma provenance_entry d e :
  ∀ src dest ignore origSrc prefix δ,
    _visitListing analyzeHtmlFile this Result_new d src dest ignore origSrc prefix
    = Resolved δ →
    holds δ e →
    ∃ f, (∀ l, d ∈ l → Visits this ignore l src dest origSrc f)
         ∧ holds (classified analyzeHtmlFile this prefix f) e.
Proof.
  induction d as [name | name readdir IH | name stat IH] using Dirent_tree_ind;
    intros src dest ignore origSrc prefix δ.
  - rewrite _visitListing_file. destruct (opt_test ignore name) eqn:Hign.
    { intros [= <-] He. by apply holds_not_new in He. }
    intros [= <-] He. exists (name, src, dest, origSrc). split; [|done].
    intros l Hl. eapply Visits_file; [done | by left | done |].
    eapply _visitFile_new_not_ignored, holds_not_new, He.
  - rewrite _visitListing_dir. destruct (opt_test ignore name) eqn:Hign.
    { intros [= <-] He. by apply holds_not_new in He. }
    destruct (opt_test (ignoreDirs this) name) eqn:Hdirs.
    { intros [= <-] He. by apply holds_not_new in He. }
    destruct readdir as [sub|err]; [|done]. cbn [_walkDir]. intros Hv He.
    destruct (provenance_all sub e (IH sub eq_refl) _ _ _ _ _ _ Hv He) as (f & Hf & Hc).
    exists f. split; [|done]. intros l Hl.
    eapply Visits_below; [done | by left | done..].
  - rewrite _visitListing_link. destruct (opt_test ignore name) eqn:Hign.
    { intros [= <-] He. by apply holds_not_new in He. }
    destruct stat as [[|[sub|err]]|err]; try done.
    + intros [= <-] He. exists (name, src, dest, origSrc). split; [|done].
      intros l Hl. eapply Visits_file; [done | by right | done |].
      eapply _visitFile_new_not_ignored, holds_not_new, He.
    + destruct (opt_test (ignoreDirs this) name) eqn:Hdirs.
      { intros [= <-] He. by apply holds_not_new in He. }
      cbn [_walkDir]. intros Hv He.
      destruct (provenance_all sub e (IH sub eq_refl) _ _ _ _ _ _ Hv He) as (f & Hf & Hc).
      exists f. split; [|done]. intros l Hl.
      eapply Visits_below; [done | by right | done..].
    + destruct (opt_test (ignoreDirs this) name); [|done].
      intros [= <-] He. by apply holds_not_new in He.
Qed.

Lemma provenance listing src dest ignore origSrc prefix δ e :
  visit_all analyzeHtmlFile this listing Result_new src dest ignore origSrc prefix
  = Resolved δ →
  holds δ e →
  ∃ f, Visits this ignore listing src dest origSrc f
       ∧ holds (classified analyzeHtmlFile this prefix f) e.
Proof.
  apply provenance_all. apply Forall_forall. intros d _. apply provenance_entry.
Qed.

(** What the visit of a file alone holds is in the Result of the walk
    when no later visit sets the same path. *)
Lemma holds_merge_r a b e : holds b e → holds (merge [a; b]) e.
Proof.
  destruct e as [[[key p] info]|x]; cbn [holds].
  - rewrite field_merge_two. intros H. by apply lookup_union_Some_l.
  - rewrite htmlJsFiles_merge_two. set_solver.
Qed.

End Provenance.

Section Exactness.

Variable analyzeHtmlFile : string -> string -> list string.
Variable this : Walker.
Variable root : string.
Hypothesis root_not_empty : root ≠ EmptyString.

Lemma holds_merge_l a b e :
  holds a e →
  (∀ key p info, e = inl (key, p, info) → field key b !! p = None) →
  holds (merge [a; b]) e.
Proof.
  destruct e as [[[key p] info]|x]; cbn [holds].
  - intros Ha Hb. rewrite field_merge_two. rewrite lookup_union_r; [done|]. by eapply Hb.
  - rewrite htmlJsFiles_merge_two. set_solver.
Qed.

Lemma holds_recorded r key p info : holds r (inl (key, p, info)) → recorded r p.
Proof. intros H. exists key. by eexists. Qed.

(** What the visit of an entry records stays in the Result of the visit
    of its listing. *)
Lemma visit_all_keeps listing :
  ∀ d results dir dest ignore origSrc u r,
    normal_path dir →
    or_else origSrc dir = root →
    dir +:+ "/" = root +:+ String "/" u →
    WellFormed listing →
    d ∈ listing →
    visit_all analyzeHtmlFile this listing results dir dest ignore origSrc None
    = Resolved r →
    ∃ δ, _visitListing analyzeHtmlFile this Result_new d dir dest ignore origSrc None
         = Resolved δ
         ∧ ∀ e, holds δ e → holds r e.
Proof.
  induction listing as [|d' listing IH];
    intros d results dir dest ignore origSrc u r Hdir Horig Hu Hwf Hin;
    [by apply elem_of_nil in Hin|].
  cbn [visit_all]. rewrite _visitListing_merge.
  destruct (_visitListing _ _ Result_new d' _ _ _ _ _) as [δ1|err] eqn:Hv; [|done].
  cbn [merged_into].
  pose proof Hwf as (Hwf' & Hvalid & Hfresh & Hsub)%WellFormed_cons_inv.
  apply elem_of_cons in Hin as [->|Hin]; [|by apply (IH _ _ _ _ _ _ u)].
  rewrite visit_all_merge.
  destruct (visit_all _ _ listing Result_new _ _ _ _ _) as [δ2|err] eqn:Hall; [|done].
  cbn [merged_into]. intros [= <-]. exists δ1. split; [done|].
  intros e He. apply holds_merge_l; [by apply holds_merge_r|].
  intros key p info ->. destruct (field key δ2 !! p) as [info2|] eqn:H2; [|done].
  exfalso.
  destruct (keys_within_tree analyzeHtmlFile this root root_not_empty d' _ _ _ _ _ _ _
              Hdir Horig Hu Hvalid Hsub Hv) as [Hk1 _].
  assert (Forall (keys_within analyzeHtmlFile this root) listing) as Hforall
    by (apply Forall_forall; intros d _; by apply keys_within_tree).
  destruct (keys_within_all analyzeHtmlFile this root root_not_empty listing Hforall
              _ _ _ _ _ _ _ Hdir Horig Hu Hwf' Hall) as [Hk2 _].
  destruct (Hk1 p (holds_recorded _ _ _ _ He)) as [Hn|(y1 & Hy1 & ->)];
    [by apply not_recorded_Result_new in Hn|].
  destruct (Hk2 (u +:+ y1)) as [Hn|(d2 & y2 & Hd2 & Hy2 & Heq)];
    [by exists key; eexists | by apply not_recorded_Result_new in Hn |].
  apply (inj (String.app u)) in Heq. subst y2.
  apply Hfresh. apply list_elem_of_fmap. exists d2. split; [|done].
  apply WellFormed_inv in Hwf' as (_ & Hvalid2 & _).
  eapply under_disjoint; [| |done..].
  - by destruct Hvalid as (_ & _ & _ & ?).
  - by destruct (Hvalid2 d2 Hd2) as (_ & _ & _ & ?).
Qed.

Lemma Visits_holds ignore listing dir dest origSrc f :
  Visits this ignore listing dir dest origSrc f →
  ∀ results u r e,
    normal_path dir →
    or_else origSrc dir = root →
    dir +:+ "/" = root +:+ String "/" u →
    WellFormed listing →
    visit_all analyzeHtmlFile this listing results dir dest ignore origSrc None
    = Resolved r →
    holds (classified analyzeHtmlFile this None f) e →
    holds r e.
Proof.
  induction 1 as [ignore listing dir dest origSrc d name Hin Hd Hign Hfiles
                 |ignore listing dir dest origSrc d name sub f Hin Hd Hign Hdirs _ IH];
    intros results u r e Hdir Horig Hu Hwf Hall He.
  - destruct (visit_all_keeps listing d _ _ _ _ _ u _ Hdir Horig Hu Hwf Hin Hall)
      as (δ & Hv & Hkeep).
    apply Hkeep. destruct Hd as [-> | ->].
    + rewrite _visitListing_file, Hign in Hv. by injection Hv as <-.
    + rewrite _visitListing_link, Hign in Hv. by injection Hv as <-.
  - destruct (visit_all_keeps listing d _ _ _ _ _ u _ Hdir Horig Hu Hwf Hin Hall)
      as (δ & Hv & Hkeep).
    apply Hkeep.
    rewrite (_visitListing_recurse _ _ _ name (Resolved sub)), Hign, Hdirs in Hv by done.
    cbn [_walkDir] in Hv.
    pose proof Hwf as (_ & Hvalid & Hsub)%WellFormed_inv.
    assert (valid_name name) as Hname.
    { specialize (Hvalid d Hin). by destruct Hd as [-> | ->]. }
    destruct (path_join_normal dir name Hdir Hname) as [Hjoin Hdir'].
    apply (IH Result_new (u +:+ name +:+ "/")); [by rewrite Hjoin| | |by eapply Hsub|done|done].
    + rewrite Horig. simpl. by destruct (String.eqb_spec root "").
    + rewrite Hjoin.
      replace (dir +:+ String "/" name) with ((dir +:+ "/") +:+ name)
        by (by rewrite str_app_assoc).
      rewrite Hu. by str_norm.
Qed.

End Exactness.

Section VisitedFiles.

Variable analyzeHtmlFile : string -> string -> list string.

(** X7. A walk records nothing but the files that it visits: every
    record of the Result, under its path and in its mapping, is the record
    that the classification of one of the visited files gives when taken
    alone, and every script of [htmlJsFiles] is one that the analysis of
    one of the visited files reports. *)
Theorem walk_records_only_visited_files (this : Walker) (listing : list Dirent)
    (src dest : string) (ignore : option regex) (origSrc prefix : option string)
    (r : Result) :
  walk analyzeHtmlFile this (Some (Resolved listing)) src dest ignore origSrc prefix
  = Resolved r →
  (∀ key p info,
     field key r !! p = Some info →
     ∃ f, Visits this ignore listing src dest origSrc f
          ∧ field key (classified analyzeHtmlFile this prefix f) !! p = Some info) ∧
  (∀ x,
     x ∈ htmlJsFiles r →
     ∃ f, Visits this ignore listing src dest origSrc f
          ∧ x ∈ htmlJsFiles (classified analyzeHtmlFile this prefix f)).
Proof.
  unfold walk, _walkDir. intros Hr. split.
  - intros key p info He.
    apply (provenance analyzeHtmlFile this _ _ _ _ _ _ _ (inl (key, p, info)) Hr He).
  - intros x He.
    apply (provenance analyzeHtmlFile this _ _ _ _ _ _ _ (inr x) Hr He).
Qed.

(** X8. For a root given in normal form, over a tree in which the
    entries of a directory have distinct, valid names, the Result of a
    walk is exactly what the visited files give one by one: a mapping
    holds a record under a path if and only if the classification of one
    of the visited files, taken alone, sets that record under that path
    in that mapping; and [htmlJsFiles] holds exactly the scripts reported
    for the visited files.  No visit overwrites the record of another. *)
Theorem walk_is_the_visited_files (this : Walker) (listing : list Dirent)
    (src dest : string) (ignore : option regex) (r : Result) :
  normal_path src →
  WellFormed listing →
  walk analyzeHtmlFile this (Some (Resolved listing)) src dest ignore None None
  = Resolved r →
  (∀ key p info,
     field key r !! p = Some info
     ↔ ∃ f, Visits this ignore listing src dest None f
            ∧ field key (classified analyzeHtmlFile this None f) !! p = Some info) ∧
  (∀ x,
     x ∈ htmlJsFiles r
     ↔ ∃ f, Visits this ignore listing src dest None f
            ∧ x ∈ htmlJsFiles (classified analyzeHtmlFile this None f)).
Proof.
  intros Hsrc Hwf Hr. unfold walk, _walkDir in Hr.
  assert (src ≠ EmptyString) as Hne by (by destruct Hsrc).
  split.
  - intros key p info. split.
    + apply (provenance analyzeHtmlFile this _ _ _ _ _ _ _ (inl (key, p, info)) Hr).
    + intros (f & Hf & Hc).
      apply (Visits_holds analyzeHtmlFile this src Hne _ _ _ _ _ _ Hf Result_new
               EmptyString r (inl (key, p, info))); done.
  - intros x. split.
    + apply (provenance analyzeHtmlFile this _ _ _ _ _ _ _ (inr x) Hr).
    + intros (f & Hf & Hc).
      apply (Visits_holds analyzeHtmlFile this src Hne _ _ _ _ _ _ Hf Result_new
               EmptyString r (inr x)); done.
Qed.

End VisitedFiles.

Lemma walk_records_only_visited_files_witness :
  ∃ f, Visits appicon_walker None example_tree "/app/Resources" "/build" None f
       ∧ field F_cssFiles (classified no_scripts appicon_walker None f) !! "shared/style.css"
         = Some (file_info "style.css" "/app/Resources/shared/style.css"
                   "/build/shared/style.css").
Proof.
  assert (∃ r,
            walk no_scripts appicon_walker (Some (Resolved example_tree))
              "/app/Resources" "/build" None None None = Resolved r
            ∧ field F_cssFiles r !! "shared/style.css"
              = Some (file_info "style.css" "/app/Resources/shared/style.css"
                        "/build/shared/style.css")) as (r & Hr & He).
  { eexists. split; [vm_compute; reflexivity | by vm_compute]. }
  exact (proj1 (walk_records_only_visited_files no_scripts appicon_walker example_tree
                  "/app/Resources" "/build" None None None r Hr)
           F_cssFiles "shared/style.css"%string _ He).
Defined.

Lemma walk_is_the_visited_files_witness :
  ∃ r,
    walk no_scripts appicon_walker (Some (Resolved example_tree))
      "/app/Resources" "/build" None None None = Resolved r
    ∧ field F_resourcesToCopy r !! "images/photo.jpg"
      = Some (file_info "photo.jpg" "/app/Resources/images/photo.jpg"
                "/build/images/photo.jpg").
Proof.
  assert (∃ r,
            walk no_scripts appicon_walker (Some (Resolved example_tree))
              "/app/Resources" "/build" None None None = Resolved r) as (r & Hr).
  { eexists. vm_compute. reflexivity. }
  exists r. split; [done|].
  apply (proj1 (walk_is_the_visited_files no_scripts appicon_walker example_tree
                  "/app/Resources" "/build" None r normal_path_Resources
                  WellFormed_example_tree Hr)).
  exists ("photo.jpg", "/app/Resources/images", "/build/images",
          Some "/app/Resources")%string.
  split; [|by vm_compute].
  apply (Visits_below _ None example_tree "/app/Resources" "/build" None
           (Dirent_dir "images" (Resolved [Dirent_file "logo.png"; Dirent_file "photo.jpg"]))
           "images" [Dirent_file "logo.png"; Dirent_file "photo.jpg"]);
    [unfold example_tree; set_solver | by left | done | done |].
  apply (Visits_file _ None _ "/app/Resources/images"%string "/build/images"%string
           (Some "/app/Resources"%string) (Dirent_file "photo.jpg"));
    [set_solver | by left | done | done].
Defined.

(** ** The records of a walk describe the files at their keys *)

Lemma basename_join u name :
  dir_prefix u → no_slash name = true → basename (u +:+ name) = name.
Proof.
  intros [->|[u0 ->]] Hname; unfold basename.
  - rewrite str_app_nil_l, split_slash_no_slash by done. done.
  - rewrite str_app_assoc, str_app_cons, str_app_nil_l, split_slash_app by done.
    by rewrite List.last_last.
Qed.

Section Geometry.

Variable this : Walker.
Variables root droot : string.
Hypothesis root_not_empty : root ≠ EmptyString.

Lemma Visits_geometry ignore listing dir ddir origSrc f :
  Visits this ignore listing dir ddir origSrc f →
  ∀ u,
    normal_path dir → normal_path ddir →
    or_else origSrc dir = root →
    dir +:+ "/" = root +:+ String "/" u →
    ddir +:+ "/" = droot +:+ String "/" u →
    dir_prefix u →
    WellFormed listing →
    ∃ u',
      f.1.1.2 +:+ "/" = root +:+ String "/" u'
      ∧ f.1.2 +:+ "/" = droot +:+ String "/" u'
      ∧ normal_path f.1.1.2 ∧ normal_path f.1.2
      ∧ or_else f.2 f.1.1.2 = root
      ∧ valid_name f.1.1.1
      ∧ dir_prefix u'
      ∧ (truthy f.2 = false →
         truthy origSrc = false ∧ u' = u ∧ ∃ d, d ∈ listing ∧ is_file d f.1.1.1).
Proof.
  induction 1 as [ignore listing dir ddir origSrc d name Hin Hd Hign Hfiles
                 |ignore listing dir ddir origSrc d name sub f Hin Hd Hign Hdirs _ IH];
    intros u Hdir Hddir Horig Hu Hdu Hpre Hwf;
    pose proof Hwf as (_ & Hvalid & Hsub)%WellFormed_inv.
  - exists u. cbn [fst snd]. split_and!; try done.
    + specialize (Hvalid d Hin). by destruct Hd as [-> | ->].
    + intros Hf. split_and!; try done. by exists d.
  - assert (valid_name name) as Hname.
    { specialize (Hvalid d Hin). by destruct Hd as [-> | ->]. }
    destruct (path_join_normal dir name Hdir Hname) as [Hjoin Hdir'].
    destruct (path_join_normal ddir name Hddir Hname) as [Hjoin' Hddir'].
    assert (truthy (Some (or_else origSrc dir)) = true) as Htruthy.
    { rewrite Horig. simpl. by destruct (String.eqb_spec root ""). }
    destruct (IH (u +:+ name +:+ "/")) as (u' & H1 & H2 & H3 & H4 & H5 & H6 & H7 & H8).
    + by rewrite Hjoin.
    + by rewrite Hjoin'.
    + rewrite Horig. simpl. by destruct (String.eqb_spec root "").
    + rewrite Hjoin.
      replace (dir +:+ String "/" name) with ((dir +:+ "/") +:+ name)
        by (by rewrite str_app_assoc).
      rewrite Hu. by str_norm.
    + rewrite Hjoin'.
      replace (ddir +:+ String "/" name) with ((ddir +:+ "/") +:+ name)
        by (by rewrite str_app_assoc).
      rewrite Hdu. by str_norm.
    + right. exists (u +:+ name). by str_norm.
    + by eapply Hsub.
    + exists u'. split_and!; try done.
      intros Hf. destruct (H8 Hf) as (Hc & _). congruence.
Qed.

End Geometry.

Section Describes.

Variable analyzeHtmlFile : string -> string -> list string.

(** The record of a file classified alone. *)
Lemma classified_entry this prefix f key p info :
  field key (classified analyzeHtmlFile this prefix f) !! p = Some info →
  p = relative_path (path_join f.1.1.2 f.1.1.1) f.1.1.2 f.2 prefix
  ∧ info_name info = info_name (file_info f.1.1.1 EmptyString EmptyString)
  ∧ info_ext info = info_ext (file_info f.1.1.1 EmptyString EmptyString)
  ∧ info_src info = path_join f.1.1.2 f.1.1.1
  ∧ info_dest info = path_join f.1.2 f.1.1.1.
Proof.
  intros He. unfold classified in *.
  assert (opt_test (ignoreFiles this) f.1.1.1 = false) as Hign.
  { eapply _visitFile_new_not_ignored, field_lookup_not_new, He. }
  destruct (_visitFile_one_bucket analyzeHtmlFile this Result_new
              (path_join f.1.1.2 f.1.1.1) (path_join f.1.2 f.1.1.1) f.1.1.1 f.1.1.2 f.2
              prefix Hign) as (key0 & info0 & Hf & Hn & Hx & Hs & Hd).
  rewrite Hf in He. case_decide; [|by rewrite field_Result_new, lookup_empty in He].
  rewrite field_Result_new in He.
  apply lookup_insert_Some in He as [[<- <-]|[_ He]]; [|by rewrite lookup_empty in He].
  rewrite !file_info_parsed in *. by destruct (parsed_name f.1.1.1) as [[b e]|].
Qed.

(** X9. For a walk of a root and to a destination both given in normal
    form, over a tree in which the entries of a directory have distinct,
    valid names, every record describes the file found at its key, before
    and after the reclassification pass: its [src] is the root joined
    with the key, its [dest] the destination joined with the key, and its
    name and extension are those read in the last segment of the key. *)
Theorem records_describe_their_files (this : Walker) (listing : list Dirent)
    (src dest : string) (ignore : option regex) (r : Result)
    (key : mapField) (p : string) (info : FileInfo) :
  normal_path src →
  normal_path dest →
  WellFormed listing →
  walk analyzeHtmlFile this (Some (Resolved listing)) src dest ignore None None
  = Resolved r →
  field key r !! p = Some info
  ∨ field key (dontProcessJsFilesReferencedFromHTML r) !! p = Some info →
  info_src info = src +:+ String "/" p
  ∧ info_dest info = dest +:+ String "/" p
  ∧ info_name info = info_name (file_info (basename p) EmptyString EmptyString)
  ∧ info_ext info = info_ext (file_info (basename p) EmptyString EmptyString).
Proof.
  intros Hsrc Hdest Hwf Hr.
  assert (∀ key, field key r !! p = Some info →
            info_src info = src +:+ String "/" p
            ∧ info_dest info = dest +:+ String "/" p
            ∧ info_name info = info_name (file_info (basename p) EmptyString EmptyString)
            ∧ info_ext info = info_ext (file_info (basename p) EmptyString EmptyString))
    as Hmain.
  { clear key. intros key He. unfold walk, _walkDir in Hr.
    assert (src ≠ EmptyString) as Hne by (by destruct Hsrc).
    destruct (provenance analyzeHtmlFile this _ _ _ _ _ _ _ (inl (key, p, info)) Hr He)
      as ([[[name dir] ddir] o] & Hf & Hc).
    destruct (Visits_geometry this src dest Hne _ _ _ _ _ _ Hf EmptyString)
      as (u & H1 & H2 & H3 & H4 & H5 & H6 & H7 & _); try done; [by left|].
    cbn [fst snd] in *. cbn [holds] in Hc.
    apply classified_entry in Hc as (Hp & Hn & Hx & Hs & Hd). cbn [fst snd] in *.
    destruct (path_join_normal dir name H3 H6) as [Hjoin _].
    destruct (path_join_normal ddir name H4 H6) as [Hjoin' _].
    assert (p = u +:+ name) as ->.
    { rewrite Hp, Hjoin.
      replace (dir +:+ String "/" name) with ((dir +:+ "/") +:+ name)
        by (by rewrite str_app_assoc).
      rewrite H1, str_app_assoc, str_app_cons. by apply relative_path_below. }
    rewrite basename_join; [|done|by destruct H6 as (_ & _ & _ & ?)].
    split; [|split; [|done]].
    - rewrite Hs, Hjoin.
      replace (dir +:+ String "/" name) with ((dir +:+ "/") +:+ name)
        by (by rewrite str_app_assoc).
      rewrite H1. by str_norm.
    - rewrite Hd, Hjoin'.
      replace (ddir +:+ String "/" name) with ((ddir +:+ "/") +:+ name)
        by (by rewrite str_app_assoc).
      rewrite H2. by str_norm. }
  intros [He|He]; [by eapply Hmain|].
  unfold dontProcessJsFilesReferencedFromHTML in He.
  destruct (dontProcess_fold (elements (htmlJsFiles r)) r) as (Hjs & Hrc & Hother & _).
  destruct (decide (key = F_jsFiles)) as [->|Hk1].
  { cbn [field] in He. rewrite Hjs in He. case_decide; [done|].
    by apply (Hmain F_jsFiles). }
  destruct (decide (key = F_resourcesToCopy)) as [->|Hk2].
  { cbn [field] in He. rewrite Hrc in He. case_decide.
    - destruct (jsFiles r !! p) eqn:Hj.
      + injection He as ->. by apply (Hmain F_jsFiles).
      + by apply (Hmain F_resourcesToCopy).
    - by apply (Hmain F_resourcesToCopy). }
  rewrite Hother in He by done. by eapply Hmain.
Qed.

End Describes.

Lemma records_describe_their_files_witness :
  ∃ r info,
    walk no_scripts appicon_walker (Some (Resolved example_tree))
      "/app/Resources" "/build" None None None = Resolved r
    ∧ field F_resourcesToCopy r !! "images/logo.png" = Some info
    ∧ info_src info = "/app/Resources/images/logo.png"%string
    ∧ info_dest info = "/build/images/logo.png"%string.
Proof.
  assert (∃ r info,
            walk no_scripts appicon_walker (Some (Resolved example_tree))
              "/app/Resources" "/build" None None None = Resolved r
            ∧ field F_resourcesToCopy r !! "images/logo.png" = Some info)
    as (r & info & Hr & He).
  { do 2 eexists. split; [vm_compute; reflexivity | by vm_compute]. }
  exists r, info. split; [done|]. split; [done|].
  destruct (records_describe_their_files no_scripts appicon_walker example_tree
              "/app/Resources" "/build" None r F_resourcesToCopy "images/logo.png" info
              normal_path_Resources normal_path_build WellFormed_example_tree Hr
              (or_introl He)) as (Hs & Hd & _).
  by split.
Defined.

(** ** The records of a mapping have the shape of the mapping *)

Section Fits.

Variable analyzeHtmlFile : string -> string -> list string.

Lemma Map_set_new_lookup key0 relPath info0 key p info :
  field key (Map_set key0 relPath info0 Result_new) !! p = Some info →
  key = key0 ∧ p = relPath ∧ info = info0.
Proof.
  rewrite field_Map_set. case_decide; [|by rewrite field_Result_new, lookup_empty].
  rewrite field_Result_new. intros [[<- <-]|[_ He]]%lookup_insert_Some; [done|].
  by rewrite lookup_empty in He.
Qed.

Lemma _visitFile_fits this from to name src origSrc prefix key p info :
  field key (_visitFile analyzeHtmlFile this Result_new from to name src origSrc prefix)
    !! p = Some info →
  fits this key info.
Proof.
  unfold _visitFile. destruct (opt_test (ignoreFiles this) name).
  { by rewrite field_Result_new, lookup_empty. }
  change (match exec FILENAME_REGEXP name with
          | Some p0 => at_index p0 2
          | None => None
          end) with (info_ext (file_info name from to)).
  set (i := file_info name from to).
  assert (plain i) as Hplain by done.
  clearbody i. destruct i as [n x s d t sc dv].
  destruct Hplain as (Ht & Hs & Hd). cbn in Ht, Hs, Hd. subst t sc dv.
  cbn [info_name info_ext info_src info_dest info_tag info_scale info_device].
  set (i := mkInfo n x s d None None None).
  assert (∀ e, info_ext i = Some e →
            e = "png"%string ∨ e = "jpg"%string →
            field key (png_jpg_rule this Result_new name
                         (relative_path from src origSrc prefix) i) !! p = Some info →
            fits this key info) as Hrule.
  { intros e He Hext. unfold png_jpg_rule.
    destruct (exec LAUNCH_LOGO_REGEXP name).
    - intros (-> & _ & ->)%Map_set_new_lookup. cbn in *. rewrite He.
      split_and!; try done; [destruct Hext as [-> | ->]; by auto | by eexists..].
    - destruct (useAppThinning this) eqn:Hthin; cbn [andb].
      + destruct (negb _); intros (-> & _ & ->)%Map_set_new_lookup; cbn in *; [|done].
        rewrite He. split_and!; try done. destruct Hext as [-> | ->]; by auto.
      + by intros (-> & _ & ->)%Map_set_new_lookup. }
  repeat case_decide.
  - by intros (-> & _ & ->)%Map_set_new_lookup.
  - by intros (-> & _ & ->)%Map_set_new_lookup.
  - destruct (negb (truthy origSrc)); [|apply (Hrule "png"%string); by auto].
    destruct (appIconRegExp this) as [re|] eqn:Hre.
    + destruct (exec re name).
      * intros (-> & _ & ->)%Map_set_new_lookup. cbn. rewrite Hre.
        split_and!; try done; by eexists.
      * destruct (test LAUNCH_IMAGE_REGEXP name);
          [by intros (-> & _ & ->)%Map_set_new_lookup | apply (Hrule "png"%string); by auto].
    + destruct (test LAUNCH_IMAGE_REGEXP name);
        [by intros (-> & _ & ->)%Map_set_new_lookup | apply (Hrule "png"%string); by auto].
  - apply (Hrule "jpg"%string); by auto.
  - unfold default_rule. rewrite field_Map_set, !field_add_scripts.
    case_decide; [|by rewrite field_Result_new, lookup_empty].
    rewrite field_Result_new. intros [[_ <-]|[_ He]]%lookup_insert_Some; [by subst|].
    by rewrite lookup_empty in He.
  - unfold default_rule. by intros (-> & _ & ->)%Map_set_new_lookup.
Qed.

Lemma Visits_truthy this ignore listing src dest origSrc f :
  Visits this ignore listing src dest origSrc f →
  truthy origSrc = true → truthy f.2 = true.
Proof.
  induction 1 as [|ignore listing dir ddir origSrc d name sub f Hin Hd Hign Hdirs _ IH];
    [by intros ?|].
  intros Ht. apply IH. destruct origSrc as [o|]; [|done].
  unfold truthy, or_else in *. destruct (String.eqb o "") eqn:Heq; [done|].
  by rewrite Heq.
Qed.

(** X10. The records of a Result have the shape of their mapping, before
    and after the reclassification pass: the records of jsFiles have the
    extension [js], those of cssFiles [css], those of appIcons and
    launchImages [png], those of launchLogos and imageAssets [png] or
    [jpg]; a tag is set on the records of appIcons and on no other, a
    scale and a device on the records of launchLogos and on no other.
    imageAssets is empty when app thinning is off; appIcons is empty when
    the walker has no app-icon pattern (the icon filename has no
    extension); appIcons and launchImages are empty when the walk is
    called with an [origSrc]. *)
Theorem records_fit_their_mappings (this : Walker) (listing : list Dirent)
    (src dest : string) (ignore : option regex) (origSrc prefix : option string)
    (r : Result) :
  walk analyzeHtmlFile this (Some (Resolved listing)) src dest ignore origSrc prefix
  = Resolved r →
  (∀ key p info,
     field key r !! p = Some info
     ∨ field key (dontProcessJsFilesReferencedFromHTML r) !! p = Some info →
     fits this key info) ∧
  (useAppThinning this = false → imageAssets r = ∅) ∧
  (appIconRegExp this = None → appIcons r = ∅) ∧
  (truthy origSrc = true → appIcons r = ∅ ∧ launchImages r = ∅).
Proof.
  intros Hr. unfold walk, _walkDir in Hr.
  assert (∀ key p info, field key r !! p = Some info →
            ∃ f, Visits this ignore listing src dest origSrc f
                 ∧ field key (classified analyzeHtmlFile this prefix f) !! p = Some info)
    as Hprov.
  { intros key p info He.
    apply (provenance analyzeHtmlFile this _ _ _ _ _ _ _ (inl (key, p, info)) Hr He). }
  assert (∀ key p info, field key r !! p = Some info → fits this key info) as Hfits.
  { intros key p info (f & _ & Hc)%Hprov. by eapply _visitFile_fits. }
  split_and!.
  - intros key p info [He|He]; [by eapply Hfits|].
    unfold dontProcessJsFilesReferencedFromHTML in He.
    destruct (dontProcess_fold (elements (htmlJsFiles r)) r) as (Hjs & Hrc & Hother & _).
    destruct (decide (key = F_jsFiles)) as [->|Hk1].
    { cbn [field] in He. rewrite Hjs in He. case_decide; [done|].
      by apply (Hfits F_jsFiles p). }
    destruct (decide (key = F_resourcesToCopy)) as [->|Hk2].
    { cbn [field] in He. rewrite Hrc in He. case_decide.
      - destruct (jsFiles r !! p) eqn:Hj.
        + injection He as ->. by apply (Hfits F_jsFiles p) in Hj as [_ ?].
        + by apply (Hfits F_resourcesToCopy p).
      - by apply (Hfits F_resourcesToCopy p). }
    rewrite Hother in He by done. by eapply Hfits.
  - intros Hthin. apply map_empty. intros p.
    destruct (imageAssets r !! p) as [info|] eqn:He; [|done].
    apply (Hfits F_imageAssets) in He as (_ & ? & _). congruence.
  - intros Hnone. apply map_empty. intros p.
    destruct (appIcons r !! p) as [info|] eqn:He; [|done].
    apply (Hfits F_appIcons) in He as (_ & [? ?] & _). congruence.
  - intros Ht.
    assert (∀ key, key = F_appIcons ∨ key = F_launchImages → field key r = ∅) as Hroot.
    { intros key Hkey. apply map_empty. intros p.
      destruct (field key r !! p) as [info|] eqn:He; [|done].
      apply Hprov in He as (f & Hf & Hc).
      apply (Visits_truthy _ _ _ _ _ _ _ Hf) in Ht. unfold classified in Hc.
      destruct (_visitFile_below_root analyzeHtmlFile this Result_new
                  (path_join f.1.1.2 f.1.1.1) (path_join f.1.2 f.1.1.1) f.1.1.1 f.1.1.2
                  f.2 prefix Ht) as [Ha Hl].
      destruct Hkey as [-> | ->]; cbn [field] in Hc.
      - by rewrite Ha in Hc.
      - by rewrite Hl in Hc. }
    split; [apply (Hroot F_appIcons) | apply (Hroot F_launchImages)]; by auto.
Qed.

(** X11. For a walk of a root given in normal form, over a tree in which
    the entries of a directory have distinct, valid names, the keys of
    appIcons and of launchImages are names of files (or of links to
    files) of the root directory itself: they hold no slash, and the
    [src] and [dest] of their records are the root and the destination
    joined with that name. *)
Theorem icons_and_launch_images_are_root_files (this : Walker) (listing : list Dirent)
    (src dest : string) (ignore : option regex) (r : Result)
    (key : mapField) (p : string) (info : FileInfo) :
  normal_path src →
  WellFormed listing →
  walk analyzeHtmlFile this (Some (Resolved listing)) src dest ignore None None
  = Resolved r →
  key = F_appIcons ∨ key = F_launchImages →
  field key r !! p = Some info →
  (∃ d, d ∈ listing ∧ is_file d p) ∧ no_slash p = true
  ∧ info_src info = path_join src p ∧ info_dest info = path_join dest p.
Proof.
  intros Hsrc Hwf Hr Hkey He. unfold walk, _walkDir in Hr.
  assert (src ≠ EmptyString) as Hne by (by destruct Hsrc).
  destruct (provenance analyzeHtmlFile this _ _ _ _ _ _ _ (inl (key, p, info)) Hr He)
    as (f & Hf & Hc).
  cbn [holds] in Hc.
  assert (truthy f.2 = false) as Ho.
  { destruct (truthy f.2) eqn:Ht; [|done]. unfold classified in Hc.
    destruct (_visitFile_below_root analyzeHtmlFile this Result_new
                (path_join f.1.1.2 f.1.1.1) (path_join f.1.2 f.1.1.1) f.1.1.1 f.1.1.2
                f.2 None Ht) as [Ha Hl].
    destruct Hkey as [-> | ->]; cbn [field] in Hc.
    - by rewrite Ha in Hc.
    - by rewrite Hl in Hc. }
  clear Hkey.
  assert (∃ d, d ∈ listing ∧ is_file d f.1.1.1 ∧ f.1.1.2 = src ∧ f.1.2 = dest
               ∧ f.2 = None ∧ valid_name f.1.1.1)
    as (d & Hd & Hfile & Hdir & Hddir & Hnone & Hname).
  { clear Hc Hr He.
    inversion Hf as [ig l s dd o d name Hin Hd Hign Hfiles
                    |ig l s dd o d name sub f' Hin Hd Hign Hdirs Hsub]; subst.
    - exists d. split_and!; try done.
      apply WellFormed_inv in Hwf as (_ & Hvalid & _). specialize (Hvalid d Hin).
      by destruct Hd as [-> | ->].
    - exfalso.
      assert (truthy f.2 = true) as Ht; [|congruence].
      apply (Visits_truthy _ _ _ _ _ _ _ Hsub).
      simpl. by destruct (String.eqb_spec src ""). }
  apply classified_entry in Hc as (Hp & _ & _ & Hs & Hdst).
  rewrite Hdir, Hddir, Hnone in *.
  destruct (path_join_normal src f.1.1.1 Hsrc Hname) as [Hjoin _].
  assert (p = f.1.1.1) as ->.
  { rewrite Hp, Hjoin. by apply relative_path_below. }
  split_and!; try done; [by exists d | by destruct Hname as (_ & _ & _ & ?)].
Qed.

End Fits.

Lemma records_fit_their_mappings_witness :
  ∃ r info,
    walk no_scripts appicon_walker (Some (Resolved example_tree))
      "/app/Resources" "/build" None None None = Resolved r
    ∧ appIcons r !! "appicon-60.png" = Some info
    ∧ fits appicon_walker F_appIcons info
    ∧ imageAssets r = ∅.
Proof.
  assert (∃ r info,
            walk no_scripts appicon_walker (Some (Resolved example_tree))
              "/app/Resources" "/build" None None None = Resolved r
            ∧ appIcons r !! "appicon-60.png" = Some info)
    as (r & info & Hr & He).
  { do 2 eexists. split; [vm_compute; reflexivity | by vm_compute]. }
  exists r, info. split; [done|]. split; [done|].
  destruct (records_fit_their_mappings no_scripts appicon_walker example_tree
              "/app/Resources" "/build" None None None r Hr) as (Hfits & Hthin & _).
  split; [|by apply Hthin].
  apply (Hfits F_appIcons "appicon-60.png"%string). by left.
Defined.

Lemma icons_and_launch_images_are_root_files_witness :
  ∃ r info,
    walk no_scripts appicon_walker (Some (Resolved example_tree))
      "/app/Resources" "/build" None None None = Resolved r
    ∧ launchImages r !! "Default.png" = Some info
    ∧ (∃ d, d ∈ example_tree ∧ is_file d "Default.png")
    ∧ info_src info = path_join "/app/Resources" "Default.png".
Proof.
  assert (∃ r info,
            walk no_scripts appicon_walker (Some (Resolved example_tree))
              "/app/Resources" "/build" None None None = Resolved r
            ∧ launchImages r !! "Default.png" = Some info)
    as (r & info & Hr & He).
  { do 2 eexists. split; [vm_compute; reflexivity | by vm_compute]. }
  exists r, info. split; [done|]. split; [done|].
  destruct (icons_and_launch_images_are_root_files no_scripts appicon_walker example_tree
              "/app/Resources" "/build" None r F_launchImages "Default.png" info
              normal_path_Resources WellFormed_example_tree Hr (or_intror eq_refl) He)
    as (Hd & _ & Hs & _).
  by split.
Defined.

(** ** Links, and the patterns of the walker *)

Section Links.

Variable analyzeHtmlFile : string -> string -> list string.




Lemma _visitFile_unfiltered this results from to name src origSrc prefix :
  opt_test (ignoreFiles this) name = false →
  _visitFile analyzeHtmlFile this results from to name src origSrc prefix
  = _visitFile analyzeHtmlFile (unfiltered this) results from to name src origSrc prefix.
Proof. intros Hign. unfold _visitFile. cbn. by rewrite Hign. Qed.

Lemma visit_all_prune_from this l :
  Forall (fun d =>
            ∀ results src dest ignore origSrc prefix,
              _visitListing analyzeHtmlFile this results d src dest ignore origSrc prefix
              = if kept this d
                then _visitListing analyzeHtmlFile (unfiltered this) results (prune this d)
                       src dest ignore origSrc prefix
                else Resolved results) l →
  ∀ results src dest ignore origSrc prefix,
    visit_all analyzeHtmlFile this l results src dest ignore origSrc prefix
    = visit_all analyzeHtmlFile (unfiltered this) (prune_all this l) results src dest
        ignore origSrc prefix.
Proof.
  induction 1 as [|d l Hd _ IH]; intros results src dest ignore origSrc prefix;
    cbn [visit_all prune_all]; [done|].
  rewrite Hd. destruct (kept this d); [|apply IH]. cbn [visit_all].
  destruct (_visitListing _ _ _ (prune this d) _ _ _ _ _); [apply IH | done].
Qed.

Lemma prune_dir this name sub :
  prune this (Dirent_dir name (Resolved sub)) = Dirent_dir name (Resolved (prune_all this sub)).
Proof. cbn [prune]. do 2 f_equal. induction sub as [|d l IH]; [done|]. cbn. by rewrite IH. Qed.

Lemma prune_link this name sub :
  prune this (Dirent_link name (Resolved (Stats_dir (Resolved sub))))
  = Dirent_link name (Resolved (Stats_dir (Resolved (prune_all this sub)))).
Proof. cbn [prune]. do 4 f_equal. induction sub as [|d l IH]; [done|]. cbn. by rewrite IH. Qed.

Lemma _visitListing_prune this d :
  ∀ results src dest ignore origSrc prefix,
    _visitListing analyzeHtmlFile this results d src dest ignore origSrc prefix
    = if kept this d
      then _visitListing analyzeHtmlFile (unfiltered this) results (prune this d)
             src dest ignore origSrc prefix
      else Resolved results.
Proof.
  induction d as [name | name readdir IH | name stat IH] using Dirent_tree_ind;
    intros results src dest ignore origSrc prefix.
  - cbn [kept prune]. rewrite !_visitListing_file.
    destruct (opt_test (ignoreFiles this) name) eqn:Hign; cbn [negb].
    + unfold _visitFile. rewrite Hign. by destruct (opt_test ignore name).
    + by rewrite _visitFile_unfiltered.
  - cbn [kept]. rewrite _visitListing_dir.
    destruct (opt_test (ignoreDirs this) name) eqn:Hdirs; cbn [negb].
    + by destruct (opt_test ignore name).
    + destruct readdir as [sub|e].
      * rewrite prune_dir, _visitListing_dir. cbn [unfiltered ignoreDirs opt_test _walkDir].
        destruct (opt_test ignore name); [done|].
        apply visit_all_prune_from. by apply IH.
      * cbn [prune]. by rewrite _visitListing_dir.
  - rewrite _visitListing_link. destruct stat as [[|[sub|e]]|e]; cbn [kept].
    + cbn [prune]. rewrite _visitListing_link.
      destruct (opt_test (ignoreFiles this) name) eqn:Hign; cbn [negb].
      * unfold _visitFile. rewrite Hign. by destruct (opt_test ignore name).
      * by rewrite _visitFile_unfiltered.
    + destruct (opt_test (ignoreDirs this) name) eqn:Hdirs; cbn [negb].
      * by destruct (opt_test ignore name).
      * rewrite prune_link, _visitListing_link.
        cbn [unfiltered ignoreDirs opt_test _walkDir].
        destruct (opt_test ignore name); [done|].
        apply visit_all_prune_from. by apply IH.
    + destruct (opt_test (ignoreDirs this) name) eqn:Hdirs; cbn [negb].
      * by destruct (opt_test ignore name).
      * cbn [prune]. by rewrite _visitListing_link.
    + cbn [prune]. by rewrite _visitListing_link.
Qed.

(** X13. [ignoreDirs] and [ignoreFiles] act at every depth, the first on
    the names of directories (and of links to directories) only, the
    second on the names of files (and of links to files) only: a walk
    gives what the walker without the two patterns gives on the tree from
    which the directories that [ignoreDirs] matches, with all that is
    below them, and the files that [ignoreFiles] matches are removed. *)
Theorem walker_patterns_prune_the_tree (this : Walker) (listing : list Dirent)
    (src dest : string) (ignore : option regex) (origSrc prefix : option string) :
  walk analyzeHtmlFile this (Some (Resolved listing)) src dest ignore origSrc prefix
  = walk analyzeHtmlFile (unfiltered this) (Some (Resolved (prune_all this listing)))
      src dest ignore origSrc prefix.
Proof.
  unfold walk, _walkDir. apply visit_all_prune_from, Forall_forall.
  intros d _ ? ? ? ? ? ?. apply _visitListing_prune.
Qed.

End Links.

(** ** The switch on the extension *)

Section Dispatch.

Variable analyzeHtmlFile : string -> string -> list string.

(** X14. The switch of [_visitFile] on the extension: a file whose name
    [ignoreFiles] matches is skipped; otherwise a file with the extension
    [js] is placed into jsFiles and one with the extension [css] into
    cssFiles, at any depth and whatever the other options of the walker; a
    file with any extension other than [js], [css], [png], [jpg] and
    [html] (the comparison is case-sensitive), and a file in whose name
    the walker reads no extension, are placed into resourcesToCopy.  In
    each case the other mappings and the set are left as they were. *)
Theorem classification_by_extension (this : Walker) (results : Result)
    (from to name src : string) (origSrc prefix : option string) :
  let relPath := relative_path from src origSrc prefix in
  let visited :=
    _visitFile analyzeHtmlFile this results from to name src origSrc prefix in
  (opt_test (ignoreFiles this) name = true → visited = results) ∧
  (opt_test (ignoreFiles this) name = false →
   (∀ base,
      parsed_name name = Some (base, "js"%string) →
      visited
      = Map_set F_jsFiles relPath
          (mkInfo (Some base) (Some "js"%string) from to None None None) results) ∧
   (∀ base,
      parsed_name name = Some (base, "css"%string) →
      visited
      = Map_set F_cssFiles relPath
          (mkInfo (Some base) (Some "css"%string) from to None None None) results) ∧
   (∀ base e,
      parsed_name name = Some (base, e) →
      e ∉ ["js"; "css"; "png"; "jpg"; "html"]%string →
      visited
      = Map_set F_resourcesToCopy relPath
          (mkInfo (Some base) (Some e) from to None None None) results) ∧
   (parsed_name name = None →
    visited
    = Map_set F_resourcesToCopy relPath
        (mkInfo (Some name) None from to None None None) results)).
Proof.
  intros relPath visited. subst visited. unfold _visitFile.
  split; [by intros ->|]. intros ->.
  rewrite file_info_parsed, exec_FILENAME_REGEXP. fold relPath.
  split_and!.
  - intros base ->. cbn [at_index nth]. by rewrite decide_True.
  - intros base ->. cbn [at_index nth].
    by rewrite decide_False, decide_True.
  - intros base e -> He. cbn [at_index nth].
    rewrite !decide_False; [done|intros [= ->]; set_solver..].
  - intros ->. by rewrite !decide_False.
Qed.

End Dispatch.

(** ** The prefix of a walk *)

Lemma GetSubstitution_plain matched before after template :
  no_dollar template = true →
  GetSubstitution matched before after template = template.
Proof.
  induction template as [|c t IH]; [done|]. cbn [no_dollar all_chars].
  intros [Hc Ht]%andb_true_iff. apply negb_true_iff in Hc.
  cbn [GetSubstitution]. rewrite Hc. f_equal. by apply IH.
Qed.

Lemma no_dollar_app a b : no_dollar (a +:+ b) = no_dollar a && no_dollar b.
Proof. apply all_chars_app. Qed.

(** Under a root [root] that [origSrc || src] names, the relative path of
    [root/rest] with the prefix [pre] is [pre/rest]. *)
Lemma relative_path_prefixed (root rest src pre : string) (origSrc : option string) :
  or_else origSrc src = root →
  pre ≠ EmptyString → no_dollar pre = true →
  relative_path (root +:+ String "/" rest) src origSrc (Some pre)
  = (pre +:+ "/") +:+ rest.
Proof.
  intros <- Hpre Hdollar. unfold relative_path, String_replace, indexOf.
  replace (or_else origSrc src +:+ String "/" rest)
    with ((or_else origSrc src +:+ "/") +:+ rest) by (by rewrite str_app_assoc).
  assert (∀ pat s i, indexOf_from pat (pat +:+ s) i = Some i) as Hidx.
  { intros pat s i. destruct (pat +:+ s) eqn:Heq; cbn [indexOf_from];
      rewrite <- Heq; by rewrite prefix_app. }
  rewrite Hidx. cbn [str_take Nat.add]. rewrite str_drop_app.
  unfold truthy. destruct (String.eqb_spec pre ""); [done|]. cbn [negb].
  rewrite GetSubstitution_plain; [done|].
  by rewrite no_dollar_app, Hdollar.
Qed.

Section Prefix.

Variable analyzeHtmlFile : string -> string -> list string.
Variable this : Walker.
Variable root pre : string.
Hypothesis root_not_empty : root ≠ EmptyString.
Hypothesis no_thinning : useAppThinning this = false.
Hypothesis pre_not_empty : pre ≠ EmptyString.
Hypothesis pre_no_dollar : no_dollar pre = true.

(** Without app thinning, the mapping and the record of a file do not
    depend on its relative path. *)
Lemma _visitFile_bucket from to name src origSrc :
  opt_test (ignoreFiles this) name = false →
  ∃ key info,
    ∀ results prefix key',
      field key' (_visitFile analyzeHtmlFile this results from to name src origSrc prefix)
      = if decide (key = key')
        then <[relative_path from src origSrc prefix := info]> (field key results)
        else field key' results.
Proof.
  intros Hign. unfold _visitFile. rewrite Hign.
  set (info := file_info name from to).
  assert (∀ key i,
            ∃ key0 info0,
              ∀ results prefix key',
                field key' (Map_set key (relative_path from src origSrc prefix) i results)
                = if decide (key0 = key')
                  then <[relative_path from src origSrc prefix := info0]> (field key0 results)
                  else field key' results) as Hset.
  { intros key i. exists key, i. intros results prefix key'. apply field_Map_set. }
  assert (∀ i,
            ∃ key0 info0,
              ∀ results prefix key',
                field key' (png_jpg_rule this results name
                              (relative_path from src origSrc prefix) i)
                = if decide (key0 = key')
                  then <[relative_path from src origSrc prefix := info0]> (field key0 results)
                  else field key' results) as Hrule.
  { intros i. unfold png_jpg_rule. rewrite no_thinning. cbn [andb].
    destruct (exec LAUNCH_LOGO_REGEXP name); apply Hset. }
  repeat case_decide; try apply Hset; try apply Hrule.
  - destruct (negb (truthy origSrc)); [|apply Hrule].
    destruct (match appIconRegExp this with Some r => exec r name | None => None end);
      [apply Hset|].
    destruct (test LAUNCH_IMAGE_REGEXP name); [apply Hset | apply Hrule].
  - exists F_resourcesToCopy, info. intros results prefix key'.
    unfold default_rule. by rewrite field_Map_set, !field_add_scripts.
Qed.

Lemma rekeyed_file results results' dir dest name origSrc u :
  normal_path dir →
  or_else origSrc dir = root →
  dir +:+ "/" = root +:+ String "/" u →
  valid_name name →
  rekeyed (String.app (pre +:+ "/")) results results' →
  rekeyed (String.app (pre +:+ "/"))
    (_visitFile analyzeHtmlFile this results (path_join dir name) (path_join dest name)
       name dir origSrc None)
    (_visitFile analyzeHtmlFile this results' (path_join dir name) (path_join dest name)
       name dir origSrc (Some pre)).
Proof.
  intros Hdir Horig Hu Hname Hre.
  destruct (opt_test (ignoreFiles this) name) eqn:Hign.
  { unfold _visitFile. by rewrite Hign. }
  destruct (_visitFile_bucket (path_join dir name) (path_join dest name) name dir origSrc
              Hign) as (key & info & Hf).
  intros key'. rewrite !Hf.
  destruct (path_join_normal dir name Hdir Hname) as [-> _].
  replace (dir +:+ String "/" name) with ((dir +:+ "/") +:+ name)
    by (by rewrite str_app_assoc).
  rewrite Hu, str_app_assoc, str_app_cons.
  rewrite relative_path_below, relative_path_prefixed by done.
  case_decide; [|apply Hre]. rewrite kmap_insert; [by rewrite Hre | apply _].
Qed.

Lemma rekeyed_all listing :
  Forall (fun d =>
            ∀ results results' dir dest ignore origSrc u,
              normal_path dir →
              or_else origSrc dir = root →
              dir +:+ "/" = root +:+ String "/" u →
              valid_name (dirent_name d) →
              (∀ name sub, enters d name (Resolved sub) → WellFormed sub) →
              rekeyed (String.app (pre +:+ "/")) results results' →
              rekeyed_outcome (String.app (pre +:+ "/"))
                (_visitListing analyzeHtmlFile this results d dir dest ignore origSrc None)
                (_visitListing analyzeHtmlFile this results' d dir dest ignore origSrc
                   (Some pre))) listing →
  ∀ results results' dir dest ignore origSrc u,
    normal_path dir →
    or_else origSrc dir = root →
    dir +:+ "/" = root +:+ String "/" u →
    WellFormed listing →
    rekeyed (String.app (pre +:+ "/")) results results' →
    rekeyed_outcome (String.app (pre +:+ "/"))
      (visit_all analyzeHtmlFile this listing results dir dest ignore origSrc None)
      (visit_all analyzeHtmlFile this listing results' dir dest ignore origSrc (Some pre)).
Proof.
  induction 1 as [|d listing Hd _ IH];
    intros results results' dir dest ignore origSrc u Hdir Horig Hu Hwf Hre;
    cbn [visit_all]; [done|].
  apply WellFormed_cons_inv in Hwf as (Hwf & Hvalid & _ & Hsub).
  specialize (Hd results results' dir dest ignore origSrc u Hdir Horig Hu Hvalid Hsub Hre).
  destruct (_visitListing _ _ results d _ _ _ _ _) as [r1|e];
    destruct (_visitListing _ _ results' d _ _ _ _ _) as [r1'|e']; try done.
  by apply (IH _ _ _ _ _ _ u).
Qed.

Lemma rekeyed_tree d :
  ∀ results results' dir dest ignore origSrc u,
    normal_path dir →
    or_else origSrc dir = root →
    dir +:+ "/" = root +:+ String "/" u →
    valid_name (dirent_name d) →
    (∀ name sub, enters d name (Resolved sub) → WellFormed sub) →
    rekeyed (String.app (pre +:+ "/")) results results' →
    rekeyed_outcome (String.app (pre +:+ "/"))
      (_visitListing analyzeHtmlFile this results d dir dest ignore origSrc None)
      (_visitListing analyzeHtmlFile this results' d dir dest ignore origSrc (Some pre)).
Proof.
  assert (∀ name sub results results' dir dest origSrc u,
            Forall (fun d =>
              ∀ results results' dir dest ignore origSrc u,
                normal_path dir →
                or_else origSrc dir = root →
                dir +:+ "/" = root +:+ String "/" u →
                valid_name (dirent_name d) →
                (∀ name sub, enters d name (Resolved sub) → WellFormed sub) →
                rekeyed (String.app (pre +:+ "/")) results results' →
                rekeyed_outcome (String.app (pre +:+ "/"))
                  (_visitListing analyzeHtmlFile this results d dir dest ignore origSrc None)
                  (_visitListing analyzeHtmlFile this results' d dir dest ignore origSrc
                     (Some pre))) sub →
            normal_path dir →
            or_else origSrc dir = root →
            dir +:+ "/" = root +:+ String "/" u →
            valid_name name →
            WellFormed sub →
            rekeyed (String.app (pre +:+ "/")) results results' →
            rekeyed_outcome (String.app (pre +:+ "/"))
              (visit_all analyzeHtmlFile this sub results (path_join dir name)
                 (path_join dest name) None (Some (or_else origSrc dir)) None)
              (visit_all analyzeHtmlFile this sub results' (path_join dir name)
                 (path_join dest name) None (Some (or_else origSrc dir)) (Some pre)))
    as Hbelow.
  { intros name sub results results' dir dest origSrc u Hall Hdir Horig Hu Hname Hwf Hre.
    destruct (path_join_normal dir name Hdir Hname) as [-> Hdir'].
    apply (rekeyed_all sub Hall _ _ _ _ _ _ (u +:+ name +:+ "/")); [done| | |done|done].
    - rewrite Horig. simpl. by destruct (String.eqb_spec root "").
    - replace (dir +:+ String "/" name) with ((dir +:+ "/") +:+ name)
        by (by rewrite str_app_assoc).
      rewrite Hu. by str_norm. }
  induction d as [name | name readdir IH | name stat IH] using Dirent_tree_ind;
    intros results results' dir dest ignore origSrc u Hdir Horig Hu Hname Hsub Hre;
    cbn [dirent_name] in *.
  - rewrite !_visitListing_file. destruct (opt_test ignore name); [done|].
    by apply (rekeyed_file _ _ _ _ _ _ u).
  - rewrite !_visitListing_dir. destruct (opt_test ignore name); [done|].
    destruct (opt_test (ignoreDirs this) name); [done|].
    destruct readdir as [sub|e]; [|done]. cbn [_walkDir].
    apply (Hbelow _ _ _ _ _ _ _ u);
      [by apply IH | assumption.. | | assumption].
    apply (Hsub name). by left.
  - rewrite !_visitListing_link. destruct (opt_test ignore name); [done|].
    destruct stat as [[|[sub|e]]|e]; try done.
    + by apply (rekeyed_file _ _ _ _ _ _ u).
    + destruct (opt_test (ignoreDirs this) name); [done|]. cbn [_walkDir].
      apply (Hbelow _ _ _ _ _ _ _ u);
        [by apply IH | assumption.. | | assumption].
      apply (Hsub name). by right.
    + by destruct (opt_test (ignoreDirs this) name).
Qed.

End Prefix.

Section PrefixOfWalk.

Variable analyzeHtmlFile : string -> string -> list string.

(** X16. The prefix of a walk is put before every key: for a walker
    without app thinning, a root given in normal form, a tree in which the
    entries of a directory have distinct, valid names, and a prefix that is
    not empty and holds no dollar sign, the walk with the prefix gives a
    Result when the walk without it does, and each of its mappings is the
    mapping of the walk without prefix with the prefix and a slash put
    before every key, the records being the same. *)
Theorem prefix_is_prepended (this : Walker) (listing : list Dirent)
    (src dest pre : string) (ignore : option regex) (r : Result) :
  normal_path src →
  WellFormed listing →
  useAppThinning this = false →
  pre ≠ EmptyString →
  no_dollar pre = true →
  walk analyzeHtmlFile this (Some (Resolved listing)) src dest ignore None None
  = Resolved r →
  ∃ r',
    walk analyzeHtmlFile this (Some (Resolved listing)) src dest ignore None (Some pre)
    = Resolved r'
    ∧ ∀ key, field key r' = kmap (String.app (pre +:+ "/")) (field key r).
Proof.
  intros Hsrc Hwf Hthin Hpre Hdollar. unfold walk, _walkDir. intros Hr.
  assert (src ≠ EmptyString) as Hne by (by destruct Hsrc).
  assert (Forall (fun d =>
            ∀ results results' dir dest ignore origSrc u,
              normal_path dir →
              or_else origSrc dir = src →
              dir +:+ "/" = src +:+ String "/" u →
              valid_name (dirent_name d) →
              (∀ name sub, enters d name (Resolved sub) → WellFormed sub) →
              rekeyed (String.app (pre +:+ "/")) results results' →
              rekeyed_outcome (String.app (pre +:+ "/"))
                (_visitListing analyzeHtmlFile this results d dir dest ignore origSrc None)
                (_visitListing analyzeHtmlFile this results' d dir dest ignore origSrc
                   (Some pre))) listing) as Hall.
  { apply Forall_forall. intros d _. by apply rekeyed_tree. }
  pose proof (rekeyed_all analyzeHtmlFile this src pre listing Hall
                Result_new Result_new src dest ignore None EmptyString Hsrc eq_refl
                eq_refl Hwf) as Hout.
  rewrite Hr in Hout.
  destruct (visit_all _ _ listing Result_new _ _ _ _ (Some pre)) as [r'|e].
  - exists r'. split; [done|]. apply Hout.
    intros key. by rewrite field_Result_new, kmap_empty.
  - exfalso. apply Hout. intros key. by rewrite field_Result_new, kmap_empty.
Qed.

End PrefixOfWalk.

Lemma prefix_is_prepended_witness :
  ∃ r',
    walk no_scripts appicon_walker (Some (Resolved example_tree))
      "/app/Resources" "/build" None None (Some "modules/ui"%string) = Resolved r'
    ∧ is_Some (field F_cssFiles r' !! "modules/ui/shared/style.css").
Proof.
  assert (∃ r,
            walk no_scripts appicon_walker (Some (Resolved example_tree))
              "/app/Resources" "/build" None None None = Resolved r
            ∧ is_Some (field F_cssFiles r !! "shared/style.css")) as (r & Hr & [info He]).
  { eexists. split; [vm_compute; reflexivity | vm_compute; by eexists]. }
  destruct (prefix_is_prepended no_scripts appicon_walker example_tree
              "/app/Resources" "/build" "modules/ui" None r normal_path_Resources
              WellFormed_example_tree eq_refl) as (r' & Hr' & Hkeys); [done..|].
  exists r'. split; [done|]. rewrite Hkeys. exists info.
  by apply (lookup_kmap_Some (String.app ("modules/ui" +:+ "/")) (field F_cssFiles r)
              "modules/ui/shared/style.css" info); exists "shared/style.css"%string.
Defined.

(** ** The scripts of the markup files *)

Section Scripts.

Variable analyzeHtmlFile : string -> string -> list string.

Lemma png_jpg_rule_scripts this results name relPath info :
  htmlJsFiles (png_jpg_rule this results name relPath info) = htmlJsFiles results.
Proof.
  unfold png_jpg_rule. destruct (exec LAUNCH_LOGO_REGEXP name);
    [apply htmlJsFiles_Map_set|]. destruct (_ && _); apply htmlJsFiles_Map_set.
Qed.

(** The scripts that the visit of a file adds, and the record of a markup
    file. *)
Lemma _visitFile_scripts this from to name src origSrc prefix :
  opt_test (ignoreFiles this) name = false →
  (info_ext (file_info name from to) = Some "html"%string →
   htmlJsFiles (_visitFile analyzeHtmlFile this Result_new from to name src origSrc prefix)
   = list_to_set (analyzeHtmlFile from (dirname (relative_path from src origSrc prefix)))
   ∧ resourcesToCopy
       (_visitFile analyzeHtmlFile this Result_new from to name src origSrc prefix)
     !! relative_path from src origSrc prefix
     = Some (file_info name from to)) ∧
  (info_ext (file_info name from to) ≠ Some "html"%string →
   htmlJsFiles (_visitFile analyzeHtmlFile this Result_new from to name src origSrc prefix)
   = ∅).
Proof.
  intros Hign. set (relPath := relative_path from src origSrc prefix).
  unfold _visitFile. rewrite Hign.
  change (match exec FILENAME_REGEXP name with
          | Some p0 => at_index p0 2
          | None => None
          end) with (info_ext (file_info name from to)).
  fold relPath. split.
  - intros Hext. rewrite Hext. repeat (rewrite decide_False by done).
    rewrite decide_True by done. unfold default_rule.
    rewrite htmlJsFiles_Map_set, htmlJsFiles_add_scripts.
    cbn [htmlJsFiles Result_new]. split; [by rewrite (right_id_L ∅ (∪))|].
    change (resourcesToCopy ?r) with (field F_resourcesToCopy r).
    by rewrite field_Map_set, decide_True, lookup_insert_eq by done.
  - intros Hext. repeat case_decide; try done;
      rewrite ?png_jpg_rule_scripts, ?htmlJsFiles_Map_set; try done.
    destruct (negb (truthy origSrc)); [|by rewrite png_jpg_rule_scripts].
    destruct (match appIconRegExp this with Some r => exec r name | None => None end);
      [done|].
    destruct (test LAUNCH_IMAGE_REGEXP name); [done | by rewrite png_jpg_rule_scripts].
Qed.

(** X19. For a walk of a root given in normal form, over a tree in which
    the entries of a directory have distinct, valid names, [htmlJsFiles]
    holds exactly the scripts that the analyzer reports for the markup
    files of the Result: a script is in the set if and only if
    resourcesToCopy holds, under some path, a record with the extension
    [html] for which the analyzer, called with the [src] of the record and
    the directory of the path, reports the script. *)
Theorem scripts_are_those_of_the_markup_files (this : Walker) (listing : list Dirent)
    (src dest : string) (ignore : option regex) (r : Result) (x : string) :
  normal_path src →
  WellFormed listing →
  walk analyzeHtmlFile this (Some (Resolved listing)) src dest ignore None None
  = Resolved r →
  x ∈ htmlJsFiles r
  ↔ ∃ p info,
      resourcesToCopy r !! p = Some info
      ∧ info_ext info = Some "html"%string
      ∧ x ∈ analyzeHtmlFile (info_src info) (dirname p).
Proof.
  intros Hsrc Hwf Hr. unfold walk, _walkDir in Hr.
  assert (src ≠ EmptyString) as Hne by (by destruct Hsrc).
  split.
  - intros Hx.
    destruct (provenance analyzeHtmlFile this _ _ _ _ _ _ _ (inr x) Hr Hx)
      as (f & Hf & Hc).
    cbn [holds] in Hc. unfold classified in Hc.
    assert (opt_test (ignoreFiles this) f.1.1.1 = false) as Hign.
    { eapply _visitFile_new_not_ignored, htmlJsFiles_not_new, Hc. }
    destruct (_visitFile_scripts this (path_join f.1.1.2 f.1.1.1) (path_join f.1.2 f.1.1.1)
                f.1.1.1 f.1.1.2 f.2 None Hign) as [Hhtml Hother].
    destruct (decide (info_ext (file_info f.1.1.1 (path_join f.1.1.2 f.1.1.1)
                                  (path_join f.1.2 f.1.1.1)) = Some "html"%string))
      as [Hext|Hext]; [|rewrite (Hother Hext) in Hc; by apply elem_of_empty in Hc].
    destruct (Hhtml Hext) as [Hset Hrec]. rewrite Hset in Hc.
    apply elem_of_list_to_set in Hc.
    eexists _, _. split_and!; [|exact Hext|exact Hc].
    apply (Visits_holds analyzeHtmlFile this src Hne _ _ _ _ _ _ Hf Result_new
             EmptyString r (inl (F_resourcesToCopy, _, _))); done.
  - intros (p & info & He & Hext & Hx).
    destruct (provenance analyzeHtmlFile this _ _ _ _ _ _ _
                (inl (F_resourcesToCopy, p, info)) Hr He) as (f & Hf & Hc).
    cbn [holds] in Hc.
    apply (Visits_holds analyzeHtmlFile this src Hne _ _ _ _ _ _ Hf Result_new
             EmptyString r (inr x)); try done.
    cbn [holds]. pose proof Hc as (Hp & _ & Hx' & Hs & _)%classified_entry.
    unfold classified in *.
    assert (opt_test (ignoreFiles this) f.1.1.1 = false) as Hign.
    { eapply _visitFile_new_not_ignored, field_lookup_not_new, Hc. }
    destruct (_visitFile_scripts this (path_join f.1.1.2 f.1.1.1) (path_join f.1.2 f.1.1.1)
                f.1.1.1 f.1.1.2 f.2 None Hign) as [Hhtml _].
    destruct Hhtml as [-> _].
    { rewrite file_info_parsed in *. rewrite <- Hext, Hx'.
      by destruct (parsed_name f.1.1.1) as [[b e]|]. }
    apply elem_of_list_to_set. by rewrite <- Hp, <- Hs.
Qed.

End Scripts.

Lemma scripts_are_those_of_the_markup_files_witness :
  ∃ r,
    walk foo_script appicon_walker (Some (Resolved example_tree))
      "/app/Resources" "/build" None None None = Resolved r
    ∧ "foo.js"%string ∈ htmlJsFiles r.
Proof.
  assert (∃ r info,
            walk foo_script appicon_walker (Some (Resolved example_tree))
              "/app/Resources" "/build" None None None = Resolved r
            ∧ resourcesToCopy r !! "index.html" = Some info
            ∧ info_ext info = Some "html"%string) as (r & info & Hr & He & Hext).
  { do 2 eexists. split; [vm_compute; reflexivity | by vm_compute]. }
  exists r. split; [done|].
  apply (scripts_are_those_of_the_markup_files foo_script appicon_walker example_tree
           "/app/Resources" "/build" None r "foo.js" normal_path_Resources
           WellFormed_example_tree Hr).
  exists "index.html"%string, info. split_and!; [done..|]. apply list_elem_of_here.
Defined.

(** ** The matcher and the declarative reading of a pattern *)

Section Matcher.

Variable inp : string.

Lemma repeat_loop_sound (r : regex) (k : cont) x :
  (∀ s c k x, m inp r s c k = Some x →
              ∃ s' c', Matches inp r s c s' c' ∧ k s' c' = Some x) →
  ∀ fuel s c,
    repeat_loop (m inp r) (clear_groups r) k fuel s c = Some x →
    ∃ s' c', Matches inp (Star r) s c s' c' ∧ k s' c' = Some x.
Proof.
  intros IH. induction fuel as [|fuel IHf]; intros s c; cbn [repeat_loop].
  - intros Hk. exists s, c. split; [constructor | done].
  - destruct (m inp r s (clear_groups r c) _) as [y|] eqn:Hm.
    + intros [= ->]. apply IH in Hm as (s1 & c1 & H1 & Hk).
      destruct (Nat.ltb_spec (String.length s1) (String.length s)) as [Hlt|]; [|done].
      apply IHf in Hk as (s2 & c2 & H2 & Hk).
      exists s2, c2. split; [|done]. by eapply Matches_Star_S.
    + intros Hk. exists s, c. split; [constructor | done].
Qed.

(** What the matcher finds is a match of the pattern. *)
Lemma m_sound (r : regex) :
  ∀ s c k x,
    m inp r s c k = Some x →
    ∃ s' c', Matches inp r s c s' c' ∧ k s' c' = Some x.
Proof.
  induction r as [|a| |neg items|r1 IH1 r2 IH2|r1 IH1 r2 IH2|r IH|r IH|r IH|n r IH| |];
    intros s c k x; cbn [m].
  - intros Hk. exists s, c. split; [constructor | done].
  - destruct s as [|b s]; [done|]. destruct (Ascii.eqb_spec b a) as [->|]; [|done].
    intros Hk. exists s, c. split; [constructor | done].
  - destruct s as [|b s]; [done|]. destruct (is_line_terminator b) eqn:Hb; [done|].
    intros Hk. exists s, c. split; [by constructor | done].
  - destruct s as [|b s]; [done|]. destruct (class_matches neg items b) eqn:Hb; [|done].
    intros Hk. exists s, c. split; [by constructor | done].
  - intros (s1 & c1 & H1 & (s2 & c2 & H2 & Hk)%IH2)%IH1.
    exists s2, c2. split; [by econstructor | done].
  - destruct (m inp r1 s c k) as [y|] eqn:Hm.
    + intros [= ->]. apply IH1 in Hm as (s' & c' & H1 & Hk).
      exists s', c'. split; [by apply Matches_Alt_l | done].
    + intros (s' & c' & H2 & Hk)%IH2.
      exists s', c'. split; [by apply Matches_Alt_r | done].
  - by apply repeat_loop_sound.
  - intros (s1 & c1 & H1 & Hk)%IH.
    apply (repeat_loop_sound r k x IH) in Hk as (s2 & c2 & H2 & Hk).
    exists s2, c2. split; [by econstructor | done].
  - destruct (m inp r s (clear_groups r c) _) as [y|] eqn:Hm.
    + intros [= ->]. apply IH in Hm as (s1 & c1 & H1 & Hk).
      destruct (Nat.ltb_spec (String.length s1) (String.length s)) as [Hlt|]; [|done].
      exists s1, c1. split; [by apply Matches_Opt_1 | done].
    + intros Hk. exists s, c. split; [constructor | done].
  - intros (s1 & c1 & H1 & Hk)%IH.
    exists s1, ((n, Some (consumed s s1)) :: c1). split; [by constructor | done].
  - destruct (Nat.eqb_spec (String.length s) (String.length inp)) as [Heq|]; [|done].
    intros Hk. exists s, c. split; [by constructor | done].
  - destruct s; [|done]. intros Hk. exists EmptyString, c. split; [constructor | done].
Qed.

Lemma repeat_loop_ext step step' clear (k k' : cont) :
  (∀ s c k k', (∀ s' c', k s' c' = k' s' c') → step s c k = step' s c k') →
  (∀ s' c', k s' c' = k' s' c') →
  ∀ fuel s c,
    repeat_loop step clear k fuel s c = repeat_loop step' clear k' fuel s c.
Proof.
  intros Hstep Hk. induction fuel as [|fuel IH]; intros s c; cbn [repeat_loop]; [done|].
  rewrite (Hstep s (clear c) _
             (fun s' c' => if Nat.ltb (String.length s') (String.length s)
                           then repeat_loop step' clear k' fuel s' c' else None)).
  - by rewrite Hk.
  - intros s' c'. by rewrite IH.
Qed.

Lemma m_ext (r : regex) :
  ∀ s c (k k' : cont),
    (∀ s' c', k s' c' = k' s' c') → m inp r s c k = m inp r s c k'.
Proof.
  induction r as [|a| |neg items|r1 IH1 r2 IH2|r1 IH1 r2 IH2|r IH|r IH|r IH|n r IH| |];
    intros s c k k' Hk; cbn [m].
  - apply Hk.
  - destruct s as [|b s]; [done|]. by rewrite Hk.
  - destruct s as [|b s]; [done|]. by rewrite Hk.
  - destruct s as [|b s]; [done|]. by rewrite Hk.
  - apply IH1. intros s' c'. by apply IH2.
  - by rewrite (IH1 _ _ k k'), (IH2 _ _ k k').
  - by apply repeat_loop_ext.
  - apply IH. intros s' c'. by apply repeat_loop_ext.
  - rewrite (IH _ _ _ (fun s' c' => if Nat.ltb (String.length s') (String.length s)
                                    then k' s' c' else None)); [by rewrite Hk|].
    intros s' c'. by rewrite Hk.
  - apply IH. intros s' c'. by rewrite Hk.
  - by rewrite Hk.
  - destruct s; [apply Hk | done].
Qed.

Lemma repeat_loop_none step clear :
  (∀ s c (k : cont), (∀ s' c', k s' c' = None) → step s c k = None) →
  ∀ fuel s c, repeat_loop step clear (fun _ _ => None) fuel s c = None.
Proof.
  intros Hstep. induction fuel as [|fuel IH]; intros s c; cbn [repeat_loop]; [done|].
  rewrite Hstep; [done|]. intros s' c'. rewrite IH. by destruct (Nat.ltb _ _).
Qed.

(** A continuation that refuses everything makes the matcher fail. *)
Lemma m_none (r : regex) :
  ∀ s c (k : cont), (∀ s' c', k s' c' = None) → m inp r s c k = None.
Proof.
  induction r as [|a| |neg items|r1 IH1 r2 IH2|r1 IH1 r2 IH2|r IH|r IH|r IH|n r IH| |];
    intros s c k Hk; cbn [m].
  - apply Hk.
  - destruct s as [|b s]; [done|]. rewrite Hk. by destruct (Ascii.eqb b a).
  - destruct s as [|b s]; [done|]. rewrite Hk. by destruct (is_line_terminator b).
  - destruct s as [|b s]; [done|]. rewrite Hk. by destruct (class_matches neg items b).
  - apply IH1. intros s' c'. by apply IH2.
  - by rewrite IH1, IH2.
  - rewrite (repeat_loop_ext _ (m inp r) _ k (fun _ _ => None)); [|by apply m_ext|done].
    by apply repeat_loop_none.
  - apply IH. intros s' c'.
    rewrite (repeat_loop_ext _ (m inp r) _ k (fun _ _ => None)); [|by apply m_ext|done].
    by apply repeat_loop_none.
  - rewrite IH, Hk; [done|]. intros s' c'. rewrite Hk. by destruct (Nat.ltb _ _).
  - apply IH. intros s' c'. apply Hk.
  - rewrite Hk. by destruct (Nat.eqb _ _).
  - destruct s; [apply Hk | done].
Qed.

(** Fuel beyond the length of the input left is not used. *)
Lemma repeat_loop_fuel (r : regex) (k : cont) :
  ∀ fuel fuel' s c,
    String.length s ≤ fuel → String.length s ≤ fuel' →
    repeat_loop (m inp r) (clear_groups r) k fuel s c
    = repeat_loop (m inp r) (clear_groups r) k fuel' s c.
Proof.
  assert (∀ fuel c,
            repeat_loop (m inp r) (clear_groups r) k fuel EmptyString c = k EmptyString c)
    as Hnil.
  { intros [|fuel] c; cbn [repeat_loop]; [done|]. by rewrite m_none. }
  induction fuel as [|fuel IH]; intros fuel' s c Hf Hf'.
  - destruct s; [|simpl in Hf; lia]. by rewrite !Hnil.
  - destruct fuel' as [|fuel'].
    + destruct s; [|simpl in Hf'; lia]. by rewrite !Hnil.
    + cbn [repeat_loop].
      rewrite (m_ext r _ _ _
                 (fun s' c' => if Nat.ltb (String.length s') (String.length s)
                               then repeat_loop (m inp r) (clear_groups r) k fuel' s' c'
                               else None)); [done|].
      intros s' c'. destruct (Nat.ltb_spec (String.length s') (String.length s)); [|done].
      apply IH; lia.
Qed.

(** A match of the pattern that the continuation accepts makes the
    matcher succeed. *)
Lemma m_complete r s c s' c' :
  Matches inp r s c s' c' →
  ∀ k : cont, is_Some (k s' c') → is_Some (m inp r s c k).
Proof.
  induction 1 as [s c|a s c|b s c Hb|neg items b s c Hb
                 |r1 r2 s c s1 c1 s2 c2 _ IH1 _ IH2
                 |r1 r2 s c s' c' _ IH|r1 r2 s c s' c' _ IH
                 |r s c|r s c s1 c1 s2 c2 _ IH1 Hlt _ IH2
                 |r s c s1 c1 s2 c2 _ IH1 _ IH2
                 |r s c|r s c s1 c1 _ IH Hlt
                 |n r s c s1 c1 _ IH|s c Hlen|c];
    intros k Hk; cbn [m].
  - done.
  - by rewrite Ascii.eqb_refl.
  - by rewrite Hb.
  - by rewrite Hb.
  - apply IH1. by apply IH2.
  - destruct (IH k Hk) as [x ->]. by eexists.
  - destruct (m inp r1 s c k); [by eexists | by apply IH].
  - destruct (String.length s); cbn [repeat_loop]; [done|].
    destruct (m inp r s (clear_groups r c) _); [by eexists | done].
  - specialize (IH2 k Hk). cbn [m] in IH2.
    destruct (String.length s) as [|fuel] eqn:Hlen; [lia|]. cbn [repeat_loop].
    destruct (m inp r s (clear_groups r c) _) as [y|] eqn:Hm; [by eexists|].
    exfalso.
    assert (is_Some (m inp r s (clear_groups r c)
                       (fun s'0 c'0 =>
                          if Nat.ltb (String.length s'0) (String.length s)
                          then repeat_loop (m inp r) (clear_groups r) k fuel s'0 c'0
                          else None))) as [z Hz].
    { apply IH1. destruct (Nat.ltb_spec (String.length s1) (String.length s)); [|lia].
      rewrite (repeat_loop_fuel r k fuel (String.length s1)); [done|lia..]. }
    congruence.
  - apply IH1. specialize (IH2 k Hk). by cbn [m] in IH2.
  - destruct (m inp r s (clear_groups r c) _); [by eexists | done].
  - destruct (m inp r s (clear_groups r c) _) as [y|] eqn:Hm; [by eexists|].
    exfalso.
    assert (is_Some (m inp r s (clear_groups r c)
                       (fun s' c' =>
                          if Nat.ltb (String.length s') (String.length s)
                          then k s' c' else None))) as [z Hz].
    { apply IH. by destruct (Nat.ltb_spec (String.length s1) (String.length s)); [|lia]. }
    congruence.
  - by apply IH.
  - by rewrite Hlen, Nat.eqb_refl.
  - done.
Qed.

End Matcher.

(** ** The names of the launch logos and of the launch images *)

Lemma class_range lo hi b : class_matches false [CRange lo hi] b = in_range lo hi b.
Proof. unfold class_matches. cbn. by rewrite orb_false_r. Qed.

Lemma Matches_Star_Class_inv inp neg items s c s' c' :
  Matches inp (Star (Class neg items)) s c s' c' →
  ∃ ds, s = ds +:+ s' ∧ all_chars (class_matches neg items) ds = true ∧ c' = c.
Proof.
  remember (Star (Class neg items)) as r eqn:Hr.
  induction 1 as [| | | | | | |r0 s c|r0 s c s1 c1 s2 c2 H1 _ Hlt _ IH| | | | | |];
    try discriminate Hr.
  - by exists EmptyString.
  - injection Hr as ->. destruct (IH eq_refl) as (ds & -> & Hds & ->).
    inversion H1; subst. exists (String b ds). split_and!; try done.
    cbn [all_chars]. by rewrite Hds, andb_true_r.
Qed.

Lemma Matches_Star_Class inp neg items ds s c :
  all_chars (class_matches neg items) ds = true →
  Matches inp (Star (Class neg items)) (ds +:+ s) c s c.
Proof.
  induction ds as [|b ds IH]; [constructor|]. cbn [all_chars].
  intros [Hb Hds]%andb_true_iff. rewrite str_app_cons.
  eapply Matches_Star_S; [by apply Matches_Class | simpl; lia | by apply IH].
Qed.

Lemma Matches_Plus_Class inp neg items b ds s c :
  class_matches neg items b = true →
  all_chars (class_matches neg items) ds = true →
  Matches inp (Plus (Class neg items)) (String b (ds +:+ s)) c s c.
Proof.
  intros Hb Hds. eapply Matches_Plus; [by apply Matches_Class | by apply Matches_Star_Class].
Qed.

(** Reading a match of a pattern given by its text, from the outside in. *)
Ltac inv_Matches :=
  repeat match goal with
         | H : Matches _ (Seq _ _) _ _ _ _ |- _ => inversion H; subst; clear H
         | H : Matches _ (Chr _) _ _ _ _ |- _ => inversion H; subst; clear H
         | H : Matches _ (Alt _ _) _ _ _ _ |- _ => inversion H; subst; clear H
         | H : Matches _ (Opt _) _ _ _ _ |- _ => inversion H; subst; clear H
         | H : Matches _ (Group _ _) _ _ _ _ |- _ => inversion H; subst; clear H
         | H : Matches _ (Class _ _) _ _ _ _ |- _ => inversion H; subst; clear H
         | H : Matches _ (Plus _) _ _ _ _ |- _ => inversion H; subst; clear H
         | H : Matches _ (Star (Class _ _)) _ _ _ _ |- _ =>
             apply Matches_Star_Class_inv in H as (? & -> & ? & ->)
         | H : Matches _ Eol _ _ _ _ |- _ => inversion H; subst; clear H
         | H : Matches _ Eps _ _ _ _ |- _ => inversion H; subst; clear H
         end.

Lemma class_23 b :
  class_matches false [CChar "2"; CChar "3"] b = true → b = "2"%char ∨ b = "3"%char.
Proof.
  unfold class_matches. cbn.
  destruct (Ascii.eqb_spec b "2"); [by left|]. destruct (Ascii.eqb_spec b "3"); [by right|done].
Qed.

Lemma exec_LAUNCH_LOGO_names name a :
  exec LAUNCH_LOGO_REGEXP name = Some a →
  ∃ scale device, (name, scale, device) ∈ launch_logo_names ∧ a = [Some name; scale; device].
Proof.
  unfold exec. destruct (search LAUNCH_LOGO_REGEXP name name) as [c|] eqn:Hc; [|done].
  intros [= <-]. revert Hc.
  let r := eval vm_compute in LAUNCH_LOGO_REGEXP in change LAUNCH_LOGO_REGEXP with r.
  rewrite search_Bol. intros (s' & c' & HM & [= <-])%m_sound.
  remember name as inp eqn:Hinp in HM at 1. clear Hinp.
  inv_Matches;
    repeat match goal with
           | H : class_matches _ _ _ = true |- _ => apply class_23 in H as [-> | ->]
           end;
    vm_compute; do 2 eexists; (split; [|reflexivity]); set_solver.
Qed.

(** X17. [LAUNCH_LOGO_REGEXP] accepts exactly eighteen filenames:
    [LaunchLogo], then nothing, [@2x] or [@3x], then nothing, [~iphone] or
    [~ipad], then [.png] or [.jpg]; on each of them the match holds the
    whole name, the digit of the scale (or [undefined]) and the device (or
    [undefined]), in this order. *)
Theorem launch_logo_names_exact (name : string) (a : list (option string)) :
  (exec LAUNCH_LOGO_REGEXP name = Some a
   ↔ ∃ scale device,
       (name, scale, device) ∈ launch_logo_names ∧ a = [Some name; scale; device])
  ∧ length launch_logo_names = 18.
Proof.
  split; [|done]. split; [apply exec_LAUNCH_LOGO_names|].
  intros (scale & device & Hin & ->). revert Hin.
  assert (Forall (fun t => exec LAUNCH_LOGO_REGEXP t.1.1 = Some [Some t.1.1; t.1.2; t.2])
            launch_logo_names) as Hall.
  { unfold launch_logo_names. cbn -[exec LAUNCH_LOGO_REGEXP].
    repeat (constructor; [by vm_compute|]). constructor. }
  intros Hin. by apply (proj1 (Forall_forall _ _) Hall (name, scale, device)).
Qed.

Ltac give_orientation h s :=
  (exists (@None string), h, s)
  + (exists (Some "Landscape"%string), h, s)
  + (exists (Some "Portrait"%string), h, s).

Ltac build_Matches :=
  lazymatch goal with
  | |- Matches _ (Seq _ _) _ _ _ _ => eapply Matches_Seq; [build_Matches | build_Matches]
  | |- Matches _ (Chr _) _ _ _ _ => apply Matches_Chr
  | |- Matches _ (Class _ _) _ _ _ _ => apply Matches_Class; assumption
  | |- Matches _ (Plus (Class _ _)) _ _ _ _ => apply Matches_Plus_Class; assumption
  | |- Matches _ (Group _ _) _ _ _ _ => eapply Matches_Group; build_Matches
  | |- Matches _ (Alt _ _) _ _ _ _ =>
      (apply Matches_Alt_l; build_Matches) + (apply Matches_Alt_r; build_Matches)
  | |- Matches _ (Opt _) _ _ _ _ =>
      (eapply Matches_Opt_1;
       [build_Matches | simpl; rewrite ?str_length_app; simpl; lia])
      + apply Matches_Opt_0
  | |- Matches _ Eol _ _ _ _ => apply Matches_Eol
  end.

(** X18. [LAUNCH_IMAGE_REGEXP] accepts exactly the filenames made of
    [Default], an optional orientation [-Landscape] or [-Portrait], an
    optional height (a dash, one digit or more, and [h]), an optional
    scale ([@], a digit from 2 to 9, and [x]), and [.png], in this
    order. *)
Theorem launch_image_names (name : string) :
  test LAUNCH_IMAGE_REGEXP name = true
  ↔ ∃ orientation height scale,
      name = launch_image_name orientation height scale
      ∧ orientation ∈ [None; Some "Landscape"; Some "Portrait"]%string
      ∧ (∀ ds, height = Some ds → ds ≠ EmptyString ∧ all_chars is_digit ds = true)
      ∧ (∀ d, scale = Some d → in_range "2" "9" d = true).
Proof.
  rewrite test_is_Some.
  let r := eval vm_compute in LAUNCH_IMAGE_REGEXP in change LAUNCH_IMAGE_REGEXP with r.
  rewrite search_Bol. split.
  - intros [c (s' & c' & HM & _)%m_sound].
    remember name as inp eqn:Hinp in HM at 1. clear Hinp.
    inv_Matches;
      repeat match goal with
             | H : class_matches false [CRange _ _] _ = true |- _ =>
                 rewrite class_range in H
             | H : all_chars (class_matches false [CRange "0" "9"]) _ = true |- _ =>
                 rewrite (all_chars_ext _ is_digit) in H by apply class_range
             end.
    all: first
      [ match goal with
        | Hb : in_range "0" "9" ?b = true, Hds : all_chars is_digit ?ds = true,
          Hd : in_range "2" "9" ?d = true |- _ =>
            give_orientation (Some (String b ds)) (Some d); split_and!;
            [ unfold launch_image_name; cbn [from_option]; by str_norm
            | set_solver
            | intros ? [= <-]; split; [done | cbn [all_chars]; unfold is_digit at 1; by rewrite Hb, Hds]
            | by intros ? [= <-] ]
        end
      | match goal with
        | Hb : in_range "0" "9" ?b = true, Hds : all_chars is_digit ?ds = true |- _ =>
            give_orientation (Some (String b ds)) (@None ascii); split_and!;
            [ unfold launch_image_name; cbn [from_option]; by str_norm
            | set_solver
            | intros ? [= <-]; split; [done | cbn [all_chars]; unfold is_digit at 1; by rewrite Hb, Hds]
            | done ]
        end
      | match goal with
        | Hd : in_range "2" "9" ?d = true |- _ =>
            give_orientation (@None string) (Some d); split_and!;
            [ unfold launch_image_name; cbn [from_option]; by str_norm
            | set_solver
            | done
            | by intros ? [= <-] ]
        end
      | give_orientation (@None string) (@None ascii); split_and!;
        [ unfold launch_image_name; cbn [from_option]; by str_norm
        | set_solver
        | done
        | done ] ].
  - intros (o & h & s & -> & Ho & Hh & Hs).
    assert (o = None ∨ o = Some "Landscape"%string ∨ o = Some "Portrait"%string)
      as [-> | [-> | ->]] by set_solver;
      (destruct h as [[|b ds]|];
       [by destruct (Hh EmptyString eq_refl) | |]);
      destruct s as [d|];
      try (destruct (Hh _ eq_refl) as [_ [Hb Hds]%andb_true_iff];
           unfold is_digit in Hb; rewrite <- (class_range "0" "9") in Hb;
           rewrite (all_chars_ext _ (class_matches false [CRange "0" "9"])) in Hds
             by (intros; by rewrite class_range));
      try (pose proof (Hs _ eq_refl) as Hd; rewrite <- (class_range "2" "9") in Hd);
      (eapply (m_complete _ _ _ _ EmptyString); [|by eexists]);
      set (inp := launch_image_name _ _ _) at 1; clearbody inp;
      unfold launch_image_name; cbn [from_option]; str_norm; build_Matches.
Qed.

(** ** What the patterns read, in the records of a walk *)

Section GeometryOfSources.

Variable this : Walker.
Variable root : string.
Hypothesis root_not_empty : root ≠ EmptyString.

(** The directory of a visited file, below a root in normal form. *)
Lemma Visits_below_root ignore listing dir ddir origSrc f :
  Visits this ignore listing dir ddir origSrc f →
  ∀ u,
    normal_path dir →
    or_else origSrc dir = root →
    dir +:+ "/" = root +:+ String "/" u →
    dir_prefix u →
    WellFormed listing →
    ∃ u',
      f.1.1.2 +:+ "/" = root +:+ String "/" u'
      ∧ normal_path f.1.1.2
      ∧ or_else f.2 f.1.1.2 = root
      ∧ valid_name f.1.1.1
      ∧ dir_prefix u'.
Proof.
  induction 1 as [ignore listing dir ddir origSrc d name Hin Hd Hign Hfiles
                 |ignore listing dir ddir origSrc d name sub f Hin Hd Hign Hdirs _ IH];
    intros u Hdir Horig Hu Hpre Hwf;
    pose proof Hwf as (_ & Hvalid & Hsub)%WellFormed_inv.
  - exists u. cbn [fst snd]. split_and!; try done.
    specialize (Hvalid d Hin). by destruct Hd as [-> | ->].
  - assert (valid_name name) as Hname.
    { specialize (Hvalid d Hin). by destruct Hd as [-> | ->]. }
    destruct (path_join_normal dir name Hdir Hname) as [Hjoin Hdir'].
    apply (IH (u +:+ name +:+ "/")).
    + by rewrite Hjoin.
    + rewrite Horig. simpl. by destruct (String.eqb_spec root "").
    + rewrite Hjoin.
      replace (dir +:+ String "/" name) with ((dir +:+ "/") +:+ name)
        by (by rewrite str_app_assoc).
      rewrite Hu. by str_norm.
    + right. exists (u +:+ name). by str_norm.
    + by eapply Hsub.
Qed.

End GeometryOfSources.

Section Reads.

Variable analyzeHtmlFile : string -> string -> list string.

Lemma _visitFile_reads this from to name src origSrc prefix key p info :
  field key (_visitFile analyzeHtmlFile this Result_new from to name src origSrc prefix)
    !! p = Some info →
  reads this key name p info.
Proof.
  unfold _visitFile. destruct (opt_test (ignoreFiles this) name).
  { by rewrite field_Result_new, lookup_empty. }
  set (i := file_info name from to). clearbody i.
  assert (field key (png_jpg_rule this Result_new name
                       (relative_path from src origSrc prefix) i) !! p = Some info →
          reads this key name p info) as Hrule.
  { unfold png_jpg_rule. destruct (exec LAUNCH_LOGO_REGEXP name) as [m|] eqn:Hlogo.
    - intros (-> & _ & ->)%Map_set_new_lookup. by exists m.
    - destruct (useAppThinning this); cbn [andb].
      + destruct (test BUNDLE_FILE_REGEXP _) eqn:Hb; cbn [negb];
          by intros (-> & -> & ->)%Map_set_new_lookup.
      + by intros (-> & _ & ->)%Map_set_new_lookup. }
  repeat case_decide; try exact Hrule.
  - by intros (-> & _ & ->)%Map_set_new_lookup.
  - by intros (-> & _ & ->)%Map_set_new_lookup.
  - destruct (negb (truthy origSrc)); [|exact Hrule].
    destruct (appIconRegExp this) as [re|] eqn:Hre.
    + destruct (exec re name) as [m|] eqn:Hm.
      * intros (-> & _ & ->)%Map_set_new_lookup. by exists re, m.
      * destruct (test LAUNCH_IMAGE_REGEXP name) eqn:Hl; [|exact Hrule].
        intros (-> & _ & ->)%Map_set_new_lookup. split; [done|]. intros re' Heq. congruence.
    + destruct (test LAUNCH_IMAGE_REGEXP name) eqn:Hl; [|exact Hrule].
      intros (-> & _ & ->)%Map_set_new_lookup. split; [done|]. intros re' Heq. congruence.
  - unfold default_rule. rewrite field_Map_set, !field_add_scripts.
    case_decide; [|by rewrite field_Result_new, lookup_empty]. by subst.
  - unfold default_rule. by intros (-> & _ & ->)%Map_set_new_lookup.
Qed.

(** X20. For a walk of a root given in normal form, over a tree in which
    the entries of a directory have distinct, valid names, the records of
    the image mappings hold what the patterns read in the name of their
    file, the last segment of the key: a record of appIcons has as tag
    the suffix that the app-icon pattern captures in the name; a key of
    launchImages ends with a name that [LAUNCH_IMAGE_REGEXP] accepts and
    that the app-icon pattern does not match; a record of launchLogos has
    the scale and the device that [LAUNCH_LOGO_REGEXP] captures in the
    name; a record of imageAssets is of a file whose name is no launch
    logo and whose relative path [BUNDLE_FILE_REGEXP] does not match. *)
Theorem image_records_match_their_patterns (this : Walker) (listing : list Dirent)
    (src dest : string) (ignore : option regex) (r : Result)
    (key : mapField) (p : string) (info : FileInfo) :
  normal_path src →
  WellFormed listing →
  walk analyzeHtmlFile this (Some (Resolved listing)) src dest ignore None None
  = Resolved r →
  field key r !! p = Some info →
  reads this key (basename p) p info.
Proof.
  intros Hsrc Hwf Hr He. unfold walk, _walkDir in Hr.
  assert (src ≠ EmptyString) as Hne by (by destruct Hsrc).
  destruct (provenance analyzeHtmlFile this _ _ _ _ _ _ _ (inl (key, p, info)) Hr He)
    as (f & Hf & Hc).
  destruct (Visits_below_root this src Hne _ _ _ _ _ _ Hf EmptyString)
    as (u & H1 & H3 & H5 & H6 & H7); [done | done | done | by left | done |].
  cbn [holds] in Hc. pose proof Hc as (Hp & _)%classified_entry.
  apply _visitFile_reads in Hc.
  destruct (path_join_normal f.1.1.2 f.1.1.1 H3 H6) as [Hjoin _].
  assert (p = u +:+ f.1.1.1) as ->.
  { rewrite Hp, Hjoin.
    replace (f.1.1.2 +:+ String "/" f.1.1.1) with ((f.1.1.2 +:+ "/") +:+ f.1.1.1)
      by (by rewrite str_app_assoc).
    rewrite H1, str_app_assoc, str_app_cons. by apply relative_path_below. }
  rewrite basename_join; [done..|]. by destruct H6 as (_ & _ & _ & ?).
Qed.

End Reads.

Lemma image_records_match_their_patterns_witness :
  ∃ r info,
    walk no_scripts appicon_walker (Some (Resolved example_tree))
      "/app/Resources" "/build" None None None = Resolved r
    ∧ appIcons r !! "appicon-60.png" = Some info
    ∧ reads appicon_walker F_appIcons (basename "appicon-60.png") "appicon-60.png" info.
Proof.
  assert (∃ r info,
            walk no_scripts appicon_walker (Some (Resolved example_tree))
              "/app/Resources" "/build" None None None = Resolved r
            ∧ appIcons r !! "appicon-60.png" = Some info)
    as (r & info & Hr & He).
  { do 2 eexists. split; [vm_compute; reflexivity | by vm_compute]. }
  exists r, info. split; [done|]. split; [done|].
  exact (image_records_match_their_patterns no_scripts appicon_walker example_tree
           "/app/Resources" "/build" None r F_appIcons "appicon-60.png" info
           normal_path_Resources WellFormed_example_tree Hr He).
Defined.

(** ** A root with a trailing slash *)

Lemma prefix_Some (p s : string) : String.prefix p s = true → ∃ post, s = p +:+ post.
Proof.
  revert s. induction p as [|a p IH]; intros s; [by exists s|].
  destruct s as [|b s]; [done|]. simpl. destruct (ascii_dec a b) as [->|]; [|done].
  intros [post ->]%IH. by exists post.
Qed.

Lemma indexOf_from_Some (pat s : string) (i k : nat) :
  indexOf_from pat s i = Some k → ∃ pre post, s = pre +:+ pat +:+ post.
Proof.
  revert i. induction s as [|b s IH]; intros i; cbn [indexOf_from].
  - destruct (String.prefix pat EmptyString) eqn:Hp; [|done].
    intros _. apply prefix_Some in Hp as [post ->]. by exists EmptyString, post.
  - destruct (String.prefix pat (String b s)) eqn:Hp.
    + intros _. apply prefix_Some in Hp as [post ->]. by exists EmptyString, post.
    + intros (pre & post & ->)%IH. by exists (String b pre), post.
Qed.

Lemma str_app_split (x y x' y' : string) :
  x +:+ y = x' +:+ y' → String.length x' ≤ String.length x →
  ∃ z, x = x' +:+ z ∧ y' = z +:+ y.
Proof.
  revert x. induction x' as [|a x' IH]; intros x Heq Hlen.
  - exists x. by rewrite !str_app_nil_l in *.
  - destruct x as [|b x]; [simpl in Hlen; lia|].
    rewrite !str_app_cons in Heq. injection Heq as -> Heq.
    destruct (IH x Heq) as (z & -> & ->); [simpl in Hlen; lia|]. by exists z.
Qed.

Lemma no_double_slash_occurs (z post : string) :
  no_double_slash (z +:+ String "/" (String "/" post)) = false.
Proof.
  induction z as [|a z IH]; [done|]. rewrite str_app_cons.
  destruct (z +:+ String "/" (String "/" post)) as [|b t] eqn:Heq; [by destruct z|].
  change (no_double_slash (String a (String b t)))
    with (negb (Ascii.eqb a "/" && Ascii.eqb b "/") && no_double_slash (String b t)).
  rewrite IH. apply andb_false_r.
Qed.

Lemma no_double_slash_no_slash (name : string) :
  no_slash name = true → no_double_slash name = true.
Proof.
  induction name as [|a name IH]; [done|]. cbn [no_slash all_chars].
  intros [Ha Hname]%andb_true_iff. apply negb_true_iff in Ha.
  cbn [no_double_slash]. destruct name as [|b name]; [done|].
  rewrite Ha. cbn [andb negb]. by apply IH.
Qed.

(** Appending a name, and a name and a slash, to a text that ends with a
    slash. *)
Lemma no_double_slash_app_name (w name : string) :
  no_double_slash (w +:+ "/") = true →
  no_slash name = true → name ≠ EmptyString →
  no_double_slash ((w +:+ "/") +:+ name) = true
  ∧ no_double_slash (((w +:+ "/") +:+ name) +:+ "/") = true.
Proof.
  intros Hw Hname Hne.
  assert (no_double_slash (String "/" name) = true
          ∧ no_double_slash (String "/" (name +:+ "/")) = true) as [H1 H2].
  { destruct name as [|a name]; [done|]. cbn [no_slash all_chars] in Hname.
    apply andb_true_iff in Hname as [Ha Hname]. apply negb_true_iff in Ha.
    rewrite str_app_cons.
    change (no_double_slash (String "/" (String a ?t)))
      with (negb (Ascii.eqb "/" "/" && Ascii.eqb a "/") && no_double_slash (String a t)).
    rewrite Ha. cbn [andb negb].
    split; [apply no_double_slash_no_slash; cbn [no_slash all_chars]; by rewrite Ha|].
    clear Hne. revert a Ha. induction name as [|b name IH]; intros a Ha.
    - cbn. by rewrite Ha.
    - cbn [no_slash all_chars] in Hname.
      apply andb_true_iff in Hname as [Hb Hname]. apply negb_true_iff in Hb.
      rewrite str_app_cons.
      change (no_double_slash (String a (String b ?t)))
        with (negb (Ascii.eqb a "/" && Ascii.eqb b "/") && no_double_slash (String b t)).
      rewrite Ha. cbn [andb negb]. by apply IH. }
  induction w as [|c w IH].
  - by rewrite !str_app_nil_l, !str_app_cons, !str_app_nil_l.
  - rewrite !str_app_cons in *.
    destruct (w +:+ "/") as [|d t] eqn:Hwt; [by destruct w|].
    rewrite !str_app_cons in *.
    change (no_double_slash (String c (String d ?t)))
      with (negb (Ascii.eqb c "/" && Ascii.eqb d "/") && no_double_slash (String d t)) in *.
    apply andb_true_iff in Hw as [Hcd Hw]. rewrite Hcd. cbn [andb].
    rewrite <- !str_app_cons. by apply IH.
Qed.

(** The text [pat] does not occur in [s]. *)
Lemma indexOf_double_slash (base w name : string) :
  no_double_slash ((w +:+ "/") +:+ name) = true →
  indexOf ((base +:+ "/") +:+ "/") (base +:+ (w +:+ "/") +:+ name) = None.
Proof.
  intros Hclean. unfold indexOf.
  destruct (indexOf_from _ _ 0) as [k|] eqn:Hk; [|done]. exfalso.
  apply indexOf_from_Some in Hk as (pre & post & Heq).
  assert (base +:+ ((w +:+ "/") +:+ name)
          = (pre +:+ base) +:+ String "/" (String "/" post)) as Heq'.
  { rewrite Heq. by str_norm. }
  symmetry in Heq'. apply str_app_split in Heq' as (z & _ & Hz);
    [|rewrite str_length_app; lia].
  by rewrite Hz, no_double_slash_occurs in Hclean.
Qed.

Lemma split_slash_trailing (s : string) : split_slash (s +:+ "/") = split_slash s ++ [EmptyString].
Proof.
  replace (s +:+ "/") with (s +:+ String "/" EmptyString) by done.
  by apply split_slash_app.
Qed.

Lemma path_normalize_eq (p1 p2 : string) c t1 t2 :
  p1 = String c t1 → p2 = String c t2 →
  ends_with_slash p1 = ends_with_slash p2 →
  (∀ b, normalizeString p1 b = normalizeString p2 b) →
  path_normalize p1 = path_normalize p2.
Proof. intros -> -> He Hn. unfold path_normalize. by rewrite He, !Hn. Qed.

(** A slash at the end of the directory is dropped by [path.join]. *)
Lemma path_join_trailing (base name : string) :
  normal_path base → valid_name name →
  path_join (base +:+ "/") name = base +:+ String "/" name.
Proof.
  intros Hbase Hname. destruct (path_join_normal base name Hbase Hname) as [<- _].
  pose proof Hbase as (Hne & _). pose proof Hname as (Hn & _ & _ & Hslash).
  destruct base as [|c base]; [done|]. destruct name as [|a name]; [done|].
  unfold path_join. rewrite str_app_cons.
  apply (path_normalize_eq _ _ c ((base +:+ "/") +:+ String "/" (String a name))
           (base +:+ String "/" (String a name))); [done | done | |].
  - by rewrite !ends_with_slash_app.
  - intros b. unfold normalizeString.
    rewrite (split_slash_app (String c base +:+ "/")), split_slash_trailing,
      (split_slash_app (String c base)), !fold_left_app by done.
    done.
Qed.

Section TrailingSlash.

Variable analyzeHtmlFile : string -> string -> list string.
Variable this : Walker.
Variable base : string.
Hypothesis base_normal : normal_path base.

(** The directories of the files of a walk of [base/], seen from
    [base]. *)
Lemma Visits_trailing ignore listing dir ddir origSrc f :
  Visits this ignore listing dir ddir origSrc f →
  ∀ w,
    (∀ name, valid_name name →
             path_join dir name = base +:+ ((w +:+ "/") +:+ name)
             ∧ normal_path (base +:+ ((w +:+ "/") +:+ name))) →
    no_double_slash (w +:+ "/") = true →
    (∃ t, w +:+ "/" = String "/" t) →
    or_else origSrc dir = base +:+ "/" →
    WellFormed listing →
    ∃ w',
      path_join f.1.1.2 f.1.1.1 = base +:+ ((w' +:+ "/") +:+ f.1.1.1)
      ∧ no_double_slash ((w' +:+ "/") +:+ f.1.1.1) = true
      ∧ (∃ t, w' +:+ "/" = String "/" t)
      ∧ or_else f.2 f.1.1.2 = base +:+ "/".
Proof.
  induction 1 as [ignore listing dir ddir origSrc d name Hin Hd Hign Hfiles
                 |ignore listing dir ddir origSrc d name sub f Hin Hd Hign Hdirs _ IH];
    intros w Hjoin Hw Hslashw Horig Hwf;
    pose proof Hwf as (_ & Hvalid & Hsub)%WellFormed_inv;
    (assert (valid_name name) as Hname
       by (specialize (Hvalid d Hin); by destruct Hd as [-> | ->]));
    pose proof Hname as (Hne & _ & _ & Hslash).
  - exists w. cbn [fst snd]. split_and!; [by apply Hjoin | | done | done].
    by apply no_double_slash_app_name.
  - destruct (Hjoin name Hname) as [Hj Hnormal].
    apply (IH ((w +:+ "/") +:+ name)).
    + intros name2 Hname2. rewrite Hj.
      destruct (path_join_normal _ name2 Hnormal Hname2) as [-> Hn2].
      split; [by str_norm|]. revert Hn2. by str_norm.
    + by apply no_double_slash_app_name.
    + destruct Hslashw as [t ->]. exists (t +:+ name +:+ "/"). by str_norm.
    + rewrite Horig. simpl. by destruct (base +:+ "/") eqn:Heq; [destruct base|].
    + by eapply Hsub.
Qed.

End TrailingSlash.

Section TrailingSlashKeys.

Variable analyzeHtmlFile : string -> string -> list string.

(** X21. A slash at the end of the root makes every key a full source
    path: [path.join] drops the slash from the paths of the files, so
    that the text [root + '/'] that [_visitFile] replaces does not occur
    in them.  For a root [base/] with [base] in normal form, over a tree
    in which the entries of a directory have distinct, valid names, each
    key of the Result is the [src] of its record, a path that starts with
    [base/], and not a path relative to the root. *)
Theorem trailing_slash_gives_full_paths (this : Walker) (listing : list Dirent)
    (base dest : string) (ignore : option regex) (r : Result)
    (key : mapField) (p : string) (info : FileInfo) :
  normal_path base →
  WellFormed listing →
  walk analyzeHtmlFile this (Some (Resolved listing)) (base +:+ "/") dest ignore None None
  = Resolved r →
  field key r !! p = Some info →
  p = info_src info ∧ ∃ y, p = base +:+ String "/" y.
Proof.
  intros Hbase Hwf Hr He. unfold walk, _walkDir in Hr.
  destruct (provenance analyzeHtmlFile this _ _ _ _ _ _ _ (inl (key, p, info)) Hr He)
    as (f & Hf & Hc).
  destruct (Visits_trailing this base Hbase _ _ _ _ _ _ Hf EmptyString)
    as (w & Hjoin & Hclean & [t Ht] & Horig); [| done | by exists EmptyString | done | done |].
  { intros name Hname. rewrite path_join_trailing by done.
    destruct (path_join_normal base name Hbase Hname) as [_ Hn].
    by rewrite str_app_nil_l, str_app_cons, str_app_nil_l. }
  cbn [holds] in Hc. apply classified_entry in Hc as (Hp & _ & _ & Hs & _).
  assert (p = path_join f.1.1.2 f.1.1.1) as Hfull.
  { rewrite Hp. unfold relative_path, String_replace.
    by rewrite Horig, Hjoin, indexOf_double_slash. }
  split; [congruence|].
  exists (t +:+ f.1.1.1). by rewrite Hfull, Hjoin, Ht.
Qed.

End TrailingSlashKeys.

Lemma trailing_slash_gives_full_paths_witness :
  ∃ r info,
    walk no_scripts appicon_walker (Some (Resolved example_tree))
      "/app/Resources/" "/build" None None None = Resolved r
    ∧ field F_jsFiles r !! "/app/Resources/app.js" = Some info
    ∧ "/app/Resources/app.js"%string = info_src info.
Proof.
  assert (∃ r info,
            walk no_scripts appicon_walker (Some (Resolved example_tree))
              "/app/Resources/" "/build" None None None = Resolved r
            ∧ field F_jsFiles r !! "/app/Resources/app.js" = Some info)
    as (r & info & Hr & He).
  { do 2 eexists. split; [vm_compute; reflexivity | by vm_compute]. }
  exists r, info. split; [done|]. split; [done|].
  exact (proj1 (trailing_slash_gives_full_paths no_scripts appicon_walker example_tree
                  "/app/Resources" "/build" None r F_jsFiles "/app/Resources/app.js" info
                  normal_path_Resources WellFormed_example_tree Hr He)).
Defined.

(** ** The files that a walk classifies, as a list *)

Lemma files_cons this ignore d listing src dest origSrc :
  files this ignore (d :: listing) src dest origSrc
  = files_entry this ignore d src dest origSrc ++ files this ignore listing src dest origSrc.
Proof. done. Qed.

Lemma files_app this ignore l1 l2 src dest origSrc :
  files this ignore (l1 ++ l2) src dest origSrc
  = files this ignore l1 src dest origSrc ++ files this ignore l2 src dest origSrc.
Proof. apply bind_app. Qed.

Lemma files_entry_is_file this ignore d name src dest origSrc :
  is_file d name →
  files_entry this ignore d src dest origSrc
  = if opt_test ignore name then []
    else if opt_test (ignoreFiles this) name then [] else [(name, src, dest, origSrc)].
Proof. by intros [-> | ->]. Qed.

Lemma files_entry_enters this ignore d name readdir src dest origSrc :
  enters d name readdir →
  files_entry this ignore d src dest origSrc
  = if opt_test ignore name then []
    else if opt_test (ignoreDirs this) name then []
    else match readdir with
         | Rejected _ => []
         | Resolved sub =>
             files this None sub (path_join src name) (path_join dest name)
               (Some (or_else origSrc src))
         end.
Proof. by intros [-> | ->]. Qed.

Lemma files_entry_stat_failed this ignore name e src dest origSrc :
  files_entry this ignore (Dirent_link name (Rejected e)) src dest origSrc = [].
Proof. cbn. by destruct (opt_test ignore name). Qed.

Lemma Dirent_cases (d : Dirent) :
  (∃ name, is_file d name) ∨ (∃ name readdir, enters d name readdir)
  ∨ ∃ name e, d = Dirent_link name (Rejected e).
Proof.
  destruct d as [name|name readdir|name [[|readdir]|e]].
  - left. exists name. by left.
  - right. left. exists name, readdir. by left.
  - left. exists name. by right.
  - right. left. exists name, readdir. by right.
  - right. right. by exists name, e.
Qed.

Lemma Visits_files this ignore listing src dest origSrc f :
  Visits this ignore listing src dest origSrc f → f ∈ files this ignore listing src dest origSrc.
Proof.
  induction 1 as [ignore listing src dest origSrc d name Hin Hd Hign Hfiles
                 |ignore listing src dest origSrc d name sub f Hin Hd Hign Hdirs _ IH];
    apply list_elem_of_bind; exists d; (split; [|done]).
  - rewrite (files_entry_is_file _ _ _ name) by done. rewrite Hign, Hfiles.
    apply list_elem_of_here.
  - rewrite (files_entry_enters _ _ _ name (Resolved sub)) by done. by rewrite Hign, Hdirs.
Qed.

Lemma files_Visits_entry this d :
  ∀ ignore src dest origSrc f,
    f ∈ files_entry this ignore d src dest origSrc →
    ∀ l, d ∈ l → Visits this ignore l src dest origSrc f.
Proof.
  induction d as [name | name readdir IH | name stat IH] using Dirent_tree_ind;
    intros ignore src dest origSrc f.
  - rewrite (files_entry_is_file _ _ _ name) by (by left).
    destruct (opt_test ignore name) eqn:Hign; [by intros ?%elem_of_nil|].
    destruct (opt_test (ignoreFiles this) name) eqn:Hfiles; [by intros ?%elem_of_nil|].
    intros ->%list_elem_of_singleton l Hl. eapply Visits_file; [done | by left | done..].
  - rewrite (files_entry_enters _ _ _ name readdir) by (by left).
    destruct (opt_test ignore name) eqn:Hign; [by intros ?%elem_of_nil|].
    destruct (opt_test (ignoreDirs this) name) eqn:Hdirs; [by intros ?%elem_of_nil|].
    destruct readdir as [sub|e]; [|by intros ?%elem_of_nil].
    intros (d' & Hf & Hd')%list_elem_of_bind l Hl.
    eapply Visits_below; [done | by left | done..|].
    specialize (IH sub eq_refl). rewrite Forall_forall in IH. by eapply IH.
  - destruct stat as [[|readdir]|e].
    + rewrite (files_entry_is_file _ _ _ name) by (by right).
      destruct (opt_test ignore name) eqn:Hign; [by intros ?%elem_of_nil|].
      destruct (opt_test (ignoreFiles this) name) eqn:Hfiles; [by intros ?%elem_of_nil|].
      intros ->%list_elem_of_singleton l Hl. eapply Visits_file; [done | by right | done..].
    + rewrite (files_entry_enters _ _ _ name readdir) by (by right).
      destruct (opt_test ignore name) eqn:Hign; [by intros ?%elem_of_nil|].
      destruct (opt_test (ignoreDirs this) name) eqn:Hdirs; [by intros ?%elem_of_nil|].
      destruct readdir as [sub|e]; [|by intros ?%elem_of_nil].
      intros (d' & Hf & Hd')%list_elem_of_bind l Hl.
      eapply Visits_below; [done | by right | done..|].
      specialize (IH sub eq_refl). rewrite Forall_forall in IH. by eapply IH.
    + rewrite files_entry_stat_failed. by intros ?%elem_of_nil.
Qed.

Lemma files_Visits this ignore listing src dest origSrc f :
  f ∈ files this ignore listing src dest origSrc ↔ Visits this ignore listing src dest origSrc f.
Proof.
  split; [|apply Visits_files].
  intros (d & Hf & Hd)%list_elem_of_bind. by eapply files_Visits_entry.
Qed.

Section FilesOfTheTraversal.

Variable analyzeHtmlFile : string -> string -> list string.
Variable this : Walker.

Lemma classify_ignored prefix results name src dest origSrc :
  opt_test (ignoreFiles this) name = true →
  _visitFile analyzeHtmlFile this results (path_join src name) (path_join dest name) name
    src origSrc prefix = results.
Proof. intros H. unfold _visitFile. by rewrite H. Qed.

Lemma visit_all_files_from listing :
  Forall (fun d =>
            ∀ results src dest ignore origSrc prefix r,
              _visitListing analyzeHtmlFile this results d src dest ignore origSrc prefix
              = Resolved r →
              r = fold_left (classify analyzeHtmlFile this prefix)
                    (files_entry this ignore d src dest origSrc) results) listing →
  ∀ results src dest ignore origSrc prefix r,
    visit_all analyzeHtmlFile this listing results src dest ignore origSrc prefix
    = Resolved r →
    r = fold_left (classify analyzeHtmlFile this prefix)
          (files this ignore listing src dest origSrc) results.
Proof.
  induction 1 as [|d listing Hd _ IH]; intros results src dest ignore origSrc prefix r;
    cbn [visit_all]; [by intros [= <-]|].
  destruct (_visitListing _ _ _ d _ _ _ _ _) as [r1|e] eqn:Hv; [|done].
  intros Hr. rewrite files_cons, fold_left_app, <- (Hd _ _ _ _ _ _ _ Hv). by apply IH.
Qed.

Lemma _visitListing_files d :
  ∀ results src dest ignore origSrc prefix r,
    _visitListing analyzeHtmlFile this results d src dest ignore origSrc prefix
    = Resolved r →
    r = fold_left (classify analyzeHtmlFile this prefix)
          (files_entry this ignore d src dest origSrc) results.
Proof.
  induction d as [name | name readdir IH | name stat IH] using Dirent_tree_ind;
    intros results src dest ignore origSrc prefix r.
  - rewrite _visitListing_file, (files_entry_is_file _ _ _ name) by (by left).
    destruct (opt_test ignore name); [by intros [= <-]|]. intros [= <-].
    destruct (opt_test (ignoreFiles this) name) eqn:Hfiles; [by apply classify_ignored | done].
  - rewrite _visitListing_dir, (files_entry_enters _ _ _ name readdir) by (by left).
    destruct (opt_test ignore name); [by intros [= <-]|].
    destruct (opt_test (ignoreDirs this) name); [by intros [= <-]|].
    destruct readdir as [sub|e]; [|done]. cbn [_walkDir].
    apply visit_all_files_from. by apply IH.
  - rewrite _visitListing_link. destruct stat as [[|readdir]|e].
    + rewrite (files_entry_is_file _ _ _ name) by (by right).
      destruct (opt_test ignore name); [by intros [= <-]|]. intros [= <-].
      destruct (opt_test (ignoreFiles this) name) eqn:Hfiles;
        [by apply classify_ignored | done].
    + rewrite (files_entry_enters _ _ _ name readdir) by (by right).
      destruct (opt_test ignore name); [by intros [= <-]|].
      destruct (opt_test (ignoreDirs this) name); [by intros [= <-]|].
      destruct readdir as [sub|e]; [|done]. cbn [_walkDir].
      apply visit_all_files_from. by apply IH.
    + by destruct (opt_test ignore name); [intros [= <-]; rewrite files_entry_stat_failed|].
Qed.

Lemma visit_all_files listing results src dest ignore origSrc prefix r :
  visit_all analyzeHtmlFile this listing results src dest ignore origSrc prefix
  = Resolved r →
  r = fold_left (classify analyzeHtmlFile this prefix)
        (files this ignore listing src dest origSrc) results.
Proof.
  apply visit_all_files_from. apply Forall_forall. intros d _. apply _visitListing_files.
Qed.

End FilesOfTheTraversal.

(** ** The failures that a walk meets *)

Lemma Meets_nil this ignore e : ¬ Meets this ignore [] e.
Proof. inversion 1 as [? ? ? ? Hin|? ? ? ? ? Hin|? ? ? ? ? ? Hin]; by apply elem_of_nil in Hin. Qed.

Lemma Meets_cons this ignore d listing e :
  Meets this ignore (d :: listing) e ↔ Meets this ignore [d] e ∨ Meets this ignore listing e.
Proof.
  split.
  - inversion 1 as [? ? name ? Hin|? ? d0 name ? Hin|? ? d0 name sub ? Hin]; subst;
      apply elem_of_cons in Hin as [Heq|Hin]; subst.
    + left. eapply Meets_stat; [apply list_elem_of_here | done].
    + right. by eapply Meets_stat.
    + left. eapply Meets_readdir; [apply list_elem_of_here | done..].
    + right. by eapply Meets_readdir.
    + left. eapply Meets_below; [apply list_elem_of_here | done..].
    + right. by eapply Meets_below.
  - intros [H|H];
      inversion H as [? ? name ? Hin|? ? d0 name ? Hin|? ? d0 name sub ? Hin]; subst.
    + apply list_elem_of_singleton in Hin. eapply Meets_stat; [|done].
      rewrite Hin. apply list_elem_of_here.
    + apply list_elem_of_singleton in Hin as ->.
      eapply Meets_readdir; [apply list_elem_of_here | done..].
    + apply list_elem_of_singleton in Hin as ->.
      eapply Meets_below; [apply list_elem_of_here | done..].
    + eapply Meets_stat; [by apply list_elem_of_further | done].
    + eapply Meets_readdir; [by apply list_elem_of_further | done..].
    + eapply Meets_below; [by apply list_elem_of_further | done..].
Qed.

Lemma Meets_is_file this ignore d name e : is_file d name → ¬ Meets this ignore [d] e.
Proof.
  intros Hd.
  inversion 1 as [? ? name' ? Hin|? ? d0 name' ? Hin Hent|? ? d0 name' sub ? Hin Hent]; subst;
    apply list_elem_of_singleton in Hin; subst.
  - by destruct Hd.
  - by destruct Hd as [-> | ->], Hent.
  - by destruct Hd as [-> | ->], Hent.
Qed.

Lemma Meets_enters this ignore d name readdir e :
  enters d name readdir →
  Meets this ignore [d] e
  ↔ opt_test ignore name = false ∧ opt_test (ignoreDirs this) name = false
    ∧ Failure this None readdir e.
Proof.
  intros Hd. split.
  - inversion 1 as [? ? name' ? Hin|? ? d0 name' ? Hin Hent|? ? d0 name' sub ? Hin Hent];
      subst; apply list_elem_of_singleton in Hin; subst.
    + by destruct Hd.
    + destruct Hd as [-> | ->], Hent as [Heq|Heq]; by simplify_eq.
    + destruct Hd as [-> | ->], Hent as [Heq|Heq]; by simplify_eq.
  - intros (Hign & Hdirs & Hf). destruct readdir as [sub|e']; cbn [Failure] in Hf.
    + eapply Meets_below; [apply list_elem_of_here | done..].
    + subst e'. eapply Meets_readdir; [apply list_elem_of_here | done..].
Qed.

Lemma Meets_stat_failed this ignore name e0 e :
  Meets this ignore [Dirent_link name (Rejected e0)] e
  ↔ opt_test ignore name = false ∧ e0 = e.
Proof.
  split.
  - inversion 1 as [? ? name' ? Hin|? ? d0 name' ? Hin Hent|? ? d0 name' sub ? Hin Hent];
      subst; apply list_elem_of_singleton in Hin; subst.
    + by injection Hin as <- <-.
    + by destruct Hent.
    + by destruct Hent.
  - intros [Hign ->]. eapply Meets_stat; [apply list_elem_of_here | done].
Qed.

Lemma Meets_Fails this ignore listing :
  Fails this ignore listing ↔ ∃ e, Meets this ignore listing e.
Proof.
  split.
  - induction 1 as [ignore listing name e Hin Hign
                   |ignore listing d name e Hin Hd Hign Hdirs
                   |ignore listing d name sub Hin Hd Hign Hdirs _ [e IH]].
    + exists e. by eapply Meets_stat.
    + exists e. by eapply Meets_readdir.
    + exists e. by eapply Meets_below.
  - intros [e H].
    induction H as [ignore listing name e Hin Hign
                   |ignore listing d name e Hin Hd Hign Hdirs
                   |ignore listing d name sub e Hin Hd Hign Hdirs _ IH].
    + by eapply Fails_stat.
    + by eapply Fails_readdir.
    + by eapply Fails_below.
Qed.

(** ** The steps of the event loop *)

Section EventLoop.

Variable analyzeHtmlFile : string -> string -> list string.
Variable this : Walker.

Lemma Step_nothing prefix results :
  Step analyzeHtmlFile this prefix [] (fun _ => False) 0 results results [].
Proof.
  split; [by exists []|]. split; [done|]. split; [|done].
  intros e. split; [done|]. by intros (p & ?%elem_of_nil & _).
Qed.

Lemma Step_weaken prefix all fails fails' budget budget' results results' started :
  (∀ e, fails e ↔ fails' e) → budget ≤ budget' →
  Step analyzeHtmlFile this prefix all fails budget results results' started →
  Step analyzeHtmlFile this prefix all fails' budget' results results' started.
Proof.
  intros Hf Hb (Hnow & Hpre & Hfails & Hbudget). split; [done|]. split; [done|]. split.
  - intros e. by rewrite <- Hf.
  - lia.
Qed.

Lemma Step_enter prefix results readdir name src dest origSrc :
  Step analyzeHtmlFile this prefix
    (if opt_test (ignoreDirs this) name then []
     else match readdir with
          | Rejected _ => []
          | Resolved sub =>
              files this None sub (path_join src name) (path_join dest name)
                (Some (or_else origSrc src))
          end)
    (fun e => opt_test (ignoreDirs this) name = false ∧ Failure this None readdir e)
    (Async.operations_below readdir)
    results
    (Async.enter this results readdir name src dest origSrc prefix).1
    (Async.enter this results readdir name src dest origSrc prefix).2.
Proof.
  unfold Async.enter. destruct (opt_test (ignoreDirs this) name); cbn [fst snd].
  - eapply Step_weaken; [| |apply Step_nothing]; [|lia]. intros e. split; [done|]. by intros [? _].
  - split; [exists []; split; [done|]|].
    { cbn [app]. rewrite bind_singleton. by destruct readdir. }
    split; [by repeat constructor|]. split.
    + intros e. split.
      * intros [_ Hf]. eexists. split; [apply list_elem_of_here | done].
      * intros (p & ->%list_elem_of_singleton & Hp). done.
    + cbn. lia.
Qed.

Lemma Step_visit prefix results d src dest ignore origSrc :
  Step analyzeHtmlFile this prefix (files_entry this ignore d src dest origSrc)
    (Meets this ignore [d]) (Async.operations d) results
    (Async._visitListing analyzeHtmlFile this results d src dest ignore origSrc prefix).1
    (Async._visitListing analyzeHtmlFile this results d src dest ignore origSrc prefix).2.
Proof.
  unfold Async._visitListing.
  destruct (opt_test ignore (dirent_name d)) eqn:Hign.
  { cbn [fst snd].
    assert (files_entry this ignore d src dest origSrc = []) as ->.
    { destruct (Dirent_cases d) as [[name Hd]|[(name & readdir & Hd)|(name & e & ->)]].
      - rewrite (files_entry_is_file _ _ _ name) by done.
        destruct Hd as [-> | ->]; cbn in Hign; by rewrite Hign.
      - rewrite (files_entry_enters _ _ _ name readdir) by done.
        destruct Hd as [-> | ->]; cbn in Hign; by rewrite Hign.
      - apply files_entry_stat_failed. }
    eapply Step_weaken; [| |apply Step_nothing]; [|lia].
    intros e. split; [done|].
    destruct (Dirent_cases d) as [[name Hd]|[(name & readdir & Hd)|(name & e0 & ->)]].
    - by intros ?%(Meets_is_file _ _ _ name).
    - intros (Hc & _)%(Meets_enters _ _ _ name readdir); [|done].
      destruct Hd as [-> | ->]; cbn in Hign; congruence.
    - intros [Hc _]%Meets_stat_failed. cbn in Hign. congruence. }
  destruct d as [name|name readdir|name stat]; cbn [dirent_name fst snd] in *.
  - split; [|split; [done|split]].
    + exists (files_entry this ignore (Dirent_file name) src dest origSrc).
      rewrite app_nil_r. split; [|done].
      rewrite (files_entry_is_file _ _ _ name), Hign by (by left).
      destruct (opt_test (ignoreFiles this) name) eqn:Hfiles; [|done].
      unfold _visitFile. by rewrite Hfiles.
    + intros e. split; [by intros ?%(Meets_is_file _ _ _ name); [|left]|].
      by intros (p & ?%elem_of_nil & _).
    + cbn. lia.
  - rewrite (files_entry_enters _ _ _ name readdir), Hign by (by left).
    eapply Step_weaken; [| |apply Step_enter]; [|done].
    intros e. rewrite (Meets_enters _ _ _ name readdir) by (by left). rewrite Hign.
    tauto.
  - split; [exists []; split; [done|]|].
    { cbn [app]. rewrite bind_singleton. cbn [files_pending]. unfold files.
      rewrite bind_singleton. cbn. by rewrite Hign. }
    split; [by repeat constructor|]. split.
    + intros e. split.
      * intros Hm. eexists. split; [apply list_elem_of_here|]. cbn [Meets_pending].
        destruct stat as [[|readdir]|e0].
        -- by apply (Meets_is_file _ _ _ name) in Hm; [|right].
        -- apply (Meets_enters _ _ _ name readdir) in Hm as (_ & Hm); [|by right].
           by apply (Meets_enters _ _ _ name readdir); [right|].
        -- apply Meets_stat_failed in Hm as [_ ->]. by apply Meets_stat_failed.
      * intros (p & ->%list_elem_of_singleton & Hm). cbn [Meets_pending] in Hm.
        destruct stat as [[|readdir]|e0].
        -- by apply (Meets_is_file _ _ _ name) in Hm; [|right].
        -- apply (Meets_enters _ _ _ name readdir) in Hm as (_ & Hm); [|by right].
           by apply (Meets_enters _ _ _ name readdir); [right|].
        -- apply Meets_stat_failed in Hm as [_ ->]. by apply Meets_stat_failed.
    + cbn [sum_list_with operations_pending]. lia.
Qed.

Lemma Step_then prefix all1 all2 fails1 fails2 budget1 budget2 results r1 r2 st1 st2 :
  Step analyzeHtmlFile this prefix all1 fails1 budget1 results r1 st1 →
  Step analyzeHtmlFile this prefix all2 fails2 budget2 r1 r2 st2 →
  Step analyzeHtmlFile this prefix (all1 ++ all2) (fun e => fails1 e ∨ fails2 e) (budget1 + budget2)
    results r2 (st1 ++ st2).
Proof.
  intros ((now1 & -> & Ha1) & Hp1 & Hf1 & Hb1) ((now2 & -> & Ha2) & Hp2 & Hf2 & Hb2).
  split; [exists (now1 ++ now2); split; [by rewrite fold_left_app|]|].
  { rewrite Ha1, Ha2, bind_app. solve_Permutation. }
  split; [by apply Forall_app|]. split.
  - intros e. rewrite Hf1, Hf2. split.
    + intros [(p & Hp & Hm)|(p & Hp & Hm)]; exists p; (split; [|done]);
        apply elem_of_app; auto.
    + intros (p & [Hp|Hp]%elem_of_app & Hm); [left|right]; by exists p.
  - rewrite sum_list_with_app. lia.
Qed.

Lemma Step_start_all prefix listing :
  ∀ results src dest ignore origSrc,
    Step analyzeHtmlFile this prefix (files this ignore listing src dest origSrc) (Meets this ignore listing)
      (sum_list_with Async.operations listing) results
      (Async.start_all analyzeHtmlFile this listing results src dest ignore origSrc prefix).1
      (Async.start_all analyzeHtmlFile this listing results src dest ignore origSrc prefix).2.
Proof.
  induction listing as [|d listing IH]; intros results src dest ignore origSrc.
  - eapply Step_weaken; [| |apply Step_nothing]; [|done].
    intros e. split; [done | apply Meets_nil].
  - cbn [Async.start_all].
    pose proof (Step_visit prefix results d src dest ignore origSrc) as Hd.
    destruct (Async._visitListing _ _ results d _ _ _ _ _) as [r1 st1]. cbn [fst snd] in Hd.
    specialize (IH r1 src dest ignore origSrc).
    destruct (Async.start_all _ _ listing r1 _ _ _ _ _) as [r2 st2]. cbn [fst snd] in *.
    rewrite files_cons. eapply Step_weaken; [| |by eapply Step_then]; [|done].
    intros e. cbn beta. by rewrite (Meets_cons _ _ d listing).
Qed.

Lemma operations_pending_pos p : 0 < operations_pending p.
Proof. destruct p as [[[|[?|?]]|?]|[?|?]]; cbn; lia. Qed.

Lemma resume_rejected results p e :
  Async.resume analyzeHtmlFile this results p = Rejected e → Meets_pending this p e.
Proof.
  destruct p as [stat name src dest origSrc prefix|readdir src dest ignore origSrc prefix];
    cbn [Async.resume Meets_pending].
  - destruct stat as [[|readdir]|e0]; [done..|]. intros [= ->]. by apply Meets_stat_failed.
  - destruct readdir as [listing|e0]; [done|]. by intros [= ->].
Qed.

Lemma Step_resume results p results' started :
  Async.resume analyzeHtmlFile this results p = Resolved (results', started) →
  Step analyzeHtmlFile this (prefix_of p) (files_pending this p) (Meets_pending this p)
    (pred (operations_pending p)) results results' started.
Proof.
  destruct p as [stat name src dest origSrc prefix|readdir src dest ignore origSrc prefix];
    cbn [Async.resume Meets_pending prefix_of files_pending operations_pending].
  - unfold files. rewrite bind_singleton.
    destruct stat as [[|readdir]|e0]; [| |done].
    + intros [= <- <-]. split; [|split; [done|split]].
      * exists (files_entry this None (Dirent_link name (Resolved Stats_file)) src dest origSrc).
        rewrite app_nil_r. split; [|done].
        rewrite (files_entry_is_file _ _ _ name) by (by right). cbn [opt_test].
        destruct (opt_test (ignoreFiles this) name) eqn:Hfiles; [|done].
        unfold _visitFile. by rewrite Hfiles.
      * intros e. split; [by intros ?%(Meets_is_file _ _ _ name); [|right]|].
        by intros (p & ?%elem_of_nil & _).
      * cbn. lia.
    + intros Heq.
      pose proof (Step_enter prefix results readdir name src dest origSrc) as Hs.
      rewrite (surjective_pairing (Async.enter _ _ _ _ _ _ _ _)) in Heq.
      injection Heq as <- <-.
      rewrite (files_entry_enters _ _ _ name readdir) by (by right). cbn [opt_test].
      eapply Step_weaken; [| |exact Hs]; [|destruct readdir; cbn; lia].
      intros e. cbn [Meets_pending].
      rewrite (Meets_enters _ _ _ name readdir) by (by right). cbn [opt_test]. tauto.
  - destruct readdir as [listing|e0]; [|done]. intros Heq.
    pose proof (Step_start_all prefix listing results src dest ignore origSrc) as Hs.
    rewrite (surjective_pairing (Async.start_all _ _ _ _ _ _ _ _ _)) in Heq.
    injection Heq as <- <-. exact Hs.
Qed.

(** One turn of the event loop. *)
Lemma run_turn fuel schedule results queue :
  queue ≠ [] →
  ∃ i p,
    queue !! i = Some p
    ∧ Async.run analyzeHtmlFile this (S fuel) schedule results queue
      = match Async.resume analyzeHtmlFile this results p with
        | Rejected e => Some (Rejected e)
        | Resolved (results', started) =>
            Async.run analyzeHtmlFile this fuel (tl schedule) results'
              (delete i queue ++ started)
        end.
Proof.
  intros Hne. destruct queue as [|first queue]; [done|].
  set (q := first :: queue). set (i := hd 0 schedule mod length q).
  assert (i < length q) as Hi by (apply Nat.mod_upper_bound; by cbn).
  destruct (lookup_lt_is_Some_2 q i Hi) as [p Hp].
  exists i, p. split; [done|].
  change (Async.run analyzeHtmlFile this (S fuel) schedule results q)
    with (match Async.resume analyzeHtmlFile this results (nth i q first) with
          | Rejected e => Some (Rejected e)
          | Resolved (results', started) =>
              Async.run analyzeHtmlFile this fuel (tl schedule) results'
                (delete i q ++ started)
          end).
  by rewrite (nth_lookup_Some _ _ _ _ Hp).
Qed.

Lemma operations_delete (queue : list Async.pending) i p :
  queue !! i = Some p →
  sum_list_with operations_pending queue
  = operations_pending p + sum_list_with operations_pending (delete i queue).
Proof.
  intros Hp. apply delete_Permutation in Hp.
  assert (∀ l l' : list Async.pending, l ≡ₚ l' →
            sum_list_with operations_pending l = sum_list_with operations_pending l')
    as Hperm.
  { induction 1; cbn; lia. }
  by rewrite (Hperm _ _ Hp).
Qed.

(** The event loop comes to an end within the operations of its queue. *)
Lemma run_settles fuel :
  ∀ schedule results queue,
    sum_list_with operations_pending queue ≤ fuel →
    ∃ o, Async.run analyzeHtmlFile this fuel schedule results queue = Some o.
Proof.
  induction fuel as [|fuel IH]; intros schedule results queue Hfuel.
  - destruct queue as [|p queue]; [by eexists|].
    pose proof (operations_pending_pos p). cbn in Hfuel. lia.
  - destruct queue as [|first queue]; [by eexists|].
    destruct (run_turn fuel schedule results (first :: queue)) as (i & p & Hp & ->); [done|].
    destruct (Async.resume _ _ results p) as [[results' started]|e] eqn:Hres; [|by eexists].
    apply IH. apply Step_resume in Hres as (_ & _ & _ & Hb).
    rewrite sum_list_with_app. rewrite (operations_delete _ i p Hp) in Hfuel.
    pose proof (operations_pending_pos p). lia.
Qed.

(** A walk that resolves has classified the files of its queue, each
    once, in some order. *)
Lemma run_trace prefix fuel :
  ∀ schedule results queue r,
    Forall (fun p => prefix_of p = prefix) queue →
    Async.run analyzeHtmlFile this fuel schedule results queue = Some (Resolved r) →
    ∃ trace,
      trace ≡ₚ queue ≫= files_pending this
      ∧ r = fold_left (classify analyzeHtmlFile this prefix) trace results.
Proof.
  induction fuel as [|fuel IH]; intros schedule results queue r Hpre.
  - destruct queue; [|done]. intros [= <-]. by exists [].
  - destruct queue as [|first queue]; [intros [= <-]; by exists []|].
    destruct (run_turn fuel schedule results (first :: queue)) as (i & p & Hp & ->); [done|].
    destruct (Async.resume _ _ results p) as [[results' started]|e] eqn:Hres; [|done].
    intros Hrun.
    assert (prefix_of p = prefix) as Hpp.
    { rewrite Forall_forall in Hpre. eapply Hpre, list_elem_of_lookup_2, Hp. }
    apply Step_resume in Hres as ((now & -> & Hall) & Hst & _). rewrite Hpp in *.
    pose proof (delete_Permutation _ _ _ Hp) as Hq.
    assert (Forall (fun p => prefix_of p = prefix) (delete i (first :: queue) ++ started))
      as Hpre'.
    { apply Forall_app. split; [|done]. rewrite Hq in Hpre. by inversion Hpre. }
    destruct (IH _ _ _ _ Hpre' Hrun) as (trace & Htrace & ->).
    exists (now ++ trace). split; [|by rewrite fold_left_app].
    rewrite Htrace. set (rest := delete i (first :: queue)) in *.
    rewrite Hq, bind_app, bind_cons, Hall. solve_Permutation.
Qed.

(** A walk is rejected with the error of a failure of its queue. *)
Lemma run_rejected fuel :
  ∀ schedule results queue e,
    Async.run analyzeHtmlFile this fuel schedule results queue = Some (Rejected e) →
    ∃ p, p ∈ queue ∧ Meets_pending this p e.
Proof.
  induction fuel as [|fuel IH]; intros schedule results queue e.
  - by destruct queue.
  - destruct queue as [|first queue]; [done|].
    destruct (run_turn fuel schedule results (first :: queue)) as (i & p & Hp & ->); [done|].
    destruct (Async.resume _ _ results p) as [[results' started]|e0] eqn:Hres.
    + intros (p' & Hin & Hm)%IH.
      apply Step_resume in Hres as (_ & _ & Hfails & _).
      apply elem_of_app in Hin as [Hin|Hin].
      * exists p'. split; [by eapply list_elem_of_delete_inv | done].
      * exists p. split; [by eapply list_elem_of_lookup_2|]. apply Hfails. by exists p'.
    + intros [= ->]. exists p. split; [by eapply list_elem_of_lookup_2|].
      by apply resume_rejected in Hres.
Qed.

(** A walk whose queue holds a failure does not resolve. *)
Lemma run_resolved fuel :
  ∀ schedule results queue r p e,
    Async.run analyzeHtmlFile this fuel schedule results queue = Some (Resolved r) →
    p ∈ queue → ¬ Meets_pending this p e.
Proof.
  induction fuel as [|fuel IH]; intros schedule results queue r p0 e.
  - destruct queue; [|done]. by intros _ ?%elem_of_nil.
  - destruct queue as [|first queue]; [by intros _ ?%elem_of_nil|].
    destruct (run_turn fuel schedule results (first :: queue)) as (i & p & Hp & ->); [done|].
    destruct (Async.resume _ _ results p) as [[results' started]|e0] eqn:Hres; [|done].
    intros Hrun Hin Hm.
    apply Step_resume in Hres as (_ & _ & Hfails & _).
    rewrite (delete_Permutation _ _ _ Hp) in Hin.
    apply elem_of_cons in Hin as [->|Hin].
    + apply Hfails in Hm as (p' & Hp' & Hm).
      apply (IH _ _ _ _ p' e Hrun); [|done]. apply elem_of_app. by right.
    + apply (IH _ _ _ _ p0 e Hrun); [|done]. apply elem_of_app. by left.
Qed.

End EventLoop.

(** ** The order of the visits *)

Section OrderOfTheVisits.

Variable analyzeHtmlFile : string -> string -> list string.
Variable this : Walker.

Lemma classify_merge prefix results f :
  classify analyzeHtmlFile this prefix results f
  = merge [results; classified analyzeHtmlFile this prefix f].
Proof. apply _visitFile_merge. Qed.

(** The visits of two files that are recorded under different paths can
    be exchanged. *)
Lemma classify_swap prefix results f f' :
  key_of prefix f ≠ key_of prefix f' →
  classify analyzeHtmlFile this prefix (classify analyzeHtmlFile this prefix results f) f'
  = classify analyzeHtmlFile this prefix (classify analyzeHtmlFile this prefix results f') f.
Proof.
  intros Hne. rewrite (classify_merge _ (classify _ _ _ _ f)), (classify_merge _ results f).
  rewrite (classify_merge _ (classify _ _ _ _ f')), (classify_merge _ results f').
  apply merge_swap. intros key. apply map_disjoint_spec. intros p x y Hx Hy.
  apply classified_entry in Hx as [Hx _]. apply classified_entry in Hy as [Hy _].
  apply Hne. unfold key_of. congruence.
Qed.

Lemma fold_classify_perm prefix l l' :
  l ≡ₚ l' →
  NoDup (key_of prefix <$> l) →
  ∀ results,
    fold_left (classify analyzeHtmlFile this prefix) l results
    = fold_left (classify analyzeHtmlFile this prefix) l' results.
Proof.
  induction 1 as [|x l l' Hp IH|x y l|l l' l'' Hp1 IH1 Hp2 IH2]; intros Hnd results.
  - done.
  - cbn [fold_left]. apply IH. rewrite fmap_cons in Hnd. by apply NoDup_cons in Hnd as [_ ?].
  - cbn [fold_left]. f_equal. apply classify_swap.
    rewrite !fmap_cons in Hnd. apply NoDup_cons in Hnd as [Hy _].
    intros Heq. apply Hy. rewrite Heq. apply list_elem_of_here.
  - rewrite IH1 by done. apply IH2. by rewrite <- Hp1.
Qed.

End OrderOfTheVisits.

(** ** The paths of the files of a tree *)

Section KeysOfTheFiles.

Variable this : Walker.
Variable root : string.
Hypothesis root_not_empty : root ≠ EmptyString.

Lemma keyed_all listing :
  Forall (keyed this root) listing →
  ∀ dir dest ignore origSrc u,
    normal_path dir →
    or_else origSrc dir = root →
    dir +:+ "/" = root +:+ String "/" u →
    WellFormed listing →
    (∀ f, f ∈ files this ignore listing dir dest origSrc →
          ∃ d y, d ∈ listing ∧ under (dirent_name d) y ∧ key_of None f = u +:+ y)
    ∧ NoDup (key_of None <$> files this ignore listing dir dest origSrc).
Proof.
  induction 1 as [|d listing Hd _ IH]; intros dir dest ignore origSrc u Hdir Horig Hu Hwf.
  - split; [by intros f ?%elem_of_nil | apply NoDup_nil_2].
  - apply WellFormed_cons_inv in Hwf as (Hwf & Hvalid & Hfresh & Hsub).
    destruct (Hd dir dest ignore origSrc u Hdir Horig Hu Hvalid Hsub) as [Hk1 Hn1].
    destruct (IH dir dest ignore origSrc u Hdir Horig Hu Hwf) as [Hk2 Hn2].
    rewrite files_cons. split.
    + intros f [Hf|Hf]%elem_of_app.
      * destruct (Hk1 f Hf) as (y & Hy & Hkey). exists d, y.
        split; [apply list_elem_of_here | done].
      * destruct (Hk2 f Hf) as (d' & y & Hd' & Hy & Hkey). exists d', y.
        split; [by apply list_elem_of_further | done].
    + rewrite fmap_app. apply NoDup_app. split; [done|]. split; [|done].
      intros p (f1 & -> & Hf1)%list_elem_of_fmap (f2 & Heq & Hf2)%list_elem_of_fmap.
      destruct (Hk1 f1 Hf1) as (y1 & Hy1 & Hkey1).
      destruct (Hk2 f2 Hf2) as (d2 & y2 & Hd2 & Hy2 & Hkey2).
      rewrite Hkey1, Hkey2 in Heq. apply (inj (String.app u)) in Heq. subst y2.
      apply Hfresh. apply list_elem_of_fmap. exists d2. split; [|done].
      apply WellFormed_inv in Hwf as (_ & Hvalid2 & _).
      eapply under_disjoint; [| |done..].
      * by destruct Hvalid as (_ & _ & _ & ?).
      * by destruct (Hvalid2 d2 Hd2) as (_ & _ & _ & ?).
Qed.

Lemma keyed_file d name :
  is_file d name → keyed this root d.
Proof.
  intros Hd dir dest ignore origSrc u Hdir Horig Hu Hname _.
  assert (dirent_name d = name) as Hdn by (by destruct Hd as [-> | ->]).
  rewrite Hdn in *. rewrite (files_entry_is_file _ _ _ name) by done.
  destruct (opt_test ignore name); [split; [by intros f ?%elem_of_nil | apply NoDup_nil_2]|].
  destruct (opt_test (ignoreFiles this) name);
    [split; [by intros f ?%elem_of_nil | apply NoDup_nil_2]|].
  split.
  - intros f ->%list_elem_of_singleton. exists name. split; [by left|].
    unfold key_of. cbn [fst snd].
    destruct (path_join_normal dir name Hdir Hname) as [-> _].
    replace (dir +:+ String "/" name) with ((dir +:+ "/") +:+ name)
      by (by rewrite str_app_assoc).
    rewrite Hu, str_app_assoc, str_app_cons. by apply relative_path_below.
  - apply NoDup_singleton.
Qed.

Lemma keyed_enters d name readdir :
  enters d name readdir →
  (∀ sub, readdir = Resolved sub → Forall (keyed this root) sub) →
  keyed this root d.
Proof.
  intros Hd IH dir dest ignore origSrc u Hdir Horig Hu Hname Hsub.
  assert (dirent_name d = name) as Hdn by (by destruct Hd as [-> | ->]).
  rewrite Hdn in *. rewrite (files_entry_enters _ _ _ name readdir) by done.
  destruct (opt_test ignore name); [split; [by intros f ?%elem_of_nil | apply NoDup_nil_2]|].
  destruct (opt_test (ignoreDirs this) name);
    [split; [by intros f ?%elem_of_nil | apply NoDup_nil_2]|].
  destruct readdir as [sub|e]; [|split; [by intros f ?%elem_of_nil | apply NoDup_nil_2]].
  destruct (path_join_normal dir name Hdir Hname) as [Hjoin Hdir'].
  assert ((dir +:+ String "/" name) +:+ "/"
          = root +:+ String "/" (u +:+ name +:+ "/")) as Hu'.
  { replace (dir +:+ String "/" name) with ((dir +:+ "/") +:+ name)
      by (by rewrite str_app_assoc).
    rewrite Hu. by str_norm. }
  assert (or_else (Some (or_else origSrc dir)) (dir +:+ String "/" name) = root) as Horig'.
  { rewrite Horig. simpl. by destruct (String.eqb_spec root ""). }
  rewrite Hjoin.
  destruct (keyed_all sub (IH sub eq_refl) (dir +:+ String "/" name) (path_join dest name)
              None (Some (or_else origSrc dir)) (u +:+ name +:+ "/") Hdir' Horig' Hu'
              (Hsub name sub Hd)) as [Hk Hn].
  split; [|done].
  intros f Hf. destruct (Hk f Hf) as (d' & y & _ & _ & Hkey).
  exists (name +:+ String "/" y). split; [right; by exists y|].
  rewrite Hkey. by str_norm.
Qed.

Lemma keyed_tree d : keyed this root d.
Proof.
  induction d as [name | name readdir IH | name stat IH] using Dirent_tree_ind.
  - apply (keyed_file _ name). by left.
  - apply (keyed_enters _ name readdir); [by left | done].
  - destruct stat as [[|readdir]|e].
    + apply (keyed_file _ name). by right.
    + apply (keyed_enters _ name readdir); [by right|].
      intros sub ->. by apply IH.
    + intros dir dest ignore origSrc u _ _ _ _ _. rewrite files_entry_stat_failed.
      split; [by intros f ?%elem_of_nil | apply NoDup_nil_2].
Qed.

Lemma files_NoDup listing dir dest ignore origSrc u :
  normal_path dir →
  or_else origSrc dir = root →
  dir +:+ "/" = root +:+ String "/" u →
  WellFormed listing →
  NoDup (key_of None <$> files this ignore listing dir dest origSrc).
Proof.
  intros Hdir Horig Hu Hwf.
  assert (Forall (keyed this root) listing) as Hall
    by (apply Forall_forall; intros d _; apply keyed_tree).
  by destruct (keyed_all listing Hall dir dest ignore origSrc u Hdir Horig Hu Hwf).
Qed.

End KeysOfTheFiles.

(** ** The event loop and the traversal in listing order *)

Section Agreement.

Variable analyzeHtmlFile : string -> string -> list string.
Variable this : Walker.

Lemma walk_settles schedule readdir src dest ignore origSrc prefix :
  ∃ o, Async.walk analyzeHtmlFile this schedule (Some readdir) src dest ignore origSrc prefix
       = Some o.
Proof.
  unfold Async.walk. apply run_settles. cbn [sum_list_with operations_pending]. lia.
Qed.

Lemma walk_trace schedule listing src dest ignore origSrc prefix r :
  Async.walk analyzeHtmlFile this schedule (Some (Resolved listing)) src dest ignore
    origSrc prefix = Some (Resolved r) →
  ∃ trace,
    trace ≡ₚ files this ignore listing src dest origSrc
    ∧ r = fold_left (classify analyzeHtmlFile this prefix) trace Result_new.
Proof.
  unfold Async.walk. intros Hrun.
  apply (run_trace _ _ prefix) in Hrun as (trace & Htrace & ->); [|by repeat constructor].
  exists trace. split; [|done]. by rewrite Htrace, bind_singleton.
Qed.

Lemma walk_rejected schedule readdir src dest ignore origSrc prefix e :
  Async.walk analyzeHtmlFile this schedule (Some readdir) src dest ignore origSrc prefix
  = Some (Rejected e) →
  Failure this ignore readdir e.
Proof.
  unfold Async.walk. by intros (p & ->%list_elem_of_singleton & Hm)%run_rejected.
Qed.

Lemma walk_resolved schedule readdir src dest ignore origSrc prefix r e :
  Async.walk analyzeHtmlFile this schedule (Some readdir) src dest ignore origSrc prefix
  = Some (Resolved r) →
  ¬ Failure this ignore readdir e.
Proof.
  unfold Async.walk. intros Hrun Hf.
  apply (run_resolved _ _ _ _ _ _ _
           (Async.Await_readdir readdir src dest ignore origSrc prefix) e Hrun);
    [apply list_elem_of_here | exact Hf].
Qed.

(** The event loop gives what the traversal in listing order gives. *)
Lemma walk_agrees schedule listing src dest ignore r :
  normal_path src →
  WellFormed listing →
  Async.walk analyzeHtmlFile this schedule (Some (Resolved listing)) src dest ignore
    None None = Some (Resolved r)
  ↔ walk analyzeHtmlFile this (Some (Resolved listing)) src dest ignore None None
    = Resolved r.
Proof.
  intros Hsrc Hwf.
  assert (src ≠ EmptyString) as Hne by (by destruct Hsrc).
  assert (NoDup (key_of None <$> files this ignore listing src dest None)) as Hnd
    by (by apply (files_NoDup this src Hne _ _ _ _ _ EmptyString)).
  assert (∀ r1 r2,
            Async.walk analyzeHtmlFile this schedule (Some (Resolved listing)) src dest
              ignore None None = Some (Resolved r1) →
            walk analyzeHtmlFile this (Some (Resolved listing)) src dest ignore None None
            = Resolved r2 →
            r1 = r2) as Hsame.
  { intros r1 r2 (trace & Htrace & ->)%walk_trace Hseq.
    unfold walk, _walkDir in Hseq. apply visit_all_files in Hseq as ->.
    symmetry. apply fold_classify_perm; [by symmetry | done]. }
  split.
  - intros Hrun.
    destruct (walk analyzeHtmlFile this (Some (Resolved listing)) src dest ignore None None)
      as [r2|e] eqn:Hseq.
    + f_equal. symmetry. by apply Hsame.
    + exfalso. unfold walk, _walkDir in Hseq. apply visit_all_rejected in Hseq.
      apply Meets_Fails in Hseq as [e' Hm].
      by apply (walk_resolved _ _ _ _ _ _ _ _ e' Hrun).
  - intros Hseq.
    destruct (walk_settles schedule (Resolved listing) src dest ignore None None)
      as [[r1|e] Ho].
    + rewrite Ho. do 2 f_equal. by apply Hsame.
    + exfalso. apply walk_rejected in Ho. cbn [Failure] in Ho.
      assert (Fails this ignore listing) as Hf by (apply Meets_Fails; by exists e).
      unfold walk, _walkDir in Hseq.
      destruct (Fails_rejects analyzeHtmlFile _ _ _ Hf Result_new src dest None None)
        as [e' He']. congruence.
Qed.

End Agreement.

(** ** What a walk answers, whatever the order of the answers *)

Lemma Visits_not_ignored this ignore listing src dest origSrc f :
  Visits this ignore listing src dest origSrc f →
  opt_test (ignoreFiles this) f.1.1.1 = false.
Proof. by induction 1. Qed.

Lemma WellFormed_app_inv l1 l2 : WellFormed (l1 ++ l2) → WellFormed l1 ∧ WellFormed l2.
Proof.
  intros (Hnd & Hvalid & Hsub)%WellFormed_inv.
  rewrite fmap_app in Hnd. apply NoDup_app in Hnd as (Hnd1 & _ & Hnd2).
  split; constructor.
  - exact Hnd1.
  - intros d Hd. apply Hvalid, elem_of_app. by left.
  - intros d name sub Hd. apply Hsub, elem_of_app. by left.
  - exact Hnd2.
  - intros d Hd. apply Hvalid, elem_of_app. by right.
  - intros d name sub Hd. apply Hsub, elem_of_app. by right.
Qed.

Section Settled.

Variable analyzeHtmlFile : string -> string -> list string.

Lemma fold_classify_mono this prefix l results p :
  recorded results p →
  recorded (fold_left (classify analyzeHtmlFile this prefix) l results) p.
Proof.
  revert results. induction l as [|f l IH]; intros results Hp; [done|].
  cbn [fold_left]. apply IH. by apply _visitFile_recorded_mono.
Qed.

Lemma fold_classify_records this prefix l results f :
  f ∈ l →
  opt_test (ignoreFiles this) f.1.1.1 = false →
  recorded (fold_left (classify analyzeHtmlFile this prefix) l results) (key_of prefix f).
Proof.
  intros Hin Hign. revert results. induction l as [|f' l IH]; intros results;
    [by apply elem_of_nil in Hin|].
  cbn [fold_left]. apply elem_of_cons in Hin as [<-|Hin]; [|by apply IH].
  apply fold_classify_mono. by apply _visitFile_records.
Qed.

(** C5. [walk] answers an empty Result, without an error, when the root
    does not exist.  For a root that exists, and whatever the order in
    which the file system answers, the walk settles, and a failure
    aborts it: the walk is rejected exactly when it meets a failure (the
    root or a directory that it enters cannot be listed, or the status of
    a link that it does not skip cannot be read), and the error that the
    caller receives is the error of such a failure, unchanged.  A Result
    that the walk answers is complete: nothing failed, and every file
    that the walk has to classify is recorded in it. *)
Theorem walk_complete_or_the_failure (this : Walker) (schedule : list nat)
    (readdir : outcome (list Dirent)) (src dest : string) (ignore : option regex)
    (origSrc prefix : option string) :
  Async.walk analyzeHtmlFile this schedule None src dest ignore origSrc prefix
  = Some (Resolved Result_new) ∧
  (∀ key, field key Result_new = ∅) ∧ htmlJsFiles Result_new = ∅ ∧
  ∃ o,
    Async.walk analyzeHtmlFile this schedule (Some readdir) src dest ignore origSrc prefix
    = Some o ∧
    ((∃ e, Failure this ignore readdir e) ↔ ∃ e', o = Rejected e') ∧
    (∀ e', o = Rejected e' → Failure this ignore readdir e') ∧
    (∀ r,
       o = Resolved r →
       ∃ listing,
         readdir = Resolved listing ∧
         ∀ name dir dest' origSrc',
           Visits this ignore listing src dest origSrc (name, dir, dest', origSrc') →
           recorded r (relative_path (path_join dir name) dir origSrc' prefix)).
Proof.
  split; [done|]. split; [by intros []|]. split; [done|].
  destruct (walk_settles analyzeHtmlFile this schedule readdir src dest ignore origSrc
              prefix) as [o Ho].
  exists o. split; [done|]. split; [split|split].
  - intros [e He]. destruct o as [r|e']; [|by exists e'].
    by apply (walk_resolved _ _ _ _ _ _ _ _ _ _ e) in Ho.
  - intros [e' ->]. exists e'. by eapply walk_rejected.
  - intros e' ->. by eapply walk_rejected.
  - intros r ->. destruct readdir as [listing|e].
    + exists listing. split; [done|]. intros name dir dest' origSrc' Hv.
      apply walk_trace in Ho as (trace & Htrace & ->).
      apply (fold_classify_records this prefix trace Result_new (name, dir, dest', origSrc')).
      * rewrite Htrace. by apply files_Visits.
      * by apply Visits_not_ignored in Hv.
    + by apply (walk_resolved _ _ _ _ _ _ _ _ _ _ e) in Ho.
Qed.

(** X15. The Result of a walk does not depend on the order in which the
    file system answers.  For a root given in normal form, over a tree in
    which the entries of a directory have distinct, valid names, the walk
    on the event loop, under any schedule, answers a Result exactly when
    the traversal in listing order does, and the same one; so two
    schedules give the same Result.  And without any condition, the walk
    is rejected under a schedule exactly when the traversal in listing
    order is rejected. *)
Theorem walk_does_not_depend_on_the_schedule (this : Walker) (listing : list Dirent)
    (src dest : string) (ignore : option regex) (schedule : list nat) :
  normal_path src →
  WellFormed listing →
  (∀ r,
     Async.walk analyzeHtmlFile this schedule (Some (Resolved listing)) src dest ignore
       None None = Some (Resolved r)
     ↔ walk analyzeHtmlFile this (Some (Resolved listing)) src dest ignore None None
       = Resolved r) ∧
  (∀ r schedule',
     Async.walk analyzeHtmlFile this schedule (Some (Resolved listing)) src dest ignore
       None None = Some (Resolved r) →
     Async.walk analyzeHtmlFile this schedule' (Some (Resolved listing)) src dest ignore
       None None = Some (Resolved r)) ∧
  (∀ readdir origSrc prefix,
     (∃ e, Async.walk analyzeHtmlFile this schedule (Some readdir) src dest ignore
             origSrc prefix = Some (Rejected e))
     ↔ ∃ e, walk analyzeHtmlFile this (Some readdir) src dest ignore origSrc prefix
            = Rejected e).
Proof.
  intros Hsrc Hwf. split; [|split].
  - intros r. by apply walk_agrees.
  - intros r schedule' Hr. apply walk_agrees; [done..|]. by apply (walk_agrees _ _ schedule).
  - intros readdir origSrc prefix. split.
    + intros [e He]. apply walk_rejected in He.
      destruct readdir as [l|e0]; [|by exists e0].
      assert (Fails this ignore l) as Hf by (apply Meets_Fails; by exists e).
      unfold walk, _walkDir. by apply Fails_rejects.
    + intros [e He].
      destruct (walk_settles analyzeHtmlFile this schedule readdir src dest ignore origSrc
                  prefix) as [[r|e'] Ho]; [|by exists e'].
      exfalso. destruct readdir as [l|e0].
      * unfold walk, _walkDir in He. apply visit_all_rejected in He.
        apply Meets_Fails in He as [e' Hm].
        by apply (walk_resolved _ _ _ _ _ _ _ _ _ _ e') in Ho.
      * by apply (walk_resolved _ _ _ _ _ _ _ _ _ _ e0) in Ho.
Qed.

(** X23. Under every schedule a walk that answers a Result has
    classified the files that it has to visit, each of them once, and no
    other file; the schedule decides the order only.  The Result is what
    the visits of these files, one after the other in the order of the
    schedule, leave in an empty Result: when two of them are recorded
    under the same path in the same mapping, the later one stays. *)
Theorem walk_classifies_each_file_once (this : Walker) (schedule : list nat)
    (listing : list Dirent) (src dest : string) (ignore : option regex)
    (origSrc prefix : option string) (r : Result) :
  Async.walk analyzeHtmlFile this schedule (Some (Resolved listing)) src dest ignore
    origSrc prefix = Some (Resolved r) →
  ∃ visited,
    visited ≡ₚ files this ignore listing src dest origSrc
    ∧ (∀ f, f ∈ visited ↔ Visits this ignore listing src dest origSrc f)
    ∧ r = fold_left (classify analyzeHtmlFile this prefix) visited Result_new.
Proof.
  intros (trace & Htrace & ->)%walk_trace. exists trace. split; [done|]. split; [|done].
  intros f. rewrite Htrace. apply files_Visits.
Qed.

(** *** The results that the visits share *)

Lemma async_visit_merge this results d src dest ignore origSrc prefix :
  Async._visitListing analyzeHtmlFile this results d src dest ignore origSrc prefix
  = (merge [results;
            (Async._visitListing analyzeHtmlFile this Result_new d src dest ignore
               origSrc prefix).1],
     (Async._visitListing analyzeHtmlFile this Result_new d src dest ignore
        origSrc prefix).2).
Proof.
  unfold Async._visitListing, Async.enter.
  destruct (opt_test ignore (dirent_name d)); [by rewrite merge_new_r|].
  destruct d as [name|name readdir|name stat]; cbn [dirent_name fst snd].
  - by rewrite _visitFile_merge.
  - destruct (opt_test (ignoreDirs this) name); cbn [fst snd]; by rewrite merge_new_r.
  - by rewrite merge_new_r.
Qed.

Lemma start_all_merge this listing :
  ∀ results src dest ignore origSrc prefix,
    Async.start_all analyzeHtmlFile this listing results src dest ignore origSrc prefix
    = (merge [results;
              (Async.start_all analyzeHtmlFile this listing Result_new src dest ignore
                 origSrc prefix).1],
       (Async.start_all analyzeHtmlFile this listing Result_new src dest ignore
          origSrc prefix).2).
Proof.
  induction listing as [|d listing IH]; intros results src dest ignore origSrc prefix;
    cbn [Async.start_all].
  - cbn [fst snd]. by rewrite merge_new_r.
  - rewrite (async_visit_merge this results).
    destruct (Async._visitListing _ _ Result_new d _ _ _ _ _) as [δ1 st1]. cbn [fst snd].
    rewrite (IH (merge [results; δ1])), (IH δ1).
    destruct (Async.start_all _ _ listing Result_new _ _ _ _ _) as [δ2 st2]. cbn [fst snd].
    by rewrite merge_two_assoc.
Qed.

Lemma resume_merge this results p :
  Async.resume analyzeHtmlFile this results p
  = match Async.resume analyzeHtmlFile this Result_new p with
    | Resolved (δ, started) => Resolved (merge [results; δ], started)
    | Rejected e => Rejected e
    end.
Proof.
  destruct p as [stat name src dest origSrc prefix|readdir src dest ignore origSrc prefix];
    cbn [Async.resume].
  - destruct stat as [[|readdir]|e]; [| |done].
    + by rewrite _visitFile_merge.
    + unfold Async.enter. destruct (opt_test (ignoreDirs this) name); by rewrite merge_new_r.
  - destruct readdir as [listing|e]; [|done].
    rewrite (start_all_merge this listing results).
    by destruct (Async.start_all _ _ listing Result_new _ _ _ _ _).
Qed.

Lemma run_merge this fuel :
  ∀ schedule results queue,
    Async.run analyzeHtmlFile this fuel schedule results queue
    = merged_into results <$> Async.run analyzeHtmlFile this fuel schedule Result_new queue.
Proof.
  induction fuel as [|fuel IH]; intros schedule results queue.
  - destruct queue; [|done]. cbn. by rewrite merge_new_r.
  - destruct queue as [|first queue]; [cbn; by rewrite merge_new_r|].
    cbn [Async.run]. rewrite resume_merge.
    destruct (Async.resume _ _ Result_new _) as [[δ started]|e]; [|done].
    rewrite (IH _ (merge [results; δ])), (IH _ δ).
    destruct (Async.run _ _ fuel _ Result_new _) as [[x|e]|]; cbn; [|done..].
    by rewrite merge_two_assoc.
Qed.

(** X5. The results object that the visits share is filled as by a
    merge.  On the event loop, under any schedule, the visits that go on
    from the results collected so far leave the merge of these results
    with what they leave when they go on from an empty Result.  And for a
    root given in normal form, over a tree in which the entries of a
    directory have distinct, valid names, the walk of a listing made of
    two parts answers the merge of what the walks of the two parts
    answer, whatever the schedules of the three walks. *)
Theorem walk_is_merge_of_parts (this : Walker) (l1 l2 : list Dirent)
    (src dest : string) (ignore : option regex) (schedule schedule1 schedule2 : list nat) :
  (∀ fuel results queue,
     Async.run analyzeHtmlFile this fuel schedule results queue
     = match Async.run analyzeHtmlFile this fuel schedule Result_new queue with
       | Some (Resolved δ) => Some (Resolved (merge [results; δ]))
       | Some (Rejected e) => Some (Rejected e)
       | None => None
       end) ∧
  (normal_path src →
   WellFormed (l1 ++ l2) →
   ∀ r,
     Async.walk analyzeHtmlFile this schedule (Some (Resolved (l1 ++ l2))) src dest ignore
       None None = Some (Resolved r) →
     ∃ r1 r2,
       Async.walk analyzeHtmlFile this schedule1 (Some (Resolved l1)) src dest ignore
         None None = Some (Resolved r1)
       ∧ Async.walk analyzeHtmlFile this schedule2 (Some (Resolved l2)) src dest ignore
           None None = Some (Resolved r2)
       ∧ r = merge [r1; r2]).
Proof.
  split.
  - intros fuel results queue. rewrite run_merge.
    by destruct (Async.run _ _ fuel _ Result_new _) as [[x|e]|].
  - intros Hsrc Hwf r Hr. pose proof Hwf as [Hwf1 Hwf2]%WellFormed_app_inv.
    apply walk_agrees in Hr; [|done..]. unfold walk, _walkDir in Hr.
    rewrite visit_all_app in Hr.
    destruct (visit_all _ _ l1 _ _ _ _ _ _) as [r1|e] eqn:H1; [|done].
    rewrite visit_all_merge in Hr.
    destruct (visit_all _ _ l2 Result_new _ _ _ _ _) as [r2|e] eqn:H2; [|done].
    injection Hr as <-. exists r1, r2. split; [|split; [|done]]; by apply walk_agrees.
Qed.

End Settled.

Lemma walk_does_not_depend_on_the_schedule_witness :
  ∃ r,
    walk no_scripts appicon_walker (Some (Resolved example_tree))
      "/app/Resources" "/build" None None None = Resolved r
    ∧ Async.walk no_scripts appicon_walker [3; 1; 4] (Some (Resolved example_tree))
        "/app/Resources" "/build" None None None = Some (Resolved r).
Proof.
  eexists. split; [vm_compute; reflexivity|].
  apply (proj1 (walk_does_not_depend_on_the_schedule no_scripts appicon_walker example_tree
                  "/app/Resources" "/build" None [3; 1; 4] normal_path_Resources
                  WellFormed_example_tree)).
  vm_compute. reflexivity.
Defined.

Lemma walk_classifies_each_file_once_witness :
  ∃ visited,
    visited ≡ₚ [("x.js", "./a", "/build", None);
                (".js", "a/x./a", "/build/x./a", Some "./a")]%string
    ∧ Async.walk no_scripts appicon_walker [] 
        (Some (Resolved
                 [Dirent_dir "x." (Resolved [Dirent_dir "a" (Resolved [Dirent_file ".js"])]);
                  Dirent_file "x.js"]))
        "./a" "/build" None None None
      = Some (Resolved (fold_left (classify no_scripts appicon_walker None) visited
                          Result_new)).
Proof.
  assert (∃ r,
            Async.walk no_scripts appicon_walker []
              (Some (Resolved
                       [Dirent_dir "x."
                          (Resolved [Dirent_dir "a" (Resolved [Dirent_file ".js"])]);
                        Dirent_file "x.js"]))
              "./a" "/build" None None None = Some (Resolved r)) as [r Hr].
  { eexists. vm_compute. reflexivity. }
  destruct (walk_classifies_each_file_once no_scripts appicon_walker [] _ _ _ _ _ _ r Hr)
    as (visited & Hperm & _ & Heq).
  exists visited. split; [|by rewrite <- Heq].
  rewrite Hperm. vm_compute. apply Permutation_swap.
Defined.

Lemma walk_is_merge_of_parts_witness :
  ∃ r r1 r2,
    Async.walk no_scripts appicon_walker [3; 1; 4] (Some (Resolved example_tree))
      "/app/Resources" "/build" None None None = Some (Resolved r)
    ∧ Async.walk no_scripts appicon_walker [2] (Some (Resolved (take 4 example_tree)))
        "/app/Resources" "/build" None None None = Some (Resolved r1)
    ∧ Async.walk no_scripts appicon_walker [1; 0] (Some (Resolved (drop 4 example_tree)))
        "/app/Resources" "/build" None None None = Some (Resolved r2)
    ∧ r = merge [r1; r2].
Proof.
  assert (∃ r,
            Async.walk no_scripts appicon_walker [3; 1; 4] (Some (Resolved example_tree))
              "/app/Resources" "/build" None None None = Some (Resolved r)) as [r Hr].
  { eexists. vm_compute. reflexivity. }
  destruct (proj2 (walk_is_merge_of_parts no_scripts appicon_walker (take 4 example_tree)
                     (drop 4 example_tree) "/app/Resources" "/build" None
                     [3; 1; 4] [2] [1; 0])
              normal_path_Resources WellFormed_example_tree r Hr)
    as (r1 & r2 & H1 & H2 & Heq).
  by exists r, r1, r2.
Defined.

(** ** The failure that the caller receives *)

Section Surfaces.

Variable analyzeHtmlFile : string -> string -> list string.
Variable this : Walker.

Lemma run_turn_at fuel schedule results queue i p :
  queue !! i = Some p →
  Async.run analyzeHtmlFile this (S fuel) (i :: schedule) results queue
  = match Async.resume analyzeHtmlFile this results p with
    | Rejected e => Some (Rejected e)
    | Resolved (results', started) =>
        Async.run analyzeHtmlFile this fuel schedule results' (delete i queue ++ started)
    end.
Proof.
  intros Hp. pose proof (lookup_lt_Some _ _ _ Hp) as Hi.
  destruct queue as [|first queue]; [done|].
  cbn [Async.run hd tl]. rewrite (Nat.mod_small _ _ Hi).
  by rewrite (nth_lookup_Some _ _ _ _ Hp).
Qed.

Lemma Meets_pending_own results p e0 e :
  Async.resume analyzeHtmlFile this results p = Rejected e0 →
  Meets_pending this p e → e0 = e.
Proof.
  destruct p as [stat name src dest origSrc prefix|readdir src dest ignore origSrc prefix];
    cbn [Async.resume Meets_pending].
  - destruct stat as [[|readdir]|e1]; [done..|]. intros [= ->].
    by intros [_ ?]%Meets_stat_failed.
  - destruct readdir as [listing|e1]; [done|]. by intros [= ->].
Qed.

(** Every failure of the queue is the one that rejects the walk, when the
    operations answer in a suitable order. *)
Lemma run_surfaces n :
  ∀ fuel results queue p e,
    operations_pending p ≤ n → n ≤ fuel →
    p ∈ queue →
    Meets_pending this p e →
    ∃ schedule,
      Async.run analyzeHtmlFile this fuel schedule results queue = Some (Rejected e).
Proof.
  induction n as [|n IH]; intros fuel results queue p e Hn Hfuel Hin Hm.
  - pose proof (operations_pending_pos p). lia.
  - destruct fuel as [|fuel]; [lia|].
    apply list_elem_of_lookup in Hin as [i Hp].
    destruct (Async.resume analyzeHtmlFile this results p) as [[results' started]|e0]
      eqn:Hres.
    + pose proof (Step_resume _ _ _ _ _ _ Hres) as (_ & _ & Hfails & Hb).
      apply Hfails in Hm as (p' & Hp' & Hm').
      destruct (IH fuel results' (delete i queue ++ started) p' e) as [schedule Hs];
        [|lia| |done|].
      * pose proof (sum_list_with_in _ operations_pending _ Hp'). lia.
      * apply elem_of_app. by right.
      * exists (i :: schedule). by rewrite (run_turn_at _ _ _ _ _ _ Hp), Hres.
    + exists [i]. rewrite (run_turn_at _ _ _ _ _ _ Hp), Hres.
      by rewrite (Meets_pending_own _ _ _ _ Hres Hm).
Qed.

(** X24. Of the failures that a walk meets, the one that the caller
    receives depends on the order in which the file system answers: for
    every failure of the tree (the root or a directory that the walk
    enters cannot be listed, or the status of a link that it does not
    skip cannot be read) there is an order of the answers under which the
    walk is rejected with the error of that failure. *)
Theorem every_failure_can_be_the_one_reported (readdir : outcome (list Dirent))
    (src dest : string) (ignore : option regex) (origSrc prefix : option string)
    (e : string) :
  Failure this ignore readdir e →
  ∃ schedule,
    Async.walk analyzeHtmlFile this schedule (Some readdir) src dest ignore origSrc prefix
    = Some (Rejected e).
Proof.
  intros Hf. unfold Async.walk.
  apply (run_surfaces (Async.operations_below readdir) _ _ _
           (Async.Await_readdir readdir src dest ignore origSrc prefix) e);
    [done | done | apply list_elem_of_here | done].
Qed.

End Surfaces.

Lemma every_failure_can_be_the_one_reported_witness :
  (∃ schedule,
     Async.walk no_scripts appicon_walker schedule
       (Some (Resolved
                [Dirent_dir "d" (Resolved [Dirent_link "l" (Rejected "ENOENT")]);
                 Dirent_link "m" (Rejected "ELOOP")]))
       "/app/Resources" "/build" None None None = Some (Rejected "ENOENT"))
  ∧ Async.walk no_scripts appicon_walker []
      (Some (Resolved
               [Dirent_dir "d" (Resolved [Dirent_link "l" (Rejected "ENOENT")]);
                Dirent_link "m" (Rejected "ELOOP")]))
      "/app/Resources" "/build" None None None = Some (Rejected "ELOOP").
Proof.
  split; [|by vm_compute].
  apply (every_failure_can_be_the_one_reported no_scripts appicon_walker).
  apply (Meets_below _ None _ (Dirent_dir "d" (Resolved [Dirent_link "l" (Rejected "ENOENT")]))
           "d" [Dirent_link "l" (Rejected "ENOENT")]);
    [apply list_elem_of_here | by left | done | done |].
  apply (Meets_stat _ None _ "l"); [apply list_elem_of_here | done].
Defined.

(** ** The files of the root come first *)

Section RootFilesFirst.

Variable analyzeHtmlFile : string -> string -> list string.
Variable this : Walker.

Lemma start_all_now prefix listing :
  ∀ results src dest ignore origSrc,
    (Async.start_all analyzeHtmlFile this listing results src dest ignore origSrc prefix).1
    = fold_left (classify analyzeHtmlFile this prefix)
        (files_now this ignore listing src dest origSrc) results
    ∧ (Async.start_all analyzeHtmlFile this listing results src dest ignore origSrc prefix).2
      ≫= files_pending this
      = files_later this ignore listing src dest origSrc
    ∧ Forall (fun p => prefix_of p = prefix)
        (Async.start_all analyzeHtmlFile this listing results src dest ignore origSrc
           prefix).2.
Proof.
  induction listing as [|d listing IH]; intros results src dest ignore origSrc; [done|].
  cbn [Async.start_all]. unfold files_now, files_later. rewrite !bind_cons.
  fold (files_now this ignore listing src dest origSrc).
  fold (files_later this ignore listing src dest origSrc).
  assert (∃ r1 st1,
            Async._visitListing analyzeHtmlFile this results d src dest ignore origSrc prefix
            = (r1, st1)
            ∧ r1 = fold_left (classify analyzeHtmlFile this prefix)
                     match d with
                     | Dirent_file _ => files_entry this ignore d src dest origSrc
                     | _ => []
                     end results
            ∧ st1 ≫= files_pending this
              = match d with
                | Dirent_file _ => []
                | _ => files_entry this ignore d src dest origSrc
                end
            ∧ Forall (fun p => prefix_of p = prefix) st1) as (r1 & st1 & -> & -> & Hst & Hp).
  { unfold Async._visitListing, Async.enter.
    destruct d as [name|name readdir|name stat]; cbn [dirent_name files_entry].
    - destruct (opt_test ignore name); [by eexists _, _|].
      eexists _, _. split; [done|]. split; [|done].
      destruct (opt_test (ignoreFiles this) name) eqn:Hfiles; [|done].
      unfold _visitFile. by rewrite Hfiles.
    - destruct (opt_test ignore name); [by eexists _, _|].
      destruct (opt_test (ignoreDirs this) name); [by eexists _, _|].
      eexists _, _. split; [done|]. split; [done|]. split; [|by repeat constructor].
      rewrite bind_singleton. by destruct readdir.
    - destruct (opt_test ignore name); [by eexists _, _|].
      eexists _, _. split; [done|]. split; [done|]. split; [|by repeat constructor].
      rewrite bind_singleton. cbn [files_pending]. unfold files.
      rewrite bind_singleton. by destruct stat as [[|readdir]|e]. }
  destruct (IH (fold_left (classify analyzeHtmlFile this prefix)
                  match d with
                  | Dirent_file _ => files_entry this ignore d src dest origSrc
                  | _ => []
                  end results) src dest ignore origSrc) as (Hr & Hl & Hp').
  destruct (Async.start_all _ _ listing _ _ _ _ _ _) as [r2 st2]. cbn [fst snd] in *.
  split; [by rewrite fold_left_app|]. split; [by rewrite bind_app, Hst, Hl|].
  by apply Forall_app.
Qed.

(** The record that a visit sets stays when the later visits record
    other paths. *)
Lemma fold_classify_keeps prefix l results key p info :
  field key results !! p = Some info →
  (∀ f, f ∈ l → key_of prefix f ≠ p) →
  field key (fold_left (classify analyzeHtmlFile this prefix) l results) !! p = Some info.
Proof.
  revert results. induction l as [|f l IH]; intros results Hp Hl; [done|].
  cbn [fold_left]. apply IH; [|intros f' Hf'; apply Hl; by apply list_elem_of_further].
  unfold classify. destruct (opt_test (ignoreFiles this) f.1.1.1) eqn:Hign.
  { unfold _visitFile. by rewrite Hign. }
  destruct (_visitFile_one_bucket analyzeHtmlFile this results (path_join f.1.1.2 f.1.1.1)
              (path_join f.1.2 f.1.1.1) f.1.1.1 f.1.1.2 f.2 prefix Hign)
    as (key0 & info0 & Hf & _).
  rewrite Hf. case_decide; [|done]. subst key0.
  rewrite lookup_insert_ne; [done|]. apply Hl, list_elem_of_here.
Qed.

Lemma classify_sets prefix results f key p info :
  field key (classified analyzeHtmlFile this prefix f) !! p = Some info →
  field key (classify analyzeHtmlFile this prefix results f) !! p = Some info.
Proof.
  intros Hc. rewrite classify_merge, field_merge_two. by apply lookup_union_Some_l.
Qed.

(** X25. The files of the root are classified first: under every
    schedule, a walk that answers a Result has classified the entries of
    the root that are files, in the order of the listing, before every
    file that lies behind a link or below a directory of the root.  So a
    record that the visit of one of these later files sets stays in the
    Result when no other of the later files is recorded under its path,
    whatever the files of the root are: where a file of the root and a
    file below are recorded under the same path in the same mapping, the
    Result holds the record of the file below. *)
Theorem root_files_are_classified_first (schedule : list nat) (listing : list Dirent)
    (src dest : string) (ignore : option regex) (origSrc prefix : option string)
    (r : Result) :
  Async.walk analyzeHtmlFile this schedule (Some (Resolved listing)) src dest ignore
    origSrc prefix = Some (Resolved r) →
  (∃ later,
     later ≡ₚ files_later this ignore listing src dest origSrc
     ∧ r = fold_left (classify analyzeHtmlFile this prefix)
             (files_now this ignore listing src dest origSrc ++ later) Result_new) ∧
  (∀ g key p info,
     g ∈ files_later this ignore listing src dest origSrc →
     field key (classified analyzeHtmlFile this prefix g) !! p = Some info →
     (∀ g', g' ∈ files_later this ignore listing src dest origSrc →
            g' ≠ g → key_of prefix g' ≠ p) →
     field key r !! p = Some info).
Proof.
  unfold Async.walk. cbn [Async.operations_below]. rewrite run_alone. cbn [Async.resume].
  destruct (start_all_now prefix listing Result_new src dest ignore origSrc)
    as (Hnow & Hlater & Hpre).
  destruct (Async.start_all _ _ listing Result_new _ _ _ _ _) as [r1 started].
  cbn [fst snd] in *. intros Hrun.
  apply (run_trace _ _ prefix) in Hrun as (later & Hperm & ->); [|done].
  rewrite Hlater in Hperm.
  assert (fold_left (classify analyzeHtmlFile this prefix) later r1
          = fold_left (classify analyzeHtmlFile this prefix)
              (files_now this ignore listing src dest origSrc ++ later) Result_new) as Heq
    by (by rewrite fold_left_app, Hnow).
  split; [by exists later|].
  intros g key p info Hg Hc Hother.
  rewrite <- Hperm in Hg. apply list_elem_of_split in Hg as (l1 & l2 & ->).
  rewrite fold_left_app. cbn [fold_left].
  assert (∀ l2' results,
            (∀ f, f ∈ l2' → f ∈ l1 ++ g :: l2) →
            field key results !! p = Some info →
            field key (fold_left (classify analyzeHtmlFile this prefix) l2' results) !! p
            = Some info) as Hkeep.
  { induction l2' as [|f l2' IH]; intros results Hin Hp; [done|]. cbn [fold_left].
    apply IH; [intros f' Hf'; apply Hin; by apply list_elem_of_further|].
    destruct (decide (f = g)) as [->|Hne]; [by apply classify_sets|].
    apply (fold_classify_keeps prefix [f]); [done|].
    intros f' ->%list_elem_of_singleton. apply Hother; [|done].
    rewrite <- Hperm. apply Hin, list_elem_of_here. }
  apply Hkeep; [|by apply classify_sets].
  intros f Hf. apply elem_of_app. right. by apply list_elem_of_further.
Qed.

End RootFilesFirst.

Lemma root_files_are_classified_first_witness :
  ∃ r info,
    Async.walk no_scripts appicon_walker [2; 7]
      (Some (Resolved
               [Dirent_dir "x." (Resolved [Dirent_dir "a" (Resolved [Dirent_file ".js"])]);
                Dirent_file "x.js"]))
      "./a" "/build" None None None = Some (Resolved r)
    ∧ jsFiles r !! "a/x.js" = Some info
    ∧ info_src info = "a/x./a/.js"%string.
Proof.
  assert (∃ r,
            Async.walk no_scripts appicon_walker [2; 7]
              (Some (Resolved
                       [Dirent_dir "x."
                          (Resolved [Dirent_dir "a" (Resolved [Dirent_file ".js"])]);
                        Dirent_file "x.js"]))
              "./a" "/build" None None None = Some (Resolved r)) as [r Hr].
  { eexists. vm_compute. reflexivity. }
  exists r, (file_info ".js" "a/x./a/.js" "/build/x./a/.js"). split; [done|].
  split; [|by vm_compute].
  apply (proj2 (root_files_are_classified_first no_scripts appicon_walker _ _ _ _ _ _ _ r Hr)
           (".js", "a/x./a", "/build/x./a", Some "./a")%string F_jsFiles).
  - vm_compute. apply list_elem_of_here.
  - by vm_compute.
  - intros g' Hg' Hne. vm_compute in Hg'. apply list_elem_of_singleton in Hg'. done.
Defined.
